(** * gsuneido: store, state root, repair, union merge, summarize, temp index

    A shallow embedding of the parts of the database engine that the
    specification makes claims about, with the claims stated and settled
    against it. *)

From Stdlib Require Import ZArith Bool Lia String Ascii List Sorting Permutation.
Import ListNotations.
Open Scope Z_scope.

(** ** Machine integers

    Go's [uint64] and [int] are modelled as [Z] with the wrap-around written
    out at every operation that can overflow. *)

Definition u64 (x : Z) : Z := x mod 2 ^ 64.

(** [int(x)] for a [uint64] x, on a 64-bit platform. *)
Definition to_int (x : Z) : Z := if x <? 2 ^ 63 then x else x - 2 ^ 64.

(** A byte is a [Z] in [0, 256); [to_byte] is Go's [byte(x)]. *)
Definition byte := Z.
Definition to_byte (x : Z) : byte := x mod 256.

Definition is_byte (b : byte) : Prop := 0 <= b < 256.

(** ** package stor *)

Module Stor.

(** [Stor] with its [impl storage] reduced to the one method [Alloc] uses,
    [Get(chunk) []byte]. The atomic [size] and [chunks] are plain fields: the
    model is one thread, so the compare-and-swap always succeeds. *)
Record Stor := mkStor {
  impl : Z -> list byte;
  chunksize : Z;
  threshold : Z;
  shift : Z;
  size : Z;
  chunks : list (list byte)
}.

Definition closedSize : Z := 2 ^ 64 - 1.

Definition set_size (s : Stor) (sz : Z) : Stor :=
  mkStor (impl s) (chunksize s) (threshold s) (shift s) sz (chunks s).

Definition set_chunks (s : Stor) (cs : list (list byte)) : Stor :=
  mkStor (impl s) (chunksize s) (threshold s) (shift s) (size s) cs.

(** [bits.TrailingZeros] of a power of two, searched below 64. *)
Fixpoint trailingZeros (fuel : nat) (k x : Z) : Z :=
  match fuel with
  | O => k
  | S f => if Z.odd x then k else trailingZeros f (k + 1) (x / 2)
  end.

(** [NewStor]: fails (assertion) unless chunksize is a power of two. *)
Definition NewStor (im : Z -> list byte) (csz sz : Z) : option Stor :=
  let sh := if csz =? 0 then 64 else trailingZeros 64 0 csz in
  if u64 (Z.shiftl 1 sh) =? csz
  then Some (mkStor im csz (u64 (csz * 3) / 4) sh sz [])
  else None.

Definition offsetToChunk (s : Stor) (offset : Z) : Z :=
  to_int (Z.shiftr offset (shift s)).

Definition chunkToOffset (s : Stor) (chunk : Z) : Z :=
  u64 (Z.shiftl (u64 chunk) (shift s)).

Definition len {A} (l : list A) : Z := Z.of_nat (length l).

(** [getChunk]: maps one more chunk unless another caller already did. *)
Definition getChunk (s : Stor) (chunk : Z) : Stor :=
  if chunk >=? len (chunks s)
  then set_chunks s (chunks s ++ [impl s chunk])
  else s.

(** Go slice indexing [l[i]]: out of range panics. *)
Definition index {A} (l : list A) (i : Z) : option A :=
  if i <? 0 then None else nth_error l (Z.to_nat i).

(** Go [l[lo:]]: panics when [lo > len(l)]. *)
Definition slice_from {A} (l : list A) (lo : Z) : option (list A) :=
  if (0 <=? lo) && (lo <=? len l) then Some (skipn (Z.to_nat lo) l) else None.

(** Go [l[:n]] (also [l[:n:n]]): panics when [n > len(l)]. *)
Definition slice_to {A} (l : list A) (n : Z) : option (list A) :=
  if (0 <=? n) && (n <=? len l) then Some (firstn (Z.to_nat n) l) else None.

(** [Data]: the bytes from [offset] to the end of its chunk. *)
Definition Data (s : Stor) (offset : Z) : option (list byte) :=
  match index (chunks s) (offsetToChunk s offset) with
  | Some c => slice_from c (Z.land offset (chunksize s - 1))
  | None => None
  end.

(** [Alloc]: [None] stands for a failed assertion, the fatal exit after
    Close, or an index or slice panic. The returned list is the content of
    the slice [s.Data(offset)[:n:n]]. *)
Definition Alloc (s : Stor) (n : Z) : option (Z * list byte * Stor) :=
  if negb ((0 <? n) && (n <=? to_int (chunksize s))) then None else
  let oldsize := size s in
  if oldsize =? closedSize then None else
  let newsize := u64 (oldsize + n) in
  let chunk := offsetToChunk s newsize in
  let nchunks := offsetToChunk s (u64 (oldsize + chunksize s - 1)) in
  let '(s1, offset, newsize) :=
    if chunk >=? nchunks then
      let s1 := if chunk >=? len (chunks s) then getChunk s chunk else s in
      let offset := chunkToOffset s chunk in
      (s1, offset, u64 (offset + n))
    else (s, oldsize, newsize) in
  let s2 := set_size s1 newsize in
  let i := Z.land offset (chunksize s - 1) in
  let s3 := if (i <=? threshold s) && (u64 (i + n) >? threshold s)
            then getChunk s2 (offsetToChunk s offset + 1) else s2 in
  match Data s3 offset with
  | Some d =>
      match slice_to d n with
      | Some b => Some (offset, b, s3)
      | None => None
      end
  | None => None
  end.

(** The three steps of [Alloc] after its guards: where the allocation goes,
    the store after the size is published, and the store after the
    proactive mapping. *)
Definition place (s : Stor) (n : Z) : Stor * Z * Z :=
  let chunk := offsetToChunk s (u64 (size s + n)) in
  if chunk >=? offsetToChunk s (u64 (size s + chunksize s - 1)) then
    (if chunk >=? len (chunks s) then getChunk s chunk else s,
     chunkToOffset s chunk, u64 (chunkToOffset s chunk + n))
  else (s, size s, u64 (size s + n)).

Definition published (s : Stor) (n : Z) : Stor :=
  let '(s1, offset, newsize) := place s n in
  let s2 := set_size s1 newsize in
  let i := Z.land offset (chunksize s - 1) in
  if (i <=? threshold s) && (u64 (i + n) >? threshold s)
  then getChunk s2 (offsetToChunk s offset + 1) else s2.

(** [Size]: fatal after Close. *)
Definition Size (s : Stor) : option Z :=
  if size s =? closedSize then None else Some (size s).

(** Replace the bytes of [l] from position [lo] on by [d] (Go [copy(l[lo:], d)],
    which stops at the end of [l]). *)
Definition copy_at (l : list byte) (lo : nat) (d : list byte) : list byte :=
  firstn lo l ++ firstn (length l - lo) d ++ skipn (lo + length d) l.

(** Writing through a slice obtained from [Data]/[Alloc] changes the chunk it
    aliases. *)
Definition put (s : Stor) (offset : Z) (d : list byte) : Stor :=
  let c := Z.to_nat (offsetToChunk s offset) in
  let lo := Z.to_nat (Z.land offset (chunksize s - 1)) in
  set_chunks s
    (firstn c (chunks s)
     ++ match nth_error (chunks s) c with
        | Some ch => [copy_at ch lo d]
        | None => []
        end
     ++ skipn (S c) (chunks s)).

(** Modelled from the spec: [HeapStor(chunksize)], the in-memory storage used
    by tests and by the temp index; it is outside the sources at hand. Its
    [Get] returns a zeroed chunk and it starts with one chunk and size 0. *)
Definition heapGet (csz : Z) (_ : Z) : list byte := repeat 0 (Z.to_nat csz).

Definition HeapStor (csz : Z) : option Stor :=
  match NewStor (heapGet csz) csz 0 with
  | Some s => Some (set_chunks s [heapGet csz 0])
  | None => None
  end.

(** A heap store of 64-byte chunks with 60 bytes in use. *)
Definition heap60 : Stor := mkStor (heapGet 64) 64 48 6 60 [heapGet 64 0].

(** The representation invariant stated in the comments of [Stor]:
    chunksize is a power of two matching shift, and every mapped chunk (and
    every chunk the storage can hand out) has chunksize bytes. *)
Record wf (s : Stor) : Prop := {
  wf_shift : 0 <= shift s <= 62;
  wf_chunksize : chunksize s = 2 ^ shift s;
  wf_threshold : threshold s = chunksize s * 3 / 4;
  wf_chunks : Forall (fun c => len c = chunksize s) (chunks s);
  wf_impl : forall k, len (impl s k) = chunksize s
}.

(** "chunks must be initialized up to size, with at least one chunk if size
    is 0" *)
Definition covered (s : Stor) : Prop :=
  0 <= size s /\ size s / chunksize s < len (chunks s).

End Stor.

(** ** Byte codecs

    [binary.BigEndian.PutUint64]/[Uint64] are Go's; the byte at position k of
    a little-endian encoding is [byte(v >> 8k)], that is [(v / 256^k) mod 256]. *)

Fixpoint le_bytes (n : nat) (v : Z) : list byte :=
  match n with
  | O => []
  | S k => to_byte v :: le_bytes k (v / 256)
  end.

Fixpoint le_value (l : list byte) : Z :=
  match l with
  | [] => 0
  | b :: r => b + 256 * le_value r
  end.

Definition be_bytes (n : nat) (v : Z) : list byte := rev (le_bytes n v).
Definition be_value (l : list byte) : Z := le_value (rev l).

Definition bytes_eqb (a b : list byte) : bool :=
  if list_eq_dec Z.eq_dec a b then true else false.

(** Go [l[lo:hi]] without the panic: the bytes there are. *)
Definition sub (l : list byte) (lo n : nat) : list byte := firstn n (skipn lo l).

(** Modelled from the spec: [stor.WriteSmallOffset], [stor.ReadSmallOffset] and
    [stor.SmallOffsetLen] are outside the sources at hand; the spec gives
    "SmallOffset = 5 bytes". The five bytes are the low 40 bits, low byte
    first. *)
Definition SmallOffsetLen : nat := 5.

Definition WriteSmallOffset (buf : list byte) (at_ : nat) (offset : Z) : list byte :=
  Stor.copy_at buf at_ (le_bytes SmallOffsetLen offset).

Definition ReadSmallOffset (buf : list byte) : Z :=
  le_value (firstn SmallOffsetLen buf).

(** A sequence of small offsets as stored one after the other. *)
Definition smalls (offsets : list Z) : list byte :=
  concat (map (le_bytes SmallOffsetLen) offsets).

(** ** package db19: the state root *)

Module State.

Section WithCksum.

(** [cksum.Sum] and [meta.Noffsets] are outside the sources at hand: the
    checksum function is taken as it comes (its four bytes as stored), and
    so is the number of meta offsets. *)
Variable Sum : list byte -> list byte.
Variable Noffsets : nat.

Definition cksumLen : nat := 4.

(** Modelled from the spec: [cksum.Update(buf)] stores the checksum of
    everything before the last four bytes in those four bytes, and
    [cksum.MustCheck(buf)] panics unless they hold it ("The trailing checksum
    protects everything preceding it"). *)
Definition cksumUpdate (buf : list byte) : list byte :=
  let n := (length buf - cksumLen)%nat in
  Stor.copy_at buf n (Sum (firstn n buf)).

Definition cksumCheck (buf : list byte) : bool :=
  let n := (length buf - cksumLen)%nat in
  bytes_eqb (skipn n buf) (Sum (firstn n buf)).

Definition magic1 : list byte := [0x01; 0x23; 0x45; 0x67; 0x89; 0xab; 0xcd; 0xef].
Definition magic2 : list byte := [0xfe; 0xdc; 0xba; 0x98; 0x76; 0x54; 0x32; 0x10].
Definition dateSize : nat := 8.
Definition stateLen : nat :=
  (length magic1 + dateSize + Noffsets * SmallOffsetLen + length magic2 + cksumLen)%nat.
Definition magic2at : nat := (stateLen - length magic2)%nat.

(** The loop [for _, o := range offsets] of [writeState]. *)
Fixpoint writeOffsets (buf : list byte) (i : nat) (offsets : list Z) : list byte * nat :=
  match offsets with
  | [] => (buf, i)
  | o :: rest => writeOffsets (WriteSmallOffset buf i o) (i + SmallOffsetLen) rest
  end.

(** The body of [writeState] between [Alloc] and the final assertion: the
    writes into the buffer, and the index [i] they end at. [now] is
    [time.Now().Unix()]. *)
Definition fill (buf : list byte) (offsets : list Z) (now : Z) : list byte * nat :=
  let buf := Stor.copy_at buf 0 magic1 in
  let i := length magic1 in
  let t := now in
  let buf := Stor.copy_at buf i (be_bytes 8 (u64 t)) in
  let i := (i + dateSize)%nat in
  let '(buf, i) := writeOffsets buf i offsets in
  let i := (i + cksumLen)%nat in
  let buf := cksumUpdate (firstn i buf) ++ skipn i buf in
  let buf := Stor.copy_at buf i magic2 in
  let i := (i + length magic2)%nat in
  (buf, i).

(** [writeState]: the buffer is the slice [Alloc] returned, so the writes to
    it land in the store ([Stor.put]). [None] is a panic (of [Alloc], or the
    final assertion). *)
Definition writeState (store : Stor.Stor) (offsets : list Z) (now : Z)
  : option (Z * Stor.Stor) :=
  match Stor.Alloc store (Z.of_nat stateLen) with
  | None => None
  | Some (stateOff, buf, store) =>
      let '(buf, i) := fill buf offsets now in
      if Nat.eqb i stateLen then Some (stateOff, Stor.put store stateOff buf)
      else None
  end.

(** The loop [for j := range offsets] of [readState]. *)
Fixpoint readOffsets (buf : list byte) (i : nat) (n : nat) : list Z :=
  match n with
  | O => []
  | S k => ReadSmallOffset (skipn i buf) :: readOffsets buf (i + SmallOffsetLen) k
  end.

(** [readState]: the time is returned as its unix seconds. [None] is a panic:
    a slice out of range, a failed assertion, or [cksum.MustCheck]. *)
Definition readState (st : Stor.Stor) (off : Z) : option (list Z * Z) :=
  match Stor.Data st off with
  | None => None
  | Some d =>
      match Stor.slice_to d (Z.of_nat stateLen) with
      | None => None
      | Some buf =>
          let i := length magic1 in
          if negb (bytes_eqb (firstn i buf) magic1) then None else
          if negb (cksumCheck (firstn magic2at buf)) then None else
          if negb (bytes_eqb (sub buf magic2at (length magic2)) magic2) then None else
          let t := to_int (be_value (sub buf i 8)) in
          let i := (i + dateSize)%nat in
          Some (readOffsets buf i Noffsets, t)
      end
  end.

(** The record of the spec:
    magic1(8) || unix-time(8 BE) || meta-offsets(Noffsets x 5) || cksum(4) || magic2(8). *)
Definition protected (offsets : list Z) (now : Z) : list byte :=
  magic1 ++ be_bytes 8 (u64 now) ++ concat (map (le_bytes SmallOffsetLen) offsets).

Definition layout (offsets : list Z) (now : Z) : list byte :=
  protected offsets now ++ Sum (protected offsets now) ++ magic2.

End WithCksum.

(** A checksum to run the model with: the byte sum, as four bytes. *)
Definition sampleSum (d : list byte) : list byte :=
  le_bytes cksumLen (fold_right Z.add 0 d).

End State.

(** ** package query: TempIndex over several records *)

Module TempIndex.

(** [DbRec]: a record and the offset it was read from; offset 0 marks a
    derived record that exists only in memory. *)
Record DbRec := mkDbRec { rec : list byte; Off : Z }.

Definition Row := list DbRec.

Definition heapChunkSize : Z := 16 * 1024.
Definition derivedMaxSize : Z := 8 * 1024.
Definition multiMask : Z := 0xffff000000.

(** What storing one row can end in. *)
Inductive stored :=
| Stored (off : Z) (heap : Stor.Stor)
| TooLarge (n : Z)      (* "temp index: derived too large" *)
| Panicked.             (* a failed assertion, or a panic of Alloc *)

Section WithTran.

(** [ti.tran.GetRecord] *)
Variable GetRecord : Z -> list byte.

(** The first loop of the body: 5 bytes per record plus the bytes of the
    derived records. *)
Fixpoint encodedSize (n : Z) (row : Row) : Z :=
  match row with
  | [] => n
  | dbrec :: rest =>
      encodedSize (if Off dbrec =? 0 then n + Stor.len (rec dbrec) else n) rest
  end.

(** The second loop: [buf] is advanced by re-slicing in the source, by the
    index [i] here. *)
Fixpoint encodeRow (buf : list byte) (i : nat) (row : Row) : list byte :=
  match row with
  | [] => buf
  | dbrec :: rest =>
      if Off dbrec >? 0 then
        let buf := WriteSmallOffset buf i (Off dbrec) in
        encodeRow buf (i + SmallOffsetLen) rest
      else
        let size := length (rec dbrec) in
        let buf := WriteSmallOffset buf i (Z.lor multiMask (Z.of_nat size)) in
        let buf := Stor.copy_at buf (i + SmallOffsetLen) (rec dbrec) in
        encodeRow buf (i + SmallOffsetLen + size) rest
  end.

(** The body of the loop of [multi] for one source row: the offset handed to
    the sortlist and the heap afterwards. *)
Definition storeRow (nrecs : nat) (heap : Stor.Stor) (row : Row) : stored :=
  if negb (Nat.eqb (length row) nrecs) then Panicked else
  let n := encodedSize (Z.of_nat nrecs * Z.of_nat SmallOffsetLen) row in
  if n >? derivedMaxSize then TooLarge n else
  match Stor.Alloc heap n with
  | None => Panicked
  | Some (off, buf, heap) => Stored off (Stor.put heap off (encodeRow buf 0 row))
  end.

(** [multiIter.getRec] *)
Definition getRec (buf : list byte) : option (list byte * list byte * Z) :=
  if Stor.len buf <? Z.of_nat SmallOffsetLen then None else
  let off := ReadSmallOffset buf in
  match Stor.slice_from buf (Z.of_nat SmallOffsetLen) with
  | None => None
  | Some buf =>
      if off <? multiMask then Some (buf, GetRecord off, off)
      else
        let size := Z.ldiff off multiMask in
        match Stor.slice_to buf size, Stor.slice_from buf size with
        | Some r, Some buf => Some (buf, r, 0)
        | _, _ => None
        end
  end.

(** The loop of [multiIter.get]. *)
Fixpoint getRecs (nrecs : nat) (buf : list byte) : option Row :=
  match nrecs with
  | O => Some []
  | S k =>
      match getRec buf with
      | None => None
      | Some (buf, r, off) =>
          match getRecs k buf with
          | None => None
          | Some row => Some (mkDbRec r off :: row)
          end
      end
  end.

(** [multiIter.get] *)
Definition get (nrecs : nat) (heap : Stor.Stor) (off : Z) : option Row :=
  match Stor.Data heap off with
  | None => None
  | Some buf => getRecs nrecs buf
  end.

(** The bytes a record is stored as. *)
Definition encodeRec (dbrec : DbRec) : list byte :=
  if Off dbrec >? 0 then le_bytes SmallOffsetLen (Off dbrec)
  else le_bytes SmallOffsetLen (Z.lor multiMask (Stor.len (rec dbrec))) ++ rec dbrec.

(** The bytes a row is stored as. *)
Definition encoding (row : Row) : list byte := concat (map encodeRec row).

(** A record of a row as the temp index can hold it: derived, or a database
    record below the sentinel that the transaction gives back. *)
Definition storable (dbrec : DbRec) : Prop :=
  Off dbrec = 0 \/
  (0 < Off dbrec < multiMask /\ rec dbrec = GetRecord (Off dbrec)).

End WithTran.

(** A heap as [multi] makes it: [HeapStor(heapChunkSize)], one byte
    allocated "to avoid offset 0". *)
Definition multiHeap : Stor.Stor :=
  Stor.mkStor (Stor.heapGet heapChunkSize) heapChunkSize (heapChunkSize * 3 / 4)
    14 1 [Stor.heapGet heapChunkSize 0].

(** A transaction holding one record at offset 4096. *)
Definition sampleTran (off : Z) : list byte :=
  if off =? 4096 then [7; 7; 7] else [].

End TempIndex.

(** ** package query: Summarize *)

(** Go's [<] on strings: bytewise lexicographic. *)
Definition strLess (a b : string) : bool :=
  match String.compare a b with
  | Lt => true
  | _ => false
  end.

(** [sort.Stable] of the Go library, by its contract: ascending by [less],
    equal elements in their original order. Insertion from the right gives
    that list. *)
Section StableSort.
Context {A : Type} (less : A -> A -> bool).

Fixpoint insertStable (x : A) (l : list A) : list A :=
  match l with
  | [] => [x]
  | y :: l' => if less y x then y :: insertStable x l' else x :: y :: l'
  end.

Fixpoint sortStable (l : list A) : list A :=
  match l with
  | [] => []
  | x :: l' => insertStable x (sortStable l')
  end.

(** Ascending: no element is less than the one before it. *)
Definition ascending (x y : A) : Prop := less y x = false.

End StableSort.

Module Summarize.

Inductive Mode := ReadMode | CursorMode | UpdateMode.

Inductive sumStrategy := sumSeq | sumMap | sumIdx | sumTbl.

Record summarizeApproach := mkApproach {
  strategy : sumStrategy;
  index : option (list string);
  frac : Z            (* only the literal fractions 0 and 1 occur below *)
}.

(** What the constructor and the planner read of the source query. *)
Record Source := mkSource {
  Columns : list string;
  Keys : list (list string);
  srcNrows : Z
}.

(** [Summarize]: [cols], [ops] and [ons] are parallel. *)
Record Summarize := mkSummarize {
  source : Source;
  by_ : list string;
  cols : list string;
  ops : list string;
  ons : list string;
  wholeRow : bool
}.

Definition inb (x : string) (l : list string) : bool :=
  existsb (String.eqb x) l.

(** [set.Subset(x, y)]: every element of y is in x. *)
Definition Subset (x y : list string) : bool := forallb (fun e => inb e x) y.

(** [set.Equal]: the same elements, as sets. *)
Definition setEqual (x y : list string) : bool :=
  Nat.eqb (length x) (length y) && Subset x y && Subset y x.

Definition hasSuffix (s suffix : string) : bool :=
  let n := String.length s in
  let k := String.length suffix in
  Nat.leb k n && String.eqb (substring (n - k) k s) suffix.

(** [check]: true when it does not panic. *)
Definition check (cs : list string) : bool :=
  forallb (fun c => negb (hasSuffix c "_lower!")) cs.

(** The naming loop of [NewSummarize]; [None] is an index out of range. *)
Fixpoint nameCols (cs os ns : list string) : option (list string) :=
  match cs with
  | [] => Some []
  | c :: cs' =>
      match os, ns with
      | o :: os', n :: ns' =>
          match nameCols cs' os' ns' with
          | Some r =>
              Some ((if String.eqb c "" then
                       if String.eqb n "" then "count"%string
                       else (o ++ "_" ++ n)%string
                     else c) :: r)
          | None => None
          end
      | _, _ => None
      end
  end.

(** One aggregate: result column, operation, column it is on. *)
Definition agg : Type := string * string * string.
Definition aggCol (a : agg) : string := fst (fst a).
Definition aggOp (a : agg) : string := snd (fst a).
Definition aggOn (a : agg) : string := snd a.

Fixpoint zip3 (cs os ns : list string) : list agg :=
  match cs, os, ns with
  | c :: cs', o :: os', n :: ns' => (c, o, n) :: zip3 cs' os' ns'
  | _, _, _ => []
  end.

(** The result name of an aggregate: its own, or for an aggregate without
    one, "count" for count and op_on otherwise. *)
Definition resultName (a : agg) : string :=
  if String.eqb (aggCol a) "" then
    if String.eqb (aggOp a) "count" then "count"%string
    else (aggOp a ++ "_" ++ aggOn a)%string
  else aggCol a.

(** [Less(i, j)]: [su.ons[i] < su.ons[j]]. *)
Definition Less (a b : agg) : bool := strLess (aggOn a) (aggOn b).

Definition minmax1 (by_ ops : list string) : bool :=
  match by_, ops with
  | [], [op] => String.eqb op "min" || String.eqb op "max"
  | _, _ => false
  end.

(** [NewSummarize]: [None] is a panic. [sort.Stable(su)] swaps the three
    slices together, so it sorts the aggregates as triples. The three lists
    are parallel (the comment on the struct); the model gives [None] when
    they are not. *)
Definition NewSummarize (src : Source) (by_ cols ops ons : list string)
  : option Summarize :=
  if negb (Subset (Columns src) by_) then None else
  if negb (check by_) then None else
  if negb (check ons) then None else
  match nameCols cols ops ons with
  | None => None
  | Some cols =>
      if negb (Nat.eqb (length cols) (length ops)
               && Nat.eqb (length cols) (length ons)) then None else
      let sorted := sortStable Less (zip3 cols ops ons) in
      let cols := map aggCol sorted in
      let ops := map aggOp sorted in
      let ons := map aggOn sorted in
      Some (mkSummarize src by_ cols ops ons
              (minmax1 by_ ops && existsb (fun k => setEqual k ons) (Keys src)))
  end.

(** The aggregates as the query text gives them (the parser's [sumOps]):
    [count] has no column, every other operation has one. *)
Definition parsed (ops ons : list string) : Prop :=
  Forall2 (fun op on => op = "count"%string <-> on = ""%string) ops ons.

Section Execution.

(** The values of the host language and the rows of the source are outside
    the sources at hand; the operations below take them as they come.
    [OpAdd] and [OpDiv] return [None] where the Go functions panic. *)
Context {Value : Type} {Row : Type}.
Variable Zero : Value.
Variable IntVal : Z -> Value.
Variable OpAdd : Value -> Value -> option Value.
Variable OpDiv : Value -> Value -> option Value.
Variable Unpack : string -> Value.
Variable NewSuObject : list Value -> Value.
Variable GetVal : Row -> string -> Value.
Variable GetRawVal : Row -> string -> string.
Variable mapLimit : Z.
Variable impossible : Z.

Definition sumListLimit : Z := 16384.

(** The six implementations of [sumOp], each with its state. *)
Inductive sumOp :=
| sumCount (count : Z)
| sumTotal (total : Value)
| sumAverage (count : Z) (total : Value)
| sumMin (cur : option (string * Row))
| sumMax (cur : option (string * Row))
| sumList (raws : list string).

Definition newSumOp (op : string) : option sumOp :=
  if String.eqb op "count" then Some (sumCount 0)
  else if String.eqb op "total" then Some (sumTotal Zero)
  else if String.eqb op "average" then Some (sumAverage 0 Zero)
  else if String.eqb op "min" then Some (sumMin None)
  else if String.eqb op "max" then Some (sumMax None)
  else if String.eqb op "list" then Some (sumList [])
  else None.

(** [add]: [None] is a panic that leaves the method (only [sumList] has
    one); [sumTotal] and [sumAverage] recover from a panic of [OpAdd] and
    keep the state they had when it was raised. *)
Definition add (sum : sumOp) (raw : string) (val : Value) (row : Row)
  : option sumOp :=
  match sum with
  | sumCount count => Some (sumCount (count + 1))
  | sumTotal total =>
      match OpAdd total val with
      | Some t => Some (sumTotal t)
      | None => Some (sumTotal total)
      end
  | sumAverage count total =>
      let count := count + 1 in
      match OpAdd total val with
      | Some t => Some (sumAverage count t)
      | None => Some (sumAverage count total)
      end
  | sumMin cur =>
      match cur with
      | Some (r, _) => if strLess raw r then Some (sumMin (Some (raw, row)))
                       else Some sum
      | None => Some (sumMin (Some (raw, row)))
      end
  | sumMax cur =>
      match cur with
      | Some (r, _) => if strLess r raw then Some (sumMax (Some (raw, row)))
                       else Some sum
      | None => Some (sumMax (Some (raw, row)))
      end
  | sumList raws =>
      let raws := if inb raw raws then raws else raws ++ [raw] in
      if Stor.len raws >? sumListLimit then None else Some (sumList raws)
  end.

(** [result]: [None] is a panic ([OpDiv] is not guarded). *)
Definition result (sum : sumOp) : option (Value * option Row) :=
  match sum with
  | sumCount count => Some (IntVal count, None)
  | sumTotal total => Some (total, None)
  | sumAverage count total =>
      match OpDiv total (IntVal count) with
      | Some v => Some (v, None)
      | None => None
      end
  | sumMin cur | sumMax cur =>
      match cur with
      | Some (raw, row) => Some (Unpack raw, Some row)
      | None => Some (Unpack "", None)
      end
  | sumList raws => Some (NewSuObject (map Unpack raws), None)
  end.

(** [newSums] *)
Fixpoint newSums (ops : list string) : option (list sumOp) :=
  match ops with
  | [] => Some []
  | op :: rest =>
      match newSumOp op, newSums rest with
      | Some s, Some r => Some (s :: r)
      | _, _ => None
      end
  end.

(** [addToSums]: the source caches the raw or unpacked value over a run of
    equal [ons]; the value handed to [add] is the same either way. *)
Fixpoint addToSums (ops ons : list string) (sums : list sumOp) (row : Row)
  : option (list sumOp) :=
  match ops, ons, sums with
  | op :: ops', col :: ons', sum :: sums' =>
      let r :=
        if String.eqb op "count" then add sum "" Zero row
        else if String.eqb op "list" || String.eqb op "min" || String.eqb op "max"
             then add sum (GetRawVal row col) Zero row
             else add sum "" (GetVal row col) row in
      match r, addToSums ops' ons' sums' row with
      | Some s, Some rest => Some (s :: rest)
      | _, _ => None
      end
  | _, _, _ => Some []
  end.

(** Feeding the values of a sequence of rows to one aggregate. *)
Fixpoint addAll (sum : sumOp) (vals : list Value) (row : Row) : option sumOp :=
  match vals with
  | [] => Some sum
  | v :: rest =>
      match add sum "" v row with
      | Some s => addAll s rest row
      | None => None
      end
  end.

(** One aggregate over the values of a group: [newSumOp], [add] for every
    row, [result]. *)
Definition aggregate (op : string) (vals : list Value) (row : Row)
  : option Value :=
  match newSumOp op with
  | None => None
  | Some sum =>
      match addAll sum vals row with
      | None => None
      | Some sum =>
          match result sum with
          | Some (v, _) => Some v
          | None => None
          end
      end
  end.

(** [mapCost]: [srcCost] is what [Optimize(su.source, mode, nil, 1)] gives. *)
Definition mapCost (su : Summarize) (nrows : Z) (srcCost : Mode -> Z * Z)
  (mode : Mode) (index : option (list string))
  : Z * Z * option summarizeApproach :=
  let ix := match index with Some _ => true | None => false end in
  if ix || (nrows >? mapLimit - mapLimit / 3) then (impossible, impossible, None)
  else
    let '(fixcost, varcost) := srcCost mode in
    let fixcost := fixcost + nrows * 20 in
    (fixcost + varcost, 0, Some (mkApproach sumMap None 1)).

(** Modelled from the spec: [min3] is outside the sources at hand; "min3
    picks minimum across alternative strategies", here by total cost, the
    earlier alternative on a tie. *)
Definition min3 (a b c : Z * Z * option summarizeApproach)
  : Z * Z * option summarizeApproach :=
  let cost x := fst (fst x) + snd (fst x) in
  if (cost a <=? cost b) && (cost a <=? cost c) then a
  else if cost b <=? cost c then b else c.

(** [optimize] after the [sumTbl] shortcut; [seqCost] and [idxCost] are
    handed in as computed. *)
Definition optimize (su : Summarize) (nrows : Z) (srcCost : Mode -> Z * Z)
  (seqCost idxCost : Z * Z * option summarizeApproach)
  (mode : Mode) (index : option (list string))
  : Z * Z * option summarizeApproach :=
  min3 seqCost idxCost (mapCost su nrows srcCost mode index).

(** The group a row belongs to: its raw values on the [by] columns.
    [hashCols] is a function of those values. *)
Variable hashCols : list string -> Z.

Definition byVals (by_ : list string) (row : Row) : list string :=
  map (GetRawVal row) by_.

Definition strsEqb (a b : list string) : bool :=
  if list_eq_dec string_dec a b then true else false.

(** [eqfn] of [buildMap] *)
Definition eqfn (by_ : list string) (x y : Z * Row) : bool :=
  (fst x =? fst y) && strsEqb (byVals by_ (snd x)) (byVals by_ (snd y)).

(** The hash map as the list of its entries. *)
Definition hmap : Type := list ((Z * Row) * list sumOp).

Fixpoint hmapGet (by_ : list string) (m : hmap) (k : Z * Row)
  : option (list sumOp) :=
  match m with
  | [] => None
  | (k', v) :: rest => if eqfn by_ k' k then Some v else hmapGet by_ rest k
  end.

Fixpoint hmapPut (by_ : list string) (m : hmap) (k : Z * Row) (v : list sumOp)
  : hmap :=
  match m with
  | [] => [(k, v)]
  | (k', v') :: rest =>
      if eqfn by_ k' k then (k', v) :: rest else (k', v') :: hmapPut by_ rest k v
  end.

(** The first loop of [buildMap] over the rows the source yields; the sums
    are slices, so [addToSums] updates the entry in place. [None] is a
    panic: "summarize-map too large", or one out of an aggregate. *)
Fixpoint buildLoop (su : Summarize) (m : hmap) (rows : list Row) : option hmap :=
  match rows with
  | [] => Some m
  | row :: rest =>
      let rh := (hashCols (byVals (by_ su) row), row) in
      let got := hmapGet (by_ su) m rh in
      let fresh := match got with Some _ => false | None => true end in
      match (match got with Some sums => Some sums | None => newSums (ops su) end) with
      | None => None
      | Some sums =>
          let m := if fresh then hmapPut (by_ su) m rh sums else m in
          if fresh && (Stor.len m >? mapLimit) then None else
          match addToSums (ops su) (ons su) sums row with
          | None => None
          | Some sums => buildLoop su (hmapPut (by_ su) m rh sums) rest
          end
      end
  end.

(** [buildMap]: one pair per group. *)
Definition buildMap (su : Summarize) (rows : list Row)
  : option (list (Row * list sumOp)) :=
  match buildLoop su [] rows with
  | None => None
  | Some m => Some (map (fun e => (snd (fst e), snd e)) m)
  end.

End Execution.

(** Values to run the model with: integers, decimals kept as a fraction, and
    strings. Adding is defined on integers and fails on a string; dividing
    integers gives an integer when exact. *)
Inductive SuValue := SuInt (n : Z) | SuDnum (num den : Z) | SuStr (s : string).

Definition sampleAdd (x y : SuValue) : option SuValue :=
  match x, y with
  | SuInt a, SuInt b => Some (SuInt (a + b))
  | _, _ => None
  end.

Definition sampleDiv (x y : SuValue) : option SuValue :=
  match x, y with
  | SuInt a, SuInt b =>
      if b =? 0 then None
      else if a mod b =? 0 then Some (SuInt (a / b)) else Some (SuDnum a b)
  | _, _ => None
  end.

End Summarize.

(** ** package query: Union, the merge strategy *)

Module Union.

Inductive Dir := Next | Prev.

Definition dirEqb (a b : Dir) : bool :=
  match a, b with
  | Next, Next | Prev, Prev => true
  | _, _ => false
  end.

(** A row is represented by its value on the merge columns, here an
    integer: [Union.compare] orders rows by those columns, both sources
    deliver their rows in that order, and rows equal on them are the same
    row. *)
Definition Row := Z.

(** Modelled from the spec: the sources are query nodes outside the sources
    at hand; "Iterators are bidirectional and rewindable". A source is a
    cursor over its rows in order: rewound, at a row, or past an end. At an
    end a call in the same direction stays there. What a call in the other
    direction does there is left open by [sticky]: it stays too, or it
    turns around and delivers the row at that end. *)
Inductive pos := Rewound | At (i : nat) | Eof (d : Dir).

Definition enter (items : list Row) (d : Dir) (i : nat) : pos * option Row :=
  match nth_error items i with
  | Some r => (At i, Some r)
  | None => (Eof d, None)
  end.

Definition fromEnd (items : list Row) (d : Dir) : pos * option Row :=
  match d with
  | Next => enter items d 0
  | Prev => match length items with
            | O => (Eof d, None)
            | S n => enter items d n
            end
  end.

Definition cursorGet (sticky : bool) (d : Dir) (items : list Row) (p : pos)
  : pos * option Row :=
  match p with
  | Rewound => fromEnd items d
  | At i =>
      match d with
      | Next => enter items d (S i)
      | Prev => match i with
                | O => (Eof d, None)
                | S j => enter items d j
                end
      end
  | Eof d' => if sticky || dirEqb d d' then (Eof d', None) else fromEnd items d
  end.

Record Source := mkSource {
  sticky : bool;
  items : list Row;
  at_ : pos
}.

Definition Get (s : Source) (d : Dir) : Source * option Row :=
  let '(p, r) := cursorGet (sticky s) d (items s) (at_ s) in
  (mkSource (sticky s) (items s) p, r).

Definition Rewind (s : Source) : Source := mkSource (sticky s) (items s) Rewound.

(** The fields of [Union] that [getMerge] uses. [prevDir] starts as the zero
    [Dir], which is neither Next nor Prev. *)
Record Union := mkUnion {
  source1 : Source;
  source2 : Source;
  rewound : bool;
  src1 : bool;
  src2 : bool;
  row1 : option Row;
  row2 : option Row;
  prevDir : option Dir
}.

Definition isPrevDir (u : Union) (dir : Dir) : bool :=
  match prevDir u with
  | Some d => dirEqb dir d
  | None => false
  end.

Definition isNil (r : option Row) : bool :=
  match r with
  | Some _ => false
  | None => true
  end.

(** The closures [get1] and [get2] of [getMerge]. *)
Definition get1 (dir : Dir) (u : Union) : Union :=
  let s := if negb (isPrevDir u dir) && isNil (row1 u)
           then Rewind (source1 u) else source1 u in
  let '(s, r) := Get s dir in
  mkUnion s (source2 u) (rewound u) (src1 u) (src2 u) r (row2 u) (prevDir u).

Definition get2 (dir : Dir) (u : Union) : Union :=
  let s := if negb (isPrevDir u dir) && isNil (row2 u)
           then Rewind (source2 u) else source2 u in
  let '(s, r) := Get s dir in
  mkUnion (source1 u) s (rewound u) (src1 u) (src2 u) (row1 u) r (prevDir u).

(** "refill row1 and row2" *)
Definition refill (dir : Dir) (u : Union) : Union :=
  if rewound u || (src1 u && src2 u) then get2 dir (get1 dir u)
  else if src1 u then
    let u' := get1 dir u in
    if negb (isPrevDir u dir) then get2 dir u' else u'
  else if src2 u then
    let u' := get2 dir u in
    if negb (isPrevDir u dir) then get1 dir u' else u'
  else u.

(** [strings.Compare] on the merge columns. *)
Definition compare (r1 r2 : Row) : Z :=
  match r1 ?= r2 with
  | Lt => -1
  | Eq => 0
  | Gt => 1
  end.

Definition setSrc (u : Union) (dir : Dir) (s1 s2 : bool) : Union :=
  mkUnion (source1 u) (source2 u) (rewound u) s1 s2 (row1 u) (row2 u) (Some dir).

(** The second half of [getMerge], after the refill: which row to report.
    The row returned is [JoinRows(row1, empty2)] or [JoinRows(empty1, row2)]:
    the source's row with empty records for the other source, the same row
    on the merge columns. *)
Definition choose (u : Union) (dir : Dir) : Union * option Row :=
  match row1 u, row2 u with
  | None, None => (setSrc u dir true true, None)
  | Some r1, None => (setSrc u dir true false, Some r1)
  | None, Some r2 => (setSrc u dir false true, Some r2)
  | Some r1, Some r2 =>
      let cmp := compare r1 r2 in
      if cmp =? 0 then (setSrc u dir true true, Some r1)
      else
        let cmp := match dir with Prev => cmp * -1 | Next => cmp end in
        if cmp <? 0 then (setSrc u dir true false, Some r1)
        else (setSrc u dir false true, Some r2)
  end.

(** [getMerge] *)
Definition getMerge (u : Union) (dir : Dir) : Union * option Row :=
  choose (refill dir u) dir.

(** [Union.Get] with the merge strategy: [rewound] is cleared on the way
    out. *)
Definition UnionGet (u : Union) (dir : Dir) : Union * option Row :=
  let '(u, r) := getMerge u dir in
  (mkUnion (source1 u) (source2 u) false (src1 u) (src2 u) (row1 u) (row2 u)
     (prevDir u), r).

(** [Union.Rewind] *)
Definition UnionRewind (u : Union) : Union :=
  mkUnion (Rewind (source1 u)) (Rewind (source2 u)) true (src1 u) (src2 u)
    (row1 u) (row2 u) (prevDir u).

(** The union as [setApproach] leaves it, over two fresh sources. *)
Definition newUnion (st1 st2 : bool) (rows1 rows2 : list Row) : Union :=
  mkUnion (mkSource st1 rows1 Rewound) (mkSource st2 rows2 Rewound) true
    false false None None None.

(** What a caller does to an iterator. *)
Inductive call := CallGet (d : Dir) | CallRewind.

(** The rows a sequence of calls reports, one entry per Get. *)
Fixpoint run (u : Union) (calls : list call) : list (option Row) :=
  match calls with
  | [] => []
  | CallGet d :: rest => let '(u, r) := UnionGet u d in r :: run u rest
  | CallRewind :: rest => run (UnionRewind u) rest
  end.

(** The state a sequence of calls leaves. *)
Fixpoint exec (u : Union) (calls : list call) : Union :=
  match calls with
  | [] => u
  | CallGet d :: rest => exec (fst (UnionGet u d)) rest
  | CallRewind :: rest => exec (UnionRewind u) rest
  end.

Definition opposite (d : Dir) : Dir :=
  match d with
  | Next => Prev
  | Prev => Next
  end.

(** The duplicate-free ordered union of two ordered lists. *)
Fixpoint merge (l1 : list Row) : list Row -> list Row :=
  fix aux (l2 : list Row) : list Row :=
    match l1, l2 with
    | [], _ => l2
    | _, [] => l1
    | a :: l1', b :: l2' =>
        if a <? b then a :: merge l1' l2
        else if b <? a then b :: aux l2'
        else a :: merge l1' l2'
    end.

(** The logical cursor over a list: the same cursor, turning around at the
    ends. *)
Fixpoint cursorRun (rows : list Row) (p : pos) (calls : list call)
  : list (option Row) :=
  match calls with
  | [] => []
  | CallGet d :: rest =>
      let '(p, r) := cursorGet false d rows p in r :: cursorRun rows p rest
  | CallRewind :: rest => cursorRun rows Rewound rest
  end.

(** *** Positions in the order of the rows *)

Inductive bound := NegInf | Fin (k : Row) | PosInf.

(** [beyond d b x]: the row [x] lies strictly past [b] going in direction [d]. *)
Definition beyond (d : Dir) (b : bound) (x : Row) : Prop :=
  match d, b with
  | Next, NegInf => True
  | Next, Fin k => k < x
  | Next, PosInf => False
  | Prev, PosInf => True
  | Prev, Fin k => x < k
  | Prev, NegInf => False
  end.

(** [nearer d x y]: going in direction [d], [x] comes no later than [y]. *)
Definition nearer (d : Dir) (x y : Row) : Prop :=
  match d with
  | Next => x <= y
  | Prev => y <= x
  end.

(** [advance d s b o]: [o] is the first row of [s] past [b] in direction
    [d], or nothing when there is none. *)
Definition advance (d : Dir) (s : list Row) (b : bound) (o : option Row) : Prop :=
  match o with
  | Some y => In y s /\ beyond d b y /\ forall z, In z s -> beyond d b z -> nearer d y z
  | None => forall z, In z s -> ~ beyond d b z
  end.

Definition dstart (d : Dir) : bound := match d with Next => NegInf | Prev => PosInf end.
Definition dend (d : Dir) : bound := match d with Next => PosInf | Prev => NegInf end.

Definition bval (b : bound) : option Row :=
  match b with
  | Fin k => Some k
  | _ => None
  end.

(** After a Get in direction [d] reported (or failed to report) a row: the
    bound the iterator stands at. *)
Definition reached (d : Dir) (o : option Row) : bound :=
  match o with
  | Some k => Fin k
  | None => dend d
  end.

(** A cursor position that holds the row [o] after a Get in direction [d]. *)
Definition located (rows : list Row) (p : pos) (d : Dir) (o : option Row) : Prop :=
  match o with
  | Some x => exists i, p = At i /\ nth_error rows i = Some x
  | None => p = Eof d
  end.

(** One source of a union that stands at [b] after a Get in direction [d]:
    a source the reported row came from holds that row; the other one holds
    its first row past [b], which is not in it. *)
Definition side (d : Dir) (b : bound) (s : Source) (row : option Row)
  (flag : bool) : Prop :=
  located (items s) (at_ s) d row /\
  if flag then row = bval b /\ (row = None -> b = dend d)
  else exists k, b = Fin k /\ advance d (items s) b row /\ ~ In k (items s).

(** The invariant of [getMerge] between calls. *)
Definition standing (u : Union) (d : Dir) (b : bound) : Prop :=
  rewound u = false /\ prevDir u = Some d /\
  side d b (source1 u) (row1 u) (src1 u) /\
  side d b (source2 u) (row2 u) (src2 u) /\
  (src1 u || src2 u = true).

Definition fresh (u : Union) : Prop :=
  rewound u = true /\ at_ (source1 u) = Rewound /\ at_ (source2 u) = Rewound.

(** The union runs over these rows. *)
Definition over (rows1 rows2 : list Row) (u : Union) : Prop :=
  items (source1 u) = rows1 /\ items (source2 u) = rows2.

(** After the refill for a Get in direction [d] from the bound [b]: each
    source holds its first row past [b]. *)
Definition filled (rows1 rows2 : list Row) (u : Union) (d : Dir) (b : bound)
  : Prop :=
  advance d rows1 b (row1 u) /\ located rows1 (at_ (source1 u)) d (row1 u) /\
  advance d rows2 b (row2 u) /\ located rows2 (at_ (source2 u)) d (row2 u).

Definition sorted (l : list Row) : Prop := StronglySorted Z.lt l.

(** A cursor that stands at the bound [b] after a Get in direction [d]. *)
Definition tracks (rows : list Row) (p : pos) (d : Dir) (b : bound) : Prop :=
  exists o, located rows p d o /\ b = reached d o.

(** The union and the logical cursor over the merged rows stand at the
    same place. *)
Definition together (rows1 rows2 : list Row) (u : Union) (p : pos) : Prop :=
  over rows1 rows2 u /\
  ((fresh u /\ p = Rewound) \/
   exists d b, standing u d b /\ tracks (merge rows1 rows2) p d b).

(** Between calls the union is rewound or stands at a bound. *)
Definition settled (rows1 rows2 : list Row) (u : Union) : Prop :=
  over rows1 rows2 u /\ (fresh u \/ exists d b, standing u d b).

(** Where a cursor stands before a Get in direction [d]: at the bound [b]. *)
Definition standsAt (rows : list Row) (st : bool) (p : pos) (d : Dir) (b : bound)
  : Prop :=
  match p with
  | Rewound => b = dstart d
  | At i => exists x, nth_error rows i = Some x /\ b = Fin x
  | Eof d0 => b = dend d0 /\ (d0 = d \/ st = false)
  end.

(** [snearer d r y]: going in direction [d], [r] comes strictly before [y]. *)
Definition snearer (d : Dir) (r y : Row) : Prop :=
  match d with
  | Next => r < y
  | Prev => y < r
  end.

End Union.

(** ** package stor: searching backwards, and package db19: Repair *)

Module Repair.

(** [bytes.LastIndex] of the Go library for a non-empty pattern: the last
    index where [b] occurs in [buf], or -1. [lastIndexBelow buf b k] tries
    the indexes below [k], highest first. *)
Fixpoint lastIndexBelow (buf b : list byte) (k : nat) : Z :=
  match k with
  | O => -1
  | S j => if bytes_eqb (sub buf j (length b)) b then Z.of_nat j
           else lastIndexBelow buf b j
  end.

Definition LastIndex (buf b : list byte) : Z :=
  if Nat.ltb (length buf) (length b) then -1
  else lastIndexBelow buf b (S (length buf - length b)).

(** The loop of [LastOffset] from chunk [c] down, [n] bytes of the chunk
    being searched. [None] is an index or slice panic. *)
Fixpoint lastOffsetFrom (s : Stor.Stor) (b : list byte) (c : nat) (n : Z)
  : option Z :=
  match Stor.index (Stor.chunks s) (Z.of_nat c) with
  | None => None
  | Some ch =>
      match Stor.slice_to ch n with
      | None => None
      | Some buf =>
          let i := LastIndex buf b in
          if negb (i =? -1)
          then Some (u64 (u64 (u64 (Z.of_nat c) * Stor.chunksize s) + u64 i))
          else match c with
               | O => Some 0
               | S c' => lastOffsetFrom s b c' (Stor.chunksize s)
               end
      end
  end.

(** [Stor.LastOffset] *)
Definition LastOffset (s : Stor.Stor) (off : Z) (b : list byte) : option Z :=
  let c := Stor.offsetToChunk s off in
  let n := Z.land off (Stor.chunksize s - 1) in
  if c <? 0 then Some 0 else lastOffsetFrom s b (Z.to_nat c) n.

(** The file system: the content of every file that exists. *)
Definition FS : Type := string -> option (list byte).

Definition setFile (fs : FS) (name : string) (v : option (list byte)) : FS :=
  fun n => if String.eqb n name then v else fs n.

(** [os.Rename(from, to)] of a file that exists. *)
Definition rename (fs : FS) (from to : string) : FS :=
  setFile (setFile fs to (fs from)) from None.

(** [f.WriteAt(buf, at)]: a file shorter than [at] is extended with zeros. *)
Definition WriteAt (content buf : list byte) (at_ : nat) : list byte :=
  let content := content ++ repeat 0 (at_ + length buf - length content) in
  Stor.copy_at content at_ buf.

(** Modelled from the spec: the length of the header's magic, "header:
    magic(8) || size(SmallOffset=5 bytes)"; the constant [magic] is outside
    the sources at hand. *)
Definition headerMagicLen : nat := 8.

Section WithMeta.

(** Outside the sources at hand and taken as they come: the checksum and
    the number of offsets of the state root; the meta data [meta.ReadOverlay]
    builds from a state's offsets ([None] where it panics); what
    [dbcheck.checkTable] finds for a table of a state, and for the table
    [GetRoSchema] returns for a name ([None] where the check passes, the
    corruption error it panics with otherwise); the tables of a state in the
    order [forEachTable] visits them; and [stor.MmapStor], the store mapped
    over a file's bytes. An [ErrCorrupt] is reduced to what [Repair] reads
    of it, its [Table()]. *)
Variable Sum : list byte -> list byte.
Variable Noffsets : nat.
Variable Meta : Type.
Variable Schema : Type.
Variable ReadOverlay : Stor.Stor -> list Z -> option Meta.
Variable Table : Schema -> string.
Variable tables : Meta -> list Schema.
Variable checkTable : Stor.Stor -> Meta -> Schema -> option string.
Variable checkNamed : Stor.Stor -> Meta -> string -> option string.
Variable MmapStor : list byte -> option Stor.Stor.
Variable tmpfile : string.

Definition ErrCorrupt : Type := string.

(** [ec.Table()], also of a nil [ec]. *)
Definition errTable (ec : option ErrCorrupt) : string :=
  match ec with
  | Some t => t
  | None => ""%string
  end.

(** [ReadState]: [None] is a panic. *)
Definition ReadState (st : Stor.Stor) (off : Z) : option Meta :=
  match State.readState Sum Noffsets st off with
  | None => None
  | Some (offsets, _) => ReadOverlay st offsets
  end.

(** [prevState]: the offset found and the state there, [None] for the state
    when reading it panicked. The outer [None] is a panic of [LastOffset],
    which nothing recovers. *)
Definition prevState (store : Stor.Stor) (off : Z) : option (Z * option Meta) :=
  match LastOffset store off State.magic1 with
  | None => None
  | Some off2 =>
      if off2 =? 0 then Some (0, None)
      else Some (off2, ReadState store off2)
  end.

(** The tables [forEachTable] has checked when the first check fails. *)
Fixpoint checkOthers (store : Stor.Stor) (m : Meta) (table : string)
  (scs : list Schema) : option ErrCorrupt :=
  match scs with
  | [] => None
  | sc :: rest =>
      match (if String.eqb (Table sc) table then None else checkTable store m sc) with
      | Some e => Some e
      | None => checkOthers store m table rest
      end
  end.

(** [checkState]: [None] is the nil error. *)
Definition checkState (store : Stor.Stor) (m : Meta) (table : string)
  : option ErrCorrupt :=
  match (if String.eqb table "" then None else checkNamed store m table) with
  | Some e => Some e
  | None => checkOthers store m table (tables m)
  end.

Inductive scanned :=
| Found (off : Z)
| NoState
| Panic
| OutOfFuel.

(** The loop of [Repair]. Every turn moves [off] down, so the offset it
    starts from bounds the number of turns; [fuel] counts them. *)
Fixpoint scan (fuel : nat) (store : Stor.Stor) (off : Z) (ec : option ErrCorrupt)
  : scanned :=
  match fuel with
  | O => OutOfFuel
  | S fuel =>
      match prevState store off with
      | None => Panic
      | Some (off, state) =>
          if off =? 0 then NoState
          else match state with
               | None => scan fuel store off ec
               | Some m =>
                   match checkState store m (errTable ec) with
                   | None => Found off
                   | Some e => scan fuel store off (Some e)
                   end
               end
      end
  end.

Definition stateLen : Z := Z.of_nat (State.stateLen Noffsets).

(** [Repair]: the file system afterwards and the error returned ([None]
    for nil). The outer [None] is a panic. The progress messages it prints
    are left out. *)
Definition Repair (fs : FS) (dbfile : string) (ec : option ErrCorrupt)
  : option (FS * option string) :=
  match fs dbfile with
  | None => Some (fs, Some "open"%string)
  | Some content =>
  match MmapStor content with
  | None => Some (fs, Some "mmap"%string)
  | Some store =>
  match Stor.Size store with
  | None => None
  | Some off =>
  match scan (S (Z.to_nat off)) store off ec with
  | Panic | OutOfFuel => None
  | NoState => Some (fs, Some "repair failed - no valid states found"%string)
  | Found off =>
      (* src, dst: the file and a new temporary file *)
      let fs := setFile fs tmpfile (Some []) in
      let n := to_int off + stateLen in
      (* io.CopyN(dst, src, n) *)
      if Stor.len content <? n
      then Some (setFile fs tmpfile (Some content), Some "EOF"%string)
      else
        let dst := firstn (Z.to_nat n) content in
        let buf := WriteSmallOffset (repeat 0 SmallOffsetLen) 0 (u64 (off + stateLen)) in
        let dst := WriteAt dst buf headerMagicLen in
        let fs := setFile fs tmpfile (Some dst) in
        (* os.Remove(dbfile + ".bak"): a missing file is no error *)
        let fs := setFile fs (dbfile ++ ".bak")%string None in
        let fs := rename fs dbfile (dbfile ++ ".bak")%string in
        let fs := rename fs tmpfile dbfile in
        Some (fs, None)
  end end end end.

(** The offsets the scan visits from [off] down, most recent first. *)
Fixpoint candidates (fuel : nat) (store : Stor.Stor) (off : Z) : list Z :=
  match fuel with
  | O => []
  | S fuel =>
      match LastOffset store off State.magic1 with
      | Some off2 => if off2 =? 0 then [] else off2 :: candidates fuel store off2
      | None => []
      end
  end.

(** The first candidate whose state can be read and passes [checkState],
    the table to check first being the one the last failed check named. *)
Fixpoint firstValid (store : Stor.Stor) (cands : list Z) (ec : option ErrCorrupt)
  : option Z :=
  match cands with
  | [] => None
  | off :: rest =>
      match ReadState store off with
      | None => firstValid store rest ec
      | Some m =>
          match checkState store m (errTable ec) with
          | None => Some off
          | Some e => firstValid store rest (Some e)
          end
      end
  end.

(** The pattern [b] lies at offset [o] of the store, inside one chunk. *)
Definition occursAt (s : Stor.Stor) (b : list byte) (o : Z) : Prop :=
  exists ch,
    Stor.index (Stor.chunks s) (o / Stor.chunksize s) = Some ch /\
    sub ch (Z.to_nat (o mod Stor.chunksize s)) (length b) = b /\
    o mod Stor.chunksize s + Stor.len b <= Stor.chunksize s.

(** [o] lies in a chunk below [c], or in chunk [c] with the pattern [b]
    inside the first [n] bytes. *)
Definition before (s : Stor.Stor) (b : list byte) (c : nat) (n : Z) (o : Z)
  : Prop :=
  o / Stor.chunksize s < Z.of_nat c \/
  (o / Stor.chunksize s = Z.of_nat c /\
   o mod Stor.chunksize s + Stor.len b <= n).

(** [cands] are the places the scan from [off] visits: each the last place
    where magic1 lies entirely below the one before, down to none left. *)
Fixpoint descends (store : Stor.Stor) (off : Z) (cands : list Z) : Prop :=
  match cands with
  | [] => forall o, 0 < o -> occursAt store State.magic1 o ->
                    ~ o + Stor.len State.magic1 <= off
  | c :: rest =>
      0 < c /\ occursAt store State.magic1 c /\
      c + Stor.len State.magic1 <= off /\
      (forall o, 0 <= o -> occursAt store State.magic1 o ->
                 o + Stor.len State.magic1 <= off -> o <= c) /\
      descends store c rest
  end.

(** The repaired file: the first [n] bytes with the size slot of the header
    set to [n]. *)
Definition repaired (content : list byte) (n : Z) : list byte :=
  WriteAt (firstn (Z.to_nat n) content) (le_bytes SmallOffsetLen n) headerMagicLen.

End WithMeta.

(** A database file to run the model with: the header, a state, and a later
    state whose offsets were damaged after its checksum was taken. *)
Definition sampleHeader : list byte :=
  [0x67; 0x73; 0x6e; 0x64; 0x6f; 0x30; 0x30; 0x31; 89; 0; 0; 0; 0].

Definition sampleState : list byte :=
  State.layout State.sampleSum [5; 70000] 1600000000.

Definition sampleDamaged : list byte :=
  State.protected [5; 70001] 1600000060
  ++ State.sampleSum (State.protected [5; 70000] 1600000060) ++ State.magic2.

Definition sampleFile : list byte := sampleHeader ++ sampleState ++ sampleDamaged.

(** A store of one chunk of 128 bytes over the bytes of a file. *)
Definition sampleMmap (content : list byte) : option Stor.Stor :=
  Some (Stor.mkStor (Stor.heapGet 128) 128 96 7 (Stor.len content)
          [content ++ repeat 0 (128 - length content)]).

Definition sampleFS : FS := setFile (fun _ => None) "suneido.db" (Some sampleFile).

End Repair.

(** ** package btree: merging and bulk loading *)

Module Btree.

(** Modelled from the spec: the fbtree, outside the sources at hand, as the
    "immutable, ordered key->offset map" it provides: its entries in key
    order. [Update] "returns a new fbtree root; fn receives a mutable update
    buffer (fbupdate)": the buffer starts as the tree and is threaded through
    [fn]. [Insert] puts a key with its offset at its place in key order, an
    entry of the same key giving way to it ("insert markers take precedence
    over same-key underlying entries"); [Lookup] is "lookup(key) -> offset". *)
Definition fbtree : Type := list (string * Z).
Definition fbupdate : Type := list (string * Z).

Definition Update (fb : fbtree) (fn : fbupdate -> fbupdate) : fbtree := fn fb.

Fixpoint Insert (up : fbupdate) (key : string) (off : Z) : fbupdate :=
  match up with
  | [] => [(key, off)]
  | (k, o) :: rest =>
      if String.eqb key k then (key, off) :: rest
      else if strLess key k then (key, off) :: up
      else (k, o) :: Insert rest key off
  end.

Fixpoint Lookup (fb : fbtree) (key : string) : option Z :=
  match fb with
  | [] => None
  | (k, o) :: rest => if String.eqb key k then Some o else Lookup rest key
  end.

Section WithMbtree.

(** The mbtree is outside the sources at hand; [visits mb] are the keys and
    offsets [mb.ForEach] calls its function with, in order. *)
Variable mbtree : Type.
Variable visits : mbtree -> list (string * Z).

Definition ForEach (mb : mbtree) (fn : string -> Z -> fbupdate -> fbupdate)
  (up : fbupdate) : fbupdate :=
  fold_left (fun up e => fn (fst e) (snd e) up) (visits mb) up.

(** [Merge] *)
Definition Merge (fb : fbtree) (mb : mbtree) : fbtree :=
  Update fb (fun up => ForEach mb (fun key off up => Insert up key off) up).

End WithMbtree.

(** The offset of the last visit of [key], if any. *)
Fixpoint lastVisit (vs : list (string * Z)) (key : string) : option Z :=
  match vs with
  | [] => None
  | (k, o) :: rest =>
      match lastVisit rest key with
      | Some o' => Some o'
      | None => if String.eqb key k then Some o else None
      end
  end.

(** Modelled from the spec: an mbtree "holding recent inserts/deletes", each
    entry a key, an offset and its marker, in key order; "for_each(fn) in key
    order" calls [fn] with the key and the offset of every entry, or of the
    inserts alone. *)
Inductive marker := insertMark | deleteMark.

Definition mbtree : Type := list (string * Z * marker).

Definition forEvery (mb : mbtree) : list (string * Z) := map fst mb.

Definition forInserts (mb : mbtree) : list (string * Z) :=
  map fst (filter (fun e => match snd e with insertMark => true | deleteMark => false end) mb).

(** Modelled from the spec: the nodes of an fbtree and its builder, outside
    the sources at hand (only [TestFbtreeBuilder] is there). "leaves store
    (truncated-key, data-offset)" and an inner node holds its children under
    their separator keys, "truncated to the shortest discriminating prefix":
    [truncate prev key] is the shortest prefix of [key] that tells it from
    the preceding key [prev]. *)
#[warnings="-register-all"]
Inductive tree :=
| Leaf (entries : list (string * Z))
| Inner (children : list (string * tree)).

Fixpoint truncate (prev key : string) {struct key} : string :=
  match key with
  | EmptyString => EmptyString
  | String c key' =>
      match prev with
      | String p prev' =>
          if Ascii.eqb c p then String c (truncate prev' key')
          else String c EmptyString
      | EmptyString => String c EmptyString
      end
  end.

(** The separator a node goes under: its first key. *)
Definition separator (t : tree) : string :=
  match t with
  | Leaf ((k, _) :: _) => k
  | Inner ((k, _) :: _) => k
  | _ => EmptyString
  end.

Section Builder.

(** The number of entries a node takes. *)
Variable MaxNodeSize : nat.

(** Modelled from the spec: "NewFbtreeBuilder(store) + add(key, offset) +
    finish() -> (root, levels) constructs a fully packed tree by bulk-loading
    sorted input in one pass": the builder keeps the node it is filling at
    every level, the leaf first; a full node goes to the level above and a
    new one is begun. *)
Record fbtreeBuilder := mkBuilder {
  leaf : list (string * Z);
  levels : list (list (string * tree));
  prev : string
}.

Definition NewFbtreeBuilder : fbtreeBuilder := mkBuilder [] [] EmptyString.

Fixpoint insert (lvls : list (list (string * tree))) (t : tree)
  : list (list (string * tree)) :=
  match lvls with
  | [] => [[(separator t, t)]]
  | node :: above =>
      if Nat.ltb (length node) MaxNodeSize then (node ++ [(separator t, t)]) :: above
      else [(separator t, t)] :: insert above (Inner node)
  end.

Definition Add (b : fbtreeBuilder) (key : string) (off : Z) : fbtreeBuilder :=
  let e := (truncate (prev b) key, off) in
  if Nat.ltb (length (leaf b)) MaxNodeSize
  then mkBuilder (leaf b ++ [e]) (levels b) key
  else mkBuilder [e] (insert (levels b) (Leaf (leaf b))) key.

Definition Finish (b : fbtreeBuilder) : tree * nat :=
  (fold_left (fun t node => Inner (node ++ [(separator t, t)])) (levels b)
     (Leaf (leaf b)),
   length (levels b)).

(** Bulk loading a sequence of keys and offsets. *)
Definition build (input : list (string * Z)) : tree * nat :=
  Finish (fold_left (fun b e => Add b (fst e) (snd e)) input NewFbtreeBuilder).

End Builder.

(** Modelled from the spec: "iter() -> (key, offset, ok) generator in key
    order": the entries of the leaves from left to right. *)
Fixpoint Iter (t : tree) : list (string * Z) :=
  match t with
  | Leaf entries => entries
  | Inner children =>
      (fix all (cs : list (string * tree)) : list (string * Z) :=
         match cs with
         | [] => []
         | (_, c) :: rest => Iter c ++ all rest
         end) children
  end.

(** The entries of the children of a node under construction. *)
Definition below (node : list (string * tree)) : list (string * Z) :=
  concat (map (fun c => Iter (snd c)) node).

(** The entries held by the levels above the leaf, the highest level being
    the earliest. *)
Fixpoint held (lvls : list (list (string * tree))) : list (string * Z) :=
  match lvls with
  | [] => []
  | node :: above => held above ++ below node
  end.

(** The entries a builder holds, in the order they were added. *)
Definition contents (b : fbtreeBuilder) : list (string * Z) :=
  held (levels b) ++ leaf b.

(** The input with every key truncated against the key before it. *)
Fixpoint truncated (prev : string) (input : list (string * Z))
  : list (string * Z) :=
  match input with
  | [] => []
  | (k, o) :: rest => (truncate prev k, o) :: truncated k rest
  end.

(** Keys in strictly ascending order. *)
Fixpoint ascendingKeys (prev : option string) (input : list (string * Z)) : bool :=
  match input with
  | [] => true
  | (k, _) :: rest =>
      match prev with
      | Some p => strLess p k
      | None => true
      end && ascendingKeys (Some k) rest
  end.

End Btree.

(** ** package query: Union, the lookup strategy *)

Module UnionLookup.
Import Union.

Section WithHas.

(** [source2Has] is outside the sources at hand: whether source2 has the
    row, taken as not moving source2. *)
Variable has : Row -> bool.

(** The inner loop of [getLookup]: rows of source1 until one that source2
    does not have. Every turn is a [Get]; [fuel] bounds their number and
    [None] is running out of it. *)
Fixpoint skipHas (fuel : nat) (s : Source) (dir : Dir)
  : option (Source * option Row) :=
  match fuel with
  | O => None
  | S fuel =>
      let '(s', r) := Get s dir in
      match r with
      | None => Some (s', None)
      | Some row => if has row then skipHas fuel s' dir else Some (s', Some row)
      end
  end.

Definition setLookup (u : Union) (s1 s2 : Source) (src1 : bool) : Union :=
  mkUnion s1 s2 (rewound u) src1 (src2 u) (row1 u) (row2 u) (prevDir u).

(** [getLookup]: the outer loop takes at most two turns, written out. *)
Definition getLookup (fuel : nat) (u : Union) (dir : Dir)
  : option (Union * option Row) :=
  let first := if rewound u then dirEqb dir Next else src1 u in
  if first then
    match skipHas fuel (source1 u) dir with
    | None => None
    | Some (s1, Some row) => Some (setLookup u s1 (source2 u) true, Some row)
    | Some (s1, None) =>
        match dir with
        | Prev => Some (setLookup u s1 (source2 u) true, None)
        | Next =>
            let '(s2, r) := Get (Rewind (source2 u)) Next in
            Some (setLookup u s1 s2 false, r)
        end
    end
  else
    let '(s2, r) := Get (source2 u) dir in
    match r with
    | Some row => Some (setLookup u (source1 u) s2 false, Some row)
    | None =>
        match dir with
        | Next => Some (setLookup u (source1 u) s2 false, None)
        | Prev =>
            match skipHas fuel (source1 u) dir with
            | None => None
            | Some (s1, r) => Some (setLookup u s1 s2 true, r)
            end
        end
    end.

(** [Union.Get] with the lookup strategy: [rewound] is cleared on the way
    out. *)
Definition LookupGet (fuel : nat) (u : Union) (dir : Dir)
  : option (Union * option Row) :=
  match getLookup fuel u dir with
  | None => None
  | Some (u, r) =>
      Some (mkUnion (source1 u) (source2 u) false (src1 u) (src2 u) (row1 u)
              (row2 u) (prevDir u), r)
  end.

(** The rows [n] calls of [Get] in one direction report. *)
Fixpoint lookupRun (fuel : nat) (u : Union) (dir : Dir) (n : nat)
  : option (list (option Row)) :=
  match n with
  | O => Some []
  | S n =>
      match LookupGet fuel u dir with
      | None => None
      | Some (u, r) =>
          match lookupRun fuel u dir n with
          | None => None
          | Some rs => Some (r :: rs)
          end
      end
  end.

(** The rows a pass in direction Next still has to report. *)
Definition ahead (s : Source) : list Row :=
  match at_ s with
  | Rewound => items s
  | At i => skipn (S i) (items s)
  | Eof _ => []
  end.

Definition wanted (rows : list Row) : list Row :=
  filter (fun r => negb (has r)) rows.

Definition pending (u : Union) : list Row :=
  if (if rewound u then true else src1 u)
  then wanted (ahead (source1 u)) ++ items (source2 u)
  else ahead (source2 u).

End WithHas.

(** A source in the middle of a pass in direction Next. *)
Definition forward (s : Source) : Prop :=
  match at_ s with
  | Rewound => True
  | At i => (i < length (items s))%nat
  | Eof d => d = Next
  end.

(** In the middle of a pass in direction Next. *)
Definition passing (u : Union) : Prop :=
  if (if rewound u then true else src1 u) then forward (source1 u)
  else forward (source2 u).

(** The same for a pass in direction Prev: the rows a source still has to
    report, last first. *)
Definition backward (s : Source) : Prop :=
  match at_ s with
  | Rewound => True
  | At i => (i < length (items s))%nat
  | Eof d => d = Prev
  end.

Definition behind (s : Source) : list Row :=
  match at_ s with
  | Rewound => rev (items s)
  | At i => rev (firstn i (items s))
  | Eof _ => []
  end.

Definition pendingBack (has : Row -> bool) (u : Union) : list Row :=
  if (if rewound u then false else src1 u)
  then wanted has (behind (source1 u))
  else behind (source2 u) ++ wanted has (rev (items (source1 u))).

Definition retreating (u : Union) : Prop :=
  if (if rewound u then false else src1 u) then backward (source1 u)
  else backward (source2 u) /\ at_ (source1 u) = Rewound.

End UnionLookup.

(** ** package query: more of Summarize and TempIndex *)

Module SummarizeOps.
Import Summarize.

Section Feeding.

Context {Value : Type} {Row : Type}.
Variable Zero : Value.
Variable OpAdd : Value -> Value -> option Value.

(** Feeding raw values with their rows to one aggregate, as [addToSums]
    does for min, max and list. *)
Fixpoint addRaws (sum : @sumOp Value Row) (items : list (string * Row))
  : option (@sumOp Value Row) :=
  match items with
  | [] => Some sum
  | (raw, row) :: rest =>
      match add OpAdd sum raw Zero row with
      | Some sum' => addRaws sum' rest
      | None => None
      end
  end.

(** Adding up values from the left, [None] as soon as one addition
    panics. *)
Fixpoint sumUp (t : Value) (vals : list Value) : option Value :=
  match vals with
  | [] => Some t
  | v :: rest =>
      match OpAdd t v with
      | Some t' => sumUp t' rest
      | None => None
      end
  end.

End Feeding.

End SummarizeOps.

Module TempIndexOps.

Section WithRows.

(** The rows and [Row.GetRawVal] are outside the sources at hand; the
    header, thread and transaction it is passed are fixed during a
    comparison and left out. *)
Context {Row : Type}.
Variable GetRawVal : Row -> string -> string.

(** [slices.Index] of the Go library. *)
Fixpoint indexOf (cols : list string) (col : string) : option nat :=
  match cols with
  | [] => None
  | c :: rest =>
      if String.eqb c col then Some O
      else match indexOf rest col with
           | Some j => Some (S j)
           | None => None
           end
  end.

(** [makeKey]: [None] is a panic, "TempIndex makeKey not full" or an index
    out of range. *)
Fixpoint makeKey (order cols vals : list string) (full : bool)
  : option (list string) :=
  match order with
  | [] => Some []
  | col :: rest =>
      match indexOf cols col with
      | None => if full then None else Some []
      | Some j =>
          match nth_error vals j with
          | None => None
          | Some v =>
              match makeKey rest cols vals full with
              | Some key => Some (v :: key)
              | None => None
              end
          end
      end
  end.

(** [matches]: [None] is an index out of range. *)
Fixpoint matches (order : list string) (row : Row) (key : list string)
  : option bool :=
  match order with
  | [] => Some true
  | col :: rest =>
      match key with
      | [] => None
      | y :: key' =>
          if negb (String.eqb (GetRawVal row col) y) then Some false
          else matches rest row key'
      end
  end.

(** [less] *)
Fixpoint less (order : list string) (xrow yrow : Row) : bool :=
  match order with
  | [] => false
  | col :: rest =>
      let x := GetRawVal xrow col in
      let y := GetRawVal yrow col in
      if negb (String.eqb x y) then strLess x y else less rest xrow yrow
  end.

(** [less2] *)
Fixpoint less2 (order : list string) (row : Row) (key : list string) : bool :=
  match order with
  | [] => false
  | col :: rest =>
      match key with
      | [] => false
      | y :: key' =>
          let x := GetRawVal row col in
          if negb (String.eqb x y) then strLess x y else less2 rest row key'
      end
  end.

(** The values of a row on the columns of the order. *)
Definition keyOf (order : list string) (row : Row) : list string :=
  map (GetRawVal row) order.

End WithRows.

(** Rows to run the model with: the values of the columns a, b, c. *)
Definition sampleRaw (row : list string) (col : string) : string :=
  if String.eqb col "a" then nth 0 row ""%string
  else if String.eqb col "b" then nth 1 row ""%string
  else nth 2 row ""%string.

End TempIndexOps.

(** ** package stor: searching, writing, closing *)

Module StorOps.

(** [bytes.Index] of the Go library: the first index where [b] occurs in
    [buf], or -1. [indexFrom buf b j k] tries the [k] indexes from [j] on. *)
Fixpoint indexFrom (buf b : list byte) (j k : nat) : Z :=
  match k with
  | O => -1
  | S k' => if bytes_eqb (sub buf j (length b)) b then Z.of_nat j
            else indexFrom buf b (S j) k'
  end.

Definition Index (buf b : list byte) : Z :=
  if Nat.ltb (length buf) (length b) then -1
  else indexFrom buf b 0 (S (length buf - length b)).

(** The loop of [FirstOffset] over the [k] chunks from [c] on, the search
    in chunk [c] starting at its byte [n]. [None] is an index or slice
    panic. *)
Fixpoint firstOffsetFrom (s : Stor.Stor) (b : list byte) (k : nat) (c n : Z)
  : option Z :=
  match k with
  | O => Some 0
  | S k' =>
      match Stor.index (Stor.chunks s) c with
      | None => None
      | Some ch =>
          match Stor.slice_from ch n with
          | None => None
          | Some buf =>
              let i := Index buf b in
              if negb (i =? -1)
              then Some (u64 (u64 (u64 (u64 c * Stor.chunksize s) + n) + u64 i))
              else firstOffsetFrom s b k' (c + 1) 0
          end
      end
  end.

(** [Stor.FirstOffset]: the loop runs while [c < len(chunks)]. *)
Definition FirstOffset (s : Stor.Stor) (off : Z) (b : list byte) : option Z :=
  let c := Stor.offsetToChunk s off in
  let n := Z.land off (Stor.chunksize s - 1) in
  firstOffsetFrom s b (Z.to_nat (Stor.len (Stor.chunks s) - c)) c n.

(** [Stor.Write] on a storage that is not [writable] (the heap storage):
    [copy(s.Data(off), data)]. [None] is the panic of [Data]. *)
Definition Write (s : Stor.Stor) (off : Z) (data : list byte) : option Stor.Stor :=
  match Stor.Data s off with
  | None => None
  | Some _ => Some (Stor.put s off data)
  end.

(** What [Close] does besides changing the store: it calls the callbacks
    with the size, then [impl.Close(int64(size), unmap)]. *)
Inductive closing :=
| Callback (i : nat) (size : Z)
| ImplClose (size : Z) (unmap : bool).

(** [Stor.Close]: [heap] tells whether [impl] is a [*heapStor];
    [callbacks] is the number of callbacks passed. *)
Definition Close (heap : bool) (s : Stor.Stor) (unmap : bool) (callbacks : nat)
  : Stor.Stor * list closing :=
  let size := Stor.size s in
  let s' := if heap then s else Stor.set_size s Stor.closedSize in
  (s', if negb (size =? Stor.closedSize)
       then map (fun i => Callback i size) (seq 0 callbacks)
            ++ [ImplClose (to_int size) unmap]
       else []).

(** [o] lies in a chunk after [c], or in chunk [c] at its byte [n] or
    later. *)
Definition after (s : Stor.Stor) (c n o : Z) : Prop :=
  c < o / Stor.chunksize s \/
  (o / Stor.chunksize s = c /\ n <= o mod Stor.chunksize s).

(** One allocation after the other. *)
Fixpoint allocAll (s : Stor.Stor) (ns : list Z) : option (list Z * Stor.Stor) :=
  match ns with
  | [] => Some ([], s)
  | n :: rest =>
      match Stor.Alloc s n with
      | None => None
      | Some (off, _, s') =>
          match allocAll s' rest with
          | None => None
          | Some (offs, s'') => Some (off :: offs, s'')
          end
      end
  end.

(** Ranges [(offset, length)] that follow one another from [lo] on without
    overlapping. *)
Fixpoint chained (lo : Z) (ranges : list (Z * Z)) : Prop :=
  match ranges with
  | [] => True
  | (off, n) :: rest => lo <= off /\ chained (off + n) rest
  end.

End StorOps.

(** ** package setord: sets of string lists, in order *)

Module Setord.

(** A [[][]string]: where its first element lies in memory, and the
    elements. [Same] compares the addresses. *)
Record slice := mkSlice {
  addr : Z;
  elems : list (list string)
}.

(** Two slices at one address with one length are one piece of memory. *)
Definition coherent (x y : slice) : Prop :=
  addr x = addr y -> length (elems x) = length (elems y) -> elems x = elems y.

Section WithEq.

(** [eq], the comparison of two elements, is outside the sources at hand
    and taken as it comes. *)
Variable eq : list string -> list string -> bool.

(** [Contains] *)
Fixpoint contains (x : list (list string)) (s : list string) : bool :=
  match x with
  | [] => false
  | xs :: rest => if eq xs s then true else contains rest s
  end.

Definition Contains (x : slice) (s : list string) : bool := contains (elems x) s.

(** [AddUnique] *)
Definition AddUnique (x : slice) (s : list string) : list (list string) :=
  if Contains x s then elems x else elems x ++ [s].

(** [Same] *)
Definition Same (x y : slice) : bool :=
  (0 <? Stor.len (elems x)) && (0 <? Stor.len (elems y))
  && (Stor.len (elems x) =? Stor.len (elems y)) && (addr x =? addr y).

(** The inner loops: is there a [ys] in [y] with [eq(xs, ys)], and is there
    an [xs] in [x] with [eq(xs, ys)]. *)
Fixpoint foundAmong (xs : list string) (y : list (list string)) : bool :=
  match y with
  | [] => false
  | ys :: rest => if eq xs ys then true else foundAmong xs rest
  end.

Fixpoint amongFound (x : list (list string)) (ys : list string) : bool :=
  match x with
  | [] => false
  | xs :: rest => if eq xs ys then true else amongFound rest ys
  end.

(** The loop of [Equal] *)
Fixpoint allFound (x y : list (list string)) : bool :=
  match x with
  | [] => true
  | xs :: rest => if foundAmong xs y then allFound rest y else false
  end.

(** [Equal] *)
Definition Equal (x y : slice) : bool :=
  if negb (Stor.len (elems x) =? Stor.len (elems y)) then false
  else if Same x y then true
  else allFound (elems x) (elems y).

(** The loop of [Union]: the elements of [y] that are not among [x]. *)
Fixpoint notAmong (x y : list (list string)) : list (list string) :=
  match y with
  | [] => []
  | ys :: rest =>
      if amongFound x ys then notAmong x rest else ys :: notAmong x rest
  end.

(** [Union] *)
Definition Union (x y : slice) : list (list string) :=
  if Stor.len (elems x) =? 0 then elems y
  else if Stor.len (elems y) =? 0 then elems x
  else elems x ++ notAmong (elems x) (elems y).

(** The loop of [Difference] *)
Fixpoint notFound (x y : list (list string)) : list (list string) :=
  match x with
  | [] => []
  | xs :: rest =>
      if foundAmong xs y then notFound rest y else xs :: notFound rest y
  end.

(** [Difference] *)
Definition Difference (x y : slice) : list (list string) :=
  if Stor.len (elems x) =? 0 then []
  else if Stor.len (elems y) =? 0 then elems x
  else if Same x y then []
  else notFound (elems x) (elems y).

(** The loop of [Intersect] *)
Fixpoint found (x y : list (list string)) : list (list string) :=
  match x with
  | [] => []
  | xs :: rest =>
      if foundAmong xs y then xs :: found rest y else found rest y
  end.

(** [Intersect] *)
Definition Intersect (x y : slice) : list (list string) :=
  if Same x y then elems x
  else if (Stor.len (elems x) =? 0) || (Stor.len (elems y) =? 0) then []
  else found (elems x) (elems y).

(** [Subset]: [x] contains all of [y]. *)
Fixpoint subset (x y : list (list string)) : bool :=
  match y with
  | [] => true
  | ys :: rest => if amongFound x ys then subset x rest else false
  end.

Definition Subset (x y : slice) : bool := subset (elems x) (elems y).

(** [Disjoint] *)
Fixpoint disjoint (x y : list (list string)) : bool :=
  match x with
  | [] => true
  | xs :: rest => if foundAmong xs y then false else disjoint rest y
  end.

Definition Disjoint (x y : slice) : bool := disjoint (elems x) (elems y).

End WithEq.

(** An [eq] to run the model with: the same strings in the same order. *)
Definition sameStrings (a b : list string) : bool :=
  if list_eq_dec string_dec a b then true else false.

End Setord.

(** ** Summarize: the sequential strategy *)

Module SummarizeSeq.

Local Abbreviation Dir := Union.Dir.
Local Abbreviation Next := Union.Next.
Local Abbreviation Prev := Union.Prev.
Local Abbreviation Row := Union.Row.
Local Abbreviation Summarize := Summarize.Summarize.
Local Abbreviation by_ := Summarize.by_.
Local Abbreviation ops := Summarize.ops.
Local Abbreviation ons := Summarize.ons.

Section WithRows.

(** The source of the summarize at run time is the row cursor of the union
    model ([Union.Source]); a row is the integer that names it, and
    [GetVal] and [GetRawVal] read its columns. *)
Context {Value : Type}.
Variable Zero : Value.
Variable OpAdd : Value -> Value -> option Value.
Variable GetVal : Row -> string -> Value.
Variable GetRawVal : Row -> string -> string.

Local Abbreviation sumOp := (@Summarize.sumOp Value Row).
Local Abbreviation newSums := (@Summarize.newSums Value Row Zero).
Local Abbreviation addToSums :=
  (@Summarize.addToSums Value Row Zero OpAdd GetVal GetRawVal).

(** [reset] of the six implementations of [sumOp]. *)
Definition reset (sum : sumOp) : sumOp :=
  match sum with
  | Summarize.sumCount _ => Summarize.sumCount 0
  | Summarize.sumTotal _ => Summarize.sumTotal Zero
  | Summarize.sumAverage _ _ => Summarize.sumAverage 0 Zero
  | Summarize.sumMin _ => Summarize.sumMin None
  | Summarize.sumMax _ => Summarize.sumMax None
  | Summarize.sumList _ => Summarize.sumList []
  end.

(** [sameBy] *)
Definition sameBy (su : Summarize) (row1 row2 : Row) : bool :=
  forallb (fun f => String.eqb (GetRawVal row1 f) (GetRawVal row2 f)) (by_ su).

Record sumSeqT := mkSeqT {
  curDir : Dir;
  curRow : option Row;
  nextRow : option Row;
  sums : list sumOp
}.

(** What [getSeq] reads and writes: the source and the [rewound] flag of
    the [Summarize], and its own [sumSeqT]. *)
Record seqState := mkSeq {
  source : Union.Source;
  rewound : bool;
  seqT : sumSeqT
}.

(** The loop of [getSeq] after a change of direction: rows of the source
    until one that differs from [curRow] on the by columns. Every turn is a
    [Get]; [fuel] bounds their number and [None] is running out of it.
    [sameBy] on a nil [curRow] is not modelled ([None]). *)
Fixpoint skipSame (fuel : nat) (su : Summarize) (s : Union.Source) (dir : Dir)
  (cur : option Row) : option (Union.Source * option Row) :=
  match fuel with
  | O => None
  | S fuel =>
      let '(s', r) := Union.Get s dir in
      match r with
      | None => Some (s', None)
      | Some row =>
          match cur with
          | None => None
          | Some c => if sameBy su c row then skipSame fuel su s' dir cur
                      else Some (s', Some row)
          end
      end
  end.

(** The loop of [getSeq] that collects a group: [next] is added to the
    sums, then the source is read; [None] is a panic of [addToSums] or
    running out of [fuel]. *)
Fixpoint gather (fuel : nat) (su : Summarize) (s : Union.Source) (dir : Dir)
  (sums : list sumOp) (cur next : Row)
  : option (Union.Source * list sumOp * option Row) :=
  match fuel with
  | O => None
  | S fuel =>
      match addToSums (ops su) (ons su) sums next with
      | None => None
      | Some sums' =>
          let '(s', r) := Union.Get s dir in
          match r with
          | None => Some (s', sums', None)
          | Some row => if sameBy su cur row
                        then gather fuel su s' dir sums' cur row
                        else Some (s', sums', Some row)
          end
      end
  end.

(** [getSeq], first part: [if su.rewound]. [None] is the panic of
    [newSums]. *)
Definition start (su : Summarize) (st : seqState) (dir : Dir)
  : option (Union.Source * sumSeqT) :=
  if rewound st then
    match newSums (ops su) with
    | None => None
    | Some sums =>
        let '(s, r) := Union.Get (source st) dir in
        Some (s, mkSeqT dir None r sums)
    end
  else Some (source st, seqT st).

(** [getSeq], second part: [if dir != t.curDir], "have to skip over
    previous result". *)
Definition turn (fuel : nat) (su : Summarize) (s : Union.Source) (t : sumSeqT)
  (dir : Dir) : option (Union.Source * sumSeqT) :=
  if Union.dirEqb dir (curDir t) then Some (s, t) else
  let s := if Union.isNil (nextRow t) then Union.Rewind s else s in
  match skipSame fuel su s dir (curRow t) with
  | None => None
  | Some (s, r) => Some (s, mkSeqT dir (curRow t) r (sums t))
  end.

(** [getSeq], third part: nil at the end of the source, else the sums are
    reset and the group that starts with [nextRow] is collected. The row
    returned is built by [seqRow] from [curRow] and the sums; the model
    returns the two. *)
Definition collect (fuel : nat) (su : Summarize) (s : Union.Source)
  (t : sumSeqT) (dir : Dir)
  : option (Union.Source * sumSeqT * option (Row * list sumOp)) :=
  match nextRow t with
  | None => Some (s, t, None)
  | Some next =>
      match gather fuel su s dir (map reset (sums t)) next next with
      | None => None
      | Some (s, sums, r) =>
          Some (s, mkSeqT (curDir t) (Some next) r sums, Some (next, sums))
      end
  end.

(** [getSeq] *)
Definition getSeq (fuel : nat) (su : Summarize) (st : seqState) (dir : Dir)
  : option (seqState * option (Row * list sumOp)) :=
  match start su st dir with
  | None => None
  | Some (s, t) =>
      match turn fuel su s t dir with
      | None => None
      | Some (s, t) =>
          match collect fuel su s t dir with
          | None => None
          | Some (s, t, r) => Some (mkSeq s (rewound st) t, r)
          end
      end
  end.

(** [Summarize.Get] with the sequential strategy: [rewound] is cleared on
    the way out. *)
Definition Get (fuel : nat) (su : Summarize) (st : seqState) (dir : Dir)
  : option (seqState * option (Row * list sumOp)) :=
  match getSeq fuel su st dir with
  | None => None
  | Some (st, r) => Some (mkSeq (source st) false (seqT st), r)
  end.

(** [Summarize.Rewind] *)
Definition Rewind (st : seqState) : seqState :=
  mkSeq (Union.Rewind (source st)) true (seqT st).

(** After [setApproach]: [rewound] is set and the [sumSeqT] is zero. *)
Definition newSeq (s : Union.Source) : seqState :=
  mkSeq s true (mkSeqT Next None None []).

(** What [n] calls of [Get] in one direction return, and the state they
    leave. *)
Fixpoint seqRun (fuel : nat) (su : Summarize) (st : seqState) (dir : Dir)
  (n : nat) : option (seqState * list (option (Row * list sumOp))) :=
  match n with
  | O => Some (st, [])
  | S n =>
      match Get fuel su st dir with
      | None => None
      | Some (st, r) =>
          match seqRun fuel su st dir n with
          | None => None
          | Some (st, rs) => Some (st, r :: rs)
          end
      end
  end.

(** The groups of a list of rows: every row with the rows after it that
    agree with it on the by columns, as far as they go. *)
Fixpoint takeSame (su : Summarize) (c : Row) (rows : list Row) : list Row :=
  match rows with
  | [] => []
  | r :: rest => if sameBy su c r then r :: takeSame su c rest else []
  end.

Fixpoint dropSame (su : Summarize) (c : Row) (rows : list Row) : list Row :=
  match rows with
  | [] => []
  | r :: rest => if sameBy su c r then dropSame su c rest else rows
  end.

Fixpoint groupsUpTo (k : nat) (su : Summarize) (rows : list Row)
  : list (list Row) :=
  match k, rows with
  | S k, r :: rest =>
      (r :: takeSame su r rest) :: groupsUpTo k su (dropSame su r rest)
  | _, _ => []
  end.

Definition groups (su : Summarize) (rows : list Row) : list (list Row) :=
  groupsUpTo (length rows) su rows.

(** The sums of a group: its rows added one after the other. *)
Fixpoint feed (su : Summarize) (sums : list sumOp) (rows : list Row)
  : option (list sumOp) :=
  match rows with
  | [] => Some sums
  | r :: rest =>
      match addToSums (ops su) (ons su) sums r with
      | None => None
      | Some sums' => feed su sums' rest
      end
  end.

(** [n] results, one for each group in turn: its first row and its sums
    from [fresh]; nil after the last group; [None] from the first group
    on whose sums panic. *)
Fixpoint report (su : Summarize) (fresh : list sumOp) (n : nat)
  (gs : list (list Row)) : option (list (option (Row * list sumOp))) :=
  match n with
  | O => Some []
  | S n =>
      match gs with
      | [] => option_map (cons None) (report su fresh n [])
      | g :: gs' =>
          match g, feed su fresh g with
          | r :: _, Some sums =>
              option_map (cons (Some (r, sums))) (report su fresh n gs')
          | _, _ => None
          end
      end
  end.

(** Groups as the by columns cut them: no group is empty, the rows of a
    group agree with its first row, and the first row of the next group
    does not. *)
Fixpoint cut (su : Summarize) (gs : list (list Row)) : Prop :=
  match gs with
  | [] => True
  | g :: gs' =>
      match g with
      | [] => False
      | r :: g' =>
          Forall (fun x => sameBy su r x = true) g' /\
          match gs' with
          | (x :: _) :: _ => sameBy su r x = false
          | _ => True
          end /\ cut su gs'
      end
  end.

(** The rows of a source in the order a pass in direction [d] reads
    them. *)
Definition line (d : Dir) (rows : list Row) : list Row :=
  match d with
  | Union.Next => rows
  | Union.Prev => rev rows
  end.

(** The rows a pass in direction [d] still has to read. *)
Definition todo (d : Dir) (s : Union.Source) : list Row :=
  match d with
  | Union.Next => UnionLookup.ahead s
  | Union.Prev => UnionLookup.behind s
  end.

(** The source after a [Get] in direction [d] that returned [r]. *)
Definition sits (d : Dir) (s : Union.Source) (r : option Row) : Prop :=
  match r with
  | Some x => exists i, Union.at_ s = Union.At i /\
                        nth_error (Union.items s) i = Some x
  | None => Union.at_ s = Union.Eof d
  end.

(** The rows that are not yet in a group. *)
Definition remaining (d : Dir) (s : Union.Source) (t : sumSeqT) : list Row :=
  match nextRow t with
  | Some r => r :: todo d s
  | None => []
  end.

(** Between two calls of [Get] in direction [d]. *)
Definition running (d : Dir) (fresh : list sumOp) (s : Union.Source)
  (t : sumSeqT) : Prop :=
  curDir t = d /\ sits d s (nextRow t) /\
  map reset (sums t) = fresh /\ length (sums t) = length fresh.

(** After a call of [Get] in direction [Next]: the rows before the group
    returned last, and that group. *)
Definition halted (su : Summarize) (fresh : list sumOp) (s : Union.Source)
  (t : sumSeqT) (pre G : list Row) : Prop :=
  running Next fresh s t /\
  Union.items s = pre ++ G ++ remaining Next s t /\
  match curRow t with
  | Some c =>
      G <> [] /\ Forall (fun x => sameBy su c x = true) G /\
      (forall x, hd_error (rev pre) = Some x -> sameBy su c x = false) /\
      (forall x, nextRow t = Some x -> sameBy su c x = false)
  | None => Union.items s = []
  end.

End WithRows.

(** A summarize by [k] with a count and a total, and a source of five rows
    in three groups, to run the model with. *)
Definition sampleSu : Summarize :=
  Summarize.mkSummarize (Summarize.mkSource ["k"; "x"]%string [] 0)
    ["k"]%string ["count"; "total_x"]%string ["count"; "total"]%string
    [""; "x"]%string false.

Definition sampleKey (r : Row) (col : string) : string :=
  if String.eqb col "k"
  then (if Z.ltb r 10 then "a" else if Z.ltb r 20 then "b" else "c")%string
  else ""%string.

Definition sampleVal (r : Row) (col : string) : Z := r.

Definition sampleAdd (a b : Z) : option Z := Some (a + b).

Definition sampleSeq : @seqState Z :=
  newSeq (Union.mkSource false [1; 2; 11; 21; 22] Union.Rewound).

End SummarizeSeq.

(** ** Summarize: the map strategy *)

Module SummarizeMap.

Local Abbreviation Dir := Union.Dir.
Local Abbreviation Next := Union.Next.
Local Abbreviation Prev := Union.Prev.

Section WithRows.

Context {Value : Type} {Row : Type}.
Variable Zero : Value.
Variable OpAdd : Value -> Value -> option Value.
Variable GetVal : Row -> string -> Value.
Variable GetRawVal : Row -> string -> string.
Variable mapLimit : Z.
Variable hashCols : list string -> Z.

Local Abbreviation sumOp := (@Summarize.sumOp Value Row).
Local Abbreviation buildMap :=
  (Summarize.buildMap Zero OpAdd GetVal GetRawVal mapLimit hashCols).

Record sumMapT := mkMapT {
  mapList : list (Row * list sumOp);
  mapPos : Z
}.

(** [getMap]. [rows] are the rows the source yields to [buildMap];
    [rewound] is [su.rewound]. [mapPos] is an [int], which wraps. The row
    returned is built from the by columns of the pair's row and the results
    of its sums; the model returns the pair. [None] is a panic: the
    assertion, or one out of [buildMap]. *)
Definition getMap (su : Summarize.Summarize) (rows : list Row) (rewound : bool)
  (t : sumMapT) (dir : Dir)
  : option (sumMapT * option (Row * list sumOp)) :=
  match (if rewound then
           if Summarize.wholeRow su then None else
           match buildMap su rows with
           | None => None
           | Some l =>
               Some (mkMapT l (match dir with
                               | Union.Next => -1
                               | Union.Prev => Stor.len l
                               end))
           end
         else Some t) with
  | None => None
  | Some t =>
      let pos := match dir with
                 | Union.Next => to_int (u64 (mapPos t + 1))
                 | Union.Prev => to_int (u64 (mapPos t - 1))
                 end in
      let t := mkMapT (mapList t) pos in
      if (pos <? 0) || (Stor.len (mapList t) <=? pos) then Some (t, None)
      else match Stor.index (mapList t) pos with
           | Some p => Some (t, Some p)
           | None => None
           end
  end.

(** What [n] calls of [Summarize.Get] in one direction return, and the
    [sumMapT] they leave; [Get] clears [rewound] on the way out. *)
Fixpoint mapRun (su : Summarize.Summarize) (rows : list Row) (rewound : bool)
  (t : sumMapT) (dir : Dir) (n : nat)
  : option (sumMapT * list (option (Row * list sumOp))) :=
  match n with
  | O => Some (t, [])
  | S n =>
      match getMap su rows rewound t dir with
      | None => None
      | Some (t, r) =>
          match mapRun su rows false t dir n with
          | None => None
          | Some (t, rs) => Some (t, r :: rs)
          end
      end
  end.

End WithRows.

(** The change of [mapPos] a call in direction [d] makes. *)
Definition step (d : Dir) : Z :=
  match d with
  | Union.Next => 1
  | Union.Prev => -1
  end.

End SummarizeMap.

(* ================================================================== *)
(** * Properties *)
(* ================================================================== *)

Module StorFacts.
Import Stor.

Lemma len_nonneg {A} (l : list A) : 0 <= len l.
Proof. unfold len; lia. Qed.

Lemma len_app {A} (l1 l2 : list A) : len (l1 ++ l2) = len l1 + len l2.
Proof. unfold len; rewrite length_app; lia. Qed.

Lemma chunksize_pos s : wf s -> 0 < chunksize s.
Proof. intros W. rewrite (wf_chunksize _ W). apply Z.pow_pos_nonneg; destruct (wf_shift _ W); lia. Qed.

Lemma chunksize_bound s : wf s -> chunksize s <= 2 ^ 62.
Proof.
  intros W. rewrite (wf_chunksize _ W).
  apply Z.pow_le_mono_r; destruct (wf_shift _ W); lia.
Qed.

Lemma land_mask s x : wf s -> Z.land x (chunksize s - 1) = x mod chunksize s.
Proof.
  intros W. rewrite (wf_chunksize _ W).
  replace (2 ^ shift s - 1) with (Z.ones (shift s)) by (rewrite Z.ones_equiv; lia).
  apply Z.land_ones. destruct (wf_shift _ W); lia.
Qed.

Lemma shiftr_chunk s x : wf s -> Z.shiftr x (shift s) = x / chunksize s.
Proof.
  intros W. rewrite (wf_chunksize _ W).
  apply Z.shiftr_div_pow2. destruct (wf_shift _ W); lia.
Qed.

Lemma offsetToChunk_small s x :
  wf s -> 0 <= x < 2 ^ 63 -> offsetToChunk s x = x / chunksize s.
Proof.
  intros W Hx. unfold offsetToChunk, to_int. rewrite shiftr_chunk by assumption.
  pose proof (chunksize_pos s W).
  assert (0 <= x / chunksize s <= x).
  { split. apply Z.div_pos; lia. apply Z.div_le_upper_bound; nia. }
  destruct (Z.ltb_spec (x / chunksize s) (2 ^ 63)); lia.
Qed.

Lemma u64_small x : 0 <= x < 2 ^ 64 -> u64 x = x.
Proof. intros; unfold u64; apply Z.mod_small; lia. Qed.

Lemma u64_range x : 0 <= u64 x < 2 ^ 64.
Proof. unfold u64; apply Z.mod_pos_bound; lia. Qed.

Lemma wf_set_size s z : wf s -> wf (set_size s z).
Proof. intros [A B T C D]; constructor; simpl; auto. Qed.

Lemma wf_getChunk s k : wf s -> wf (getChunk s k).
Proof.
  intros W. unfold getChunk. destruct (k >=? len (chunks s)); auto.
  destruct W as [A B T C D]; constructor; simpl; auto.
  apply Forall_app; split; auto.
Qed.

Lemma index_Some {A} (l : list A) i x :
  index l i = Some x -> 0 <= i < len l.
Proof.
  unfold index, len. destruct (Z.ltb_spec i 0); [discriminate|].
  intros E. assert (nth_error l (Z.to_nat i) <> None) by congruence.
  apply nth_error_Some in H0. lia.
Qed.

Lemma index_In {A} (l : list A) i x : index l i = Some x -> In x l.
Proof.
  unfold index. destruct (i <? 0); [discriminate|]. apply nth_error_In.
Qed.

Lemma index_lt {A} (l : list A) i :
  0 <= i < len l -> exists x, index l i = Some x.
Proof.
  unfold index, len; intros H. destruct (Z.ltb_spec i 0); [lia|].
  destruct (nth_error l (Z.to_nat i)) eqn:E; eauto.
  apply nth_error_None in E. lia.
Qed.

Lemma slice_from_len {A} (l d : list A) lo :
  slice_from l lo = Some d -> len d = len l - lo /\ 0 <= lo <= len l.
Proof.
  unfold slice_from, len.
  destruct (Z.leb_spec 0 lo), (Z.leb_spec lo (Z.of_nat (length l))); simpl;
    try discriminate.
  intros E; inversion E; subst. rewrite length_skipn. lia.
Qed.

Lemma slice_to_len {A} (l d : list A) n :
  slice_to l n = Some d -> len d = n /\ n <= len l.
Proof.
  unfold slice_to, len.
  destruct (Z.leb_spec 0 n), (Z.leb_spec n (Z.of_nat (length l))); simpl;
    try discriminate.
  intros E; inversion E; subst. rewrite length_firstn. lia.
Qed.

(** What a successful [Data] tells about the offset. *)
Lemma Data_Some s off d :
  wf s -> Data s off = Some d ->
  len d = chunksize s - off mod chunksize s /\
  0 <= offsetToChunk s off < len (chunks s).
Proof.
  intros W. unfold Data.
  destruct (index (chunks s) (offsetToChunk s off)) as [c|] eqn:E; [|discriminate].
  intros Hd. apply slice_from_len in Hd. rewrite land_mask in Hd by assumption.
  pose proof (index_In _ _ _ E) as Hin.
  pose proof (wf_chunks _ W) as Hall. rewrite Forall_forall in Hall.
  rewrite (Hall _ Hin) in Hd. split; [lia|]. eapply index_Some; eauto.
Qed.

Lemma getChunk_fields s k :
  size (getChunk s k) = size s /\ chunksize (getChunk s k) = chunksize s /\
  shift (getChunk s k) = shift s /\ threshold (getChunk s k) = threshold s /\
  impl (getChunk s k) = impl s.
Proof. unfold getChunk; destruct (k >=? len (chunks s)); simpl; auto. Qed.

Lemma Alloc_unfold s n :
  Alloc s n =
  if negb ((0 <? n) && (n <=? to_int (chunksize s))) then None else
  if size s =? closedSize then None else
  match Data (published s n) (snd (fst (place s n))) with
  | Some d => match slice_to d n with
              | Some b => Some (snd (fst (place s n)), b, published s n)
              | None => None
              end
  | None => None
  end.
Proof.
  unfold Alloc, published, place.
  destruct (negb _); auto. destruct (size s =? closedSize); auto.
  destruct (_ >=? offsetToChunk _ _); reflexivity.
Qed.

Lemma place_fields s n s1 off nsz :
  place s n = (s1, off, nsz) ->
  nsz = u64 (off + n) /\ (off = size s \/ exists k, off = chunkToOffset s k) /\
  chunksize s1 = chunksize s /\ shift s1 = shift s /\
  threshold s1 = threshold s /\ impl s1 = impl s /\ (wf s -> wf s1).
Proof.
  unfold place. destruct (_ >=? offsetToChunk _ _).
  - intros E; inversion E; subst; clear E.
    destruct (_ >=? len _).
    + pose proof (getChunk_fields s (offsetToChunk s (u64 (size s + n)))).
      intuition eauto using wf_getChunk.
    + intuition eauto.
  - intros E; inversion E; subst; intuition eauto.
Qed.

Lemma published_fields s n :
  size (published s n) = snd (place s n) /\
  chunksize (published s n) = chunksize s /\
  shift (published s n) = shift s /\
  threshold (published s n) = threshold s /\
  impl (published s n) = impl s /\
  (wf s -> wf (published s n)).
Proof.
  unfold published. destruct (place s n) as [[s1 off] nsz] eqn:E.
  apply place_fields in E. destruct E as (_ & _ & A & B & C & D & W).
  destruct (_ && _); simpl.
  - pose proof (getChunk_fields (set_size s1 nsz) (offsetToChunk s off + 1)) as G.
    simpl in G. intuition (try congruence).
    apply wf_getChunk, wf_set_size; auto.
  - intuition auto using wf_set_size.
Qed.

(** The shape of every successful [Alloc]. *)
Lemma Alloc_Some s n off b s' :
  Alloc s n = Some (off, b, s') ->
  exists d,
    (0 < n /\ n <= to_int (chunksize s)) /\
    (off = size s \/ exists k, off = chunkToOffset s k) /\
    Data s' off = Some d /\ slice_to d n = Some b /\
    size s' = u64 (off + n) /\
    chunksize s' = chunksize s /\ shift s' = shift s /\
    (wf s -> wf s').
Proof.
  rewrite Alloc_unfold.
  destruct (Z.ltb_spec 0 n); simpl; [|discriminate].
  destruct (Z.leb_spec n (to_int (chunksize s))); simpl; [|discriminate].
  destruct (size s =? closedSize); [discriminate|].
  pose proof (published_fields s n) as P.
  destruct (place s n) as [[s1 off0] nsz] eqn:E. simpl in *.
  apply place_fields in E.
  destruct (Data (published s n) off0) as [d|] eqn:ED; [|discriminate].
  destruct (slice_to d n) as [b0|] eqn:ES; [|discriminate].
  intros X; inversion X; subst off0 b0 s'. exists d.
  intuition (try congruence).
Qed.

Lemma to_int_chunksize s : wf s -> to_int (chunksize s) = chunksize s.
Proof.
  intros W. pose proof (chunksize_bound s W). pose proof (chunksize_pos s W).
  unfold to_int. destruct (Z.ltb_spec (chunksize s) (2 ^ 63)); lia.
Qed.

Lemma same_chunk c off n :
  0 < c -> 0 <= off -> 0 < n -> off mod c + n <= c ->
  (off + n - 1) / c = off / c.
Proof.
  intros Hc Ho Hn H.
  symmetry. apply Z.div_unique with (r := off mod c + n - 1).
  - left. pose proof (Z.mod_pos_bound off c Hc). lia.
  - pose proof (Z.div_mod off c). lia.
Qed.

Lemma chunkToOffset_nonneg s k : 0 <= chunkToOffset s k.
Proof. unfold chunkToOffset. apply u64_range. Qed.

(** Where [Alloc] puts an allocation when nothing wraps around. *)
Lemma place_offset s n :
  wf s -> 0 <= size s -> size s + chunksize s < 2 ^ 63 ->
  0 < n <= chunksize s ->
  snd (fst (place s n)) =
    (if size s mod chunksize s + n <? chunksize s then size s
     else chunksize s * ((size s + n) / chunksize s)).
Proof.
  intros W H0 Hb Hn. pose proof (chunksize_pos s W) as Hc.
  unfold place.
  rewrite (u64_small (size s + n)) by lia.
  rewrite (u64_small (size s + chunksize s - 1)) by lia.
  rewrite !offsetToChunk_small by (auto; lia).
  set (c := chunksize s) in *.
  pose proof (Z.div_mod (size s) c ltac:(lia)) as E.
  pose proof (Z.mod_pos_bound (size s) c Hc) as R.
  set (q := size s / c) in *. set (r := size s mod c) in *.
  assert (E1 : (size s + n) / c = q + (r + n) / c).
  { replace (size s + n) with (q * c + (r + n)) by lia.
    rewrite Z.div_add_l by lia. reflexivity. }
  assert (E2 : (size s + c - 1) / c = q + (r + c - 1) / c).
  { replace (size s + c - 1) with (q * c + (r + c - 1)) by lia.
    rewrite Z.div_add_l by lia. reflexivity. }
  rewrite E1, E2.
  destruct (Z.ltb_spec (r + n) c) as [Hl|Hl].
  - rewrite (Z.div_small (r + n) c) by lia.
    destruct (Z.eq_dec r 0) as [Hr|Hr].
    + rewrite Hr. rewrite (Z.div_small (0 + c - 1) c) by lia.
      destruct (Z.geb_spec (q + 0) (q + 0)); [|lia]. simpl.
      unfold chunkToOffset. rewrite (u64_small (q + 0)) by nia.
      rewrite Z.shiftl_mul_pow2 by (destruct (wf_shift _ W); lia).
      rewrite <- (wf_chunksize _ W). fold c.
      rewrite u64_small by nia. lia.
    + assert ((r + c - 1) / c = 1).
      { symmetry. apply Z.div_unique with (r := r - 1); lia. }
      destruct (Z.geb_spec (q + 0) (q + (r + c - 1) / c)); [lia|]. reflexivity.
  - assert (Hd : (r + n) / c = 1).
    { symmetry. apply Z.div_unique with (r := r + n - c); lia. }
    assert (Hd2 : (r + c - 1) / c <= 1).
    { apply Z.lt_succ_r. apply Z.div_lt_upper_bound; lia. }
    rewrite Hd.
    destruct (Z.geb_spec (q + 1) (q + (r + c - 1) / c)); [|lia]. simpl.
    unfold chunkToOffset. rewrite (u64_small (q + 1)) by nia.
    rewrite Z.shiftl_mul_pow2 by (destruct (wf_shift _ W); lia).
    rewrite <- (wf_chunksize _ W). fold c.
    rewrite u64_small by nia. lia.
Qed.

Lemma chunkToOffset_small s k :
  wf s -> 0 <= k -> k * chunksize s < 2 ^ 63 ->
  chunkToOffset s k = k * chunksize s.
Proof.
  intros W Hk Hb. pose proof (chunksize_pos s W).
  unfold chunkToOffset. rewrite (u64_small k) by nia.
  rewrite Z.shiftl_mul_pow2 by (destruct (wf_shift _ W); lia).
  rewrite <- (wf_chunksize _ W). apply u64_small. lia.
Qed.

(** The two ways [Alloc] places an allocation. *)
Lemma place_cases s n :
  wf s -> 0 <= size s -> size s + 2 * chunksize s < 2 ^ 63 ->
  0 < n <= chunksize s ->
  (size s mod chunksize s + n < chunksize s /\
   place s n = (s, size s, size s + n)) \/
  (exists k, 0 <= k <= size s / chunksize s + 1 /\
     size s <= k * chunksize s /\ k * chunksize s + n < 2 ^ 63 /\
     place s n = (if k >=? len (chunks s) then getChunk s k else s,
                  k * chunksize s, k * chunksize s + n)).
Proof.
  intros W H0 Hb Hn. pose proof (chunksize_pos s W) as Hc.
  unfold place.
  rewrite (u64_small (size s + n)) by lia.
  rewrite (u64_small (size s + chunksize s - 1)) by lia.
  rewrite !offsetToChunk_small by (auto; lia).
  set (c := chunksize s) in *.
  pose proof (Z.div_mod (size s) c ltac:(lia)) as E.
  pose proof (Z.mod_pos_bound (size s) c Hc) as R.
  assert (Hq : 0 <= size s / c) by (apply Z.div_pos; lia).
  set (q := size s / c) in *. set (r := size s mod c) in *.
  assert (E1 : (size s + n) / c = q + (r + n) / c).
  { replace (size s + n) with (q * c + (r + n)) by lia.
    rewrite Z.div_add_l by lia. reflexivity. }
  assert (E2 : (size s + c - 1) / c = q + (r + c - 1) / c).
  { replace (size s + c - 1) with (q * c + (r + c - 1)) by lia.
    rewrite Z.div_add_l by lia. reflexivity. }
  assert (D1 : 0 <= (r + n) / c <= 1).
  { split. apply Z.div_pos; lia.
    apply Z.lt_succ_r. apply Z.div_lt_upper_bound; lia. }
  assert (D2 : (r + n) / c = 0 <-> r + n < c).
  { split; intros.
    - pose proof (Z.div_mod (r + n) c ltac:(lia)).
      pose proof (Z.mod_pos_bound (r + n) c Hc). nia.
    - apply Z.div_small; lia. }
  assert (D3 : (r + c - 1) / c = if r =? 0 then 0 else 1).
  { destruct (Z.eqb_spec r 0).
    - apply Z.div_small; lia.
    - symmetry. apply Z.div_unique with (r := r - 1); lia. }
  rewrite E1, E2, D3.
  destruct (Z.geb_spec (q + (r + n) / c) (q + (if r =? 0 then 0 else 1))) as [G|G].
  - right. exists (q + (r + n) / c).
    assert (Hk : size s <= (q + (r + n) / c) * c).
    { destruct (Z.eqb_spec r 0); [nia|].
      assert ((r + n) / c = 1) by lia. nia. }
    assert (Hk2 : (q + (r + n) / c) * c <= size s + n).
    { destruct (Z.eq_dec ((r + n) / c) 0) as [Z0|Z0]; [rewrite Z0; nia|].
      assert (X : (r + n) / c = 1) by lia. rewrite X.
      assert (~ r + n < c) by (rewrite <- D2; lia). nia. }
    rewrite chunkToOffset_small by (auto; nia).
    rewrite u64_small by nia.
    repeat split; auto; try lia.
  - left. destruct (Z.eqb_spec r 0); [lia|].
    assert ((r + n) / c = 0) by lia. rewrite D2 in H. split; [lia|].
    reflexivity.
Qed.

Lemma getChunk_len s k : len (chunks s) <= len (chunks (getChunk s k)).
Proof.
  unfold getChunk. destruct (k >=? len (chunks s)); simpl; [|lia].
  rewrite len_app. unfold len; simpl; lia.
Qed.

Lemma getChunk_covers s k :
  k <= len (chunks s) -> k < len (chunks (getChunk s k)).
Proof.
  unfold getChunk. destruct (Z.geb_spec k (len (chunks s))); simpl; [|lia].
  rewrite len_app. unfold len; simpl; lia.
Qed.

(** [Alloc] cannot fail on a store whose chunks cover its size, as long as
    sizes stay far from the end of the address space; the invariant is kept. *)
Lemma Alloc_succeeds s n :
  wf s -> covered s -> size s + 2 * chunksize s < 2 ^ 63 ->
  0 < n <= chunksize s ->
  exists off b s',
    Alloc s n = Some (off, b, s') /\ wf s' /\ covered s' /\
    size s <= off /\ size s' = off + n.
Proof.
  intros W [H0 Hcov] Hb Hn. pose proof (chunksize_pos s W) as Hc.
  pose proof (chunksize_bound s W) as Hcb.
  rewrite Alloc_unfold. rewrite to_int_chunksize by assumption.
  destruct (Z.ltb_spec 0 n); [|lia].
  destruct (Z.leb_spec n (chunksize s)); [|lia]. simpl.
  destruct (Z.eqb_spec (size s) closedSize); [unfold closedSize in *; lia|].
  pose proof (published_fields s n) as (Psz & Pcs & Psh & Pth & Pim & PW).
  specialize (PW W).
  assert (K : exists off, snd (fst (place s n)) = off /\
            snd (place s n) = off + n /\ size s <= off /\
            off + n < 2 ^ 63 /\
            off mod chunksize s + n <= chunksize s /\
            off / chunksize s < len (chunks (published s n)) /\
            (off + n) / chunksize s < len (chunks (published s n))).
  { unfold published.
    destruct (place_cases s n W H0 Hb Hn) as [[Hr E]|(k & Hk & Hk1 & Hk2 & E)];
      rewrite E; simpl.
    - exists (size s). repeat split; try lia.
      + match goal with |- context [if ?c then _ else _] => destruct c end;
          [eapply Z.lt_le_trans; [|apply getChunk_len]|]; simpl; lia.
      + assert (Hdv : (size s + n) / chunksize s = size s / chunksize s).
        { symmetry. apply Z.div_unique with (r := size s mod chunksize s + n).
          - left. pose proof (Z.mod_pos_bound (size s) (chunksize s) Hc). lia.
          - pose proof (Z.div_mod (size s) (chunksize s)). lia. }
        rewrite Hdv.
        match goal with |- context [if ?c then _ else _] => destruct c end;
          [eapply Z.lt_le_trans; [|apply getChunk_len]|]; simpl; lia.
    - exists (k * chunksize s).
      assert (Hm : (k * chunksize s) mod chunksize s = 0) by (apply Z.mod_mul; lia).
      assert (Hd : k * chunksize s / chunksize s = k) by (apply Z.div_mul; lia).
      set (s1 := if k >=? len (chunks s) then getChunk s k else s).
      assert (L1 : k < len (chunks s1)).
      { subst s1. destruct (Z.geb_spec k (len (chunks s))); [|lia].
        apply getChunk_covers. lia. }
      rewrite land_mask, Hm, Hd by assumption.
      rewrite offsetToChunk_small by (auto; lia). rewrite Hd.
      rewrite (wf_threshold _ W). rewrite u64_small by lia.
      repeat split; try lia.
      + match goal with |- context [if ?c then _ else _] => destruct c end;
          [eapply Z.lt_le_trans; [|apply getChunk_len]|]; simpl; lia.
      + destruct (Z.eq_dec n (chunksize s)) as [->|Hne].
        * replace (k * chunksize s + chunksize s) with ((k + 1) * chunksize s) by lia.
          rewrite Z.div_mul by lia.
          assert (T : chunksize s * 3 / 4 < chunksize s).
          { apply Z.div_lt_upper_bound; lia. }
          assert (T0 : 0 <= chunksize s * 3 / 4) by (apply Z.div_pos; lia).
          destruct (Z.leb_spec 0 (chunksize s * 3 / 4)); [|lia].
          destruct (Z.gtb_spec (0 + chunksize s) (chunksize s * 3 / 4)); [|lia].
          simpl. apply getChunk_covers. simpl. lia.
        * assert (Hdv : (k * chunksize s + n) / chunksize s = k).
          { symmetry. apply Z.div_unique with (r := n); lia. }
          rewrite Hdv.
          match goal with |- context [if ?c then _ else _] => destruct c end;
            [eapply Z.lt_le_trans; [|apply getChunk_len]|]; simpl; lia. }
  destruct K as (off & Eo & En & Hge & Hlt & Hfit & Hin & Hin2).
  rewrite Eo.
  assert (Ho : 0 <= off) by lia.
  assert (Hidx : 0 <= off / chunksize s) by (apply Z.div_pos; lia).
  unfold Data. rewrite Pcs.
  replace (offsetToChunk (published s n) off) with (off / chunksize s)
    by (unfold offsetToChunk; rewrite Psh; fold (offsetToChunk s off);
        rewrite offsetToChunk_small; auto; lia).
  destruct (index_lt (chunks (published s n)) (off / chunksize s) ltac:(lia))
    as [c Ec].
  rewrite Ec.
  assert (Lc : len c = chunksize s).
  { pose proof (wf_chunks _ PW) as Hall. rewrite Forall_forall in Hall.
    rewrite <- Pcs. apply Hall. eapply index_In; eauto. }
  rewrite land_mask by assumption.
  pose proof (Z.mod_pos_bound off (chunksize s) Hc) as Hmod.
  unfold slice_from. rewrite Lc.
  destruct (Z.leb_spec 0 (off mod chunksize s)); [|lia].
  destruct (Z.leb_spec (off mod chunksize s) (chunksize s)); [|lia]. simpl.
  unfold slice_to.
  assert (Ls : len (skipn (Z.to_nat (off mod chunksize s)) c)
               = chunksize s - off mod chunksize s).
  { unfold len in *. rewrite length_skipn. lia. }
  rewrite Ls.
  destruct (Z.leb_spec 0 n); [|lia].
  destruct (Z.leb_spec n (chunksize s - off mod chunksize s)); [|lia]. simpl.
  eexists _, _, _. split; [reflexivity|].
  split; [exact PW|]. split; [|split; [lia|rewrite Psz, En; reflexivity]].
  unfold covered. rewrite Psz, Pcs, En. split; [lia|assumption].
Qed.

(** C3. A successful [Alloc s n] has [0 < n <= chunksize], returns a slice of
    exactly [n] bytes, and the range [[off, off+n)] lies in one chunk: it ends
    at or before the end of the chunk [off] is in. When nothing wraps around,
    the allocation starts at the old size if it fits before the end of the
    current chunk, and otherwise at the beginning of the chunk the old size
    plus [n] falls in (the tail of the current chunk is wasted), and the new
    size is [off + n]. [Alloc] fails when [n] exceeds the chunk size. *)
Theorem Alloc_chunk_local (s : Stor) (n : Z) :
  wf s -> 0 <= size s ->
  (forall off b s', Alloc s n = Some (off, b, s') ->
     0 < n <= chunksize s /\ len b = n /\ 0 <= off /\
     off mod chunksize s + n <= chunksize s /\
     (off + n - 1) / chunksize s = off / chunksize s /\
     (size s + chunksize s < 2 ^ 63 ->
        off = (if size s mod chunksize s + n <? chunksize s then size s
               else chunksize s * ((size s + n) / chunksize s)) /\
        size s' = off + n)) /\
  (chunksize s < n -> Alloc s n = None).
Proof.
  intros W H0. pose proof (chunksize_pos s W) as Hc.
  pose proof (chunksize_bound s W) as Hcb.
  split.
  - intros off b s' E.
    pose proof E as E0. rewrite Alloc_unfold in E0.
    apply Alloc_Some in E.
    destruct E as (d & [Hn1 Hn2] & Hoff & HD & HS & Hsz & Hcs & Hsh & HW).
    rewrite to_int_chunksize in Hn2 by assumption.
    specialize (HW W).
    apply Data_Some in HD; [|assumption]. destruct HD as [Hd _].
    apply slice_to_len in HS. destruct HS as [Hb Hle].
    rewrite Hcs in Hd.
    assert (Ho : 0 <= off).
    { destruct Hoff as [->|[k ->]]; [lia | apply chunkToOffset_nonneg]. }
    assert (Hfit : off mod chunksize s + n <= chunksize s) by lia.
    repeat split; try lia.
    + apply same_chunk; lia.
    + destruct (negb _); [discriminate|].
      destruct (size s =? closedSize); [discriminate|].
      destruct (Data _ _); [|discriminate].
      destruct (slice_to _ _); [|discriminate].
      inversion E0. apply place_offset; auto; lia.
    + rewrite Hsz. apply u64_small.
      assert (Hpl : off = snd (fst (place s n))).
      { destruct (negb _); [discriminate|].
        destruct (size s =? closedSize); [discriminate|].
        destruct (Data _ _); [|discriminate].
        destruct (slice_to _ _); [|discriminate].
        inversion E0; reflexivity. }
      rewrite place_offset in Hpl by (auto; lia).
      destruct (_ <? _) in Hpl; [lia|].
      assert (chunksize s * ((size s + n) / chunksize s) <= size s + n)
        by (apply Z.mul_div_le; lia).
      lia.
  - intros Hn. unfold Alloc. rewrite to_int_chunksize by assumption.
    destruct (Z.leb_spec n (chunksize s)); [lia|].
    rewrite andb_false_r. reflexivity.
Qed.

Lemma wf_heap60 : wf heap60.
Proof.
  constructor; simpl; try lia; try reflexivity.
  - repeat constructor.
Defined.

Lemma Alloc_chunk_local_witness :
  exists off b s',
    Alloc heap60 10 = Some (off, b, s') /\ off = 64 /\
    0 < 10 <= chunksize heap60 /\ len b = 10 /\ 0 <= off /\
    off mod chunksize heap60 + 10 <= chunksize heap60 /\
    (off + 10 - 1) / chunksize heap60 = off / chunksize heap60.
Proof.
  eexists _, _, _. split; [vm_compute; reflexivity|]. split; [reflexivity|].
  assert (H0 : 0 <= size heap60) by (simpl; lia).
  destruct (Alloc_chunk_local heap60 10 wf_heap60 H0) as [H _].
  specialize (H _ _ _ eq_refl). intuition.
Defined.

End StorFacts.

Module CodecFacts.

Lemma firstn_exact {A} (a b : list A) n :
  n = length a -> firstn n (a ++ b) = a.
Proof.
  intros ->. rewrite firstn_app, Nat.sub_diag, firstn_all. simpl.
  apply app_nil_r.
Qed.

Lemma skipn_exact {A} (a b : list A) n :
  n = length a -> skipn n (a ++ b) = b.
Proof.
  intros ->. rewrite skipn_app, Nat.sub_diag, skipn_all. reflexivity.
Qed.

Lemma firstn_incl {A} (l : list A) n x : In x (firstn n l) -> In x l.
Proof. intros H. rewrite <- (firstn_skipn n l). apply in_or_app; auto. Qed.

Lemma skipn_incl {A} (l : list A) n x : In x (skipn n l) -> In x l.
Proof. intros H. rewrite <- (firstn_skipn n l). apply in_or_app; auto. Qed.

Lemma copy_at_app (pre rest d : list byte) n :
  n = length pre -> (length d <= length rest)%nat ->
  Stor.copy_at (pre ++ rest) n d = pre ++ d ++ skipn (length d) rest.
Proof.
  intros -> Hd. unfold Stor.copy_at.
  rewrite firstn_exact by reflexivity. f_equal.
  rewrite length_app.
  replace (length pre + length rest - length pre)%nat with (length rest) by lia.
  rewrite firstn_all2 by assumption. f_equal.
  rewrite skipn_app. rewrite skipn_all2 by lia. simpl.
  f_equal. lia.
Qed.

Lemma copy_at_length l lo d : length (Stor.copy_at l lo d) = length l.
Proof.
  unfold Stor.copy_at. rewrite !length_app, !length_firstn, length_skipn. lia.
Qed.

Lemma le_bytes_length n v : length (le_bytes n v) = n.
Proof. revert v; induction n; simpl; intros; auto. Qed.

Lemma le_value_bytes n v :
  0 <= v < 256 ^ Z.of_nat n -> le_value (le_bytes n v) = v.
Proof.
  revert v; induction n; intros v Hv.
  - simpl in *. lia.
  - cbn [le_bytes le_value]. rewrite IHn.
    + unfold to_byte. pose proof (Z.div_mod v 256). lia.
    + rewrite Nat2Z.inj_succ, Z.pow_succ_r in Hv by lia.
      split. apply Z.div_pos; lia. apply Z.div_lt_upper_bound; lia.
Qed.

Lemma be_value_bytes n v :
  0 <= v < 256 ^ Z.of_nat n -> be_value (be_bytes n v) = v.
Proof.
  intros. unfold be_value, be_bytes. rewrite rev_involutive.
  apply le_value_bytes; assumption.
Qed.

Lemma to_int_u64 t : - 2 ^ 63 <= t < 2 ^ 63 -> to_int (u64 t) = t.
Proof.
  intros H. unfold to_int, u64.
  destruct (Z_lt_le_dec t 0).
  - replace (t mod 2 ^ 64) with (t + 2 ^ 64).
    + destruct (Z.ltb_spec (t + 2 ^ 64) (2 ^ 63)); lia.
    + apply Z.mod_unique with (q := -1); lia.
  - rewrite Z.mod_small by lia. destruct (Z.ltb_spec t (2 ^ 63)); lia.
Qed.

Lemma bytes_eqb_refl a : bytes_eqb a a = true.
Proof. unfold bytes_eqb. destruct (list_eq_dec Z.eq_dec a a); congruence. Qed.

Lemma bytes_eqb_eq a b : bytes_eqb a b = true <-> a = b.
Proof.
  unfold bytes_eqb. destruct (list_eq_dec Z.eq_dec a b); split; congruence.
Qed.

Lemma ReadSmallOffset_Write o rest :
  0 <= o < 2 ^ 40 ->
  ReadSmallOffset (le_bytes SmallOffsetLen o ++ rest) = o.
Proof.
  intros H. unfold ReadSmallOffset.
  rewrite firstn_exact by (rewrite le_bytes_length; reflexivity).
  apply le_value_bytes. change (256 ^ Z.of_nat SmallOffsetLen) with (2 ^ 40). lia.
Qed.

End CodecFacts.

Module StorDataFacts.
Import Stor StorFacts CodecFacts.

Lemma put_fields s off d :
  size (put s off d) = size s /\ chunksize (put s off d) = chunksize s /\
  shift (put s off d) = shift s /\ threshold (put s off d) = threshold s /\
  impl (put s off d) = impl s.
Proof. unfold put; simpl; auto. Qed.

Lemma nth_error_update {A} (l : list A) c x y :
  nth_error l c = Some x ->
  nth_error (firstn c l ++ [y] ++ skipn (S c) l) c = Some y.
Proof.
  intros E. assert (c < length l)%nat by (apply nth_error_Some; congruence).
  rewrite nth_error_app2; rewrite length_firstn; [|lia].
  replace (c - Nat.min c (length l))%nat with O by lia. reflexivity.
Qed.

Lemma nth_error_update_other {A} (l : list A) c c' x y :
  nth_error l c = Some x -> c' <> c ->
  nth_error (firstn c l ++ [y] ++ skipn (S c) l) c' = nth_error l c'.
Proof.
  intros E Hne. assert (c < length l)%nat by (apply nth_error_Some; congruence).
  destruct (Nat.lt_ge_cases c' c).
  - rewrite nth_error_app1 by (rewrite length_firstn; lia).
    rewrite nth_error_firstn.
    destruct (Nat.ltb_spec c' c); [reflexivity|lia].
  - rewrite nth_error_app2 by (rewrite length_firstn; lia).
    rewrite length_firstn. replace (Nat.min c (length l)) with c by lia.
    destruct (c' - c)%nat as [|k] eqn:K; [lia|].
    change (nth_error (skipn (S c) l) k = nth_error l c').
    rewrite nth_error_skipn. f_equal. lia.
Qed.

(** Reading back what was written through a slice. *)
Lemma Data_put s off d buf :
  Data s off = Some d -> (length buf <= length d)%nat ->
  Data (put s off buf) off = Some (buf ++ skipn (length buf) d).
Proof.
  unfold Data, put, index.
  change (offsetToChunk (set_chunks s ?x) off) with (offsetToChunk s off).
  cbn [chunks chunksize set_chunks].
  destruct (Z.ltb_spec (offsetToChunk s off) 0); [discriminate|].
  destruct (nth_error (chunks s) (Z.to_nat (offsetToChunk s off))) as [ch|] eqn:E;
    [|discriminate].
  unfold slice_from.
  destruct (Z.leb_spec 0 (Z.land off (chunksize s - 1))); [|discriminate].
  destruct (Z.leb_spec (Z.land off (chunksize s - 1)) (len ch)); [|discriminate].
  cbn [andb]. intros X Hlen. inversion X; subst d; clear X.
  rewrite (nth_error_update _ _ _ _ E).
  destruct (Z.leb_spec 0 (Z.land off (chunksize s - 1))); [|lia].
  set (lo := Z.to_nat (Z.land off (chunksize s - 1))) in *.
  assert (Hlo : (lo <= length ch)%nat) by (unfold len in *; lia).
  rewrite length_skipn in Hlen.
  unfold len. rewrite copy_at_length.
  destruct (Z.leb_spec (Z.land off (chunksize s - 1)) (Z.of_nat (length ch)));
    [|unfold len in *; lia].
  cbn [andb]. f_equal.
  rewrite <- (firstn_skipn lo ch) at 1.
  rewrite copy_at_app.
  - rewrite skipn_exact; [reflexivity|]. rewrite length_firstn. lia.
  - rewrite length_firstn. lia.
  - rewrite length_skipn. lia.
Qed.

Lemma wf_put s off buf : wf s -> wf (put s off buf).
Proof.
  intros [A B T C D]. constructor; auto.
  unfold put. cbn [chunks chunksize set_chunks].
  rewrite Forall_forall in *. intros x Hx.
  apply in_app_or in Hx. destruct Hx as [Hx|Hx].
  - apply C. eapply firstn_incl; eauto.
  - apply in_app_or in Hx. destruct Hx as [Hx|Hx].
    + destruct (nth_error (chunks s) _) as [ch|] eqn:E; [|destruct Hx].
      destruct Hx as [<-|[]]. unfold len. rewrite copy_at_length.
      apply C. eapply nth_error_In; eauto.
    + apply C. eapply skipn_incl; eauto.
Qed.

End StorDataFacts.

Module StateFacts.
Import Stor StorFacts CodecFacts StorDataFacts State.

Section WithCksum.

Variable Sum : list byte -> list byte.
Variable Noffsets : nat.
Hypothesis Sum_len : forall d, length (Sum d) = cksumLen.

Local Abbreviation stateLen := (stateLen Noffsets).
Local Abbreviation magic2at := (magic2at Noffsets).
Local Abbreviation layout := (layout Sum).
Local Abbreviation fill := (fill Sum).
Local Abbreviation readState := (readState Sum Noffsets).
Local Abbreviation writeState := (writeState Sum Noffsets).

Lemma smalls_length offsets :
  length (smalls offsets) = (length offsets * SmallOffsetLen)%nat.
Proof.
  unfold smalls. induction offsets; [reflexivity|].
  cbn [map concat length]. rewrite length_app, le_bytes_length, IHoffsets.
  reflexivity.
Qed.

Lemma writeOffsets_app offsets : forall pre rest,
  (length offsets * SmallOffsetLen <= length rest)%nat ->
  writeOffsets (pre ++ rest) (length pre) offsets =
  (pre ++ smalls offsets ++ skipn (length offsets * SmallOffsetLen) rest,
   (length pre + length offsets * SmallOffsetLen)%nat).
Proof.
  induction offsets as [|o offsets IH]; intros pre rest H.
  - simpl. rewrite Nat.add_0_r. reflexivity.
  - cbn [writeOffsets]. unfold WriteSmallOffset.
    cbn [length] in H.
    assert (H5 : (SmallOffsetLen <= length rest)%nat)
      by (unfold SmallOffsetLen in *; lia).
    rewrite copy_at_app; [|reflexivity|rewrite le_bytes_length; exact H5].
    rewrite le_bytes_length.
    replace (length pre + SmallOffsetLen)%nat
      with (length (pre ++ le_bytes SmallOffsetLen o))
      by (rewrite length_app, le_bytes_length; reflexivity).
    rewrite app_assoc. rewrite IH.
    + rewrite length_app, le_bytes_length. unfold smalls. cbn [map concat].
      rewrite <- !app_assoc. rewrite skipn_skipn.
      replace (length offsets * SmallOffsetLen + SmallOffsetLen)%nat
        with (length (o :: offsets) * SmallOffsetLen)%nat
        by (cbn [length]; unfold SmallOffsetLen; lia).
      f_equal. cbn [length]. unfold SmallOffsetLen. lia.
    + rewrite length_skipn. unfold SmallOffsetLen in *. lia.
Qed.

Lemma protected_length offsets now :
  length offsets = Noffsets ->
  (length (protected offsets now) + cksumLen + length magic2 = stateLen)%nat.
Proof.
  intros H. unfold protected, State.stateLen, be_bytes.
  rewrite !length_app, length_rev, le_bytes_length.
  fold (smalls offsets). rewrite smalls_length, H. unfold dateSize. lia.
Qed.

(** The bytes [writeState] leaves in its buffer. *)
Lemma fill_layout buf0 offsets now :
  length buf0 = stateLen -> length offsets = Noffsets ->
  fill buf0 offsets now = (layout offsets now, stateLen).
Proof.
  intros Hb Ho. pose proof (protected_length offsets now Ho) as HP.
  unfold State.fill.
  assert (L8 : length (be_bytes 8 (u64 now)) = 8%nat)
    by (unfold be_bytes; rewrite length_rev, le_bytes_length; reflexivity).
  assert (Lm : length magic1 = 8%nat) by reflexivity.
  assert (Lm2 : length magic2 = 8%nat) by reflexivity.
  assert (HN : stateLen = (length magic1 + dateSize + Noffsets * SmallOffsetLen
                           + length magic2 + cksumLen)%nat) by reflexivity.
  unfold dateSize, cksumLen in *.
  change buf0 with ([] ++ buf0) at 1.
  rewrite copy_at_app by (simpl; lia).
  cbn [app]. rewrite copy_at_app; [|reflexivity|rewrite length_skipn; lia].
  rewrite L8, skipn_skipn. rewrite app_assoc.
  replace (length magic1 + 8)%nat with (length (magic1 ++ be_bytes 8 (u64 now)))
    by (rewrite length_app; lia).
  rewrite writeOffsets_app by (rewrite length_skipn; lia).
  rewrite skipn_skipn, Ho.
  set (rest := skipn _ buf0).
  assert (Lr : length rest = 12%nat) by (subst rest; rewrite length_skipn; lia).
  rewrite app_assoc. rewrite <- app_assoc with (n := smalls offsets).
  change (magic1 ++ be_bytes 8 (u64 now) ++ smalls offsets)
    with (protected offsets now).
  set (P := protected offsets now) in *.
  replace (length (magic1 ++ be_bytes 8 (u64 now)) + Noffsets * SmallOffsetLen + 4)%nat
    with (length P + 4)%nat
    by (rewrite length_app; lia).
  rewrite firstn_app, skipn_app.
  replace (length P + 4 - length P)%nat with 4%nat by lia.
  rewrite firstn_all2 by lia. rewrite skipn_all2 by lia. cbn [app].
  unfold cksumUpdate. rewrite length_app, length_firstn.
  replace (length P + Nat.min 4 (length rest) - cksumLen)%nat with (length P)
    by (unfold cksumLen; lia).
  rewrite firstn_exact by reflexivity.
  rewrite (copy_at_app P (firstn 4 rest) (Sum P));
    [|reflexivity|rewrite Sum_len, length_firstn; lia].
  rewrite Sum_len.
  rewrite skipn_all2 by (rewrite length_firstn; lia).
  rewrite app_nil_r.
  replace (length P + 4)%nat with (length (P ++ Sum P))
    by (rewrite length_app, Sum_len; reflexivity).
  rewrite copy_at_app; [|reflexivity|rewrite length_skipn; lia].
  rewrite skipn_all2 by (rewrite length_skipn; lia).
  rewrite app_nil_r. unfold State.layout. fold P.
  rewrite <- app_assoc. f_equal.
  rewrite length_app, Sum_len. unfold cksumLen. lia.
Qed.

Lemma readOffsets_smalls offsets : forall pre post,
  Forall (fun o => 0 <= o < 2 ^ 40) offsets ->
  readOffsets (pre ++ smalls offsets ++ post) (length pre) (length offsets)
  = offsets.
Proof.
  induction offsets as [|o offsets IH]; intros pre post H; [reflexivity|].
  inversion H; subst. cbn [length readOffsets]. f_equal.
  - rewrite skipn_exact by reflexivity. unfold smalls. cbn [map concat].
    rewrite <- app_assoc. apply ReadSmallOffset_Write. assumption.
  - unfold smalls. cbn [map concat]. fold (smalls offsets).
    replace (length pre + SmallOffsetLen)%nat
      with (length (pre ++ le_bytes SmallOffsetLen o))
      by (rewrite length_app, le_bytes_length; reflexivity).
    rewrite <- app_assoc. rewrite app_assoc. apply IH. assumption.
Qed.

(** Reading a buffer that holds the record gives back what was written. *)
Lemma read_layout st off d offsets now :
  Data st off = Some d ->
  firstn stateLen d = layout offsets now ->
  length offsets = Noffsets ->
  Forall (fun o => 0 <= o < 2 ^ 40) offsets ->
  - 2 ^ 63 <= now < 2 ^ 63 ->
  readState st off = Some (offsets, now).
Proof.
  intros HD HL Ho Hv Ht. pose proof (protected_length offsets now Ho) as HP.
  assert (Ll : length (layout offsets now) = stateLen).
  { unfold State.layout. rewrite !length_app, Sum_len. lia. }
  assert (Ld : (stateLen <= length d)%nat).
  { rewrite <- Ll, <- HL. rewrite length_firstn. lia. }
  unfold State.readState. rewrite HD.
  unfold slice_to, len.
  destruct (Z.leb_spec 0 (Z.of_nat stateLen)); [|lia].
  destruct (Z.leb_spec (Z.of_nat stateLen) (Z.of_nat (length d))); [|lia].
  cbn [andb]. rewrite Nat2Z.id, HL.
  unfold State.layout at 1, protected at 1.
  rewrite <- !app_assoc.
  rewrite firstn_exact by reflexivity. rewrite bytes_eqb_refl. cbn [negb].
  assert (Hm : magic2at = length (protected offsets now ++ Sum (protected offsets now))).
  { unfold State.magic2at. rewrite length_app, Sum_len. lia. }
  unfold State.layout at 1. rewrite app_assoc.
  rewrite firstn_exact by exact Hm.
  unfold cksumCheck. rewrite length_app, Sum_len.
  replace (length (protected offsets now) + cksumLen - cksumLen)%nat
    with (length (protected offsets now)) by lia.
  rewrite skipn_exact, firstn_exact by reflexivity.
  rewrite bytes_eqb_refl. cbn [negb].
  unfold sub at 1. unfold State.layout at 1. rewrite app_assoc.
  rewrite skipn_exact by exact Hm.
  rewrite firstn_all. rewrite bytes_eqb_refl. cbn [negb].
  f_equal. f_equal.
  - unfold State.layout, protected. rewrite <- !app_assoc.
    replace (length magic1 + dateSize)%nat
      with (length (magic1 ++ be_bytes 8 (u64 now)))
      by (rewrite length_app; unfold be_bytes;
          rewrite length_rev, le_bytes_length; reflexivity).
    rewrite app_assoc. rewrite <- Ho. apply readOffsets_smalls. assumption.
  - unfold sub, State.layout, protected. rewrite <- !app_assoc.
    rewrite skipn_exact by reflexivity.
    rewrite firstn_exact
      by (unfold be_bytes; rewrite length_rev, le_bytes_length; reflexivity).
    rewrite be_value_bytes by (change (256 ^ Z.of_nat 8) with (2 ^ 64); apply u64_range).
    apply to_int_u64. assumption.
Qed.

(** C4. Writing a state root and reading it back from the returned offset
    gives the same offsets and the same unix time; the bytes in the store are
    magic1 || time (8, big endian) || offsets (5 each) || checksum (4) ||
    magic2, the checksum being that of everything before it; and [readState]
    fails on any record whose magic1, checksum or magic2 does not match. *)
Theorem state_round_trip (store : Stor) (offsets : list Z) (now : Z) :
  wf store -> covered store -> size store + 2 * chunksize store < 2 ^ 63 ->
  Z.of_nat stateLen <= chunksize store ->
  length offsets = Noffsets ->
  Forall (fun o => 0 <= o < 2 ^ 40) offsets ->
  - 2 ^ 63 <= now < 2 ^ 63 ->
  (exists off store' d,
     writeState store offsets now = Some (off, store') /\
     readState store' off = Some (offsets, now) /\
     Data store' off = Some d /\
     firstn stateLen d = layout offsets now) /\
  (forall st off d buf,
     Data st off = Some d -> slice_to d (Z.of_nat stateLen) = Some buf ->
     firstn (length magic1) buf <> magic1 \/
     cksumCheck Sum (firstn magic2at buf) = false \/
     sub buf magic2at (length magic2) <> magic2 ->
     readState st off = None).
Proof.
  intros W Cov Hsz Hlen Ho Hv Ht. split.
  - assert (Hn : 0 < Z.of_nat stateLen <= chunksize store).
    { split; [|assumption]. unfold State.stateLen. simpl. lia. }
    destruct (Alloc_succeeds store _ W Cov Hsz Hn)
      as (off & buf0 & s1 & EA & W1 & C1 & _ & _).
    pose proof (Alloc_Some _ _ _ _ _ EA)
      as (d0 & _ & _ & HD & HS & _).
    pose proof (slice_to_len _ _ _ HS) as [Lb Ld].
    assert (Lb' : length buf0 = stateLen) by (unfold len in Lb; lia).
    pose proof (protected_length offsets now Ho) as HP.
    assert (Ll : length (layout offsets now) = stateLen).
    { unfold State.layout. rewrite !length_app, Sum_len. lia. }
    assert (HD' : Data (put s1 off (layout offsets now)) off
                  = Some (layout offsets now ++ skipn stateLen d0)).
    { pose proof (Data_put s1 off d0 (layout offsets now) HD) as X.
      rewrite Ll in X. apply X. unfold len in Ld. lia. }
    exists off, (put s1 off (layout offsets now)), (layout offsets now ++ skipn stateLen d0).
    assert (HF : firstn stateLen (layout offsets now ++ skipn stateLen d0)
                 = layout offsets now)
      by (apply firstn_exact; auto).
    split; [|split; [|split]]; auto.
    + unfold State.writeState. rewrite EA.
      rewrite (fill_layout buf0 offsets now Lb' Ho).
      rewrite Nat.eqb_refl. reflexivity.
    + eapply read_layout; eauto.
  - intros st off d buf HD HS Hbad.
    unfold State.readState. rewrite HD, HS.
    destruct (bytes_eqb (firstn (length magic1) buf) magic1) eqn:E1;
      [|reflexivity].
    destruct (cksumCheck Sum (firstn magic2at buf)) eqn:E2; [|reflexivity].
    destruct (bytes_eqb (sub buf magic2at (length magic2)) magic2) eqn:E3;
      [|reflexivity].
    apply bytes_eqb_eq in E1, E3. intuition congruence.
Qed.

End WithCksum.

Lemma sampleSum_len d : length (sampleSum d) = cksumLen.
Proof. apply le_bytes_length. Qed.

Lemma state_round_trip_witness :
  (exists off store' d,
     writeState sampleSum 2 heap60 [5; 70000] 1600000000 = Some (off, store') /\
     readState sampleSum 2 store' off = Some ([5; 70000], 1600000000) /\
     Data store' off = Some d /\
     firstn (stateLen 2) d = layout sampleSum [5; 70000] 1600000000) /\
  (forall st off d buf,
     Data st off = Some d -> slice_to d (Z.of_nat (stateLen 2)) = Some buf ->
     firstn (length magic1) buf <> magic1 \/
     cksumCheck sampleSum (firstn (magic2at 2) buf) = false \/
     sub buf (magic2at 2) (length magic2) <> magic2 ->
     readState sampleSum 2 st off = None).
Proof.
  apply (state_round_trip sampleSum 2 sampleSum_len heap60 [5; 70000] 1600000000).
  - exact wf_heap60.
  - split; [simpl; lia | vm_compute; reflexivity].
  - simpl; lia.
  - vm_compute; discriminate.
  - reflexivity.
  - repeat constructor; lia.
  - lia.
Defined.

End StateFacts.

Module TempIndexFacts.
Import Stor StorFacts CodecFacts StorDataFacts TempIndex.

Lemma multiMask_bits n :
  0 <= n -> Z.testbit multiMask n = (24 <=? n) && (n <? 40).
Proof.
  intros Hn. change multiMask with (Z.shiftl (Z.ones 16) 24).
  destruct (Z.leb_spec 24 n).
  - rewrite Z.shiftl_spec by lia.
    destruct (Z.ltb_spec n 40).
    + rewrite Z.ones_spec_low by lia. reflexivity.
    + rewrite Z.ones_spec_high by lia. reflexivity.
  - rewrite Z.shiftl_spec_low by lia. reflexivity.
Qed.

Lemma small_bits size n :
  0 <= size < 2 ^ 24 -> 24 <= n -> Z.testbit size n = false.
Proof.
  intros Hs Hn. destruct (Z.eq_dec size 0) as [->|]; [apply Z.bits_0|].
  apply Z.bits_above_log2; [lia|].
  assert (Z.log2 size < 24) by (apply Z.log2_lt_pow2; lia). lia.
Qed.

(** The tag [size|multiMask] and its decoding [off &^ multiMask]. *)
Lemma tag_land size : 0 <= size < 2 ^ 24 -> Z.land multiMask size = 0.
Proof.
  intros Hs. apply Z.bits_inj'. intros n Hn.
  rewrite Z.land_spec, Z.bits_0, multiMask_bits by assumption.
  destruct (Z.leb_spec 24 n); [|reflexivity].
  rewrite (small_bits size n) by lia. apply andb_false_r.
Qed.

Lemma tag_value size :
  0 <= size < 2 ^ 24 -> Z.lor multiMask size = multiMask + size.
Proof.
  intros Hs. pose proof (Z.add_lor_land multiMask size) as H.
  rewrite tag_land in H by assumption. lia.
Qed.

Lemma tag_size size :
  0 <= size < 2 ^ 24 -> Z.ldiff (Z.lor multiMask size) multiMask = size.
Proof.
  intros Hs. apply Z.bits_inj'. intros n Hn.
  rewrite Z.ldiff_spec, Z.lor_spec, multiMask_bits by assumption.
  destruct (Z.leb_spec 24 n).
  - rewrite (small_bits size n) by lia.
    destruct (n <? 40); reflexivity.
  - simpl. apply andb_true_r.
Qed.

Section WithTran.

Variable GetRecord : Z -> list byte.

Local Abbreviation getRec := (getRec GetRecord).
Local Abbreviation getRecs := (getRecs GetRecord).
Local Abbreviation get := (get GetRecord).
Local Abbreviation storable := (storable GetRecord).

Lemma encodeRec_length r :
  0 <= Off r ->
  len (encodeRec r) = 5 + (if Off r =? 0 then len (rec r) else 0).
Proof.
  intros H. unfold encodeRec.
  destruct (Z.gtb_spec (Off r) 0), (Z.eqb_spec (Off r) 0); try lia.
  - unfold len. rewrite le_bytes_length. reflexivity.
  - rewrite len_app. unfold len at 1. rewrite le_bytes_length. reflexivity.
Qed.

Lemma encodedSize_encoding row : forall n,
  Forall (fun r => 0 <= Off r) row ->
  encodedSize n row + 5 * len row = n + len (encoding row).
Proof.
  induction row as [|r row IH]; intros n H.
  - unfold len; simpl; lia.
  - inversion H; subst. cbn [encodedSize]. unfold encoding in *.
    cbn [map concat]. rewrite len_app, encodeRec_length by assumption.
    specialize (IH (if Off r =? 0 then n + len (rec r) else n) H3).
    unfold len in *. cbn [length]. destruct (Off r =? 0); lia.
Qed.

Lemma encodedSize_ge row : forall n, n <= encodedSize n row.
Proof.
  induction row as [|r row IH]; intros n; cbn [encodedSize]; [lia|].
  pose proof (len_nonneg (rec r)).
  specialize (IH (if Off r =? 0 then n + len (rec r) else n)).
  destruct (Off r =? 0); lia.
Qed.

Lemma encoding_cons r row : encoding (r :: row) = encodeRec r ++ encoding row.
Proof. reflexivity. Qed.

Lemma encodeRow_app row : forall pre rest,
  (length (encoding row) <= length rest)%nat ->
  encodeRow (pre ++ rest) (length pre) row
  = pre ++ encoding row ++ skipn (length (encoding row)) rest.
Proof.
  induction row as [|r row IH]; intros pre rest H; [reflexivity|].
  rewrite encoding_cons in *. rewrite length_app in H.
  cbn [encodeRow]. unfold encodeRec in *. unfold WriteSmallOffset.
  set (e := encoding row) in *.
  destruct (Off r >? 0).
  - rewrite le_bytes_length in H.
    rewrite copy_at_app; [|reflexivity|rewrite le_bytes_length; lia].
    rewrite le_bytes_length.
    replace (length pre + SmallOffsetLen)%nat
      with (length (pre ++ le_bytes SmallOffsetLen (Off r)))
      by (rewrite length_app, le_bytes_length; reflexivity).
    rewrite app_assoc, IH by (rewrite length_skipn; fold e; lia).
    fold e.
    rewrite <- !app_assoc, skipn_skipn, length_app, le_bytes_length.
    rewrite (Nat.add_comm (length e)). reflexivity.
  - rewrite length_app, le_bytes_length in H.
    rewrite copy_at_app; [|reflexivity|rewrite le_bytes_length; lia].
    rewrite le_bytes_length.
    set (tag := le_bytes SmallOffsetLen (Z.lor multiMask (Z.of_nat (length (rec r))))).
    assert (Lt : length tag = SmallOffsetLen) by apply le_bytes_length.
    replace (length pre + SmallOffsetLen)%nat with (length (pre ++ tag))
      by (rewrite length_app; lia).
    rewrite app_assoc.
    rewrite copy_at_app; [|reflexivity|rewrite length_skipn; lia].
    rewrite skipn_skipn.
    replace (length (pre ++ tag) + length (rec r))%nat
      with (length ((pre ++ tag) ++ rec r))
      by (rewrite !length_app; reflexivity).
    rewrite app_assoc, IH by (rewrite length_skipn; fold e; lia).
    fold e.
    rewrite <- !app_assoc, skipn_skipn, !length_app.
    fold (len (rec r)). change (Z.of_nat (length (rec r))) with (len (rec r)) in tag.
    fold tag. rewrite Lt.
    repeat (apply f_equal2; [reflexivity|]).
    f_equal. lia.
Qed.

(** Decoding one stored record. *)
Lemma getRec_encodeRec r post :
  storable r -> (Off r = 0 -> len (rec r) < 2 ^ 24) ->
  getRec (encodeRec r ++ post) = Some (post, rec r, Off r).
Proof.
  intros Hs Hl. unfold TempIndex.getRec, encodeRec.
  assert (L5 : forall v l, len (le_bytes SmallOffsetLen v ++ l) = 5 + len l).
  { intros. rewrite len_app. unfold len at 1. rewrite le_bytes_length. reflexivity. }
  pose proof (len_nonneg (rec r)) as Hr.
  destruct Hs as [H0|[Hoff Hrec]].
  - specialize (Hl H0). rewrite H0. cbn [Z.gtb Z.compare].
    rewrite <- app_assoc, L5.
    pose proof (len_nonneg (rec r ++ post)).
    destruct (Z.ltb_spec (5 + len (rec r ++ post)) (Z.of_nat SmallOffsetLen));
      [change (Z.of_nat SmallOffsetLen) with 5 in *; lia|].
    rewrite ReadSmallOffset_Write
      by (rewrite tag_value by lia; unfold multiMask; lia).
    unfold slice_from at 1. rewrite L5.
    destruct (Z.leb_spec (Z.of_nat SmallOffsetLen) (5 + len (rec r ++ post)));
      [|change (Z.of_nat SmallOffsetLen) with 5 in *; lia].
    cbn [Z.leb Z.compare Z.of_nat SmallOffsetLen andb].
    rewrite skipn_exact by (rewrite le_bytes_length; reflexivity).
    rewrite tag_size, tag_value by lia.
    destruct (Z.ltb_spec (multiMask + len (rec r)) multiMask); [lia|].
    unfold slice_to, slice_from. rewrite len_app.
    pose proof (len_nonneg post).
    destruct (Z.leb_spec 0 (len (rec r))); [|lia].
    destruct (Z.leb_spec (len (rec r)) (len (rec r) + len post)); [|lia].
    cbn [andb]. unfold len. rewrite Nat2Z.id.
    rewrite firstn_exact, skipn_exact by reflexivity.
    reflexivity.
  - destruct (Z.gtb_spec (Off r) 0); [|lia].
    rewrite L5. pose proof (len_nonneg post).
    destruct (Z.ltb_spec (5 + len post) (Z.of_nat SmallOffsetLen));
      [change (Z.of_nat SmallOffsetLen) with 5 in *; lia|].
    rewrite ReadSmallOffset_Write by (unfold multiMask in *; lia).
    unfold slice_from. rewrite L5.
    destruct (Z.leb_spec (Z.of_nat SmallOffsetLen) (5 + len post));
      [|change (Z.of_nat SmallOffsetLen) with 5 in *; lia].
    cbn [Z.leb Z.compare Z.of_nat SmallOffsetLen andb].
    rewrite skipn_exact by (rewrite le_bytes_length; reflexivity).
    destruct (Z.ltb_spec (Off r) multiMask); [|lia].
    rewrite <- Hrec. reflexivity.
Qed.

Lemma getRecs_encoding row : forall post,
  Forall storable row ->
  Forall (fun r => Off r = 0 -> len (rec r) < 2 ^ 24) row ->
  getRecs (length row) (encoding row ++ post) = Some row.
Proof.
  induction row as [|r row IH]; intros post Hs Hl; [reflexivity|].
  inversion Hs; inversion Hl; subst.
  unfold encoding. cbn [map concat length TempIndex.getRecs].
  rewrite <- app_assoc. rewrite getRec_encodeRec by assumption.
  fold (encoding row). rewrite IH by assumption.
  destruct r; reflexivity.
Qed.

Lemma derived_small row :
  Forall (fun r => 0 <= Off r) row ->
  len (encoding row) <= derivedMaxSize ->
  Forall (fun r => Off r = 0 -> len (rec r) < 2 ^ 24) row.
Proof.
  induction row as [|r row IH]; intros H Hl; constructor.
  - inversion H; subst. rewrite encoding_cons, len_app in Hl.
    rewrite encodeRec_length in Hl by assumption.
    pose proof (len_nonneg (encoding row)). intros E. rewrite E in Hl.
    cbn [Z.eqb] in Hl. unfold derivedMaxSize in Hl. lia.
  - inversion H; subst. apply IH; auto.
    rewrite encoding_cons, len_app in Hl.
    pose proof (len_nonneg (encodeRec r)). lia.
Qed.

Lemma storable_nonneg row :
  Forall storable row -> Forall (fun r => 0 <= Off r) row.
Proof.
  apply Forall_impl. intros r [H|[H _]]; lia.
Qed.

(** C9. A row of [nrecs] records, each derived (offset 0) or a database
    record below [multiMask] that the transaction gives back, whose encoding
    (5 bytes per record plus the bytes of the derived records) is at most
    [derivedMaxSize]: the row is stored, the stored bytes are the
    concatenation of the records' encodings (the bare offset, or
    size|multiMask followed by the record's bytes), and [get] at the returned
    offset gives the same row back. A row whose encoding is larger raises the
    "derived too large" error and nothing is stored. *)
Theorem multi_round_trip (nrecs : nat) (heap : Stor) (row : Row) :
  wf heap -> covered heap -> size heap + 2 * chunksize heap < 2 ^ 63 ->
  derivedMaxSize <= chunksize heap ->
  length row = nrecs -> (0 < nrecs)%nat ->
  Forall storable row ->
  let n := encodedSize (Z.of_nat nrecs * Z.of_nat SmallOffsetLen) row in
  (n <= derivedMaxSize ->
   exists off heap' d,
     storeRow nrecs heap row = Stored off heap' /\
     get nrecs heap' off = Some row /\
     Data heap' off = Some d /\
     firstn (length (encoding row)) d = encoding row) /\
  (derivedMaxSize < n -> storeRow nrecs heap row = TooLarge n).
Proof.
  intros W Cov Hsz Hcs Hlen Hpos Hst n.
  pose proof (storable_nonneg row Hst) as Hnn.
  assert (En : n = len (encoding row)).
  { subst n. pose proof (encodedSize_encoding row
      (Z.of_nat nrecs * Z.of_nat SmallOffsetLen) Hnn) as E.
    unfold len in *. rewrite Hlen in E.
    change (Z.of_nat SmallOffsetLen) with 5 in *. lia. }
  unfold storeRow. rewrite Hlen, Nat.eqb_refl. cbn [negb]. fold n.
  split.
  - intros Hle. destruct (Z.gtb_spec n derivedMaxSize); [lia|].
    assert (Hn : 0 < n <= chunksize heap).
    { split; [|lia]. subst n.
      pose proof (encodedSize_ge row (Z.of_nat nrecs * Z.of_nat SmallOffsetLen)).
      change (Z.of_nat SmallOffsetLen) with 5 in *. lia. }
    destruct (Alloc_succeeds heap n W Cov Hsz Hn)
      as (off & buf0 & s1 & EA & W1 & C1 & _ & _).
    rewrite EA.
    pose proof (Alloc_Some _ _ _ _ _ EA) as (d0 & _ & _ & HD & HS & _).
    pose proof (slice_to_len _ _ _ HS) as [Lb Ld].
    assert (Lb' : length buf0 = length (encoding row))
      by (unfold len in *; lia).
    assert (EB : encodeRow buf0 0 row = encoding row).
    { change buf0 with ([] ++ buf0) at 1. change 0%nat with (@length byte []).
      rewrite encodeRow_app by lia.
      rewrite skipn_all2 by lia. rewrite app_nil_r. reflexivity. }
    rewrite EB.
    pose proof (Data_put s1 off d0 (encoding row) HD) as HD'.
    exists off, (put s1 off (encoding row)),
      (encoding row ++ skipn (length (encoding row)) d0).
    assert (HDp : Data (put s1 off (encoding row)) off
                = Some (encoding row ++ skipn (length (encoding row)) d0))
      by (apply HD'; unfold len in *; lia).
    split; [reflexivity|]. split; [|split].
    + unfold TempIndex.get. rewrite HDp. rewrite <- Hlen.
      apply getRecs_encoding; [assumption|].
      apply derived_small; [assumption|lia].
    + exact HDp.
    + apply firstn_exact. reflexivity.
  - intros Hgt. destruct (Z.gtb_spec n derivedMaxSize); [reflexivity|lia].
Qed.

End WithTran.

Lemma wf_multiHeap : wf multiHeap.
Proof.
  constructor; simpl; try lia; try reflexivity.
  - repeat constructor.
Defined.

Lemma multi_round_trip_witness :
  exists off heap' d,
    storeRow 2 multiHeap [mkDbRec [7; 7; 7] 4096; mkDbRec [1; 2; 3; 4] 0]
      = Stored off heap' /\
    get sampleTran 2 heap' off
      = Some [mkDbRec [7; 7; 7] 4096; mkDbRec [1; 2; 3; 4] 0] /\
    Data heap' off = Some d /\
    firstn 14 d = [0; 16; 0; 0; 0] ++ [4; 0; 0; 255; 255] ++ [1; 2; 3; 4].
Proof.
  assert (Hs : Forall (storable sampleTran)
                 [mkDbRec [7; 7; 7] 4096; mkDbRec [1; 2; 3; 4] 0]).
  { constructor; [right; split; [unfold multiMask; simpl; lia | reflexivity]|].
    constructor; [left; reflexivity | constructor]. }
  assert (Hc : covered multiHeap)
    by (split; [simpl; lia | vm_compute; reflexivity]).
  assert (Hz : size multiHeap + 2 * chunksize multiHeap < 2 ^ 63)
    by (simpl; lia).
  assert (Hd : derivedMaxSize <= chunksize multiHeap)
    by (vm_compute; discriminate).
  destruct (multi_round_trip sampleTran 2 multiHeap
              [mkDbRec [7; 7; 7] 4096; mkDbRec [1; 2; 3; 4] 0]
              wf_multiHeap Hc Hz Hd eq_refl ltac:(lia) Hs) as [H _].
  apply H. vm_compute. discriminate.
Defined.

End TempIndexFacts.

Module SortFacts.

Section StableSort.
Context {A : Type} (less : A -> A -> bool).
Hypothesis less_asym : forall x y, less x y = true -> less y x = false.

Local Abbreviation ascending := (ascending less).

Lemma insertStable_perm x l : Permutation (insertStable less x l) (x :: l).
Proof.
  induction l as [|y l IH]; simpl; [reflexivity|].
  destruct (less y x); [|reflexivity].
  rewrite IH. apply perm_swap.
Qed.

Lemma sortStable_perm l : Permutation (sortStable less l) l.
Proof.
  induction l as [|x l IH]; simpl; [reflexivity|].
  rewrite insertStable_perm. constructor. assumption.
Qed.

Lemma insertStable_sorted x l :
  Sorted ascending l -> Sorted ascending (insertStable less x l).
Proof.
  induction l as [|y l IH]; intros H; simpl.
  - repeat constructor.
  - destruct (less y x) eqn:E.
    + inversion H; subst. constructor; [auto|].
      destruct l as [|z l]; simpl.
      * constructor. apply less_asym. assumption.
      * destruct (less z x); constructor.
        -- inversion H3; assumption.
        -- apply less_asym. assumption.
    + constructor; [assumption|]. constructor. exact E.
Qed.

Lemma sortStable_sorted l : Sorted ascending (sortStable less l).
Proof.
  induction l as [|x l IH]; simpl; [constructor|].
  apply insertStable_sorted. assumption.
Qed.

(** Stability: elements with the same key keep their order, for any key
    that [less] never separates. *)
Lemma insertStable_filter (p : A -> bool) x l :
  (forall y, p x = true -> p y = true -> less y x = false) ->
  filter p (insertStable less x l) = filter p (x :: l).
Proof.
  intros Hp. induction l as [|y l IH]; [reflexivity|].
  cbn [insertStable]. destruct (less y x) eqn:E; [|reflexivity].
  cbn [filter] in *. rewrite IH.
  destruct (p x) eqn:Px, (p y) eqn:Py; try reflexivity.
  rewrite Hp in E by auto. discriminate.
Qed.

Lemma sortStable_filter (p : A -> bool) l :
  (forall x y, p x = true -> p y = true -> less y x = false) ->
  filter p (sortStable less l) = filter p l.
Proof.
  intros Hp. induction l as [|x l IH]; [reflexivity|].
  cbn [sortStable]. rewrite insertStable_filter by (intros; apply Hp; auto).
  cbn [filter]. rewrite IH. reflexivity.
Qed.

End StableSort.

Lemma strLess_asym a b : strLess a b = true -> strLess b a = false.
Proof.
  unfold strLess. rewrite (String.compare_antisym b a).
  destruct (String.compare a b); simpl; congruence.
Qed.

Lemma strLess_irrefl a : strLess a a = false.
Proof.
  destruct (strLess a a) eqn:E; [|reflexivity].
  pose proof (strLess_asym _ _ E). congruence.
Qed.

End SortFacts.

Module SummarizeFacts.
Import Summarize SortFacts.
Local Open Scope string_scope.

Lemma zip3_maps (l : list agg) :
  zip3 (map aggCol l) (map aggOp l) (map aggOn l) = l.
Proof.
  induction l as [|[[c o] n] l IH]; simpl; [reflexivity|].
  rewrite IH. reflexivity.
Qed.

Lemma nameCols_spec cs : forall os ns named,
  parsed os ns -> nameCols cs os ns = Some named ->
  length named = length cs /\
  zip3 named os ns
  = map (fun a => (resultName a, aggOp a, aggOn a)) (zip3 cs os ns).
Proof.
  induction cs as [|c cs IH]; intros os ns named HP E.
  - inversion E; subst. split; reflexivity.
  - cbn [nameCols] in E. destruct os as [|o os]; [discriminate|].
    destruct ns as [|n ns]; [discriminate|].
    destruct (nameCols cs os ns) as [r|] eqn:Er; [|discriminate].
    inversion E; subst; clear E. inversion HP; subst.
    destruct (IH os ns r H4 Er) as [L Z3].
    split; [simpl; congruence|].
    cbn [zip3 map]. rewrite Z3. f_equal.
    unfold resultName, aggCol, aggOp, aggOn. cbn [fst snd].
    destruct (String.eqb_spec c ""); [|reflexivity].
    destruct (String.eqb_spec n ""), (String.eqb_spec o "count");
      try reflexivity; tauto.
Qed.

Lemma Less_asym a b : Less a b = true -> Less b a = false.
Proof. apply strLess_asym. Qed.

(** C10. The aggregates of a Summarize built by [NewSummarize] from parsed
    aggregates are the named input aggregates (an empty result name is
    replaced by "count" for count and by op_on otherwise, before sorting),
    stably sorted by the column aggregated: a permutation of the input, in
    ascending order of [ons], with aggregates on the same column in the
    order they were written. *)
Theorem NewSummarize_sorted (src : Source) (by_ cols ops ons : list string)
  (su : Summarize) :
  parsed ops ons ->
  NewSummarize src by_ cols ops ons = Some su ->
  let input := map (fun a => (resultName a, aggOp a, aggOn a)) (zip3 cols ops ons) in
  let aggs := zip3 (Summarize.cols su) (Summarize.ops su) (Summarize.ons su) in
  aggs = sortStable Less input /\
  Permutation aggs input /\
  Sorted (fun a b => strLess (aggOn b) (aggOn a) = false) aggs /\
  Sorted (fun a b => strLess b a = false) (Summarize.ons su) /\
  (forall on, filter (fun a => String.eqb (aggOn a) on) aggs
              = filter (fun a => String.eqb (aggOn a) on) input).
Proof.
  intros HP E input aggs. unfold NewSummarize in E.
  destruct (negb (Subset (Columns src) by_)); [discriminate|].
  destruct (negb (check by_)); [discriminate|].
  destruct (negb (check ons)); [discriminate|].
  destruct (nameCols cols ops ons) as [named|] eqn:En; [|discriminate].
  destruct (negb _); [discriminate|].
  inversion E; subst su; clear E. subst aggs. cbn [Summarize.cols Summarize.ops Summarize.ons].
  destruct (nameCols_spec _ _ _ _ HP En) as [_ Z3].
  rewrite zip3_maps, Z3. fold input.
  assert (S1 : Sorted (fun a b => strLess (aggOn b) (aggOn a) = false)
                 (sortStable Less input))
    by (apply (sortStable_sorted Less Less_asym)).
  split; [reflexivity|]. split; [apply sortStable_perm|].
  split; [exact S1|]. split.
  - clear - S1. induction S1 as [|a l HS IH HR]; simpl; constructor; auto.
    destruct HR; simpl; constructor; auto.
  - intros on. apply sortStable_filter.
    intros x y Hx Hy. apply String.eqb_eq in Hx, Hy.
    unfold Less. rewrite Hx, Hy. apply strLess_irrefl.
Qed.

Section Execution.

Context {Value : Type} {Row : Type}.
Variable Zero : Value.
Variable IntVal : Z -> Value.
Variable OpAdd : Value -> Value -> option Value.
Variable OpDiv : Value -> Value -> option Value.
Variable Unpack : string -> Value.
Variable NewSuObject : list Value -> Value.
Variable GetVal : Row -> string -> Value.
Variable GetRawVal : Row -> string -> string.
Variable mapLimit : Z.
Variable impossible : Z.
Variable hashCols : list string -> Z.

Local Abbreviation sumOp := (@sumOp Value Row).
Local Abbreviation add := (add OpAdd).
Local Abbreviation addAll := (addAll OpAdd).
Local Abbreviation result := (result IntVal OpDiv Unpack NewSuObject).
Local Abbreviation mapCost := (mapCost mapLimit impossible).
Local Abbreviation optimize := (optimize mapLimit impossible).
Local Abbreviation buildLoop :=
  (buildLoop Zero OpAdd GetVal GetRawVal mapLimit hashCols).
Local Abbreviation buildMap :=
  (buildMap Zero OpAdd GetVal GetRawVal mapLimit hashCols).

Lemma addAll_app (vals1 vals2 : list Value) (row : Row) : forall sum : sumOp,
  addAll sum (vals1 ++ vals2) row =
  match addAll sum vals1 row with
  | Some s => addAll s vals2 row
  | None => None
  end.
Proof.
  induction vals1 as [|v vals1 IH]; intros sum; [reflexivity|].
  cbn [app Summarize.addAll]. destruct (add sum "" v row); auto.
Qed.

(** The total and the average never leave [add] with a panic. *)
Lemma addAll_total (vals : list Value) (row : Row) : forall t,
  exists t', addAll (sumTotal t) vals row = Some (sumTotal t').
Proof.
  induction vals as [|v vals IH]; intros t; [eexists; reflexivity|].
  cbn [Summarize.addAll Summarize.add]. destruct (OpAdd t v); apply IH.
Qed.

Lemma addAll_average (vals : list Value) (row : Row) : forall c t,
  exists t', addAll (sumAverage c t) vals row
             = Some (sumAverage (c + Z.of_nat (length vals)) t').
Proof.
  induction vals as [|v vals IH]; intros c t.
  - exists t. cbn [Summarize.addAll length Z.of_nat]. rewrite Z.add_0_r.
    reflexivity.
  - cbn [Summarize.addAll Summarize.add].
    replace (c + Z.of_nat (length (v :: vals)))
      with (c + 1 + Z.of_nat (length vals)) by (cbn [length]; lia).
    destruct (OpAdd t v) as [t1|]; apply IH.
Qed.

(** The running total of an average does not depend on the count. *)
Lemma addAll_average_total (vals : list Value) (row : Row) :
  forall c c' t d t1 t2,
  addAll (sumAverage c t) vals row = Some (sumAverage d t1) ->
  addAll (sumAverage c' t) vals row = Some (sumAverage (d + (c' - c)) t2) ->
  t1 = t2.
Proof.
  induction vals as [|v vals IH]; intros c c' t d t1 t2 E1 E2.
  - cbn in *. congruence.
  - cbn [Summarize.addAll Summarize.add] in *.
    destruct (OpAdd t v) as [t'|];
      (eapply (IH (c + 1) (c' + 1)); [exact E1|]);
      replace (d + (c' + 1 - (c + 1))) with (d + (c' - c)) by lia; exact E2.
Qed.

(** C7, as the code has it. A row on which [OpAdd] fails never makes the
    total or the average fail. For the total the state, and so the result,
    is that of the rows without the failing one. For the average the running
    total is that of the rows without the failing one, but the failing row
    is counted: the count is one more than without it. *)
Theorem combiner_failure_suppressed (pre post : list Value) (v : Value)
  (row : Row) (t0 : Value) (c0 : Z) :
  (forall t, addAll (sumTotal (Row:=Row) t0) pre row = Some (sumTotal t) ->
             OpAdd t v = None ->
     exists r, addAll (sumTotal (Row:=Row) t0) (pre ++ v :: post) row = Some r /\
       addAll (sumTotal (Row:=Row) t0) (pre ++ post) row = Some r) /\
  (forall c t, addAll (sumAverage (Row:=Row) c0 t0) pre row
                 = Some (sumAverage c t) ->
               OpAdd t v = None ->
     exists c' t',
       addAll (sumAverage (Row:=Row) c0 t0) (pre ++ post) row
         = Some (sumAverage c' t') /\
       addAll (sumAverage (Row:=Row) c0 t0) (pre ++ v :: post) row
         = Some (sumAverage (c' + 1) t')).
Proof.
  split.
  - intros t E F. rewrite !addAll_app, E.
    cbn [Summarize.addAll Summarize.add]. rewrite F.
    destruct (addAll_total post row t) as [t' E']. exists (sumTotal t').
    auto.
  - intros c t E F. rewrite !addAll_app, E.
    cbn [Summarize.addAll Summarize.add]. rewrite F.
    destruct (addAll_average post row c t) as [t1 E1].
    destruct (addAll_average post row (c + 1) t) as [t2 E2].
    rewrite E1, E2.
    assert (t1 = t2).
    { eapply (addAll_average_total post row c (c + 1)); [exact E1|].
      replace (c + Z.of_nat (length post) + (c + 1 - c))
        with (c + 1 + Z.of_nat (length post)) by lia.
      exact E2. }
    subst t2. exists (c + Z.of_nat (length post)), t1. split; [reflexivity|].
    replace (c + Z.of_nat (length post) + 1)
      with (c + 1 + Z.of_nat (length post)) by lia.
    reflexivity.
Qed.

(** [mapCost] never looks at the mode (the FIXME in the source): below the
    row limit and without a required index it offers the map strategy in
    every mode. *)
Lemma mapCost_any_mode (su : Summarize) (nrows : Z) (srcCost : Mode -> Z * Z)
  (mode : Mode) :
  nrows <= mapLimit - mapLimit / 3 ->
  snd (mapCost su nrows srcCost mode None) = Some (mkApproach sumMap None 1).
Proof.
  intros H. unfold Summarize.mapCost. cbn [orb].
  destruct (Z.gtb_spec nrows (mapLimit - mapLimit / 3)); [lia|].
  destruct (srcCost mode). reflexivity.
Qed.

Lemma eqfn_refl (bys : list string) (k : Z * Row) : eqfn GetRawVal bys k k = true.
Proof.
  unfold eqfn, strsEqb. rewrite Z.eqb_refl.
  destruct (list_eq_dec string_dec _ _); [reflexivity|congruence].
Qed.

Lemma hmapPut_length (bys : list string) (k : Z * Row) (v : list sumOp) :
  forall m : hmap,
  length (hmapPut GetRawVal bys m k v)
  = match hmapGet GetRawVal bys m k with
    | Some _ => length m
    | None => S (length m)
    end.
Proof.
  induction m as [|[k' v'] m IH]; [reflexivity|].
  cbn [hmapPut hmapGet]. destruct (eqfn GetRawVal bys k' k); [reflexivity|].
  cbn [length]. rewrite IH. destruct (hmapGet _ _ _ _); reflexivity.
Qed.

Lemma hmapGet_put (bys : list string) (k : Z * Row) (v : list sumOp) :
  forall m : hmap,
  hmapGet GetRawVal bys (hmapPut GetRawVal bys m k v) k = Some v.
Proof.
  induction m as [|[k' v'] m IH].
  - cbn. rewrite eqfn_refl. reflexivity.
  - cbn [hmapPut]. destruct (eqfn GetRawVal bys k' k) eqn:E;
      cbn [hmapGet]; rewrite E; auto.
Qed.

(** The map of [buildMap] never holds more than [mapLimit] groups: a run
    that would exceed it ends in the panic. *)
Lemma buildLoop_limit (su : Summarize) (rows : list Row) :
  forall m m' : hmap,
  Stor.len m <= mapLimit ->
  buildLoop su m rows = Some m' -> Stor.len m' <= mapLimit.
Proof.
  induction rows as [|row rows IH]; intros m m' Hm E.
  - cbn in E. congruence.
  - cbn [Summarize.buildLoop] in E.
    set (rh := (hashCols (byVals GetRawVal (by_ su) row), row)) in *.
    destruct (hmapGet GetRawVal (by_ su) m rh) as [sums|] eqn:G.
    + cbn [andb] in E.
      destruct (addToSums _ _ _ _ _ _ _ _) as [sums'|]; [|discriminate].
      apply IH in E; auto.
      unfold Stor.len in *. rewrite hmapPut_length, G. assumption.
    + destruct (newSums Zero (ops su)) as [sums|]; [|discriminate].
      cbn [andb] in E.
      destruct (Z.gtb_spec (Stor.len (hmapPut GetRawVal (by_ su) m rh sums)) mapLimit);
        [discriminate|].
      destruct (addToSums _ _ _ _ _ _ _ _) as [sums'|]; [|discriminate].
      apply IH in E; auto.
      unfold Stor.len in *. rewrite hmapPut_length, hmapGet_put. assumption.
Qed.

Theorem buildMap_limit (su : Summarize) (rows : list Row)
  (l : list (Row * list sumOp)) :
  0 <= mapLimit -> buildMap su rows = Some l -> Stor.len l <= mapLimit.
Proof.
  intros H0 E. unfold Summarize.buildMap in E.
  destruct (buildLoop su [] rows) as [m|] eqn:B; [|discriminate].
  inversion E; subst. unfold Stor.len. rewrite length_map.
  apply (buildLoop_limit su rows [] m); auto.
Qed.

End Execution.

(** C7, on sample values: the string row fails to add and is not added to
    the total of either aggregate, yet the average counts it. *)
Lemma combiner_failure_suppressed_witness :
  (exists r,
     addAll sampleAdd (sumTotal (Row:=unit) (SuInt 0)) ([SuInt 2] ++ SuStr "x" :: [SuInt 4]) tt
       = Some r /\
     addAll sampleAdd (sumTotal (SuInt 0)) ([SuInt 2] ++ [SuInt 4]) tt = Some r) /\
  (exists c' t',
     addAll sampleAdd (sumAverage (Row:=unit) 0 (SuInt 0)) ([SuInt 2] ++ [SuInt 4]) tt
       = Some (sumAverage c' t') /\
     addAll sampleAdd (sumAverage 0 (SuInt 0)) ([SuInt 2] ++ SuStr "x" :: [SuInt 4]) tt
       = Some (sumAverage (c' + 1) t')).
Proof.
  destruct (combiner_failure_suppressed sampleAdd [SuInt 2] [SuInt 4] (SuStr "x")
              tt (SuInt 0) 0) as [HT HA].
  split.
  - apply (HT (SuInt 2)); reflexivity.
  - apply (HA 1 (SuInt 2)); reflexivity.
Defined.

(** C7 as stated fails for the average: with the rows 2, "x", 4 the row "x"
    makes [OpAdd] fail, and the average is 6/3 = 2, not the 6/2 = 3 of the
    rows without it. *)
Lemma average_counts_failing_row :
  sampleAdd (SuInt 2) (SuStr "x") = None /\
  aggregate (Row:=unit) (SuInt 0) SuInt sampleAdd sampleDiv SuStr (fun _ => SuInt 0)
    "average" [SuInt 2; SuStr "x"; SuInt 4] tt = Some (SuInt 2) /\
  aggregate (Row:=unit) (SuInt 0) SuInt sampleAdd sampleDiv SuStr (fun _ => SuInt 0)
    "average" [SuInt 2; SuInt 4] tt = Some (SuInt 3) /\
  aggregate (Row:=unit) (SuInt 0) SuInt sampleAdd sampleDiv SuStr (fun _ => SuInt 0)
    "average" [SuInt 2; SuStr "x"; SuInt 4] tt
  <> aggregate (Row:=unit) (SuInt 0) SuInt sampleAdd sampleDiv SuStr (fun _ => SuInt 0)
    "average" [SuInt 2; SuInt 4] tt.
Proof.
  repeat split; try reflexivity. vm_compute. discriminate.
Qed.

(** C8 at a failing input: an update-mode query whose rows are not ordered
    by the by-columns (no sequential strategy) and that is no single min or
    max (no index strategy) gets the map strategy. *)
Lemma sumMap_chosen_in_update_mode :
  let su := mkSummarize (mkSource ["a"; "b"] [["a"]] 10) ["b"] ["total_a"]
              ["total"] ["a"] false in
  let impossible := 1000000000 in
  snd (optimize 1024 impossible su 5 (fun _ => (100, 200))
         (impossible, impossible, None) (impossible, impossible, None)
         UpdateMode None)
  = Some (mkApproach sumMap None 1).
Proof. vm_compute. reflexivity. Qed.

Lemma NewSummarize_sorted_witness :
  exists su,
    NewSummarize (mkSource ["a"; "b"; "c"] [["a"]] 10) ["a"]
      [""; "n"; ""] ["total"; "count"; "max"] ["c"; ""; "b"] = Some su /\
    zip3 (Summarize.cols su) (Summarize.ops su) (Summarize.ons su)
      = [("n", "count", ""); ("max_b", "max", "b"); ("total_c", "total", "c")]%string /\
    Sorted (fun a b => strLess b a = false) (Summarize.ons su).
Proof.
  eexists. split; [vm_compute; reflexivity|].
  assert (HP : parsed ["total"; "count"; "max"] ["c"; ""; "b"]).
  { repeat constructor; intros; discriminate. }
  destruct (NewSummarize_sorted (mkSource ["a"; "b"; "c"] [["a"]] 10) ["a"]
              [""; "n"; ""] ["total"; "count"; "max"] ["c"; ""; "b"] _ HP eq_refl)
    as (H1 & _ & _ & H4 & _).
  split; [exact H1 | exact H4].
Defined.

End SummarizeFacts.

Module UnionFacts.
Import Union.

Lemma sorted_nth_lt l : sorted l -> forall i j a b,
  nth_error l i = Some a -> nth_error l j = Some b -> (i < j)%nat -> a < b.
Proof.
  induction 1 as [|x l HS IH HF]; intros i j a b Ha Hb Hij.
  - destruct i; discriminate.
  - destruct j as [|j]; [lia|]. destruct i as [|i]; simpl in *.
    + inversion Ha; subst. rewrite Forall_forall in HF. apply HF.
      eapply nth_error_In; eauto.
    + eapply IH; eauto. lia.
Qed.

Lemma sorted_nth_le l : sorted l -> forall i j a b,
  nth_error l i = Some a -> nth_error l j = Some b -> (i <= j)%nat -> a <= b.
Proof.
  intros HS i j a b Ha Hb Hij.
  destruct (Nat.eq_dec i j) as [->|Hne]; [rewrite Ha in Hb; inversion Hb; lia|].
  pose proof (sorted_nth_lt l HS i j a b Ha Hb). lia.
Qed.

(** In a sorted list a smaller row stands at a smaller index. *)
Lemma sorted_index_lt l : sorted l -> forall i j a b,
  nth_error l i = Some a -> nth_error l j = Some b -> a < b -> (i < j)%nat.
Proof.
  intros HS i j a b Ha Hb Hab.
  destruct (Nat.lt_ge_cases i j); [assumption|].
  pose proof (sorted_nth_le l HS j i b a Hb Ha). lia.
Qed.

Lemma fromEnd_spec rows d :
  sorted rows ->
  advance d rows (dstart d) (snd (fromEnd rows d)) /\
  located rows (fst (fromEnd rows d)) d (snd (fromEnd rows d)).
Proof.
  intros HS. destruct d; unfold fromEnd, enter.
  - destruct (nth_error rows 0) as [r|] eqn:E; cbn [fst snd advance located].
    + split; [|eauto]. split; [eapply nth_error_In; eauto|]. split; [exact I|].
      intros z Hz _. apply In_nth_error in Hz. destruct Hz as [j Hj].
      cbn [nearer]. eapply (sorted_nth_le rows HS 0 j); eauto. lia.
    + split; [|reflexivity]. intros z Hz.
      destruct rows; [destruct Hz | discriminate].
  - destruct (length rows) as [|n] eqn:L; cbn [fst snd advance located].
    + split; [|reflexivity]. intros z Hz. destruct rows; [destruct Hz|discriminate].
    + destruct (nth_error rows n) as [r|] eqn:E; cbn [fst snd advance located].
      * split; [|eauto]. split; [eapply nth_error_In; eauto|]. split; [exact I|].
        intros z Hz _. apply In_nth_error in Hz. destruct Hz as [j Hj].
        cbn [nearer]. eapply (sorted_nth_le rows HS j n); eauto.
        assert (j < length rows)%nat by (apply nth_error_Some; congruence). lia.
      * apply nth_error_None in E. lia.
Qed.

(** What a Get of a cursor over sorted rows delivers. *)
Lemma cursorGet_spec st d rows p b :
  sorted rows -> standsAt rows st p d b ->
  advance d rows b (snd (cursorGet st d rows p)) /\
  located rows (fst (cursorGet st d rows p)) d (snd (cursorGet st d rows p)).
Proof.
  intros HS HP. destruct p as [|i|d0]; cbn [standsAt cursorGet] in *.
  - subst b. apply fromEnd_spec; assumption.
  - destruct HP as (x & Hx & ->). destruct d.
    + unfold enter. destruct (nth_error rows (S i)) as [y|] eqn:E;
        cbn [fst snd advance located].
      * split; [|eauto]. split; [eapply nth_error_In; eauto|].
        split; [cbn; eapply (sorted_nth_lt rows HS i (S i)); eauto|].
        intros z Hz Hb. cbn in Hb. apply In_nth_error in Hz. destruct Hz as [j Hj].
        pose proof (sorted_index_lt rows HS i j x z Hx Hj Hb).
        cbn [nearer]. eapply (sorted_nth_le rows HS (S i) j); eauto.
      * split; [|reflexivity]. intros z Hz Hb. cbn in Hb.
        apply In_nth_error in Hz. destruct Hz as [j Hj].
        pose proof (sorted_index_lt rows HS i j x z Hx Hj Hb).
        apply nth_error_None in E.
        assert (j < length rows)%nat by (apply nth_error_Some; congruence). lia.
    + destruct i as [|j]; cbn [fst snd advance located].
      * split; [|reflexivity]. intros z Hz Hb. cbn in Hb.
        apply In_nth_error in Hz. destruct Hz as [j Hj].
        pose proof (sorted_nth_le rows HS 0 j x z Hx Hj). lia.
      * unfold enter. destruct (nth_error rows j) as [y|] eqn:E;
          cbn [fst snd advance located].
        -- split; [|eauto]. split; [eapply nth_error_In; eauto|].
           split; [cbn; eapply (sorted_nth_lt rows HS j (S j)); eauto|].
           intros z Hz Hb. cbn in Hb. apply In_nth_error in Hz.
           destruct Hz as [m Hm].
           pose proof (sorted_index_lt rows HS m (S j) z x Hm Hx Hb).
           cbn [nearer]. eapply (sorted_nth_le rows HS m j); eauto. lia.
        -- apply nth_error_None in E.
           assert (S j < length rows)%nat by (apply nth_error_Some; congruence).
           lia.
  - destruct HP as [-> Hd].
    destruct (st || dirEqb d d0) eqn:C.
    + assert (d0 = d).
      { destruct Hd as [Hd|Hd]; [assumption|]. subst st.
        destruct d, d0; simpl in C; congruence. }
      subst d0. cbn [fst snd advance located]. split; [|reflexivity].
      intros z _. destruct d; simpl; tauto.
    + assert (dend d0 = dstart d).
      { apply orb_false_iff in C. destruct C as [_ C].
        destruct d, d0; simpl in *; congruence. }
      rewrite H. apply fromEnd_spec; assumption.
Qed.

(** The row past a bound is unique. *)
Lemma advance_unique d s b o o' :
  advance d s b o -> advance d s b o' -> o = o'.
Proof.
  destruct o as [y|], o' as [y'|]; cbn [advance]; intros H H'.
  - destruct H as (I1 & B1 & M1), H' as (I2 & B2 & M2).
    specialize (M1 _ I2 B2). specialize (M2 _ I1 B1).
    f_equal. destruct d; simpl in *; lia.
  - destruct H as (I1 & B1 & _). exfalso. eapply H'; eauto.
  - destruct H' as (I1 & B1 & _). exfalso. eapply H; eauto.
  - reflexivity.
Qed.

Lemma beyond_trans d b x z :
  beyond d b x -> beyond d (Fin x) z -> beyond d b z.
Proof. destruct d, b; simpl; intros; lia || tauto. Qed.

Lemma beyond_nearer d b x z :
  beyond d b x -> nearer d x z -> beyond d b z.
Proof. destruct d, b; simpl; intros; lia || tauto. Qed.

(** Bounds with the same rows past them have the same first row past them. *)
Lemma advance_same d s b b' o :
  (forall z, In z s -> (beyond d b z <-> beyond d b' z)) ->
  advance d s b o -> advance d s b' o.
Proof.
  intros Hs. destruct o as [y|]; cbn [advance].
  - intros (I & B & M). split; [assumption|]. split; [apply Hs; assumption|].
    intros z Iz Bz. apply M; [assumption|]. apply Hs; assumption.
  - intros H z Iz Bz. apply (H z Iz). apply Hs; assumption.
Qed.

Lemma dirEqb_eq a b : dirEqb a b = true <-> a = b.
Proof. destruct a, b; simpl; split; congruence. Qed.

Lemma dend_dstart d d' : d' <> d -> dend d = dstart d'.
Proof. destruct d, d'; simpl; congruence. Qed.

Lemma Get_items s d : items (fst (Get s d)) = items s.
Proof. unfold Get. destruct (cursorGet _ _ _ _). reflexivity. Qed.

(** A Get of a source of a standing union, after the rewind [get1]/[get2]
    do when they hold no row and the direction changed: the source delivers
    its first row past the bound the union stands at. It is called on a
    source the last row came from, and on both when the direction changed. *)
Lemma source_get_spec s d d' b row flag :
  sorted (items s) -> side d b s row flag -> flag = true \/ d' <> d ->
  let s0 := if negb (dirEqb d' d) && isNil row then Rewind s else s in
  advance d' (items s) b (snd (Get s0 d')) /\
  located (items s) (at_ (fst (Get s0 d'))) d' (snd (Get s0 d')).
Proof.
  intros HS [HL HF] Hc s0.
  assert (G : forall s1 b1, items s1 = items s ->
            standsAt (items s) (sticky s1) (at_ s1) d' b1 ->
            advance d' (items s) b1 (snd (Get s1 d')) /\
            located (items s) (at_ (fst (Get s1 d'))) d' (snd (Get s1 d'))).
  { intros s1 b1 Hi HP. pose proof (cursorGet_spec _ _ _ _ _ HS HP) as X.
    unfold Get. rewrite Hi. destruct (cursorGet _ _ _ _). exact X. }
  destruct (dirEqb d' d) eqn:E.
  - apply dirEqb_eq in E. subst d'. destruct Hc as [->|]; [|congruence].
    subst s0. cbn [negb andb]. apply G; [reflexivity|].
    destruct HF as [Hr Hn]. destruct row as [k|]; cbn [located] in HL.
    + destruct HL as (i & -> & Hi). destruct b; try discriminate.
      inversion Hr; subst. cbn. eauto.
    + rewrite HL. cbn. split; [apply Hn; reflexivity|auto].
  - assert (Hne : d' <> d) by (intros ->; destruct d; discriminate).
    subst s0. cbn [negb andb]. destruct row as [y|]; cbn [isNil located] in *.
    + destruct HL as (i & Hat & Hi).
      destruct flag.
      * destruct HF as [Hr _]. destruct b; try discriminate. inversion Hr; subst.
        apply G; [reflexivity|]. rewrite Hat. cbn. eauto.
      * destruct HF as (k & -> & HA & Hk).
        destruct (G s (Fin y) eq_refl) as [A L]; [rewrite Hat; cbn; eauto|].
        split; [|exact L]. eapply advance_same; [|exact A].
        destruct HA as (Iy & By & My). intros z Iz. split; intros Bz.
        -- destruct d, d'; try congruence; cbn in *;
             destruct (Z.eq_dec z k); try (subst; tauto);
             destruct (Z_lt_le_dec z k); try lia;
             specialize (My z Iz); lia.
        -- destruct d, d'; try congruence; cbn in *; lia.
    + assert (Hb : (forall z, In z (items s) ->
                      (beyond d' (dstart d') z <-> beyond d' b z))).
      { destruct flag.
        - destruct HF as [_ Hn]. rewrite (Hn eq_refl), (dend_dstart d d' Hne).
          tauto.
        - destruct HF as (k & -> & HA & Hk). cbn [advance] in HA.
          intros z Iz. specialize (HA z Iz).
          destruct d, d'; try congruence; cbn in *;
            (split; [intros _|tauto]);
            destruct (Z.eq_dec z k); try (subst; tauto); lia. }
      destruct (G (Rewind s) (dstart d') eq_refl) as [A L]; [reflexivity|].
      split; [|exact L]. eapply advance_same; [exact Hb|exact A].
Qed.

Lemma source_get_fresh s d' :
  sorted (items s) -> at_ s = Rewound -> forall c : bool,
  let s0 := if c then Rewind s else s in
  advance d' (items s) (dstart d') (snd (Get s0 d')) /\
  located (items s) (at_ (fst (Get s0 d'))) d' (snd (Get s0 d')).
Proof.
  intros HS Hat c s0.
  assert (Hi : items s0 = items s) by (subst s0; destruct c; reflexivity).
  assert (HP : standsAt (items s) (sticky s0) (at_ s0) d' (dstart d')).
  { subst s0. destruct c; [reflexivity|]. rewrite Hat. reflexivity. }
  pose proof (cursorGet_spec _ _ _ _ _ HS HP) as X.
  unfold Get. rewrite Hi. destruct (cursorGet _ _ _ _). exact X.
Qed.

Lemma get1_eq dir u :
  get1 dir u =
  let s0 := if negb (isPrevDir u dir) && isNil (row1 u)
            then Rewind (source1 u) else source1 u in
  mkUnion (fst (Get s0 dir)) (source2 u) (rewound u) (src1 u) (src2 u)
    (snd (Get s0 dir)) (row2 u) (prevDir u).
Proof. unfold get1. destruct (Get _ dir). reflexivity. Qed.

Lemma get2_eq dir u :
  get2 dir u =
  let s0 := if negb (isPrevDir u dir) && isNil (row2 u)
            then Rewind (source2 u) else source2 u in
  mkUnion (source1 u) (fst (Get s0 dir)) (rewound u) (src1 u) (src2 u)
    (row1 u) (snd (Get s0 dir)) (prevDir u).
Proof. unfold get2. destruct (Get _ dir). reflexivity. Qed.

Lemma Get_items_if s d (c : bool) :
  items (fst (Get (if c then Rewind s else s) d)) = items s.
Proof. destruct c; rewrite Get_items; reflexivity. Qed.

Lemma merge_nil_r l : merge l [] = l.
Proof. destruct l; reflexivity. Qed.

Lemma merge_cons a l1 b l2 :
  merge (a :: l1) (b :: l2) =
  if a <? b then a :: merge l1 (b :: l2)
  else if b <? a then b :: merge (a :: l1) l2
  else a :: merge l1 l2.
Proof. reflexivity. Qed.

Lemma merge_In l1 : forall l2 z, In z (merge l1 l2) <-> In z l1 \/ In z l2.
Proof.
  induction l1 as [|a l1 IH1]; intros l2 z.
  - destruct l2; simpl; tauto.
  - induction l2 as [|b l2 IH2].
    + simpl; tauto.
    + rewrite merge_cons.
      destruct (Z.ltb_spec a b); [cbn [In]; rewrite IH1; cbn [In]; tauto|].
      destruct (Z.ltb_spec b a).
      * cbn [In]. rewrite IH2. cbn [In]. tauto.
      * assert (a = b) as -> by lia.
        cbn [In]. rewrite IH1. tauto.
Qed.

Lemma merge_sorted l1 : forall l2,
  sorted l1 -> sorted l2 -> sorted (merge l1 l2).
Proof.
  unfold sorted.
  induction l1 as [|a l1 IH1]; intros l2 H1 H2.
  - destruct l2; assumption.
  - induction l2 as [|b l2 IH2]; [assumption|].
    rewrite merge_cons. inversion H1; subst. inversion H2; subst.
    rewrite Forall_forall in *.
    destruct (Z.ltb_spec a b).
    + constructor; [apply IH1; assumption|].
      rewrite Forall_forall. intros z Hz. apply merge_In in Hz.
      destruct Hz as [Hz|[<-|Hz]]; auto. specialize (H6 z Hz). lia.
    + destruct (Z.ltb_spec b a).
      * constructor; [apply IH2; assumption|].
        rewrite Forall_forall. intros z Hz. apply merge_In in Hz.
        destruct Hz as [[<-|Hz]|Hz]; auto. specialize (H4 z Hz). lia.
      * assert (a = b) by lia. subst b.
        constructor; [apply IH1; assumption|].
        rewrite Forall_forall. intros z Hz. apply merge_In in Hz.
        destruct Hz as [Hz|Hz]; auto.
Qed.

(** The source that did not deliver the reported row [r] holds its first
    row past [r], and [r] is not one of its rows. *)
Lemma side_other d b s r o :
  advance d s b o -> beyond d b r ->
  match o with Some y => snearer d r y | None => True end ->
  advance d s (Fin r) o /\ ~ In r s.
Proof.
  intros HA HB HS. destruct o as [y|]; cbn [advance] in *.
  - destruct HA as (Iy & By & My). split.
    + split; [assumption|]. split; [destruct d; exact HS|].
      intros z Iz Bz. apply My; [assumption|]. eapply beyond_trans; eauto.
    + intros Ir. specialize (My r Ir HB). destruct d; simpl in *; lia.
  - split.
    + intros z Iz Bz. apply (HA z Iz). eapply beyond_trans; eauto.
    + intros Ir. apply (HA r Ir HB).
Qed.

Lemma advance_lower d s b o r :
  advance d s b o ->
  match o with Some y => nearer d r y | None => True end ->
  forall z, In z s -> beyond d b z -> nearer d r z.
Proof.
  intros HA HN z Iz Bz. destruct o as [y|]; cbn [advance] in HA.
  - destruct HA as (_ & _ & My). specialize (My z Iz Bz).
    destruct d; simpl in *; lia.
  - exfalso. apply (HA z Iz Bz).
Qed.

Section Merge.

Variables rows1 rows2 : list Row.
Hypothesis sorted1 : sorted rows1.
Hypothesis sorted2 : sorted rows2.

Local Abbreviation over := (over rows1 rows2).
Local Abbreviation filled := (filled rows1 rows2).

Lemma Dir_eq_dec (a b : Dir) : {a = b} + {a <> b}.
Proof. decide equality. Defined.

(** The refill of a standing union. *)
Lemma refill_standing u d b d' :
  over u -> standing u d b ->
  over (refill d' u) /\ filled (refill d' u) d' b /\
  rewound (refill d' u) = false.
Proof.
  intros [O1 O2] (HR & HP & S1 & S2 & HF).
  assert (IP : isPrevDir u d' = dirEqb d' d) by (unfold isPrevDir; rewrite HP; reflexivity).
  assert (G1 : src1 u = true \/ d' <> d ->
          advance d' rows1 b
            (snd (Get (if negb (dirEqb d' d) && isNil (row1 u)
                       then Rewind (source1 u) else source1 u) d')) /\
          located rows1
            (at_ (fst (Get (if negb (dirEqb d' d) && isNil (row1 u)
                            then Rewind (source1 u) else source1 u) d')))
            d'
            (snd (Get (if negb (dirEqb d' d) && isNil (row1 u)
                       then Rewind (source1 u) else source1 u) d'))).
  { intros Hc. rewrite <- O1. apply (source_get_spec _ d d' b _ (src1 u));
      [rewrite O1; assumption|assumption|assumption]. }
  assert (G2 : src2 u = true \/ d' <> d ->
          advance d' rows2 b
            (snd (Get (if negb (dirEqb d' d) && isNil (row2 u)
                       then Rewind (source2 u) else source2 u) d')) /\
          located rows2
            (at_ (fst (Get (if negb (dirEqb d' d) && isNil (row2 u)
                            then Rewind (source2 u) else source2 u) d')))
            d'
            (snd (Get (if negb (dirEqb d' d) && isNil (row2 u)
                       then Rewind (source2 u) else source2 u) d'))).
  { intros Hc. rewrite <- O2. apply (source_get_spec _ d d' b _ (src2 u));
      [rewrite O2; assumption|assumption|assumption]. }
  assert (K1 : src1 u = false -> d' = d ->
               advance d' rows1 b (row1 u) /\
               located rows1 (at_ (source1 u)) d' (row1 u)).
  { intros F ->. destruct S1 as [L X]. rewrite F in X.
    destruct X as (k & _ & A & _). rewrite <- O1. auto. }
  assert (K2 : src2 u = false -> d' = d ->
               advance d' rows2 b (row2 u) /\
               located rows2 (at_ (source2 u)) d' (row2 u)).
  { intros F ->. destruct S2 as [L X]. rewrite F in X.
    destruct X as (k & _ & A & _). rewrite <- O2. auto. }
  clear S1 S2.
  destruct (src1 u) eqn:F1, (src2 u) eqn:F2; try discriminate;
    (destruct (Dir_eq_dec d' d) as [Heq|Hne];
     [ assert (E : dirEqb d' d = true) by (apply dirEqb_eq; assumption)
     | assert (E : dirEqb d' d = false)
         by (destruct (dirEqb d' d) eqn:X; [apply dirEqb_eq in X; congruence|reflexivity]) ]);
    unfold refill; rewrite HR, F1, F2, IP; cbn [orb andb];
    rewrite ?E; cbn [negb];
    rewrite ?get2_eq, ?get1_eq; unfold isPrevDir; cbn -[Get dirEqb];
    rewrite ?HP;
    unfold Union.over, Union.filled; cbn -[Get dirEqb];
    rewrite ?Get_items_if;
    try (destruct (G1 ltac:(auto)) as [A1 L1]);
    try (destruct (G2 ltac:(auto)) as [A2 L2]);
    try (destruct (K1 eq_refl Heq) as [A1 L1]);
    try (destruct (K2 eq_refl Heq) as [A2 L2]);
    repeat split; assumption.
Qed.

(** The refill of a rewound union. *)
Lemma refill_fresh u d' :
  over u -> fresh u ->
  over (refill d' u) /\ filled (refill d' u) d' (dstart d').
Proof.
  intros [O1 O2] (HR & P1 & P2).
  unfold refill. rewrite HR. cbn [orb].
  rewrite get2_eq, get1_eq. unfold isPrevDir. cbn -[Get dirEqb].
  unfold Union.over, Union.filled. cbn -[Get dirEqb].
  rewrite !Get_items_if.
  pose proof (source_get_fresh (source1 u) d' ltac:(rewrite O1; assumption) P1) as X1.
  pose proof (source_get_fresh (source2 u) d' ltac:(rewrite O2; assumption) P2) as X2.
  rewrite O1 in X1. rewrite O2 in X2.
  repeat split; try assumption; try apply X1; try apply X2.
Qed.

(** The choice of the row to report, and the state it leaves. *)
Lemma UnionGet_spec u d b :
  over (refill d u) -> filled (refill d u) d b ->
  over (fst (UnionGet u d)) /\
  standing (fst (UnionGet u d)) d (reached d (snd (UnionGet u d))) /\
  advance d (merge rows1 rows2) b (snd (UnionGet u d)).
Proof.
  unfold UnionGet, getMerge. set (v := refill d u).
  intros [O1 O2] (A1 & L1 & A2 & L2).
  assert (HU : forall z, In z (merge rows1 rows2) <-> In z rows1 \/ In z rows2)
    by (intro; apply merge_In).
  unfold choose.
  destruct (row1 v) as [r1|] eqn:R1, (row2 v) as [r2|] eqn:R2.
  - unfold compare.
    destruct (Z.compare_spec r1 r2) as [Heq|Hlt|Hgt].
    + (* the same row in both sources *)
      subst r2. cbn -[merge].
      split; [split; assumption|]. split.
      * unfold standing, side. cbn. rewrite O1, O2, R1, R2.
        repeat split; auto; discriminate.
      * destruct A1 as (I1 & B1 & M1), A2 as (I2 & B2 & M2).
        split; [apply HU; auto|]. split; [assumption|].
        intros z Iz Bz. apply HU in Iz.
        destruct Iz as [Iz|Iz]; [exact (M1 z Iz Bz)|exact (M2 z Iz Bz)].
    + (* row1 is smaller *)
      destruct d; cbn -[merge].
      * split; [split; assumption|]. split.
        -- unfold standing, side. cbn. rewrite O1, O2, R1, R2.
           destruct (side_other Next b rows2 r1 (Some r2) A2) as [X Y];
             [apply A1|exact Hlt|].
           repeat split; auto; try discriminate. exists r1. auto.
        -- destruct A1 as (I1 & B1 & M1).
           split; [apply HU; auto|]. split; [assumption|].
           intros z Iz Bz. apply HU in Iz. destruct Iz as [Iz|Iz];
             [exact (M1 z Iz Bz)|].
           exact (advance_lower Next rows2 b (Some r2) r1 A2 ltac:(cbn; lia) z Iz Bz).
      * split; [split; assumption|]. split.
        -- unfold standing, side. cbn. rewrite O1, O2, R1, R2.
           destruct (side_other Prev b rows1 r2 (Some r1) A1) as [X Y];
             [apply A2|exact Hlt|].
           repeat split; auto; try discriminate. exists r2. auto.
        -- destruct A2 as (I2 & B2 & M2).
           split; [apply HU; auto|]. split; [assumption|].
           intros z Iz Bz. apply HU in Iz. destruct Iz as [Iz|Iz];
             [|exact (M2 z Iz Bz)].
           exact (advance_lower Prev rows1 b (Some r1) r2 A1 ltac:(cbn; lia) z Iz Bz).
    + (* row2 is smaller *)
      destruct d; cbn -[merge].
      * split; [split; assumption|]. split.
        -- unfold standing, side. cbn. rewrite O1, O2, R1, R2.
           destruct (side_other Next b rows1 r2 (Some r1) A1) as [X Y];
             [apply A2|cbn; lia|].
           repeat split; auto; try discriminate. exists r2. auto.
        -- destruct A2 as (I2 & B2 & M2).
           split; [apply HU; auto|]. split; [assumption|].
           intros z Iz Bz. apply HU in Iz. destruct Iz as [Iz|Iz];
             [|exact (M2 z Iz Bz)].
           exact (advance_lower Next rows1 b (Some r1) r2 A1 ltac:(cbn; lia) z Iz Bz).
      * split; [split; assumption|]. split.
        -- unfold standing, side. cbn. rewrite O1, O2, R1, R2.
           destruct (side_other Prev b rows2 r1 (Some r2) A2) as [X Y];
             [apply A1|cbn; lia|].
           repeat split; auto; try discriminate. exists r1. auto.
        -- destruct A1 as (I1 & B1 & M1).
           split; [apply HU; auto|]. split; [assumption|].
           intros z Iz Bz. apply HU in Iz. destruct Iz as [Iz|Iz];
             [exact (M1 z Iz Bz)|].
           exact (advance_lower Prev rows2 b (Some r2) r1 A2 ltac:(cbn; lia) z Iz Bz).
  - (* only source1 has a row *)
    cbn -[merge]. split; [split; assumption|]. split.
    + unfold standing, side. cbn. rewrite O1, O2, R1, R2.
      destruct (side_other d b rows2 r1 None A2) as [X Y]; [apply A1|exact I|].
      repeat split; auto; try discriminate. exists r1. auto.
    + destruct A1 as (I1 & B1 & M1).
      split; [apply HU; auto|]. split; [assumption|].
      intros z Iz Bz. apply HU in Iz.
      destruct Iz as [Iz|Iz]; [exact (M1 z Iz Bz)|].
      exfalso. apply (A2 z Iz Bz).
  - (* only source2 has a row *)
    cbn -[merge]. split; [split; assumption|]. split.
    + unfold standing, side. cbn. rewrite O1, O2, R1, R2.
      destruct (side_other d b rows1 r2 None A1) as [X Y]; [apply A2|exact I|].
      repeat split; auto; try discriminate. exists r2. auto.
    + destruct A2 as (I2 & B2 & M2).
      split; [apply HU; auto|]. split; [assumption|].
      intros z Iz Bz. apply HU in Iz.
      destruct Iz as [Iz|Iz]; [|exact (M2 z Iz Bz)].
      exfalso. apply (A1 z Iz Bz).
  - (* neither has *)
    cbn -[merge]. split; [split; assumption|]. split.
    + unfold standing, side. cbn. rewrite O1, O2, R1, R2.
      repeat split; auto; destruct d; reflexivity.
    + intros z Iz Bz. apply HU in Iz. destruct Iz as [Iz|Iz].
      * apply (A1 z Iz Bz).
      * apply (A2 z Iz Bz).
Qed.

Local Abbreviation merged := (merge rows1 rows2).

Lemma merged_sorted : sorted merged.
Proof. apply merge_sorted; assumption. Qed.

Lemma tracks_standsAt p d b d' :
  tracks merged p d b -> standsAt merged false p d' b.
Proof.
  intros (o & L & ->). destruct o as [k|]; cbn [located reached] in *.
  - destruct L as (i & -> & E). cbn. eauto.
  - subst p. cbn. auto.
Qed.

(** One Get keeps the union and the logical cursor together and reports
    the same row. *)
Lemma Get_together u p d :
  together rows1 rows2 u p ->
  snd (UnionGet u d) = snd (cursorGet false d merged p) /\
  together rows1 rows2 (fst (UnionGet u d)) (fst (cursorGet false d merged p)).
Proof.
  intros [HO [[HF ->]|(d0 & b & HS & HT)]].
  - destruct (refill_fresh u d HO HF) as [O' F'].
    destruct (UnionGet_spec u d _ O' F') as (O2 & S2 & A2).
    destruct (cursorGet_spec false d merged Rewound (dstart d) merged_sorted eq_refl)
      as [A L].
    pose proof (advance_unique _ _ _ _ _ A2 A) as E.
    split; [exact E|]. split; [exact O2|]. right.
    exists d, (reached d (snd (UnionGet u d))). split; [exact S2|].
    exists (snd (cursorGet false d merged Rewound)). rewrite E. auto.
  - destruct (refill_standing u d0 b d HO HS) as (O' & F' & _).
    destruct (UnionGet_spec u d _ O' F') as (O2 & S2 & A2).
    destruct (cursorGet_spec false d merged p b merged_sorted
                (tracks_standsAt _ _ _ _ HT)) as [A L].
    pose proof (advance_unique _ _ _ _ _ A2 A) as E.
    split; [exact E|]. split; [exact O2|]. right.
    exists d, (reached d (snd (UnionGet u d))). split; [exact S2|].
    exists (snd (cursorGet false d merged p)). rewrite E. auto.
Qed.

Lemma Rewind_together u :
  over u -> together rows1 rows2 (UnionRewind u) Rewound.
Proof.
  intros [O1 O2]. split; [split; assumption|]. left.
  repeat split.
Qed.

Lemma run_together calls : forall u p,
  together rows1 rows2 u p -> run u calls = cursorRun merged p calls.
Proof.
  induction calls as [|[d|] calls IH]; intros u p HT; [reflexivity| |].
  - cbn [run cursorRun].
    destruct (Get_together u p d HT) as [E T].
    destruct (UnionGet u d) as [u' r], (cursorGet false d merged p) as [p' r'].
    cbn [fst snd] in *. subst r'. f_equal. apply IH. assumption.
  - cbn [run cursorRun]. apply IH. apply (Rewind_together u). apply HT.
Qed.

Lemma Get_settled u d :
  settled rows1 rows2 u ->
  exists b,
    settled rows1 rows2 (fst (UnionGet u d)) /\
    standing (fst (UnionGet u d)) d (reached d (snd (UnionGet u d))) /\
    advance d merged b (snd (UnionGet u d)) /\
    (forall d0 b0, standing u d0 b0 -> b = b0).
Proof.
  intros [HO [HF|(d0 & b & HS)]].
  - destruct (refill_fresh u d HO HF) as [O' F'].
    destruct (UnionGet_spec u d _ O' F') as (O2 & S2 & A2).
    exists (dstart d). split; [split; [exact O2|right; eauto]|].
    split; [exact S2|]. split; [exact A2|].
    intros d1 b1 (X & _). destruct HF as [Y _]. congruence.
  - destruct (refill_standing u d0 b d HO HS) as (O' & F' & _).
    destruct (UnionGet_spec u d _ O' F') as (O2 & S2 & A2).
    exists b. split; [split; [exact O2|right; eauto]|].
    split; [exact S2|]. split; [exact A2|].
    intros d1 b1 HS1. destruct HS as (_ & P & S1 & S2' & F),
      HS1 as (_ & P1 & T1 & T2 & _).
    assert (d1 = d0) by congruence. subst d1.
    destruct (src1 u) eqn:F1.
    + destruct S1 as [_ [X Xn]], T1 as [_ [Y Yn]].
      destruct (row1 u); [destruct b, b1; simpl in *; congruence|].
      rewrite Xn, Yn; reflexivity.
    + destruct S1 as [_ (k & -> & _)], T1 as [_ (k1 & -> & _)].
      cbn [orb] in F. rewrite F in S2', T2.
      destruct S2' as [_ [X _]], T2 as [_ [Y _]].
      destruct (row2 u); simpl in *; congruence.
Qed.

Lemma exec_settled calls : forall u,
  settled rows1 rows2 u -> settled rows1 rows2 (exec u calls).
Proof.
  induction calls as [|[d|] calls IH]; intros u HS; [assumption| |].
  - cbn [exec]. apply IH. destruct (Get_settled u d HS) as (b & X & _). exact X.
  - cbn [exec]. apply IH. destruct HS as [[O1 O2] _].
    split; [split; assumption|]. left. repeat split.
Qed.

End Merge.

(** C2. Over two sources ordered by the merge columns, for every sequence
    of Get(Next), Get(Prev) and Rewind calls, the rows the merge union
    reports are the rows a bidirectional cursor over the duplicate-free
    ordered union of the two sources reports; that union is strictly
    ordered and holds exactly the rows of either source; and when a Get in
    direction d reported a row r, the Get that follows in the opposite
    direction reports the first row of the union strictly past r in that
    direction (or none when there is none): it skips r, and nothing else. *)
Theorem merge_union_is_cursor (st1 st2 : bool) (rows1 rows2 : list Row)
  (calls : list call) :
  sorted rows1 -> sorted rows2 ->
  run (newUnion st1 st2 rows1 rows2) calls
    = cursorRun (merge rows1 rows2) Rewound calls /\
  sorted (merge rows1 rows2) /\
  (forall z, In z (merge rows1 rows2) <-> In z rows1 \/ In z rows2) /\
  (forall d r,
     let u := exec (newUnion st1 st2 rows1 rows2) calls in
     snd (UnionGet u d) = Some r ->
     advance (opposite d) (merge rows1 rows2) (Fin r)
       (snd (UnionGet (fst (UnionGet u d)) (opposite d)))).
Proof.
  intros H1 H2.
  assert (O : over rows1 rows2 (newUnion st1 st2 rows1 rows2))
    by (split; reflexivity).
  assert (F : fresh (newUnion st1 st2 rows1 rows2)) by (repeat split).
  split; [|split; [|split]].
  - apply run_together; auto. split; [exact O|]. left. split; auto.
  - apply merge_sorted; assumption.
  - intros z. apply merge_In.
  - intros d r u E.
    assert (HS : settled rows1 rows2 u)
      by (apply exec_settled; auto; split; [exact O|left; exact F]).
    destruct (Get_settled rows1 rows2 H1 H2 u d HS) as (b & S1 & St & _ & _).
    rewrite E in St. cbn [reached] in St.
    destruct (Get_settled rows1 rows2 H1 H2 _ (opposite d) S1)
      as (b' & _ & _ & A & Hb).
    rewrite (Hb _ _ St) in A. exact A.
Qed.

Lemma merge_union_is_cursor_witness :
  run (newUnion true true [1; 4; 6; 7] [2; 3; 4; 5; 8; 9])
    [CallGet Next; CallGet Next; CallGet Next; CallGet Next; CallGet Prev;
     CallGet Prev; CallGet Next; CallGet Next; CallGet Next]
  = [Some 1; Some 2; Some 3; Some 4; Some 3; Some 2; Some 3; Some 4; Some 5] /\
  merge [1; 4; 6; 7] [2; 3; 4; 5; 8; 9] = [1; 2; 3; 4; 5; 6; 7; 8; 9].
Proof.
  assert (H1 : sorted [1; 4; 6; 7]) by (repeat constructor; lia).
  assert (H2 : sorted [2; 3; 4; 5; 8; 9]) by (repeat constructor; lia).
  destruct (merge_union_is_cursor true true [1; 4; 6; 7] [2; 3; 4; 5; 8; 9]
              [CallGet Next; CallGet Next; CallGet Next; CallGet Next; CallGet Prev;
               CallGet Prev; CallGet Next; CallGet Next; CallGet Next] H1 H2)
    as (E & _).
  split; [rewrite E; reflexivity | reflexivity].
Defined.

End UnionFacts.

Module RepairFacts.
Import Stor StorFacts CodecFacts Repair.

Lemma sub_length buf j n : (length (sub buf j n) <= n)%nat.
Proof. unfold sub. rewrite length_firstn. lia. Qed.

Lemma sub_match_bound buf b j :
  b <> [] -> sub buf j (length b) = b -> (j + length b <= length buf)%nat.
Proof.
  intros Hb E. assert (L : length (sub buf j (length b)) = length b) by congruence.
  unfold sub in L. rewrite length_firstn, length_skipn in L.
  destruct b; [congruence|]. cbn [length] in *. lia.
Qed.

Lemma lastIndexBelow_spec buf b k :
  let i := lastIndexBelow buf b k in
  (i = -1 /\ forall j, (j < k)%nat -> sub buf j (length b) <> b) \/
  (0 <= i < Z.of_nat k /\ sub buf (Z.to_nat i) (length b) = b /\
   forall j, (Z.to_nat i < j < k)%nat -> sub buf j (length b) <> b).
Proof.
  induction k as [|k IH]; cbn [lastIndexBelow].
  - left. split; [reflexivity|]. intros; lia.
  - destruct (bytes_eqb (sub buf k (length b)) b) eqn:E.
    + apply bytes_eqb_eq in E. right. rewrite Nat2Z.id.
      split; [lia|]. split; [assumption|]. intros; lia.
    + assert (N : sub buf k (length b) <> b).
      { intros X. apply bytes_eqb_eq in X. congruence. }
      destruct IH as [[E1 H1]|(R & M & H1)].
      * left. split; [assumption|]. intros j Hj.
        destruct (Nat.eq_dec j k) as [->|]; [assumption|]. apply H1. lia.
      * right. split; [lia|]. split; [assumption|]. intros j Hj.
        destruct (Nat.eq_dec j k) as [->|]; [assumption|]. apply H1. lia.
Qed.

(** [LastIndex]: the last place of [b] in [buf], or -1 when there is none. *)
Lemma LastIndex_spec buf b :
  b <> [] ->
  let i := LastIndex buf b in
  (i = -1 /\ forall j, sub buf j (length b) <> b) \/
  (0 <= i /\ i + len b <= len buf /\ sub buf (Z.to_nat i) (length b) = b /\
   forall j, (Z.to_nat i < j)%nat -> sub buf j (length b) <> b).
Proof.
  intros Hb. unfold LastIndex. destruct (Nat.ltb_spec (length buf) (length b)).
  - left. split; [reflexivity|]. intros j E.
    pose proof (sub_match_bound buf b j Hb E). lia.
  - destruct (lastIndexBelow_spec buf b (S (length buf - length b)))
      as [[E1 H1]|(R & M & H1)].
    + left. split; [assumption|]. intros j E.
      pose proof (sub_match_bound buf b j Hb E). apply (H1 j); [lia|assumption].
    + right. split; [lia|]. split; [unfold len; lia|]. split; [assumption|].
      intros j Hj E. pose proof (sub_match_bound buf b j Hb E).
      apply (H1 j); [lia|assumption].
Qed.

Lemma sub_firstn (l : list byte) n j k :
  (j + k <= n)%nat -> sub (firstn n l) j k = sub l j k.
Proof.
  intros H. unfold sub. rewrite skipn_firstn_comm, firstn_firstn.
  f_equal. lia.
Qed.

Section Search.

Variable s : Stor.
Variable b : list byte.
Hypothesis Wf : wf s.
Hypothesis b_nonempty : b <> [].

Local Abbreviation cs := (chunksize s).

Local Abbreviation before := (before s b).

Lemma chunk_of c i : 0 <= i < cs -> (Z.of_nat c * cs + i) / cs = Z.of_nat c.
Proof.
  intros H. symmetry. apply Z.div_unique with (r := i); [left; lia|lia].
Qed.

Lemma chunk_rem c i : 0 <= i < cs -> (Z.of_nat c * cs + i) mod cs = i.
Proof.
  intros H. symmetry. apply Z.mod_unique with (q := Z.of_nat c); [left; lia|lia].
Qed.

Lemma lastOffsetFrom_spec : forall c n,
  (c < length (chunks s))%nat -> 0 <= n <= cs ->
  Z.of_nat c * cs < 2 ^ 63 ->
  exists o, lastOffsetFrom s b c n = Some o /\ 0 <= o /\
    ((occursAt s b o /\ before c n o /\
      forall o', 0 <= o' -> occursAt s b o' -> before c n o' -> o' <= o) \/
     (o = 0 /\ forall o', 0 <= o' -> occursAt s b o' -> ~ before c n o')).
Proof.
  pose proof (chunksize_pos s Wf) as Hc.
  pose proof (chunksize_bound s Wf) as Hcb.
  induction c as [|c IH]; intros n Hlen Hn Hov.
  all: cbn [lastOffsetFrom];
    match goal with
    | |- context [index (chunks s) (Z.of_nat ?k)] =>
        destruct (index_lt (chunks s) (Z.of_nat k) ltac:(unfold len; lia))
          as [ch Ech]
    end;
    rewrite Ech;
    assert (Lch : len ch = cs)
      by (pose proof (wf_chunks _ Wf) as Hall; rewrite Forall_forall in Hall;
          apply Hall; eapply index_In; eauto);
    unfold slice_to; rewrite Lch;
    destruct (Z.leb_spec 0 n); [|lia];
    destruct (Z.leb_spec n cs); [|lia]; cbn [andb];
    destruct (LastIndex_spec (firstn (Z.to_nat n) ch) b b_nonempty)
      as [[E1 H1]|(R & B & M & H1)].
  - (* chunk 0, not found *)
    rewrite E1. cbn. exists 0. split; [reflexivity|]. split; [lia|]. right.
    split; [reflexivity|]. intros o' Ho' (ch' & Ei & Es & Eb) [Hb|[Hb Hr]].
    + assert (0 <= o' / cs) by (apply Z.div_pos; lia). lia.
    + rewrite Hb in Ei. rewrite Ech in Ei.
      inversion Ei; subst ch'. apply (H1 (Z.to_nat (o' mod cs))).
      rewrite sub_firstn; [assumption|].
      pose proof (Z.mod_pos_bound o' cs Hc). unfold len in *. lia.
  - (* chunk 0, found *)
    assert (Li : len (firstn (Z.to_nat n) ch) = n)
      by (unfold len in *; rewrite length_firstn; lia).
    rewrite Li in B. pose proof (len_nonneg b) as Lb.
    assert (Hi : 0 <= LastIndex (firstn (Z.to_nat n) ch) b < cs).
    { destruct b; [congruence|]. unfold len in B. cbn [length] in B. lia. }
    set (i := LastIndex (firstn (Z.to_nat n) ch) b) in *.
    destruct (Z.eqb_spec i (-1)); [lia|]. cbn [negb].
    change (Z.of_nat 0) with 0 in *.
    rewrite (u64_small 0) by lia. rewrite (u64_small i) by lia.
    rewrite Z.mul_0_l. rewrite (u64_small 0) by lia. rewrite Z.add_0_l.
    rewrite (u64_small i) by lia.
    exists i. split; [reflexivity|]. split; [lia|]. left.
    assert (Ed : i / cs = 0) by (apply Z.div_small; lia).
    assert (Em : i mod cs = i) by (apply Z.mod_small; lia).
    split; [|split].
    + exists ch. rewrite Ed, Em. split; [assumption|]. split; [|lia].
      rewrite sub_firstn in M by (unfold len in *; lia). exact M.
    + right. rewrite Ed, Em. split; [reflexivity|lia].
    + intros o' Ho' (ch' & Ei & Es & Eb) [Hb|[Hb Hr]].
      * assert (0 <= o' / cs) by (apply Z.div_pos; lia). lia.
      * change (Z.of_nat 0) with 0 in Hb.
        rewrite Hb in Ei. rewrite Ech in Ei. inversion Ei; subst ch'.
        pose proof (Z.mod_pos_bound o' cs Hc) as Hm.
        destruct (Z_lt_le_dec i (o' mod cs)) as [Hlt|Hle].
        -- exfalso. apply (H1 (Z.to_nat (o' mod cs))); [lia|].
           rewrite sub_firstn; [assumption|]. unfold len in *. lia.
        -- pose proof (Z.div_mod o' cs ltac:(lia)) as Hdm.
           rewrite Hb in Hdm. lia.
  - (* chunk c+1, not found: go on below *)
    rewrite E1. cbn [Z.eqb negb].
    destruct (IH cs ltac:(lia) ltac:(lia) ltac:(lia)) as (o & Eo & Ho & Hspec).
    rewrite Eo. exists o. split; [reflexivity|]. split; [assumption|].
    assert (X : forall o', 0 <= o' -> occursAt s b o' ->
                (before (S c) n o' <-> before c cs o')).
    { intros o' Ho' (ch' & Ei & Es & Eb). unfold before. split.
      - intros [Hb|[Hb Hr]].
        + assert (o' / cs < Z.of_nat c \/ o' / cs = Z.of_nat c) as [|] by lia; auto.
        + exfalso. rewrite Hb in Ei. rewrite Ech in Ei. inversion Ei; subst ch'.
          apply (H1 (Z.to_nat (o' mod cs))).
          rewrite sub_firstn; [assumption|].
          pose proof (Z.mod_pos_bound o' cs Hc). unfold len in *. lia.
      - intros [Hb|[Hb Hr]]; left; lia. }
    destruct Hspec as [(Oc & Bf & Mx)|[Ez Hn']].
    + left. split; [assumption|]. split.
      * apply X; assumption.
      * intros o' Ho' Oc' Bf'. apply Mx; auto. apply X; assumption.
    + right. split; [assumption|]. intros o' Ho' Oc' Bf'.
      apply (Hn' o' Ho' Oc'). apply X; assumption.
  - (* chunk c+1, found *)
    assert (Li : len (firstn (Z.to_nat n) ch) = n)
      by (unfold len in *; rewrite length_firstn; lia).
    rewrite Li in B. pose proof (len_nonneg b) as Lb.
    assert (Hi : 0 <= LastIndex (firstn (Z.to_nat n) ch) b < cs).
    { destruct b; [congruence|]. unfold len in B. cbn [length] in B. lia. }
    set (i := LastIndex (firstn (Z.to_nat n) ch) b) in *.
    destruct (Z.eqb_spec i (-1)); [lia|]. cbn [negb].
    rewrite (u64_small (Z.of_nat (S c))) by nia. rewrite (u64_small i) by lia.
    rewrite (u64_small (Z.of_nat (S c) * cs)) by nia.
    rewrite (u64_small (Z.of_nat (S c) * cs + i)) by nia.
    exists (Z.of_nat (S c) * cs + i). split; [reflexivity|]. split; [nia|]. left.
    pose proof (chunk_of (S c) i Hi) as Ed. pose proof (chunk_rem (S c) i Hi) as Em.
    split; [|split].
    + exists ch. rewrite Ed, Em. split; [assumption|]. split; [|lia].
      rewrite sub_firstn in M by (unfold len in *; lia). exact M.
    + right. rewrite Ed, Em. split; [reflexivity|lia].
    + intros o' Ho' (ch' & Ei & Es & Eb) [Hb|[Hb Hr]].
      * pose proof (Z.div_mod o' cs ltac:(lia)) as Hdm.
        pose proof (Z.mod_pos_bound o' cs Hc) as Hm. nia.
      * rewrite Hb in Ei. rewrite Ech in Ei. inversion Ei; subst ch'.
        pose proof (Z.mod_pos_bound o' cs Hc) as Hm.
        destruct (Z_lt_le_dec i (o' mod cs)) as [Hlt|Hle].
        -- exfalso. apply (H1 (Z.to_nat (o' mod cs))); [lia|].
           rewrite sub_firstn; [assumption|]. unfold len in *. lia.
        -- pose proof (Z.div_mod o' cs ltac:(lia)) as Hdm.
           rewrite Hb in Hdm. lia.
Qed.

Lemma before_below off o :
  0 <= off -> 0 <= o -> o mod cs + len b <= cs ->
  (before (Z.to_nat (off / cs)) (off mod cs) o <-> o + len b <= off).
Proof.
  pose proof (chunksize_pos s Wf) as Hc. intros Hoff Ho Hin.
  pose proof (Z.div_mod o cs ltac:(lia)) as Do.
  pose proof (Z.div_mod off cs ltac:(lia)) as Doff.
  pose proof (Z.mod_pos_bound o cs Hc) as Mo.
  pose proof (Z.mod_pos_bound off cs Hc) as Moff.
  assert (0 <= off / cs) by (apply Z.div_pos; lia).
  assert (0 <= o / cs) by (apply Z.div_pos; lia).
  unfold before. rewrite Z2Nat.id by assumption. split.
  - intros [Hlt|[He Hr]]; nia.
  - intros Hle.
    assert (o / cs < off / cs \/ o / cs = off / cs \/ off / cs < o / cs)
      as [Hlt|[He|Hgt]] by lia.
    + left; assumption.
    + right. split; [assumption|]. rewrite He in Do. lia.
    + exfalso. pose proof (len_nonneg b). nia.
Qed.

(** [LastOffset]: the last place where [b] lies, inside one chunk, entirely
    below [off]; 0 when there is none. *)
Lemma LastOffset_spec off :
  0 <= off < 2 ^ 63 -> off / cs < len (chunks s) ->
  exists o, LastOffset s off b = Some o /\ 0 <= o /\
    ((occursAt s b o /\ o + len b <= off /\
      forall o', 0 <= o' -> occursAt s b o' -> o' + len b <= off -> o' <= o) \/
     (o = 0 /\ forall o', 0 <= o' -> occursAt s b o' -> ~ o' + len b <= off)).
Proof.
  pose proof (chunksize_pos s Wf) as Hc. intros Hoff Hcov.
  pose proof (Z.div_mod off cs ltac:(lia)) as Doff.
  pose proof (Z.mod_pos_bound off cs Hc) as Moff.
  assert (Hq : 0 <= off / cs) by (apply Z.div_pos; lia).
  unfold LastOffset. rewrite offsetToChunk_small, land_mask by assumption.
  destruct (Z.ltb_spec (off / cs) 0); [lia|].
  destruct (lastOffsetFrom_spec (Z.to_nat (off / cs)) (off mod cs))
    as (o & Eo & Ho & Hspec).
  - unfold len in Hcov. lia.
  - lia.
  - rewrite Z2Nat.id by assumption. nia.
  - exists o. split; [assumption|]. split; [assumption|].
    destruct Hspec as [(Oc & Bf & Mx)|[Ez Hn]].
    + left. split; [assumption|].
      assert (Hin : o mod cs + len b <= cs)
        by (destruct Oc as (? & ? & ? & ?); assumption).
      split; [apply (before_below off o); solve [assumption|lia]|].
      intros o' Ho' Oc' Hle. apply Mx; auto.
      apply (before_below off o'); try solve [assumption|lia].
      destruct Oc' as (? & ? & ? & ?); assumption.
    + right. split; [assumption|]. intros o' Ho' Oc' Hle.
      apply (Hn o' Ho' Oc').
      apply (before_below off o'); try solve [assumption|lia].
      destruct Oc' as (? & ? & ? & ?); assumption.
Qed.

End Search.

Lemma magic1_nonempty : State.magic1 <> [].
Proof. discriminate. Qed.

Lemma descends_In store : forall cands off c,
  descends store off cands -> In c cands -> 0 < c /\ c + 8 <= off.
Proof.
  induction cands as [|a rest IH]; intros off c D I; [destruct I|].
  cbn [descends] in D. destruct D as (Ha & _ & Hle & _ & D).
  change (len State.magic1) with 8 in Hle.
  destruct I as [->|I]; [lia|].
  destruct (IH a c D I). lia.
Qed.

Section Scanning.

Context (Sum : list byte -> list byte) (Noffsets : nat) {Meta Schema : Type}
  (ReadOverlay : Stor -> list Z -> option Meta) (Table : Schema -> string)
  (tables : Meta -> list Schema)
  (checkTable : Stor -> Meta -> Schema -> option string)
  (checkNamed : Stor -> Meta -> string -> option string).

Local Abbreviation scan :=
  (scan Sum Noffsets Meta Schema ReadOverlay Table tables checkTable checkNamed).
Local Abbreviation firstValid :=
  (firstValid Sum Noffsets Meta Schema ReadOverlay Table tables checkTable
     checkNamed).

Lemma firstValid_In store : forall cands ec off,
  firstValid store cands ec = Some off -> In off cands.
Proof.
  induction cands as [|a rest IH]; intros ec off E; [discriminate|].
  cbn [Repair.firstValid] in E.
  destruct (ReadState _ _ _ _ store a) as [m|].
  - destruct (checkState _ _ _ _ _ _ store m (errTable ec)) as [e|].
    + right. eapply IH; eassumption.
    + left. congruence.
  - right. eapply IH; eassumption.
Qed.

(** The loop of [Repair] visits the descending chain of places of magic1
    and stops at the first one that is valid; the fuel it is given is
    enough. *)
Lemma scan_candidates store : wf store -> forall fuel off ec,
  0 <= off < 2 ^ 63 -> off / chunksize store < len (chunks store) ->
  (Z.to_nat off < fuel)%nat ->
  descends store off (candidates fuel store off) /\
  scan fuel store off ec =
    match firstValid store (candidates fuel store off) ec with
    | Some o => Found o
    | None => NoState
    end.
Proof.
  intros W. pose proof (chunksize_pos store W) as Hc.
  induction fuel as [|fuel IH]; intros off ec Hoff Hcov Hfuel; [lia|].
  cbn [Repair.scan candidates]. unfold prevState.
  destruct (LastOffset_spec store State.magic1 W magic1_nonempty off Hoff Hcov)
    as (o & Eo & Ho & Hspec).
  rewrite Eo. change (len State.magic1) with 8 in Hspec.
  destruct (Z.eqb_spec o 0) as [->|Hne].
  - cbn. split; [|reflexivity]. intros o' Ho' Oc' Hle.
    change (len State.magic1) with 8 in Hle.
    destruct Hspec as [(_ & _ & Mx)|[_ Hn]].
    + specialize (Mx o' ltac:(lia) Oc' Hle). lia.
    + apply (Hn o' ltac:(lia) Oc' Hle).
  - destruct Hspec as [(Oc & Hle & Mx)|[Ez _]]; [|lia].
    destruct (Z.eqb_spec o 0); [lia|].
    assert (Hcov' : o / chunksize store < len (chunks store)).
    { pose proof (Z.div_le_mono o off (chunksize store) Hc ltac:(lia)). lia. }
    assert (Ho' : 0 <= o < 2 ^ 63) by lia.
    assert (Hfuel' : (Z.to_nat o < fuel)%nat) by lia.
    pose proof (fun ec => IH o ec Ho' Hcov' Hfuel') as IH'.
    split.
    + cbn [descends]. change (len State.magic1) with 8.
      repeat split; try assumption; try lia. apply (IH' ec).
    + cbn [Repair.firstValid].
      destruct (ReadState _ _ _ _ store o) as [m|]; [|apply IH'].
      destruct (checkState _ _ _ _ _ _ store m (errTable ec)) as [e|];
        [apply IH'|reflexivity].
Qed.

End Scanning.

Lemma bak_differs (a : string) : (a ++ ".bak")%string <> a.
Proof.
  induction a as [|c a IH]; cbn [append]; [discriminate|].
  intros E. injection E as E. auto.
Qed.

Lemma copy_at_all (buf d : list byte) :
  length d = length buf -> copy_at buf 0 d = d.
Proof.
  intros E. unfold copy_at. cbn [firstn app Nat.add].
  rewrite Nat.sub_0_r, firstn_all2, skipn_all2 by lia. apply app_nil_r.
Qed.

Ltac files :=
  unfold rename, setFile;
  repeat match goal with
         | |- context [String.eqb ?a ?b] =>
             destruct (String.eqb_spec a b); try congruence
         end.

Section Repairing.

Context (Sum : list byte -> list byte) (Noffsets : nat) {Meta Schema : Type}
  (ReadOverlay : Stor -> list Z -> option Meta) (Table : Schema -> string)
  (tables : Meta -> list Schema)
  (checkTable : Stor -> Meta -> Schema -> option string)
  (checkNamed : Stor -> Meta -> string -> option string)
  (MmapStor : list byte -> option Stor) (tmpfile : string).

Local Abbreviation firstValid :=
  (firstValid Sum Noffsets Meta Schema ReadOverlay Table tables checkTable
     checkNamed).
Local Abbreviation Repair :=
  (Repair Sum Noffsets Meta Schema ReadOverlay Table tables checkTable
     checkNamed MmapStor tmpfile).
Local Abbreviation stateLen := (stateLen Noffsets).

(** C6: [Repair] looks for magic1 from the end of the store downwards, each
    time the last place entirely below the one before ([descends]); it
    passes over every place whose state cannot be read (wrong magic or
    checksum) or fails a table check, and takes the first one that is valid
    ([firstValid]). With the state at [off], the database file becomes its
    first [off + stateLen] bytes with the size slot of the header set to
    that number ([repaired]), the file as it was is now the [.bak] file,
    and no other file has changed. With no valid state [Repair] returns an
    error and the file system is as before. *)
Theorem Repair_first_valid_state (fs : FS) (dbfile : string)
  (ec : option ErrCorrupt) (content : list byte) (store : Stor) :
  fs dbfile = Some content -> MmapStor content = Some store ->
  wf store -> covered store -> size store < 2 ^ 63 ->
  len content < 2 ^ 63 ->
  fs tmpfile = None -> tmpfile <> (dbfile ++ ".bak")%string ->
  let cands := candidates (S (Z.to_nat (size store))) store (size store) in
  descends store (size store) cands /\
  match firstValid store cands ec with
  | None =>
      Repair fs dbfile ec
      = Some (fs, Some "repair failed - no valid states found"%string)
  | Some off =>
      In off cands /\
      let n := off + stateLen in
      if len content <? n
      then exists fs', Repair fs dbfile ec = Some (fs', Some "EOF"%string) /\
                       forall f, f <> tmpfile -> fs' f = fs f
      else exists fs',
        Repair fs dbfile ec = Some (fs', None) /\
        fs' dbfile = Some (repaired content n) /\
        fs' (dbfile ++ ".bak")%string = Some content /\
        forall f, f <> dbfile -> f <> (dbfile ++ ".bak")%string -> fs' f = fs f
  end.
Proof.
  intros Hfs Hmap W [Hs Hcov] Hsz Hlen Htmp Hbak cands.
  assert (Hdb : tmpfile <> dbfile) by congruence.
  pose proof (bak_differs dbfile) as Hbd.
  destruct (scan_candidates Sum Noffsets ReadOverlay Table tables checkTable
              checkNamed store W (S (Z.to_nat (size store))) (size store) ec
              ltac:(lia) Hcov ltac:(lia)) as [D E].
  fold cands in D, E. split; [exact D|].
  unfold Repair.Repair. rewrite Hfs, Hmap. unfold Size.
  destruct (Z.eqb_spec (size store) closedSize) as [X|_];
    [unfold closedSize in X; lia|].
  rewrite E. destruct (firstValid store cands ec) as [off|] eqn:F;
    [|reflexivity].
  pose proof (firstValid_In _ _ _ _ _ _ _ _ _ _ _ F) as I.
  split; [exact I|]. destruct (descends_In _ _ _ _ D I) as [Hp Hq].
  assert (Ti : to_int off = off) by (unfold to_int; destruct (Z.ltb_spec off (2 ^ 63)); lia).
  rewrite Ti. cbv zeta.
  destruct (Z.ltb_spec (len content) (off + stateLen)) as [Hlt|Hge].
  - eexists. split; [reflexivity|]. intros f Hf. files.
  - rewrite u64_small by (unfold Repair.stateLen in *; lia).
    unfold WriteSmallOffset.
    rewrite copy_at_all by (rewrite le_bytes_length, repeat_length; reflexivity).
    eexists. split; [reflexivity|]. split; [|split].
    + files. reflexivity.
    + files.
    + intros f H1 H2. files.
Qed.

End Repairing.

Lemma wf_sampleStore :
  wf (mkStor (heapGet 128) 128 96 7 (len sampleFile)
        [sampleFile ++ repeat 0 (128 - length sampleFile)]).
Proof.
  constructor; simpl; try lia; try reflexivity.
  - repeat constructor.
Defined.

Lemma Repair_first_valid_state_witness :
  exists fs',
    Repair.Repair State.sampleSum 2 (list Z) string (fun _ offsets => Some offsets)
      (fun sc => sc) (fun _ => ["tables"%string]) (fun _ _ _ => None)
      (fun _ _ _ => None) sampleMmap "gs1.tmp" sampleFS "suneido.db" None
    = Some (fs', None) /\
    fs' "suneido.db"%string = Some (repaired sampleFile 51) /\
    fs' "suneido.db.bak"%string = Some sampleFile.
Proof.
  destruct (@Repair_first_valid_state State.sampleSum 2 (list Z) string
              (fun _ offsets => Some offsets) (fun sc => sc)
              (fun _ => ["tables"%string]) (fun _ _ _ => None)
              (fun _ _ _ => None) sampleMmap "gs1.tmp" sampleFS "suneido.db"
              None sampleFile
              (mkStor (heapGet 128) 128 96 7 (len sampleFile)
                 [sampleFile ++ repeat 0 (128 - length sampleFile)])
              eq_refl eq_refl wf_sampleStore)
    as [_ H].
  - split; [vm_compute; discriminate | vm_compute; reflexivity].
  - vm_compute; reflexivity.
  - vm_compute; reflexivity.
  - reflexivity.
  - discriminate.
  - cbv zeta in H.
    assert (F : Repair.firstValid State.sampleSum 2 (list Z) string
                  (fun _ offsets => Some offsets) (fun sc => sc)
                  (fun _ => ["tables"%string]) (fun _ _ _ => None)
                  (fun _ _ _ => None)
                  (mkStor (heapGet 128) 128 96 7 (len sampleFile)
                     [sampleFile ++ repeat 0 (128 - length sampleFile)])
                  (candidates (S (Z.to_nat (len sampleFile)))
                     (mkStor (heapGet 128) 128 96 7 (len sampleFile)
                        [sampleFile ++ repeat 0 (128 - length sampleFile)])
                     (len sampleFile)) None = Some 13)
      by (vm_compute; reflexivity).
    cbn [size] in H. rewrite F in H. destruct H as [_ H].
    change (len sampleFile <? 13 + Repair.stateLen 2) with false in H.
    destruct H as (fs' & E & A & B & _). exists fs'. repeat split; assumption.
Defined.

End RepairFacts.

Module BtreeFacts.
Import Btree.
Local Open Scope string_scope.
Local Open Scope list_scope.

Lemma Lookup_Insert up key off k :
  Lookup (Insert up key off) k = if String.eqb k key then Some off else Lookup up k.
Proof.
  induction up as [|[k0 o0] rest IH]; cbn [Insert Lookup]; [reflexivity|].
  destruct (String.eqb_spec key k0) as [->|Hne].
  - cbn [Lookup]. destruct (String.eqb_spec k k0); reflexivity.
  - destruct (strLess key k0).
    + cbn [Lookup]. reflexivity.
    + cbn [Lookup]. rewrite IH.
      destruct (String.eqb_spec k k0) as [->|]; [|reflexivity].
      destruct (String.eqb_spec k0 key); [congruence|reflexivity].
Qed.

Lemma Lookup_inserts vs : forall up k,
  Lookup (fold_left (fun up e => Insert up (fst e) (snd e)) vs up) k =
    match lastVisit vs k with
    | Some o => Some o
    | None => Lookup up k
    end.
Proof.
  induction vs as [|[k0 o0] rest IH]; intros up k; [reflexivity|].
  cbn [fold_left fst snd lastVisit]. rewrite IH, Lookup_Insert.
  destruct (lastVisit rest k); [reflexivity|].
  destruct (String.eqb k k0); reflexivity.
Qed.

Section WithMbtree.

Context {mbtree : Type} (visits : mbtree -> list (string * Z)).

(** What [Merge] leaves under a key: the offset of the last visit of the
    key, and the entry of the fbtree when the key is not visited. *)
Lemma Merge_Lookup fb mb k :
  Lookup (Merge mbtree visits fb mb) k =
    match lastVisit (visits mb) k with
    | Some o => Some o
    | None => Lookup fb k
    end.
Proof.
  unfold Merge, Update, ForEach. apply Lookup_inserts.
Qed.

(** X1. [Merge] never takes a key out: whatever the mbtree holds and whatever
    [ForEach] visits, a key of the fbtree is a key of the result. *)
Lemma Merge_keeps_keys fb mb k :
  Lookup fb k <> None -> Lookup (Merge mbtree visits fb mb) k <> None.
Proof.
  intros H. rewrite Merge_Lookup. destruct (lastVisit (visits mb) k);
    [discriminate|assumption].
Qed.

End WithMbtree.

(** C1 at a failing input: the fbtree holds "a" at offset 1 and the mbtree
    holds the delete of that entry (and the insert of "b" at 2). Whether
    [ForEach] visits every entry or the inserts alone, the result of [Merge]
    still holds "a" at offset 1, next to the inserted "b". *)
Theorem Merge_keeps_deleted_entry :
  Merge mbtree forEvery [("a", 1)] [("a", 1, deleteMark); ("b", 2, insertMark)]
    = [("a", 1); ("b", 2)] /\
  Merge mbtree forInserts [("a", 1)] [("a", 1, deleteMark); ("b", 2, insertMark)]
    = [("a", 1); ("b", 2)] /\
  Lookup (Merge mbtree forEvery [("a", 1)]
            [("a", 1, deleteMark); ("b", 2, insertMark)]) "a" = Some 1.
Proof. repeat split; reflexivity. Qed.

Lemma Merge_keeps_keys_witness :
  Lookup (Merge mbtree forEvery [("a", 1)] [("a", 1, deleteMark)]) "a" <> None.
Proof.
  apply (Merge_keeps_keys forEvery [("a", 1)] [("a", 1, deleteMark)] "a").
  simpl. discriminate.
Defined.

Lemma Iter_Inner cs : Iter (Inner cs) = below cs.
Proof.
  unfold below. cbn [Iter]. induction cs as [|[k c] rest IH]; [reflexivity|].
  cbn [map concat snd]. rewrite <- IH. reflexivity.
Qed.

Lemma below_app n1 n2 : below (n1 ++ n2) = below n1 ++ below n2.
Proof. unfold below. rewrite map_app, concat_app. reflexivity. Qed.

Lemma below_one k t : below [(k, t)] = Iter t.
Proof. unfold below. cbn [map concat snd]. apply app_nil_r. Qed.

Lemma truncate_prefix : forall key prev, String.prefix (truncate prev key) key = true.
Proof.
  induction key as [|c key IH]; intros prev; [reflexivity|].
  cbn [truncate]. destruct prev as [|p prev].
  - cbn [String.prefix]. destruct (Ascii.ascii_dec c c); [|congruence].
    destruct key; reflexivity.
  - destruct (Ascii.eqb c p); cbn [String.prefix];
      destruct (Ascii.ascii_dec c c); try congruence; auto.
    destruct key; reflexivity.
Qed.

Lemma truncated_offsets : forall input prev,
  map snd (truncated prev input) = map snd input.
Proof.
  induction input as [|[k o] rest IH]; intros prev; [reflexivity|].
  cbn [truncated map snd]. rewrite IH. reflexivity.
Qed.

Lemma truncated_prefixes : forall input prev,
  Forall2 (fun e x => String.prefix (fst e) (fst x) = true /\ snd e = snd x)
    (truncated prev input) input.
Proof.
  induction input as [|[k o] rest IH]; intros prev; cbn [truncated];
    constructor; [|apply IH].
  split; [apply truncate_prefix|reflexivity].
Qed.

Section Builder.

Variable MaxNodeSize : nat.

Local Abbreviation insert := (insert MaxNodeSize).
Local Abbreviation Add := (Add MaxNodeSize).
Local Abbreviation build := (build MaxNodeSize).

(** A node that goes up is held from then on, after everything held
    before. *)
Lemma held_insert : forall lvls t, held (insert lvls t) = held lvls ++ Iter t.
Proof.
  induction lvls as [|node above IH]; intros t; cbn [Btree.insert held].
  - rewrite below_one. reflexivity.
  - destruct (Nat.ltb (length node) MaxNodeSize); cbn [held].
    + rewrite below_app, below_one, app_assoc. reflexivity.
    + rewrite IH, Iter_Inner, below_one. reflexivity.
Qed.

Lemma contents_Add b key off :
  contents (Add b key off) = contents b ++ [(truncate (prev b) key, off)] /\
  prev (Add b key off) = key.
Proof.
  unfold Btree.Add, contents.
  destruct (Nat.ltb (length (leaf b)) MaxNodeSize); cbn [leaf levels prev].
  - rewrite app_assoc. split; reflexivity.
  - rewrite held_insert. cbn [Iter]. split; reflexivity.
Qed.

Lemma contents_adds : forall input b,
  contents (fold_left (fun b e => Add b (fst e) (snd e)) input b)
  = contents b ++ truncated (prev b) input.
Proof.
  induction input as [|[k o] rest IH]; intros b; cbn [fold_left truncated fst snd].
  - symmetry. apply app_nil_r.
  - destruct (contents_Add b k o) as [E P]. rewrite IH, E, P, <- app_assoc.
    reflexivity.
Qed.

Lemma Iter_closing : forall lvls t,
  Iter (fold_left (fun t node => Inner (node ++ [(separator t, t)])) lvls t)
  = held lvls ++ Iter t.
Proof.
  induction lvls as [|node above IH]; intros t; cbn [fold_left held];
    [reflexivity|].
  rewrite IH, Iter_Inner, below_app, below_one, app_assoc. reflexivity.
Qed.

Lemma Iter_Finish b : Iter (fst (Finish b)) = contents b.
Proof. unfold Finish, contents. cbn [fst]. rewrite Iter_closing. reflexivity. Qed.

(** C5, amended: bulk loading and iterating gives the offsets of the input
    in the order of the input, each under its key truncated to the shortest
    prefix that tells it from the key before, which is a prefix of the key
    of the input. *)
Theorem builder_round_trip (input : list (string * Z)) :
  Iter (fst (build input)) = truncated EmptyString input /\
  map snd (Iter (fst (build input))) = map snd input /\
  Forall2 (fun e x => String.prefix (fst e) (fst x) = true /\ snd e = snd x)
    (Iter (fst (build input))) input.
Proof.
  assert (E : Iter (fst (build input)) = truncated EmptyString input).
  { unfold Btree.build. rewrite Iter_Finish, contents_adds. reflexivity. }
  rewrite E. split; [reflexivity|]. split.
  - apply truncated_offsets.
  - apply truncated_prefixes.
Qed.

End Builder.

(** C5 as stated fails: the keys "apple" and "apricot", in order, come back
    as "a" and "apr". *)
Lemma builder_truncates_keys :
  ascendingKeys None [("apple", 1); ("apricot", 2)] = true /\
  Iter (fst (build 2 [("apple", 1); ("apricot", 2)]))
    = [("a", 1); ("apr", 2)] /\
  Iter (fst (build 2 [("apple", 1); ("apricot", 2)]))
    <> [("apple", 1); ("apricot", 2)].
Proof. split; [reflexivity|]. split; [reflexivity|discriminate]. Qed.

End BtreeFacts.

Module SetordFacts.
Import Setord.
Local Open Scope string_scope.
Local Open Scope list_scope.

Lemma sameStrings_ok a b : sameStrings a b = true <-> a = b.
Proof.
  unfold sameStrings. destruct (list_eq_dec string_dec a b); split;
    congruence.
Qed.

Section WithEq.

Variable eq : list string -> list string -> bool.
Hypothesis eq_ok : forall a b, eq a b = true <-> a = b.

Local Abbreviation contains := (contains eq).
Local Abbreviation foundAmong := (foundAmong eq).
Local Abbreviation amongFound := (amongFound eq).

Lemma eq_refl_true a : eq a a = true.
Proof. apply eq_ok. reflexivity. Qed.

Lemma contains_In x s : contains x s = true <-> In s x.
Proof.
  induction x as [|xs rest IH]; cbn [Setord.contains In]; [split; [discriminate|tauto]|].
  destruct (eq xs s) eqn:E.
  - apply eq_ok in E. tauto.
  - rewrite IH. split; [tauto|]. intros [H|H]; [|assumption].
    apply eq_ok in H. congruence.
Qed.

Lemma foundAmong_In xs y : foundAmong xs y = true <-> In xs y.
Proof.
  induction y as [|ys rest IH]; cbn [Setord.foundAmong In]; [split; [discriminate|tauto]|].
  destruct (eq xs ys) eqn:E.
  - apply eq_ok in E. split; auto.
  - rewrite IH. split; [tauto|]. intros [H|H]; [|assumption].
    symmetry in H. apply eq_ok in H. congruence.
Qed.

Lemma amongFound_In x ys : amongFound x ys = true <-> In ys x.
Proof.
  induction x as [|xs rest IH]; cbn [Setord.amongFound In]; [split; [discriminate|tauto]|].
  destruct (eq xs ys) eqn:E.
  - apply eq_ok in E. tauto.
  - rewrite IH. split; [tauto|]. intros [H|H]; [|assumption].
    apply eq_ok in H. congruence.
Qed.

Lemma foundAmong_false xs y : foundAmong xs y = false <-> ~ In xs y.
Proof.
  rewrite <- foundAmong_In. destruct (foundAmong xs y); split; congruence.
Qed.

Lemma amongFound_false x ys : amongFound x ys = false <-> ~ In ys x.
Proof.
  rewrite <- amongFound_In. destruct (amongFound x ys); split; congruence.
Qed.

Lemma allFound_incl x y : allFound eq x y = true <-> incl x y.
Proof.
  induction x as [|xs rest IH]; cbn [allFound].
  - split; [intros _ s []|reflexivity].
  - destruct (foundAmong xs y) eqn:E.
    + rewrite IH. apply foundAmong_In in E. split.
      * intros H s [<-|I]; auto.
      * intros H s I. apply H. right. assumption.
    + split; [discriminate|]. intros H. apply foundAmong_false in E.
      exfalso. apply E, H. left. reflexivity.
Qed.

Lemma notAmong_filter x y :
  notAmong eq x y = filter (fun ys => negb (amongFound x ys)) y.
Proof.
  induction y as [|ys rest IH]; cbn [notAmong filter]; [reflexivity|].
  destruct (amongFound x ys); cbn [negb]; rewrite IH; reflexivity.
Qed.

Lemma notFound_filter x y :
  notFound eq x y = filter (fun xs => negb (foundAmong xs y)) x.
Proof.
  induction x as [|xs rest IH]; cbn [notFound filter]; [reflexivity|].
  destruct (foundAmong xs y); cbn [negb]; rewrite IH; reflexivity.
Qed.

Lemma found_filter x y : found eq x y = filter (fun xs => foundAmong xs y) x.
Proof.
  induction x as [|xs rest IH]; cbn [found filter]; [reflexivity|].
  destruct (foundAmong xs y); rewrite IH; reflexivity.
Qed.

Lemma filter_all {A} (f : A -> bool) (l : list A) :
  (forall a, In a l -> f a = true) -> filter f l = l.
Proof.
  induction l as [|a l IH]; intros H; cbn [filter]; [reflexivity|].
  rewrite (H a (or_introl Logic.eq_refl)), IH; [reflexivity|].
  intros b I. apply H. right. assumption.
Qed.

Lemma filter_none {A} (f : A -> bool) (l : list A) :
  (forall a, In a l -> f a = false) -> filter f l = [].
Proof.
  induction l as [|a l IH]; intros H; cbn [filter]; [reflexivity|].
  rewrite (H a (or_introl Logic.eq_refl)). apply IH.
  intros b I. apply H. right. assumption.
Qed.

Lemma len_zero {A} (l : list A) : Z.eqb (Stor.len l) 0 = true <-> l = [].
Proof.
  unfold Stor.len. destruct l; cbn [length]; split; try reflexivity;
    discriminate.
Qed.

Lemma Same_elems x y : coherent x y -> Same x y = true -> elems x = elems y.
Proof.
  unfold Same, coherent. intros C H.
  apply andb_prop in H. destruct H as [H A].
  apply andb_prop in H. destruct H as [_ L].
  apply Z.eqb_eq in A. apply Z.eqb_eq in L. unfold Stor.len in L.
  apply C; [assumption|lia].
Qed.

(** X2. [AddUnique] adds [s] at the end unless it is there already: the result
    holds the elements of [x] and [s], a set without duplicates stays one,
    and adding an element that is there gives [x] back. *)
Theorem AddUnique_adds_once (x : slice) (s : list string) :
  (forall t, In t (AddUnique eq x s) <-> In t (elems x) \/ t = s) /\
  (NoDup (elems x) -> NoDup (AddUnique eq x s)) /\
  (In s (elems x) -> AddUnique eq x s = elems x) /\
  (~ In s (elems x) -> AddUnique eq x s = elems x ++ [s]).
Proof.
  unfold AddUnique, Contains. destruct (contains (elems x) s) eqn:E.
  - apply contains_In in E. split; [|split; [|split]].
    + intros t. split; [tauto|]. intros [H|H]; [assumption|congruence].
    + tauto.
    + reflexivity.
    + intros H. contradiction.
  - assert (N : ~ In s (elems x)).
    { intros I. apply contains_In in I. congruence. }
    split; [|split; [|split]].
    + intros t. rewrite in_app_iff. cbn [In]. intuition.
    + intros D. apply NoDup_app; [assumption|repeat constructor; intros []|].
      intros a Ia [Ha|[]]. congruence.
    + intros I. contradiction.
    + reflexivity.
Qed.

(** X3. [Equal] on an [x] without duplicates: true exactly when [x] and [y]
    have the same length and the same elements. With duplicates in [x] it
    can be true of two different sets (the warning in the source). *)
Theorem Equal_same_elements :
  (forall x y : slice, coherent x y -> NoDup (elems x) ->
     (Equal eq x y = true <->
      length (elems x) = length (elems y) /\
      forall s, In s (elems x) <-> In s (elems y))) /\
  (exists x y : slice,
     coherent x y /\ Equal eq x y = true /\
     exists s, In s (elems y) /\ ~ In s (elems x)).
Proof.
  split.
  - intros x y C D. unfold Equal.
    destruct (Z.eqb_spec (Stor.len (elems x)) (Stor.len (elems y))) as [L|L];
      cbn [negb]; unfold Stor.len in L.
    + assert (L' : length (elems x) = length (elems y)) by lia.
      destruct (Same x y) eqn:S.
      * pose proof (Same_elems x y C S) as E. rewrite E.
        split; [intros _; split; [reflexivity|tauto]|reflexivity].
      * rewrite allFound_incl. split.
        -- intros I. split; [assumption|]. intros s. split; [apply I|].
           apply (NoDup_length_incl D); [lia|assumption].
        -- intros [_ H] s I. apply H. assumption.
    + split; [discriminate|]. intros [H _]. lia.
  - exists (mkSlice 1 [["a"]; ["a"]]), (mkSlice 2 [["a"]; ["b"]]).
    split; [intros A; discriminate|]. split.
    + unfold Equal, Same. cbn. rewrite !eq_refl_true. reflexivity.
    + exists ["b"]. split; [right; left; reflexivity|].
      intros [H|[H|[]]]; discriminate.
Qed.

(** X4. [Union] is [x] followed by the elements of [y] that are not in [x], in
    their order: it holds the elements of both, and no duplicates when
    neither input has any. *)
Theorem Union_elements (x y : slice) :
  Union eq x y
    = elems x ++ filter (fun ys => negb (amongFound (elems x) ys)) (elems y) /\
  (forall s, In s (Union eq x y) <-> In s (elems x) \/ In s (elems y)) /\
  (NoDup (elems x) -> NoDup (elems y) -> NoDup (Union eq x y)).
Proof.
  assert (E : Union eq x y
    = elems x ++ filter (fun ys => negb (amongFound (elems x) ys)) (elems y)).
  { unfold Union. destruct (Z.eqb (Stor.len (elems x)) 0) eqn:X.
    - apply len_zero in X. rewrite X. cbn [app]. symmetry. apply filter_all.
      reflexivity.
    - destruct (Z.eqb (Stor.len (elems y)) 0) eqn:Y.
      + apply len_zero in Y. rewrite Y. cbn [filter]. symmetry. apply app_nil_r.
      + rewrite notAmong_filter. reflexivity. }
  rewrite E. split; [reflexivity|]. split.
  - intros s. rewrite in_app_iff, filter_In. split.
    + intros [H|[H _]]; auto.
    + intros [H|H]; [left; assumption|].
      destruct (amongFound (elems x) s) eqn:A.
      * apply amongFound_In in A. left. assumption.
      * right. split; [assumption|reflexivity].
  - intros Dx Dy. apply NoDup_app; [assumption|apply NoDup_filter; assumption|].
    intros a Ia Fa. apply filter_In in Fa. destruct Fa as [_ Fa].
    apply negb_true_iff, amongFound_false in Fa. contradiction.
Qed.

(** X5. [Difference] is [x] without the elements that are in [y], in the order
    of [x]. *)
Theorem Difference_elements (x y : slice) :
  coherent x y ->
  Difference eq x y = filter (fun xs => negb (foundAmong xs (elems y))) (elems x) /\
  (forall s, In s (Difference eq x y) <-> In s (elems x) /\ ~ In s (elems y)).
Proof.
  intros C.
  assert (E : Difference eq x y
    = filter (fun xs => negb (foundAmong xs (elems y))) (elems x)).
  { unfold Difference. destruct (Z.eqb (Stor.len (elems x)) 0) eqn:X.
    - apply len_zero in X. rewrite X. reflexivity.
    - destruct (Z.eqb (Stor.len (elems y)) 0) eqn:Y.
      + apply len_zero in Y. rewrite Y. symmetry. apply filter_all. reflexivity.
      + destruct (Same x y) eqn:S.
        * rewrite <- (Same_elems x y C S). symmetry. apply filter_none.
          intros a I. apply negb_false_iff, foundAmong_In. assumption.
        * apply notFound_filter. }
  rewrite E. split; [reflexivity|]. intros s. rewrite filter_In.
  rewrite negb_true_iff, foundAmong_false. tauto.
Qed.

Lemma Intersect_filter (x y : slice) :
  coherent x y ->
  Intersect eq x y = filter (fun xs => foundAmong xs (elems y)) (elems x).
Proof.
  intros C. unfold Intersect. destruct (Same x y) eqn:S.
  - rewrite <- (Same_elems x y C S). symmetry. apply filter_all.
    intros a I. apply foundAmong_In. assumption.
  - destruct (Z.eqb (Stor.len (elems x)) 0) eqn:X.
    + apply len_zero in X. rewrite X. reflexivity.
    + destruct (Z.eqb (Stor.len (elems y)) 0) eqn:Y; cbn [orb].
      * apply len_zero in Y. rewrite Y. symmetry. apply filter_none.
        reflexivity.
      * apply found_filter.
Qed.

Lemma Intersect_In (x y : slice) :
  coherent x y ->
  forall s, In s (Intersect eq x y) <-> In s (elems x) /\ In s (elems y).
Proof.
  intros C s. rewrite (Intersect_filter x y C), filter_In, foundAmong_In.
  tauto.
Qed.

(** X6. [Intersect] is the elements of [x] that are in [y] too, in the order of
    [x]. *)
Theorem Intersect_elements (x y : slice) :
  coherent x y ->
  Intersect eq x y = filter (fun xs => foundAmong xs (elems y)) (elems x) /\
  (forall s, In s (Intersect eq x y) <-> In s (elems x) /\ In s (elems y)).
Proof.
  intros C. split; [apply Intersect_filter; exact C|].
  apply Intersect_In. exact C.
Qed.

Lemma subset_spec x y :
  subset eq x y = true <-> forall s, In s y -> In s x.
Proof.
  induction y as [|ys rest IH]; cbn [subset].
  - split; [intros _ s []|reflexivity].
  - destruct (amongFound x ys) eqn:A.
    + apply amongFound_In in A. rewrite IH. split.
      * intros H s [<-|I]; auto.
      * intros H s I. apply H. right. assumption.
    + apply amongFound_false in A. split; [discriminate|].
      intros H. exfalso. apply A, H. left. reflexivity.
Qed.

Lemma disjoint_spec x y :
  disjoint eq x y = true <-> forall s, In s x -> ~ In s y.
Proof.
  induction x as [|xs rest IH]; cbn [disjoint].
  - split; [intros _ s []|reflexivity].
  - destruct (foundAmong xs y) eqn:A.
    + apply foundAmong_In in A. split; [discriminate|].
      intros H. exfalso. apply (H xs); [left; reflexivity|assumption].
    + apply foundAmong_false in A. rewrite IH. split.
      * intros H s [<-|I]; auto.
      * intros H s I. apply H. right. assumption.
Qed.

(** X7. [Subset(x, y)] is true exactly when every element of [y] is in [x];
    [Disjoint(x, y)] exactly when no element of [x] is in [y], which is
    when [Intersect(x, y)] is empty (its comment). *)
Theorem Subset_Disjoint_meaning (x y : slice) :
  coherent x y ->
  (Subset eq x y = true <-> forall s, In s (elems y) -> In s (elems x)) /\
  (Disjoint eq x y = true <-> forall s, In s (elems x) -> ~ In s (elems y)) /\
  (Disjoint eq x y = true <-> Intersect eq x y = []).
Proof.
  intros C. split; [apply subset_spec|]. split; [apply disjoint_spec|].
  unfold Disjoint. rewrite disjoint_spec.
  pose proof (Intersect_In x y C) as I. split.
  - intros H. destruct (Intersect eq x y) as [|a l] eqn:E; [reflexivity|].
    exfalso. destruct (proj1 (I a) (or_introl Logic.eq_refl)) as [Ix Iy].
    apply (H a Ix Iy).
  - intros E s Ix Iy. rewrite E in I. apply (proj2 (I s)). split; assumption.
Qed.

End WithEq.

Lemma AddUnique_adds_once_witness :
  AddUnique sameStrings (mkSlice 1 [["a"]; ["b"; "c"]]) ["a"] = [["a"]; ["b"; "c"]] /\
  AddUnique sameStrings (mkSlice 1 [["a"]; ["b"; "c"]]) ["c"]
    = [["a"]; ["b"; "c"]; ["c"]].
Proof.
  destruct (AddUnique_adds_once sameStrings sameStrings_ok
              (mkSlice 1 [["a"]; ["b"; "c"]]) ["a"]) as (_ & _ & H & _).
  split; [apply H; left; reflexivity|reflexivity].
Defined.

Lemma Equal_same_elements_witness :
  Equal sameStrings (mkSlice 1 [["a"]; ["b"]]) (mkSlice 2 [["b"]; ["a"]]) = true.
Proof.
  destruct (Equal_same_elements sameStrings sameStrings_ok) as [H _].
  apply (H (mkSlice 1 [["a"]; ["b"]]) (mkSlice 2 [["b"]; ["a"]])).
  - intros A. discriminate.
  - repeat constructor; cbn [In]; intuition discriminate.
  - split; [reflexivity|]. intros s. cbn [In elems]. tauto.
Defined.

Lemma Union_elements_witness :
  Union sameStrings (mkSlice 1 [["a"]; ["b"]]) (mkSlice 2 [["b"]; ["c"]])
    = [["a"]; ["b"]; ["c"]].
Proof.
  destruct (Union_elements sameStrings sameStrings_ok
              (mkSlice 1 [["a"]; ["b"]]) (mkSlice 2 [["b"]; ["c"]])) as [H _].
  rewrite H. reflexivity.
Defined.

Lemma Difference_elements_witness :
  Difference sameStrings (mkSlice 1 [["a"]; ["b"]]) (mkSlice 2 [["b"]; ["c"]])
    = [["a"]].
Proof.
  destruct (Difference_elements sameStrings sameStrings_ok
              (mkSlice 1 [["a"]; ["b"]]) (mkSlice 2 [["b"]; ["c"]])) as [H _].
  - intros A. discriminate.
  - rewrite H. reflexivity.
Defined.

Lemma Intersect_elements_witness :
  Intersect sameStrings (mkSlice 1 [["a"]; ["b"]]) (mkSlice 2 [["b"]; ["c"]])
    = [["b"]].
Proof.
  destruct (Intersect_elements sameStrings sameStrings_ok
              (mkSlice 1 [["a"]; ["b"]]) (mkSlice 2 [["b"]; ["c"]])) as [H _].
  - intros A. discriminate.
  - rewrite H. reflexivity.
Defined.

Lemma Subset_Disjoint_meaning_witness :
  Disjoint sameStrings (mkSlice 1 [["a"]; ["b"]]) (mkSlice 2 [["c"]]) = true /\
  Intersect sameStrings (mkSlice 1 [["a"]; ["b"]]) (mkSlice 2 [["c"]]) = [].
Proof.
  destruct (Subset_Disjoint_meaning sameStrings sameStrings_ok
              (mkSlice 1 [["a"]; ["b"]]) (mkSlice 2 [["c"]])) as (_ & _ & H).
  - intros A. discriminate.
  - split; [reflexivity|]. apply H. reflexivity.
Defined.

End SetordFacts.

Module StorOpsFacts.
Import Stor StorFacts CodecFacts StorDataFacts StorOps.

Lemma trailingZeros_range : forall fuel k x,
  k <= trailingZeros fuel k x <= k + Z.of_nat fuel.
Proof.
  induction fuel as [|f IH]; intros k x; cbn [trailingZeros]; [lia|].
  destruct (Z.odd x); [lia|]. specialize (IH (k + 1) (x / 2)). lia.
Qed.

Lemma trailingZeros_pow2 : forall fuel k j,
  (j < fuel)%nat -> trailingZeros fuel k (2 ^ Z.of_nat j) = k + Z.of_nat j.
Proof.
  induction fuel as [|f IH]; intros k j H; [lia|]. cbn [trailingZeros].
  destruct j as [|j].
  - cbn. lia.
  - rewrite Nat2Z.inj_succ, Z.pow_succ_r by lia.
    rewrite Z.odd_mul. cbn [Z.odd andb].
    replace (2 * 2 ^ Z.of_nat j / 2) with (2 ^ Z.of_nat j)
      by (rewrite Z.mul_comm, Z.div_mul; lia).
    rewrite IH by lia. lia.
Qed.

(** X8. [NewStor] accepts a chunk size exactly when it is a power of two below
    2^64, or zero (for which [1<<shift] wraps around to zero too). The store
    it makes has that chunk size with the matching shift, the size given,
    and no chunk mapped yet. *)
Theorem NewStor_power_of_two (im : Z -> list byte) (csz sz : Z) :
  0 <= csz < 2 ^ 64 ->
  (NewStor im csz sz <> None <->
   csz = 0 \/ exists k, 0 <= k < 64 /\ csz = 2 ^ k) /\
  (forall s, NewStor im csz sz = Some s ->
     impl s = im /\ chunksize s = csz /\ size s = sz /\ chunks s = [] /\
     threshold s = u64 (csz * 3) / 4 /\
     (csz <> 0 -> 0 <= shift s < 64 /\ csz = 2 ^ shift s)).
Proof.
  intros Hc.
  assert (K : forall sh, 0 <= sh <= 64 -> u64 (Z.shiftl 1 sh) = csz ->
                (sh = 64 /\ csz = 0) \/ (sh < 64 /\ csz = 2 ^ sh)).
  { intros sh Hs E. rewrite Z.shiftl_1_l in E.
    destruct (Z.eq_dec sh 64) as [->|N].
    - left. split; [reflexivity|]. rewrite <- E. reflexivity.
    - right. split; [lia|]. rewrite <- E. apply u64_small.
      split; [apply Z.pow_nonneg; lia|]. apply Z.pow_lt_mono_r; lia. }
  assert (R : 0 <= (if csz =? 0 then 64 else trailingZeros 64 0 csz) <= 64).
  { destruct (csz =? 0); [lia|].
    pose proof (trailingZeros_range 64 0 csz). lia. }
  split.
  - unfold NewStor.
    set (sh := if csz =? 0 then 64 else trailingZeros 64 0 csz) in *. split.
    + destruct (Z.eqb_spec (u64 (Z.shiftl 1 sh)) csz) as [E|E]; [|congruence].
      intros _. destruct (K sh R E) as [[_ Z]|[L P]]; [left; assumption|].
      right. exists sh. split; [lia|assumption].
    + intros [->|(k & Hk & ->)].
      * subst sh. cbn. discriminate.
      * subst sh. assert (P : 0 < 2 ^ k) by (apply Z.pow_pos_nonneg; lia).
        destruct (Z.eqb_spec (2 ^ k) 0); [lia|].
        replace k with (Z.of_nat (Z.to_nat k)) by lia.
        rewrite trailingZeros_pow2 by lia. rewrite Z.add_0_l.
        rewrite Z.shiftl_1_l, u64_small.
        -- rewrite Z.eqb_refl. discriminate.
        -- split; [lia|]. apply Z.pow_lt_mono_r; lia.
  - intros s E. unfold NewStor in E.
    set (sh := if csz =? 0 then 64 else trailingZeros 64 0 csz) in *.
    destruct (Z.eqb_spec (u64 (Z.shiftl 1 sh)) csz) as [P|P]; [|discriminate].
    inversion E; subst s; cbn. repeat split; try reflexivity.
    + destruct (K sh R P) as [[_ Z]|[L Q]]; [contradiction|lia].
    + destruct (K sh R P) as [[_ Z]|[L Q]]; [contradiction|lia].
    + destruct (K sh R P) as [[_ Z]|[L Q]]; [contradiction|assumption].
Qed.

Lemma NewStor_power_of_two_witness :
  (exists s, NewStor (heapGet 64) 64 0 = Some s /\ shift s = 6 /\ threshold s = 48) /\
  NewStor (heapGet 48) 48 0 = None.
Proof.
  destruct (NewStor_power_of_two (heapGet 64) 64 0 ltac:(lia)) as [H1 H2].
  split.
  - destruct (NewStor (heapGet 64) 64 0) as [s|] eqn:E.
    + exists s. split; [reflexivity|]. inversion E. split; reflexivity.
    + exfalso. apply (proj2 H1); [|reflexivity]. right. exists 6. lia.
  - reflexivity.
Defined.

(** X9. Closing a store that is not a heap store: the callbacks are called with
    the size and the storage is closed with it; afterwards [Size] and
    [Alloc] are fatal, and closing again calls nothing and changes
    nothing. A heap store is left as it is. *)
Theorem Close_once (s : Stor) (unmap unmap' : bool) (k k' : nat) :
  size s <> closedSize ->
  let '(s', done) := Close false s unmap k in
  done = map (fun i => Callback i (size s)) (seq 0 k)
         ++ [ImplClose (to_int (size s)) unmap] /\
  Size s' = None /\ (forall n, Alloc s' n = None) /\
  Close false s' unmap' k' = (s', []) /\
  fst (Close true s unmap k) = s.
Proof.
  intros H. unfold Close. destruct (Z.eqb_spec (size s) closedSize) as [E|_];
    [contradiction|]. cbn [negb]. split; [reflexivity|].
  split; [unfold Size; cbn; reflexivity|]. split.
  - intros n. unfold Alloc. cbn [set_size chunksize size].
    destruct (negb _); reflexivity.
  - split; [cbn; reflexivity|reflexivity].
Qed.

Lemma copy_at_trunc (ch : list byte) lo data :
  copy_at ch lo data = copy_at ch lo (firstn (length ch - lo) data).
Proof.
  unfold copy_at. rewrite firstn_firstn, Nat.min_id. f_equal. f_equal.
  rewrite length_firstn.
  destruct (Nat.le_gt_cases (length data) (length ch - lo)).
  - rewrite Nat.min_r by assumption. reflexivity.
  - rewrite !skipn_all2 by lia. reflexivity.
Qed.

(** What [Data] reads: the chunk and the place in it. *)
Lemma Data_chunk s off d :
  Data s off = Some d ->
  exists ch, 0 <= offsetToChunk s off /\
    nth_error (chunks s) (Z.to_nat (offsetToChunk s off)) = Some ch /\
    0 <= Z.land off (chunksize s - 1) <= len ch /\
    d = skipn (Z.to_nat (Z.land off (chunksize s - 1))) ch.
Proof.
  unfold Data, index.
  destruct (Z.ltb_spec (offsetToChunk s off) 0); [discriminate|].
  destruct (nth_error (chunks s) (Z.to_nat (offsetToChunk s off))) as [ch|];
    [|discriminate].
  unfold slice_from.
  destruct (Z.leb_spec 0 (Z.land off (chunksize s - 1))); [|discriminate].
  destruct (Z.leb_spec (Z.land off (chunksize s - 1)) (len ch)); [|discriminate].
  cbn [andb]. intros X. inversion X. exists ch. repeat split; auto; lia.
Qed.

Lemma put_trunc s off data d :
  Data s off = Some d -> put s off data = put s off (firstn (length d) data).
Proof.
  intros H. destruct (Data_chunk s off d H) as (ch & Hc & E & Hl & ->).
  unfold put. rewrite E. rewrite (copy_at_trunc ch _ data), length_skipn.
  reflexivity.
Qed.

(** X10. [Write] on a heap store: the bytes at [off] are then the data, as far
    as its chunk goes, followed by what was there; the size and the other
    chunks are as before. Where [Data] panics, [Write] does. *)
Theorem Write_then_Data (s : Stor) (off : Z) (data d : list byte) :
  wf s -> Data s off = Some d ->
  exists s',
    Write s off data = Some s' /\
    Data s' off = Some (firstn (length d) data ++ skipn (length data) d) /\
    wf s' /\ size s' = size s /\
    (forall off2, 0 <= offsetToChunk s off2 ->
       offsetToChunk s off2 <> offsetToChunk s off ->
       Data s' off2 = Data s off2).
Proof.
  intros W H. exists (put s off data). unfold Write. rewrite H.
  split; [reflexivity|]. split; [|split; [apply wf_put; assumption|split]].
  - rewrite (put_trunc s off data d H).
    rewrite (Data_put s off d (firstn (length d) data) H)
      by (rewrite length_firstn; lia).
    f_equal. f_equal. rewrite length_firstn.
    destruct (Nat.le_gt_cases (length data) (length d)).
    + rewrite Nat.min_r by assumption. reflexivity.
    + rewrite !skipn_all2 by lia. reflexivity.
  - reflexivity.
  - intros off2 Hp Hne.
    destruct (Data_chunk s off d H) as (ch & Hc & E & Hl & _).
    unfold Data, put, index.
    change (offsetToChunk (set_chunks s ?x) off2) with (offsetToChunk s off2).
    cbn [chunks chunksize set_chunks]. rewrite E.
    rewrite (nth_error_update_other _ _ _ _ _ E) by lia. reflexivity.
Qed.

Lemma Write_then_Data_witness :
  exists s',
    Write heap60 10 [1; 2; 3] = Some s' /\
    (exists d, Data s' 10 = Some d /\ firstn 4 d = [1; 2; 3; 0]) /\
    Data s' 8 = Some ([0; 0; 1; 2; 3] ++ repeat 0 51).
Proof.
  destruct (Write_then_Data heap60 10 [1; 2; 3] (repeat 0 54) wf_heap60 eq_refl)
    as (s' & E & D & _).
  exists s'. split; [exact E|]. split.
  - eexists. split; [exact D|reflexivity].
  - inversion E. reflexivity.
Defined.

Lemma getChunk_extends s k : exists e, chunks (getChunk s k) = chunks s ++ e.
Proof.
  unfold getChunk. destruct (k >=? len (chunks s)).
  - eexists. reflexivity.
  - exists []. symmetry. apply app_nil_r.
Qed.

Lemma published_extends s n : exists e, chunks (published s n) = chunks s ++ e.
Proof.
  unfold published, place.
  assert (G : forall (s1 : Stor) z k (c : bool),
    (exists e, chunks s1 = chunks s ++ e) ->
    exists e, chunks (if c then getChunk (set_size s1 z) k else set_size s1 z)
              = chunks s ++ e).
  { intros s1 z k c [e E]. destruct c.
    - destruct (getChunk_extends (set_size s1 z) k) as [e' E'].
      rewrite E'. cbn [set_size chunks]. rewrite E, <- app_assoc. eexists.
      reflexivity.
    - cbn [set_size chunks]. exists e. assumption. }
  destruct (_ >=? offsetToChunk _ _).
  - apply G. destruct (_ >=? len _).
    + apply getChunk_extends.
    + exists []. symmetry. apply app_nil_r.
  - apply G. exists []. symmetry. apply app_nil_r.
Qed.

(** Reading a store whose chunks were extended. *)
Lemma Data_extends s s' o d e :
  chunks s' = chunks s ++ e -> chunksize s' = chunksize s -> shift s' = shift s ->
  Data s o = Some d -> Data s' o = Some d.
Proof.
  intros Ec Ecs Esh H. destruct (Data_chunk s o d H) as (ch & Hc & E & Hl & ->).
  unfold Data, index, offsetToChunk. rewrite Esh, Ecs, Ec.
  fold (offsetToChunk s o).
  destruct (Z.ltb_spec (offsetToChunk s o) 0); [lia|].
  rewrite nth_error_app1 by (apply nth_error_Some; congruence).
  rewrite E. unfold slice_from.
  destruct (Z.leb_spec 0 (Z.land o (chunksize s - 1))); [|lia].
  destruct (Z.leb_spec (Z.land o (chunksize s - 1)) (len ch)); [|lia].
  reflexivity.
Qed.

(** One allocation in a store in good order. *)
Lemma Alloc_step s n :
  wf s -> covered s -> size s + 2 * chunksize s < 2 ^ 63 ->
  0 < n <= chunksize s ->
  exists off b s',
    Alloc s n = Some (off, b, s') /\ wf s' /\ covered s' /\
    size s <= off <= size s + chunksize s /\ size s' = off + n /\
    chunksize s' = chunksize s /\ shift s' = shift s /\
    exists e, chunks s' = chunks s ++ e.
Proof.
  intros W C B N. destruct (Alloc_succeeds s n W C B N)
    as (off & b & s' & E & W' & C' & Hle & Hsz).
  exists off, b, s'. split; [exact E|]. split; [exact W'|]. split; [exact C'|].
  destruct (Alloc_Some s n off b s' E) as (d & _ & _ & _ & _ & _ & Ecs & Esh & _).
  pose proof E as E2. rewrite Alloc_unfold in E2.
  destruct (negb _); [discriminate|].
  destruct (size s =? closedSize); [discriminate|].
  destruct (Data (published s n) _); [|discriminate].
  destruct (slice_to _ n); [|discriminate].
  injection E2 as Eo Eb Es.
  pose proof (chunksize_pos s W) as Hc. destruct C as [H0 _].
  split; [|split; [exact Hsz|split; [exact Ecs|split; [exact Esh|]]]].
  - split; [exact Hle|]. rewrite <- Eo.
    destruct (place_cases s n W H0 B N) as [[_ P]|(k & Hk & _ & _ & P)];
      rewrite P; cbn [fst snd]; [lia|].
    pose proof (Z.div_mod (size s) (chunksize s) ltac:(lia)).
    pose proof (Z.mod_pos_bound (size s) (chunksize s) Hc). nia.
  - rewrite <- Es. apply published_extends.
Qed.

(** X11. Allocations one after the other all succeed, as long as the store
    stays well below 2^63 bytes, and follow one another without
    overlapping: each begins at or after the end of the one before. *)
Theorem allocAll_chained : forall (ns : list Z) (s : Stor),
  wf s -> covered s ->
  Forall (fun n => 0 < n <= chunksize s) ns ->
  size s + 2 * (len ns + 1) * chunksize s < 2 ^ 63 ->
  exists offs s',
    allocAll s ns = Some (offs, s') /\ length offs = length ns /\
    wf s' /\ covered s' /\ chained (size s) (combine offs ns).
Proof.
  induction ns as [|n rest IH]; intros s W C F B.
  - exists [], s. cbn. auto.
  - pose proof (chunksize_pos s W) as Hc. inversion F as [|? ? Hn Hrest]; subst.
    assert (L : len (n :: rest) = len rest + 1) by (unfold len; cbn [length]; lia).
    rewrite L in B. pose proof (len_nonneg rest) as Lr.
    destruct (Alloc_step s n W C ltac:(nia) Hn)
      as (off & b & s1 & E & W1 & C1 & Ho & Hs & Ecs & _).
    destruct (IH s1 W1 C1) as (offs & s2 & E2 & Ll & W2 & C2 & Ch).
    + rewrite Ecs. assumption.
    + rewrite Ecs, Hs. nia.
    + exists (off :: offs), s2. cbn [allocAll]. rewrite E, E2.
      split; [reflexivity|]. split; [cbn [length]; lia|].
      split; [exact W2|]. split; [exact C2|].
      cbn [combine chained]. split; [lia|]. rewrite <- Hs. exact Ch.
Qed.

Lemma allocAll_chained_witness :
  exists offs s', allocAll heap60 [10; 3; 64] = Some (offs, s') /\
                  chained 60 (combine offs [10; 3; 64]).
Proof.
  destruct (allocAll_chained [10; 3; 64] heap60 wf_heap60)
    as (offs & s' & E & _ & _ & _ & C).
  - split; [simpl; lia | vm_compute; reflexivity].
  - repeat constructor; cbn; lia.
  - vm_compute. reflexivity.
  - exists offs, s'. split; assumption.
Defined.

(** X12. An allocation changes no byte that was there: whatever could be read
    at an offset before reads the same afterwards. *)
Theorem Alloc_keeps_data (s s' : Stor) (n off o : Z) (b d : list byte) :
  Alloc s n = Some (off, b, s') -> Data s o = Some d -> Data s' o = Some d.
Proof.
  intros E H.
  destruct (Alloc_Some s n off b s' E) as (d' & _ & _ & _ & _ & _ & Ecs & Esh & _).
  pose proof E as E2. rewrite Alloc_unfold in E2.
  destruct (negb _); [discriminate|].
  destruct (size s =? closedSize); [discriminate|].
  destruct (Data (published s n) _); [|discriminate].
  destruct (slice_to _ n); [|discriminate].
  injection E2 as Eo Eb Es.
  destruct (published_extends s n) as [e Ee]. rewrite Es in Ee.
  eapply Data_extends; eauto.
Qed.

Lemma Alloc_keeps_data_witness :
  exists off b s', Alloc heap60 10 = Some (off, b, s') /\
                   Data s' 8 = Some (repeat 0 56).
Proof.
  eexists _, _, _. split; [vm_compute; reflexivity|].
  eapply (Alloc_keeps_data heap60 _ 10 _ 8); [vm_compute|]; reflexivity.
Defined.

Lemma indexFrom_spec buf b : forall k j,
  let i := indexFrom buf b j k in
  (i = -1 /\ forall m, (j <= m < j + k)%nat -> sub buf m (length b) <> b) \/
  (Z.of_nat j <= i < Z.of_nat (j + k) /\ sub buf (Z.to_nat i) (length b) = b /\
   forall m, (j <= m < Z.to_nat i)%nat -> sub buf m (length b) <> b).
Proof.
  induction k as [|k IH]; intros j; cbn [indexFrom].
  - left. split; [reflexivity|]. intros; lia.
  - destruct (bytes_eqb (sub buf j (length b)) b) eqn:E.
    + apply bytes_eqb_eq in E. right. rewrite Nat2Z.id.
      split; [lia|]. split; [assumption|]. intros; lia.
    + assert (N : sub buf j (length b) <> b).
      { intros X. apply bytes_eqb_eq in X. congruence. }
      destruct (IH (S j)) as [[E1 H1]|(R & M & H1)].
      * left. split; [assumption|]. intros m Hm.
        destruct (Nat.eq_dec m j) as [->|]; [assumption|]. apply H1. lia.
      * right. split; [lia|]. split; [assumption|]. intros m Hm.
        destruct (Nat.eq_dec m j) as [->|]; [assumption|]. apply H1. lia.
Qed.

(** [Index]: the first place of [b] in [buf], or -1 when there is none. *)
Lemma Index_spec buf b :
  b <> [] ->
  let i := Index buf b in
  (i = -1 /\ forall j, sub buf j (length b) <> b) \/
  (0 <= i /\ i + len b <= len buf /\ sub buf (Z.to_nat i) (length b) = b /\
   forall j, (j < Z.to_nat i)%nat -> sub buf j (length b) <> b).
Proof.
  intros Hb. unfold Index. destruct (Nat.ltb_spec (length buf) (length b)).
  - left. split; [reflexivity|]. intros j E.
    pose proof (RepairFacts.sub_match_bound buf b j Hb E). lia.
  - destruct (indexFrom_spec buf b (S (length buf - length b)) 0)
      as [[E1 H1]|(R & M & H1)].
    + left. split; [assumption|]. intros j E.
      pose proof (RepairFacts.sub_match_bound buf b j Hb E).
      apply (H1 j); [lia|assumption].
    + right. split; [lia|]. split; [unfold len; lia|]. split; [assumption|].
      intros j Hj. apply H1. lia.
Qed.

Lemma sub_skipn (l : list byte) n j k : sub (skipn n l) j k = sub l (n + j) k.
Proof. unfold sub. rewrite skipn_skipn. f_equal. f_equal. lia. Qed.

Section Searching.

Variable s : Stor.
Variable b : list byte.
Hypothesis Wf : wf s.
Hypothesis b_nonempty : b <> [].
Hypothesis small : len (chunks s) * chunksize s < 2 ^ 63.

Local Abbreviation cs := (chunksize s).
Local Abbreviation after := (after s).
Local Abbreviation occursAt := (Repair.occursAt s b).

Lemma firstOffsetFrom_spec : forall k c n,
  0 <= c -> c + Z.of_nat k = len (chunks s) -> 0 <= n <= cs ->
  exists o, firstOffsetFrom s b k c n = Some o /\ 0 <= o /\
    ((occursAt o /\ after c n o /\
      forall o', 0 <= o' -> occursAt o' -> after c n o' -> o <= o') \/
     (o = 0 /\ forall o', 0 <= o' -> occursAt o' -> ~ after c n o')).
Proof.
  pose proof (chunksize_pos s Wf) as Hc.
  induction k as [|k IH]; intros c n Hc0 Hk Hn; cbn [firstOffsetFrom].
  - exists 0. split; [reflexivity|]. split; [lia|]. right.
    split; [reflexivity|]. intros o' Ho' (ch & Ei & _) A.
    assert (o' / cs < len (chunks s)).
    { unfold index in Ei. destruct (o' / cs <? 0); [discriminate|].
      assert (Z.to_nat (o' / cs) < length (chunks s))%nat
        by (apply nth_error_Some; congruence).
      assert (0 <= o' / cs) by (apply Z.div_pos; lia). unfold len. lia. }
    unfold StorOps.after in A. lia.
  - destruct (index_lt (chunks s) c ltac:(lia)) as [ch Ech]. rewrite Ech.
    assert (Lch : len ch = cs).
    { pose proof (wf_chunks _ Wf) as Hall. rewrite Forall_forall in Hall.
      apply Hall. eapply index_In; eauto. }
    unfold slice_from. rewrite Lch.
    destruct (Z.leb_spec 0 n); [|lia]. destruct (Z.leb_spec n cs); [|lia].
    cbn [andb].
    assert (Lb : len (skipn (Z.to_nat n) ch) = cs - n)
      by (unfold len in *; rewrite length_skipn; lia).
    assert (M : forall o', 0 <= o' -> occursAt o' -> o' / cs = c ->
              n <= o' mod cs ->
              sub (skipn (Z.to_nat n) ch) (Z.to_nat (o' mod cs - n)) (length b) = b).
    { intros o' Ho' (ch' & Ei & Es & Eb) Hq Hm. rewrite Hq, Ech in Ei.
      inversion Ei; subst ch'. rewrite sub_skipn.
      replace (Z.to_nat n + Z.to_nat (o' mod cs - n))%nat
        with (Z.to_nat (o' mod cs)) by lia. assumption. }
    destruct (Index_spec (skipn (Z.to_nat n) ch) b b_nonempty)
      as [[E1 H1]|(R & B & Mi & H1)].
    + rewrite E1. cbn [Z.eqb negb].
      destruct (IH (c + 1) 0 ltac:(lia) ltac:(lia) ltac:(lia))
        as (o & Eo & Ho & Hspec).
      exists o. split; [exact Eo|]. split; [exact Ho|].
      assert (X : forall o', 0 <= o' -> occursAt o' ->
                  (after c n o' <-> after (c + 1) 0 o')).
      { intros o' Ho' Oc. unfold StorOps.after.
        pose proof (Z.mod_pos_bound o' cs Hc). split.
        - intros [A|[A1 A2]]; [lia|]. exfalso.
          apply (H1 _ (M o' Ho' Oc A1 A2)).
        - intros [A|[A1 A2]]; left; lia. }
      destruct Hspec as [(Oc & Af & Mn)|[Ez Hno]].
      * left. split; [exact Oc|]. split; [apply X; assumption|].
        intros o' Ho' Oc' Af'. apply Mn; auto. apply X; assumption.
      * right. split; [exact Ez|]. intros o' Ho' Oc' Af'.
        apply (Hno o' Ho' Oc'). apply X; assumption.
    + rewrite Lb in B. pose proof (len_nonneg b) as Lb0.
      assert (Lb1 : 0 < len b).
      { destruct b; [congruence|]. unfold len. cbn [length]. lia. }
      set (i := Index (skipn (Z.to_nat n) ch) b) in *.
      destruct (Z.eqb_spec i (-1)); [lia|]. cbn [negb].
      assert (Hcl : c * cs + cs <= len (chunks s) * cs) by nia.
      rewrite (u64_small c) by nia. rewrite (u64_small i) by lia.
      rewrite (u64_small (c * cs)) by nia.
      rewrite (u64_small (c * cs + n)) by nia.
      rewrite (u64_small (c * cs + n + i)) by nia.
      assert (Ed : (c * cs + n + i) / cs = c).
      { symmetry. apply Z.div_unique with (r := n + i); lia. }
      assert (Em : (c * cs + n + i) mod cs = n + i).
      { symmetry. apply Z.mod_unique with (q := c); lia. }
      exists (c * cs + n + i). split; [reflexivity|]. split; [nia|]. left.
      split; [|split].
      * exists ch. rewrite Ed, Em. split; [exact Ech|]. split; [|lia].
        rewrite sub_skipn in Mi.
        replace (Z.to_nat (n + i)) with (Z.to_nat n + Z.to_nat i)%nat by lia.
        exact Mi.
      * right. rewrite Ed, Em. split; [reflexivity|lia].
      * intros o' Ho' Oc' [A|[A1 A2]].
        -- pose proof (Z.div_mod o' cs ltac:(lia)).
           pose proof (Z.mod_pos_bound o' cs Hc). nia.
        -- pose proof (M o' Ho' Oc' A1 A2) as Mo.
           destruct (Z_lt_le_dec (o' mod cs - n) i) as [Hlt|Hle].
           ++ exfalso. apply (H1 (Z.to_nat (o' mod cs - n))); [lia|exact Mo].
           ++ pose proof (Z.div_mod o' cs ltac:(lia)) as Hdm.
              rewrite A1 in Hdm. lia.
Qed.

Lemma after_from off o :
  0 <= off -> 0 <= o -> (after (off / cs) (off mod cs) o <-> off <= o).
Proof.
  pose proof (chunksize_pos s Wf) as Hc. intros Hoff Ho.
  pose proof (Z.div_mod o cs ltac:(lia)) as Do.
  pose proof (Z.div_mod off cs ltac:(lia)) as Doff.
  pose proof (Z.mod_pos_bound o cs Hc) as Mo.
  pose proof (Z.mod_pos_bound off cs Hc) as Moff.
  unfold StorOps.after. split.
  - intros [Hlt|[He Hr]]; nia.
  - intros Hle.
    assert (off / cs < o / cs \/ o / cs = off / cs \/ o / cs < off / cs)
      as [Hlt|[He|Hgt]] by lia.
    + left; assumption.
    + right. split; [assumption|]. rewrite He in Do. lia.
    + exfalso. nia.
Qed.

(** X13. [FirstOffset] returns the first place at or after [off] where [b] lies
    inside one chunk, and 0 when there is none. *)
Theorem FirstOffset_first_occurrence (off : Z) :
  0 <= off < 2 ^ 63 ->
  exists o, FirstOffset s off b = Some o /\ 0 <= o /\
    ((occursAt o /\ off <= o /\
      forall o', 0 <= o' -> occursAt o' -> off <= o' -> o <= o') \/
     (o = 0 /\ forall o', 0 <= o' -> occursAt o' -> ~ off <= o')).
Proof.
  pose proof (chunksize_pos s Wf) as Hc. intros Hoff.
  assert (Hq : 0 <= off / cs) by (apply Z.div_pos; lia).
  pose proof (Z.mod_pos_bound off cs Hc) as Moff.
  unfold FirstOffset. rewrite offsetToChunk_small, land_mask by assumption.
  destruct (Z_lt_le_dec (off / cs) (len (chunks s))) as [Hin|Hout].
  - destruct (firstOffsetFrom_spec (Z.to_nat (len (chunks s) - off / cs))
                (off / cs) (off mod cs) Hq ltac:(lia) ltac:(lia))
      as (o & Eo & Ho & Hspec).
    exists o. split; [exact Eo|]. split; [exact Ho|].
    destruct Hspec as [(Oc & Af & Mn)|[Ez Hno]].
    + left. split; [exact Oc|].
      split; [exact (proj1 (after_from off o ltac:(lia) Ho) Af)|].
      intros o' Ho' Oc' Hle. apply Mn; auto.
      exact (proj2 (after_from off o' ltac:(lia) Ho') Hle).
    + right. split; [exact Ez|]. intros o' Ho' Oc' Hle.
      apply (Hno o' Ho' Oc').
      exact (proj2 (after_from off o' ltac:(lia) Ho') Hle).
  - replace (Z.to_nat (len (chunks s) - off / cs)) with O by lia.
    cbn [firstOffsetFrom]. exists 0. split; [reflexivity|]. split; [lia|].
    right. split; [reflexivity|]. intros o' Ho' (ch & Ei & _) Hle.
    assert (o' / cs < len (chunks s)).
    { unfold index in Ei. destruct (o' / cs <? 0); [discriminate|].
      assert (Z.to_nat (o' / cs) < length (chunks s))%nat
        by (apply nth_error_Some; congruence).
      assert (0 <= o' / cs) by (apply Z.div_pos; lia). unfold len. lia. }
    pose proof (Z.div_le_mono off o' cs Hc Hle). lia.
Qed.

End Searching.

(** X14. [LastOffset] returns the last place where [b] lies inside one chunk
    entirely below [off], and 0 when there is none. *)
Theorem LastOffset_last_occurrence (s : Stor) (b : list byte) (off : Z) :
  wf s -> b <> [] -> 0 <= off < 2 ^ 63 ->
  off / chunksize s < len (chunks s) ->
  exists o, Repair.LastOffset s off b = Some o /\ 0 <= o /\
    ((Repair.occursAt s b o /\ o + len b <= off /\
      forall o', 0 <= o' -> Repair.occursAt s b o' -> o' + len b <= off ->
                 o' <= o) \/
     (o = 0 /\ forall o', 0 <= o' -> Repair.occursAt s b o' ->
                          ~ o' + len b <= off)).
Proof.
  intros W Hb Hoff Hcov. exact (RepairFacts.LastOffset_spec s b W Hb off Hoff Hcov).
Qed.

Lemma FirstOffset_first_occurrence_witness :
  FirstOffset (mkStor (heapGet 128) 128 96 7 (len Repair.sampleFile)
                 [Repair.sampleFile ++ repeat 0 (128 - length Repair.sampleFile)])
    14 State.magic1 = Some 51 /\
  Repair.occursAt (mkStor (heapGet 128) 128 96 7 (len Repair.sampleFile)
                     [Repair.sampleFile ++ repeat 0 (128 - length Repair.sampleFile)])
    State.magic1 51.
Proof.
  destruct (FirstOffset_first_occurrence _ State.magic1 RepairFacts.wf_sampleStore
              RepairFacts.magic1_nonempty ltac:(vm_compute; reflexivity) 14
              ltac:(lia)) as (o & E & _ & Hspec).
  assert (E' : FirstOffset (mkStor (heapGet 128) 128 96 7 (len Repair.sampleFile)
                 [Repair.sampleFile ++ repeat 0 (128 - length Repair.sampleFile)])
                 14 State.magic1 = Some 51) by (vm_compute; reflexivity).
  split; [exact E'|]. rewrite E' in E. injection E as <-.
  destruct Hspec as [(Oc & _)|[Z _]]; [exact Oc|discriminate].
Defined.

Lemma LastOffset_last_occurrence_witness :
  Repair.LastOffset (mkStor (heapGet 128) 128 96 7 (len Repair.sampleFile)
                 [Repair.sampleFile ++ repeat 0 (128 - length Repair.sampleFile)])
    51 State.magic1 = Some 13 /\
  Repair.occursAt (mkStor (heapGet 128) 128 96 7 (len Repair.sampleFile)
                     [Repair.sampleFile ++ repeat 0 (128 - length Repair.sampleFile)])
    State.magic1 13.
Proof.
  destruct (LastOffset_last_occurrence _ State.magic1 51 RepairFacts.wf_sampleStore
              RepairFacts.magic1_nonempty ltac:(lia)
              ltac:(vm_compute; reflexivity)) as (o & E & _ & Hspec).
  assert (E' : Repair.LastOffset (mkStor (heapGet 128) 128 96 7 (len Repair.sampleFile)
                 [Repair.sampleFile ++ repeat 0 (128 - length Repair.sampleFile)])
                 51 State.magic1 = Some 13) by (vm_compute; reflexivity).
  split; [exact E'|]. rewrite E' in E. injection E as <-.
  destruct Hspec as [(Oc & _)|[Z _]]; [exact Oc|discriminate].
Defined.

Lemma Close_once_witness :
  let '(s', done) := Close false heap60 true 2 in
  done = [Callback 0 60; Callback 1 60; ImplClose 60 true] /\ Size s' = None.
Proof.
  pose proof (Close_once heap60 true true 2 0 ltac:(vm_compute; discriminate)) as H.
  cbv beta iota zeta delta [Close] in H. cbn in H.
  split; [reflexivity|apply H].
Defined.

End StorOpsFacts.

Module RepairMoreFacts.
Import Stor StorFacts CodecFacts Repair RepairFacts.
Local Open Scope string_scope.
Local Open Scope list_scope.

Section Checking.

Context {Meta Schema : Type} (Table : Schema -> string)
  (tables : Meta -> list Schema)
  (checkTable : Stor -> Meta -> Schema -> option string)
  (checkNamed : Stor -> Meta -> string -> option string).

Local Abbreviation checkOthers := (checkOthers Meta Schema Table checkTable).
Local Abbreviation checkState :=
  (checkState Meta Schema Table tables checkTable checkNamed).

Lemma checkOthers_passes store m table scs :
  checkOthers store m table scs = None <->
  forall sc, In sc scs -> Table sc <> table -> checkTable store m sc = None.
Proof.
  induction scs as [|sc rest IH]; cbn [Repair.checkOthers].
  - split; [intros _ sc []|reflexivity].
  - destruct (String.eqb_spec (Table sc) table) as [E|E].
    + rewrite IH. split.
      * intros H sc' [<-|I] N; [contradiction|auto].
      * intros H sc' I N. apply H; [right; assumption|assumption].
    + destruct (checkTable store m sc) as [e|] eqn:C.
      * split; [discriminate|]. intros H.
        rewrite (H sc (or_introl Logic.eq_refl) E) in C. discriminate.
      * rewrite IH. split.
        -- intros H sc' [<-|I] N; [assumption|auto].
        -- intros H sc' I N. apply H; [right; assumption|assumption].
Qed.

(** X15. [checkState] passes exactly when the table named by the last failed
    check (if any) passes and every other table of the state passes; when
    the named table fails, its error is the one returned, before any other
    table is looked at. *)
Theorem checkState_passes (store : Stor) (m : Meta) (table : string) :
  (checkState store m table = None <->
   (table = "" \/ checkNamed store m table = None) /\
   forall sc, In sc (tables m) -> Table sc <> table ->
              checkTable store m sc = None) /\
  (forall e, table <> "" -> checkNamed store m table = Some e ->
             checkState store m table = Some e).
Proof.
  unfold Repair.checkState. split.
  - destruct (String.eqb_spec table "") as [E|E].
    + rewrite checkOthers_passes. split; [intros H; split; [left|]; assumption|].
      intros [_ H]. exact H.
    + destruct (checkNamed store m table) as [e|].
      * split; [discriminate|]. intros [[H|H] _]; [contradiction|discriminate].
      * rewrite checkOthers_passes. split; [intros H; split; [right; reflexivity|assumption]|].
        intros [_ H]. exact H.
  - intros e N C. destruct (String.eqb_spec table ""); [contradiction|].
    rewrite C. reflexivity.
Qed.

End Checking.

Section Keeping.

Context (Sum : list byte -> list byte) (Noffsets : nat) {Meta Schema : Type}
  (ReadOverlay : Stor -> list Z -> option Meta) (Table : Schema -> string)
  (tables : Meta -> list Schema)
  (checkTable : Stor -> Meta -> Schema -> option string)
  (checkNamed : Stor -> Meta -> string -> option string)
  (MmapStor : list byte -> option Stor) (tmpfile : string).

Local Abbreviation Repair :=
  (Repair Sum Noffsets Meta Schema ReadOverlay Table tables checkTable
     checkNamed MmapStor tmpfile).


End Keeping.


End RepairMoreFacts.

Module TempIndexOpsFacts.
Import TempIndexOps.
Local Open Scope string_scope.
Local Open Scope list_scope.

Lemma ascii_compare_trans a b c :
  Ascii.compare a b = Lt -> Ascii.compare b c = Lt -> Ascii.compare a c = Lt.
Proof.
  unfold Ascii.compare. rewrite !N.compare_lt_iff. apply N.lt_trans.
Qed.

Lemma compare_lt_trans : forall a b c,
  String.compare a b = Lt -> String.compare b c = Lt -> String.compare a c = Lt.
Proof.
  induction a as [|x a IH]; intros [|y b] [|z c]; cbn [String.compare];
    try discriminate; try reflexivity.
  destruct (Ascii.compare x y) eqn:Exy; try discriminate.
  - apply Ascii.compare_eq_iff in Exy. subst y.
    destruct (Ascii.compare x z); try discriminate; [apply IH|reflexivity].
  - intros _. destruct (Ascii.compare y z) eqn:Eyz; try discriminate.
    + apply Ascii.compare_eq_iff in Eyz. subst z. rewrite Exy. reflexivity.
    + intros _. rewrite (ascii_compare_trans x y z Exy Eyz). reflexivity.
Qed.

Lemma strLess_trans a b c :
  strLess a b = true -> strLess b c = true -> strLess a c = true.
Proof.
  unfold strLess. intros H1 H2.
  destruct (String.compare a b) eqn:E1; try discriminate.
  destruct (String.compare b c) eqn:E2; try discriminate.
  rewrite (compare_lt_trans a b c E1 E2). reflexivity.
Qed.

Lemma strLess_total a b : strLess a b = false -> strLess b a = false -> a = b.
Proof.
  unfold strLess. rewrite (String.compare_antisym b a).
  destruct (String.compare a b) eqn:E; cbn; try discriminate.
  intros _ _. apply String.compare_eq_iff. assumption.
Qed.

Section WithRows.

Context {Row : Type} (GetRawVal : Row -> string -> string).

Local Abbreviation less := (less GetRawVal).
Local Abbreviation less2 := (less2 GetRawVal).
Local Abbreviation matches := (matches GetRawVal).
Local Abbreviation keyOf := (keyOf GetRawVal).

Lemma less_irrefl order x : less order x x = false.
Proof.
  induction order as [|col rest IH]; cbn [TempIndexOps.less]; [reflexivity|].
  rewrite String.eqb_refl. exact IH.
Qed.

Lemma less_asym order x y : less order x y = true -> less order y x = false.
Proof.
  induction order as [|col rest IH]; cbn [TempIndexOps.less]; [discriminate|].
  rewrite (String.eqb_sym (GetRawVal y col)).
  destruct (String.eqb (GetRawVal x col) (GetRawVal y col)); cbn [negb];
    [exact IH|apply SortFacts.strLess_asym].
Qed.

Lemma less_trans order x y z :
  less order x y = true -> less order y z = true -> less order x z = true.
Proof.
  induction order as [|col rest IH]; cbn [TempIndexOps.less]; [discriminate|].
  destruct (String.eqb_spec (GetRawVal x col) (GetRawVal y col)) as [E|E];
    cbn [negb].
  - rewrite E. destruct (String.eqb (GetRawVal y col) (GetRawVal z col));
      cbn [negb]; [exact IH|auto].
  - destruct (String.eqb_spec (GetRawVal y col) (GetRawVal z col)) as [F|F];
      cbn [negb].
    + rewrite <- F. destruct (String.eqb_spec (GetRawVal x col) (GetRawVal y col));
        [contradiction|]. auto.
    + intros H1 H2. pose proof (strLess_trans _ _ _ H1 H2) as T.
      destruct (String.eqb_spec (GetRawVal x col) (GetRawVal z col)) as [G|G];
        cbn [negb]; [|exact T].
      rewrite G in H1. rewrite (SortFacts.strLess_asym _ _ H2) in H1.
      discriminate.
Qed.

Lemma less_neither order x y :
  (less order x y = false /\ less order y x = false) <->
  keyOf order x = keyOf order y.
Proof.
  unfold TempIndexOps.keyOf.
  induction order as [|col rest IH]; cbn [TempIndexOps.less map];
    [split; auto|].
  rewrite (String.eqb_sym (GetRawVal y col)).
  destruct (String.eqb_spec (GetRawVal x col) (GetRawVal y col)) as [E|E];
    cbn [negb].
  - rewrite IH, E. split; [intros ->; reflexivity|].
    intros H. injection H as H. exact H.
  - split.
    + intros [H1 H2]. elim E. apply strLess_total; assumption.
    + intros H. injection H as H _. contradiction.
Qed.

(** X17. [less] orders the rows by their values on the columns of the order, a
    strict order: no row is before itself, two rows are never each before
    the other, before is transitive, and two rows neither of which is
    before the other have the same values on those columns. *)
Theorem less_strict_order (order : list string) :
  (forall x, less order x x = false) /\
  (forall x y, less order x y = true -> less order y x = false) /\
  (forall x y z, less order x y = true -> less order y z = true ->
                 less order x z = true) /\
  (forall x y, (less order x y = false /\ less order y x = false) <->
               keyOf order x = keyOf order y).
Proof.
  split; [apply less_irrefl|]. split; [apply less_asym|].
  split; [apply less_trans|apply less_neither].
Qed.

(** X18. [less2] against the key of a row is [less] against that row ("lt must
    be consistent with singleLess"), and a row is never before a key it
    agrees with, however short the key. *)
Theorem less2_consistent (order : list string) (row y : Row) (k : nat) :
  less2 order row (keyOf order y) = less order row y /\
  less2 order row (firstn k (keyOf order row)) = false.
Proof.
  unfold TempIndexOps.keyOf. split.
  - induction order as [|col rest IH];
      cbn [TempIndexOps.less TempIndexOps.less2 map]; [reflexivity|].
    rewrite IH. reflexivity.
  - revert k. induction order as [|col rest IH]; intros k;
      cbn [TempIndexOps.less2 map]; [reflexivity|].
    destruct k as [|k]; cbn [firstn]; [reflexivity|].
    rewrite String.eqb_refl. cbn [negb]. apply IH.
Qed.

Lemma makeKey_length order cols vals key :
  makeKey order cols vals true = Some key -> length key = length order.
Proof.
  revert key. induction order as [|col rest IH]; intros key;
    cbn [makeKey]; [intros E; injection E as <-; reflexivity|].
  destruct (indexOf cols col) as [j|]; [|discriminate].
  destruct (nth_error vals j) as [v|]; [|discriminate].
  destruct (makeKey rest cols vals true) as [k'|]; [|discriminate].
  intros E. injection E as <-. cbn [length]. rewrite (IH k' Logic.eq_refl).
  reflexivity.
Qed.

Lemma matches_full order row : forall key,
  length key = length order ->
  matches order row key
  = Some (if list_eq_dec string_dec (keyOf order row) key then true else false).
Proof.
  unfold TempIndexOps.keyOf.
  induction order as [|col rest IH]; intros [|y key] L; cbn [length] in L;
    try discriminate; cbn [TempIndexOps.matches map].
  - destruct (list_eq_dec string_dec [] []); [reflexivity|congruence].
  - destruct (String.eqb_spec (GetRawVal row col) y) as [E|E]; cbn [negb].
    + rewrite IH by lia. subst y.
      destruct (list_eq_dec string_dec (map (GetRawVal row) rest) key) as [K|K];
        destruct (list_eq_dec string_dec _ _) as [K'|K']; try reflexivity.
      * elim K'. rewrite K. reflexivity.
      * elim K. injection K' as K'. exact K'.
    + destruct (list_eq_dec string_dec _ _) as [K'|K']; [|reflexivity].
      elim E. injection K' as K' _. exact K'.
Qed.

Lemma indexOf_lt cols col j : indexOf cols col = Some j -> (j < length cols)%nat.
Proof.
  revert j. induction cols as [|c rest IH]; intros j; cbn [indexOf length];
    [discriminate|].
  destruct (String.eqb c col); [intros E; injection E as <-; lia|].
  destruct (indexOf rest col) as [j'|]; [|discriminate].
  intros E. injection E as <-. specialize (IH j' Logic.eq_refl). lia.
Qed.

(** X19. A full key ([Lookup]) has one value for every column of the order, so
    [matches] never runs past its end and tells whether the row has the
    key's values; a partial key ([Select]) never panics when there is a
    value for every column given, and holds, for a prefix of the order, the
    value given for each column. *)
Theorem makeKey_covers (order cols vals : list string) :
  (forall key, makeKey order cols vals true = Some key ->
     length key = length order /\
     forall row : Row,
       matches order row key
       = Some (if list_eq_dec string_dec (keyOf order row) key
               then true else false)) /\
  ((length cols <= length vals)%nat -> makeKey order cols vals false <> None) /\
  (forall full key, makeKey order cols vals full = Some key ->
     Forall2 (fun col v => exists j, indexOf cols col = Some j /\
                                     nth_error vals j = Some v)
       (firstn (length key) order) key).
Proof.
  split; [|split].
  - intros key E. pose proof (makeKey_length _ _ _ _ E) as L.
    split; [exact L|]. intros row. apply matches_full. exact L.
  - intros L. induction order as [|col rest IH]; cbn [makeKey]; [discriminate|].
    destruct (indexOf cols col) as [j|] eqn:I; [|discriminate].
    apply indexOf_lt in I.
    destruct (nth_error vals j) as [v|] eqn:N.
    + destruct (makeKey rest cols vals false); [discriminate|contradiction].
    + apply nth_error_None in N. lia.
  - intros full. induction order as [|col rest IH]; intros key; cbn [makeKey].
    + intros E. injection E as <-. constructor.
    + destruct (indexOf cols col) as [j|] eqn:I.
      * destruct (nth_error vals j) as [v|] eqn:N; [|discriminate].
        destruct (makeKey rest cols vals full) as [k'|]; [|discriminate].
        intros E. injection E as <-. cbn [length firstn]. constructor.
        -- exists j. split; [exact I|exact N].
        -- apply IH. reflexivity.
      * destruct full; [discriminate|]. intros E. injection E as <-.
        constructor.
Qed.

End WithRows.

End TempIndexOpsFacts.

Module SummarizeMoreFacts.
Import Summarize SummarizeOps SortFacts TempIndexOpsFacts.
Local Open Scope string_scope.
Local Open Scope list_scope.

Lemma strLess_below r raw p :
  strLess r raw = true -> strLess p raw = false -> strLess r p = true.
Proof.
  intros H1 H2. destruct (strLess r p) eqn:E; [reflexivity|].
  destruct (strLess p r) eqn:F.
  - rewrite (strLess_trans _ _ _ F H1) in H2. discriminate.
  - rewrite (strLess_total _ _ E F) in H1. congruence.
Qed.

Lemma strLess_above r raw p :
  strLess raw r = true -> strLess raw p = false -> strLess p r = true.
Proof.
  intros H1 H2. destruct (strLess p r) eqn:E; [reflexivity|].
  destruct (strLess r p) eqn:F.
  - rewrite (strLess_trans _ _ _ H1 F) in H2. discriminate.
  - rewrite <- (strLess_total _ _ E F) in H1. congruence.
Qed.

Section Execution.

Context {Value : Type} {Row : Type}.
Variable Zero : Value.
Variable IntVal : Z -> Value.
Variable OpAdd : Value -> Value -> option Value.
Variable OpDiv : Value -> Value -> option Value.
Variable Unpack : string -> Value.
Variable NewSuObject : list Value -> Value.

Local Abbreviation sumOp := (@sumOp Value Row).
Local Abbreviation add := (add OpAdd).
Local Abbreviation addRaws := (addRaws (Row:=Row) Zero OpAdd).
Local Abbreviation addAll := (addAll (Row:=Row) OpAdd).
Local Abbreviation sumUp := (sumUp OpAdd).
Local Abbreviation aggregate :=
  (aggregate (Row:=Row) Zero IntVal OpAdd OpDiv Unpack NewSuObject).

Lemma addRaws_snoc items x : forall sum : sumOp,
  addRaws sum (items ++ [x])
  = match addRaws sum items with
    | Some s => add s (fst x) Zero (snd x)
    | None => None
    end.
Proof.
  induction items as [|[raw row] rest IH]; intros sum; cbn [app SummarizeOps.addRaws].
  - destruct x as [raw row]. cbn [fst snd]. destruct (add sum raw Zero row); reflexivity.
  - destruct (add sum raw Zero row); [apply IH|reflexivity].
Qed.

(** X20. min and max keep the least and the greatest raw value fed to them,
    with the first row that has it: the rows before it have strictly
    greater (for max, smaller) values, the rows after it have values that
    are not smaller (not greater). *)
Theorem min_max_first (items : list (string * Row)) :
  items <> [] ->
  (exists raw row pre post,
     addRaws (sumMin None) items = Some (sumMin (Some (raw, row))) /\
     items = pre ++ (raw, row) :: post /\
     (forall p, In p pre -> strLess raw (fst p) = true) /\
     (forall p, In p post -> strLess (fst p) raw = false)) /\
  (exists raw row pre post,
     addRaws (sumMax None) items = Some (sumMax (Some (raw, row))) /\
     items = pre ++ (raw, row) :: post /\
     (forall p, In p pre -> strLess (fst p) raw = true) /\
     (forall p, In p post -> strLess raw (fst p) = false)).
Proof.
  induction items as [|[r w] items IH] using rev_ind; [congruence|]. intros _.
  destruct items as [|i0 items'].
  - split; exists r, w, [], []; cbn; repeat split; intros p [].
  - destruct (IH ltac:(discriminate)) as
      [(raw & row & pre & post & E & D & Hpre & Hpost)
       (raw' & row' & pre' & post' & E' & D' & Hpre' & Hpost')].
    rewrite !addRaws_snoc. rewrite E, E'. cbn [Summarize.add fst snd]. split.
    + destruct (strLess r raw) eqn:L.
      * exists r, w, (i0 :: items'), []. split; [reflexivity|].
        split; [reflexivity|]. split; [|intros p []].
        intros p I. rewrite D in I. apply in_app_or in I.
        destruct I as [I|[<-|I]].
        -- apply (strLess_trans _ _ _ L). auto.
        -- exact L.
        -- apply (strLess_below _ _ _ L). auto.
      * exists raw, row, pre, (post ++ [(r, w)]). split; [reflexivity|].
        split; [rewrite D, <- app_assoc; reflexivity|]. split; [exact Hpre|].
        intros p I. apply in_app_or in I. destruct I as [I|[<-|[]]]; auto.
    + destruct (strLess raw' r) eqn:L.
      * exists r, w, (i0 :: items'), []. split; [reflexivity|].
        split; [reflexivity|]. split; [|intros p []].
        intros p I. rewrite D' in I. apply in_app_or in I.
        destruct I as [I|[<-|I]].
        -- apply (fun H => strLess_trans _ _ _ H L). auto.
        -- exact L.
        -- apply (strLess_above _ _ _ L). auto.
      * exists raw', row', pre', (post' ++ [(r, w)]). split; [reflexivity|].
        split; [rewrite D', <- app_assoc; reflexivity|]. split; [exact Hpre'|].
        intros p I. apply in_app_or in I. destruct I as [I|[<-|[]]]; auto.
Qed.

Lemma inb_In (x : string) l : inb x l = true <-> In x l.
Proof.
  unfold inb. rewrite existsb_exists. split.
  - intros (y & I & E). apply String.eqb_eq in E. subst. exact I.
  - intros I. exists x. split; [exact I|apply String.eqb_refl].
Qed.

Lemma addRaws_list items : forall (l0 : list string) (s : sumOp),
  NoDup l0 ->
  addRaws (sumList l0) items = Some s ->
  exists l, s = sumList l /\ NoDup l /\
    (forall r, In r l <-> In r l0 \/ In r (map fst items)) /\
    (items <> [] -> Stor.len l <= sumListLimit).
Proof.
  induction items as [|[raw row] rest IH]; intros l0 s D;
    cbn [SummarizeOps.addRaws Summarize.add map fst].
  - intros E. injection E as <-. exists l0. split; [reflexivity|].
    split; [exact D|]. split; [cbn [In]; tauto|congruence].
  - set (l1 := if inb raw l0 then l0 else l0 ++ [raw]).
    assert (D1 : NoDup l1).
    { subst l1. destruct (inb raw l0) eqn:I; [exact D|].
      apply NoDup_app; [exact D|repeat constructor; intros []|].
      intros a Ia [<-|[]]. apply inb_In in Ia. congruence. }
    assert (I1 : forall r, In r l1 <-> In r l0 \/ r = raw).
    { intros r. subst l1. destruct (inb raw l0) eqn:I.
      - apply inb_In in I. split; [tauto|]. intros [H| ->]; assumption.
      - rewrite in_app_iff. cbn [In]. intuition. }
    destruct (Z.gtb_spec (Stor.len l1) sumListLimit) as [G|G]; [discriminate|].
    intros E. destruct (IH l1 s D1 E) as (l & -> & Dl & Il & Ll).
    exists l. split; [reflexivity|]. split; [exact Dl|]. split.
    + intros r. rewrite Il, I1. cbn [In]. intuition.
    + intros _. destruct rest as [|x rest'].
      * cbn [SummarizeOps.addRaws] in E. injection E as <-. exact G.
      * apply Ll. discriminate.
Qed.

Lemma addRaws_list_small items : forall l0 : list string,
  NoDup l0 ->
  Stor.len (nodup string_dec (l0 ++ map fst items)) <= sumListLimit ->
  addRaws (sumList l0) items <> None.
Proof.
  induction items as [|[raw row] rest IH]; intros l0 D B;
    cbn [SummarizeOps.addRaws Summarize.add map fst]; [discriminate|].
  cbn [map fst] in B.
  set (l1 := if inb raw l0 then l0 else l0 ++ [raw]).
  assert (D1 : NoDup l1).
  { subst l1. destruct (inb raw l0) eqn:I; [exact D|].
    apply NoDup_app; [exact D|repeat constructor; intros []|].
    intros a Ia [<-|[]]. apply inb_In in Ia. congruence. }
  assert (I1 : forall r, In r l1 <-> In r l0 \/ r = raw).
  { intros r. subst l1. destruct (inb raw l0) eqn:I.
    - apply inb_In in I. split; [tauto|]. intros [H| ->]; assumption.
    - rewrite in_app_iff. cbn [In]. intuition. }
  assert (S1 : forall X, (length (nodup string_dec (l1 ++ X))
                          <= length (nodup string_dec (l0 ++ raw :: X)))%nat).
  { intros X. apply NoDup_incl_length; [apply NoDup_nodup|].
    intros a Ia. apply nodup_In in Ia. apply nodup_In.
    rewrite in_app_iff in *. rewrite I1 in Ia. cbn [In]. intuition. }
  assert (L1 : (length l1 <= length (nodup string_dec (l1 ++ map fst rest)))%nat).
  { apply NoDup_incl_length; [exact D1|]. intros a Ia. apply nodup_In.
    apply in_or_app. left. exact Ia. }
  pose proof (S1 (map fst rest)) as S1'. unfold Stor.len in *.
  destruct (Z.gtb_spec (Z.of_nat (length l1)) sumListLimit) as [G|G]; [lia|].
  apply IH; [exact D1|]. lia.
Qed.

(** X21. list collects the distinct raw values fed to it: fed a sequence with at
    most [sumListLimit] (16384) distinct values it holds each of them once;
    fed more distinct values it panics ("summarize list too large"). *)
Theorem list_distinct_values (items : list (string * Row)) :
  (Stor.len (nodup string_dec (map fst items)) <= sumListLimit ->
   exists l, addRaws (sumList []) items = Some (sumList l) /\ NoDup l /\
             forall r, In r l <-> In r (map fst items)) /\
  (sumListLimit < Stor.len (nodup string_dec (map fst items)) ->
   addRaws (sumList []) items = None).
Proof.
  split.
  - intros B. destruct (addRaws (sumList []) items) as [s|] eqn:E.
    + destruct (addRaws_list items [] s (NoDup_nil _) E) as (l & -> & D & I & _).
      exists l. split; [reflexivity|]. split; [exact D|].
      intros r. rewrite I. cbn [In]. tauto.
    + exfalso. apply (addRaws_list_small items [] (NoDup_nil _)); assumption.
  - intros B. destruct (addRaws (sumList []) items) as [s|] eqn:E; [|reflexivity].
    exfalso.
    destruct (addRaws_list items [] s (NoDup_nil _) E) as (l & -> & D & I & L).
    assert (N : items <> []).
    { intros ->. cbn in B. unfold sumListLimit in B. lia. }
    specialize (L N).
    assert (length (nodup string_dec (map fst items)) <= length l)%nat.
    { apply NoDup_incl_length; [apply NoDup_nodup|]. intros a Ia.
      apply nodup_In in Ia. apply I. right. exact Ia. }
    unfold Stor.len in *. lia.
Qed.

Lemma addAll_count vals (row : Row) : forall c,
  addAll (sumCount c) vals row = Some (sumCount (c + Stor.len vals)).
Proof.
  induction vals as [|v rest IH]; intros c; cbn [Summarize.addAll Summarize.add].
  - unfold Stor.len. cbn. rewrite Z.add_0_r. reflexivity.
  - rewrite IH. unfold Stor.len. cbn [length]. f_equal. f_equal. lia.
Qed.

Lemma addAll_sumUp vals (row : Row) : forall t t',
  sumUp t vals = Some t' ->
  addAll (sumTotal t) vals row = Some (sumTotal t') /\
  forall c, addAll (sumAverage c t) vals row
            = Some (sumAverage (c + Stor.len vals) t').
Proof.
  induction vals as [|v rest IH]; intros t t';
    cbn [SummarizeOps.sumUp Summarize.addAll Summarize.add].
  - intros E. injection E as <-. split; [reflexivity|]. intros c.
    unfold Stor.len. cbn. rewrite Z.add_0_r. reflexivity.
  - destruct (OpAdd t v) as [t1|]; [|discriminate]. intros E.
    destruct (IH t1 t' E) as [A B]. split; [exact A|]. intros c.
    rewrite B. unfold Stor.len. cbn [length]. f_equal. f_equal. lia.
Qed.

(** X22. count is the number of rows of the group whatever their values; when
    every addition succeeds, total is the values added up from Zero in the
    order of the rows and average is that total divided by the number of
    rows. *)
Theorem count_total_average (vals : list Value) (row : Row) :
  aggregate "count" vals row = Some (IntVal (Stor.len vals)) /\
  (forall t, sumUp Zero vals = Some t ->
     aggregate "total" vals row = Some t /\
     aggregate "average" vals row = OpDiv t (IntVal (Stor.len vals))).
Proof.
  unfold Summarize.aggregate. split.
  - cbn [newSumOp String.eqb Ascii.eqb Bool.eqb]. cbn.
    rewrite addAll_count. cbn. reflexivity.
  - intros t E. destruct (addAll_sumUp vals row Zero t E) as [A B]. split.
    + cbn. rewrite A. reflexivity.
    + cbn. rewrite (B 0). cbn [Summarize.result]. rewrite Z.add_0_l.
      destruct (OpDiv t (IntVal (Stor.len vals))); reflexivity.
Qed.

End Execution.

Section Grouping.

Context {Value : Type} {Row : Type}.
Variable Zero : Value.
Variable OpAdd : Value -> Value -> option Value.
Variable GetVal : Row -> string -> Value.
Variable GetRawVal : Row -> string -> string.
Variable mapLimit : Z.
Variable hashCols : list string -> Z.

Local Abbreviation hmap := (@hmap Value Row).
Local Abbreviation byVals := (byVals GetRawVal).
Local Abbreviation hmapGet := (hmapGet (Value:=Value) GetRawVal).
Local Abbreviation hmapPut := (hmapPut (Value:=Value) GetRawVal).
Local Abbreviation buildLoop :=
  (buildLoop Zero OpAdd GetVal GetRawVal mapLimit hashCols).
Local Abbreviation buildMap :=
  (buildMap Zero OpAdd GetVal GetRawVal mapLimit hashCols).

Variable bys : list string.

(** The groups a map holds, and what the loop keeps true of it: no group
    twice, and every key hashed from its group. *)
Local Abbreviation groups :=
  (fun m : hmap => map (fun e => byVals bys (snd (fst e))) m).
Local Abbreviation hashed :=
  (fun m : hmap =>
     Forall (fun e => fst (fst e) = hashCols (byVals bys (snd (fst e)))) m).

Lemma eqfn_groups (k' : Z * Row) (row : Row) :
  fst k' = hashCols (byVals bys (snd k')) ->
  eqfn GetRawVal bys k' (hashCols (byVals bys row), row) = true <->
  byVals bys (snd k') = byVals bys row.
Proof.
  intros H. unfold eqfn, strsEqb. cbn [fst snd]. rewrite H.
  destruct (list_eq_dec string_dec (byVals bys (snd k')) (byVals bys row)) as [E|E].
  - rewrite E, Z.eqb_refl. cbn. tauto.
  - rewrite andb_false_r. split; [discriminate|contradiction].
Qed.

Lemma hmapGet_groups (row : Row) : forall m : hmap,
  hashed m ->
  hmapGet bys m (hashCols (byVals bys row), row) <> None <->
  In (byVals bys row) (groups m).
Proof.
  induction m as [|[k' v] rest IH]; intros H; cbn [Summarize.hmapGet map In fst snd].
  - split; [congruence|tauto].
  - inversion H as [|? ? Hk Hrest]; subst. cbn [fst snd] in Hk.
    pose proof (eqfn_groups k' row Hk) as Q.
    destruct (eqfn GetRawVal bys k' (hashCols (byVals bys row), row)).
    + split; [intros _; left; apply Q; reflexivity|discriminate].
    + rewrite (IH Hrest). split; [tauto|]. intros [E|I]; [|exact I].
      apply Q in E. discriminate.
Qed.

Lemma hmapPut_groups (row : Row) (v : list sumOp) : forall m : hmap,
  hashed m ->
  hashed (hmapPut bys m (hashCols (byVals bys row), row) v) /\
  (In (byVals bys row) (groups m) ->
   groups (hmapPut bys m (hashCols (byVals bys row), row) v) = groups m) /\
  (~ In (byVals bys row) (groups m) ->
   groups (hmapPut bys m (hashCols (byVals bys row), row) v)
   = groups m ++ [byVals bys row]).
Proof.
  induction m as [|[k' v'] rest IH]; intros H;
    cbn [Summarize.hmapPut map fst snd].
  - split; [repeat constructor|]. split; [intros []|reflexivity].
  - inversion H as [|? ? Hk Hrest]; subst. cbn [fst snd] in Hk.
    pose proof (eqfn_groups k' row Hk) as Q.
    destruct (eqfn GetRawVal bys k' (hashCols (byVals bys row), row)).
    + split; [constructor; assumption|]. cbn [map fst snd app In].
      split; [reflexivity|]. intros N. elim N. left. apply Q. reflexivity.
    + destruct (IH Hrest) as (H1 & G1 & G2).
      split; [constructor; assumption|]. cbn [map fst snd app In]. split.
      * intros [E|I]; [apply Q in E; discriminate|]. rewrite (G1 I).
        reflexivity.
      * intros N. rewrite G2 by tauto. reflexivity.
Qed.

Lemma buildLoop_groups (su : Summarize) : by_ su = bys ->
  forall (rows : list Row) (m m' : hmap),
  hashed m -> NoDup (groups m) ->
  buildLoop su m rows = Some m' ->
  hashed m' /\ NoDup (groups m') /\
  forall k, In k (groups m') <-> In k (groups m) \/ In k (map (byVals bys) rows).
Proof.
  intros Eb. induction rows as [|row rest IH]; intros m m' H D;
    cbn [Summarize.buildLoop].
  - intros E. injection E as <-. split; [exact H|]. split; [exact D|].
    intros k. cbn [map In]. tauto.
  - rewrite Eb.
    set (rh := (hashCols (byVals bys row), row)).
    pose proof (hmapGet_groups row m H) as G. fold rh in G.
    destruct (hmapGet bys m rh) as [sums|] eqn:Eg.
    + assert (I : In (byVals bys row) (groups m)) by (apply G; discriminate).
      cbn [andb].
      destruct (addToSums _ _ _ _ _ _ _ _) as [sums'|]; [|discriminate].
      intros E. destruct (hmapPut_groups row sums' m H) as (H1 & G1 & _).
      fold rh in H1, G1. specialize (G1 I).
      destruct (IH _ _ H1 ltac:(rewrite G1; exact D) E) as (H2 & D2 & I2).
      split; [exact H2|]. split; [exact D2|]. intros k. rewrite I2, G1.
      cbn [map In]. split; [tauto|]. intros [?|[<-|?]]; auto.
    + assert (N : ~ In (byVals bys row) (groups m))
        by (intros I; apply G in I; congruence).
      destruct (newSums _ _) as [sums|]; [|discriminate].
      destruct (hmapPut_groups row sums m H) as (H1 & _ & G1).
      fold rh in H1, G1. specialize (G1 N).
      destruct (true && _); [discriminate|].
      destruct (addToSums _ _ _ _ _ _ _ _) as [sums'|]; [|discriminate].
      destruct (hmapPut_groups row sums' _ H1) as (H2 & G2 & _).
      fold rh in H2, G2. rewrite G1 in G2.
      specialize (G2 ltac:(apply in_or_app; right; left; reflexivity)).
      intros E.
      assert (D2 : NoDup (groups m ++ [byVals bys row])).
      { apply NoDup_app; [exact D|repeat constructor; intros []|].
        intros a Ia [<-|[]]. contradiction. }
      destruct (IH _ _ H2 ltac:(rewrite G2; exact D2) E) as (H3 & D3 & I3).
      split; [exact H3|]. split; [exact D3|]. intros k. rewrite I3, G2.
      rewrite in_app_iff. cbn [map In]. tauto.
Qed.

(** X23. [buildMap] returns one pair for every group of the rows it read, a
    group being the rows with the same values on the by columns, and never
    more than [mapLimit] pairs: with more groups it panics. *)
Theorem buildMap_groups (su : Summarize) (rows : list Row)
  (l : list (Row * list sumOp)) :
  by_ su = bys -> 0 <= mapLimit -> buildMap su rows = Some l ->
  NoDup (map (fun p => byVals bys (fst p)) l) /\
  (forall k, In k (map (fun p => byVals bys (fst p)) l)
             <-> In k (map (byVals bys) rows)) /\
  Stor.len l <= mapLimit.
Proof.
  intros Eb H0 E. unfold Summarize.buildMap in E.
  destruct (buildLoop su [] rows) as [m|] eqn:B; [|discriminate].
  injection E as <-.
  destruct (buildLoop_groups su Eb rows [] m ltac:(constructor)
              ltac:(constructor) B) as (_ & D & I).
  rewrite map_map. cbn [fst]. split; [exact D|]. split.
  - intros k. rewrite I. cbn [map In]. tauto.
  - unfold Stor.len. rewrite length_map.
    apply (SummarizeFacts.buildLoop_limit Zero OpAdd GetVal GetRawVal mapLimit
             hashCols su rows [] m); [exact H0|exact B].
Qed.

End Grouping.

Lemma Subset_spec x y : Subset x y = true <-> forall e, In e y -> In e x.
Proof.
  unfold Subset. rewrite forallb_forall. split; intros H e I.
  - apply inb_In, H, I.
  - apply inb_In, H, I.
Qed.

Lemma check_spec cs :
  check cs = true <-> forall c, In c cs -> hasSuffix c "_lower!" = false.
Proof.
  unfold check. rewrite forallb_forall. split; intros H c I.
  - apply negb_true_iff, H, I.
  - apply negb_true_iff, H, I.
Qed.

Lemma nameCols_total cs : forall os ns,
  length cs = length os -> length cs = length ns ->
  exists named, nameCols cs os ns = Some named /\ length named = length cs.
Proof.
  induction cs as [|c cs IH]; intros [|o os] [|n ns] L1 L2;
    cbn [length] in *; try discriminate.
  - exists []. split; reflexivity.
  - destruct (IH os ns ltac:(lia) ltac:(lia)) as (r & E & L).
    cbn [nameCols]. rewrite E. eexists. split; [reflexivity|].
    cbn [length]. lia.
Qed.

(** X24. [NewSummarize] panics exactly when a by column is not a column of the
    source, or a by column or a summarized column ends in "_lower!". *)
Theorem NewSummarize_panics (src : Source) (by_ cols ops ons : list string) :
  length cols = length ops -> length cols = length ons ->
  (NewSummarize src by_ cols ops ons = None <->
   (exists c, In c by_ /\ ~ In c (Columns src)) \/
   (exists c, (In c by_ \/ In c ons) /\ hasSuffix c "_lower!" = true)).
Proof.
  intros L1 L2. unfold NewSummarize.
  destruct (nameCols_total cols ops ons L1 L2) as (named & -> & Ln).
  rewrite Ln, L1, Nat.eqb_refl. rewrite <- L1, L2, Nat.eqb_refl. cbn [andb negb].
  destruct (Subset (Columns src) by_) eqn:S; cbn [negb].
  - pose proof (proj1 (Subset_spec _ _) S) as Sp.
    destruct (check by_) eqn:C1; cbn [negb].
    + pose proof (proj1 (check_spec _) C1) as P1.
      destruct (check ons) eqn:C2; cbn [negb].
      * pose proof (proj1 (check_spec _) C2) as P2.
        split; [discriminate|].
        intros [(c & I & N)|(c & [I|I] & Hs)].
        -- elim N. apply Sp. exact I.
        -- rewrite (P1 c I) in Hs. discriminate.
        -- rewrite (P2 c I) in Hs. discriminate.
      * split; [|reflexivity]. intros _. right.
        destruct (existsb (fun c => hasSuffix c "_lower!") ons) eqn:X.
        -- apply existsb_exists in X. destruct X as (c & I & Hs).
           exists c. split; [right; exact I|exact Hs].
        -- exfalso. assert (check ons = true); [|congruence].
           apply check_spec. intros c I.
           destruct (hasSuffix c "_lower!") eqn:Hs; [|reflexivity].
           assert (existsb (fun c => hasSuffix c "_lower!") ons = true)
             by (apply existsb_exists; exists c; auto).
           congruence.
    + split; [|reflexivity]. intros _. right.
      destruct (existsb (fun c => hasSuffix c "_lower!") by_) eqn:X.
      * apply existsb_exists in X. destruct X as (c & I & Hs).
        exists c. split; [left; exact I|exact Hs].
      * exfalso. assert (check by_ = true); [|congruence].
        apply check_spec. intros c I.
        destruct (hasSuffix c "_lower!") eqn:Hs; [|reflexivity].
        assert (existsb (fun c => hasSuffix c "_lower!") by_ = true)
          by (apply existsb_exists; exists c; auto).
        congruence.
  - split; [|reflexivity]. intros _. left.
    destruct (existsb (fun c => negb (inb c (Columns src))) by_) eqn:X.
    + apply existsb_exists in X. destruct X as (c & I & N).
      exists c. split; [exact I|]. intros J. apply inb_In in J.
      rewrite J in N. discriminate.
    + exfalso. assert (Subset (Columns src) by_ = true); [|congruence].
      apply Subset_spec. intros c I. apply inb_In.
      destruct (inb c (Columns src)) eqn:J; [reflexivity|].
      assert (existsb (fun c => negb (inb c (Columns src))) by_ = true)
        by (apply existsb_exists; exists c; rewrite J; auto).
      congruence.
Qed.

Lemma NewSummarize_panics_witness :
  NewSummarize (mkSource ["a"; "b"] [["a"]] 10) ["c"] ["n"] ["count"] [""] = None /\
  NewSummarize (mkSource ["a"; "b_lower!"] [["a"]] 10) [] [""] ["max"] ["b_lower!"]
    = None.
Proof.
  split.
  - apply (NewSummarize_panics (mkSource ["a"; "b"] [["a"]] 10) ["c"] ["n"]
             ["count"] [""] Logic.eq_refl Logic.eq_refl).
    left. exists "c". split; [left; reflexivity|].
    cbn. intros [H|[H|[]]]; discriminate.
  - reflexivity.
Defined.

Lemma buildMap_groups_witness :
  exists l,
    buildMap (SuInt 0) sampleAdd (fun (row : list string) col => SuStr (TempIndexOps.sampleRaw row col))
      TempIndexOps.sampleRaw 2 (fun k => Z.of_nat (length k))
      (mkSummarize (mkSource ["a"; "b"] [] 3) ["a"] ["count"] ["count"] [""] false)
      [["x"; "1"]; ["y"; "2"]; ["x"; "3"]] = Some l /\
    map (fun p => map (TempIndexOps.sampleRaw (fst p)) ["a"]) l = [["x"]; ["y"]].
Proof.
  eexists. split; [vm_compute; reflexivity|].
  pose proof (buildMap_groups (SuInt 0) sampleAdd
    (fun (row : list string) col => SuStr (TempIndexOps.sampleRaw row col))
    TempIndexOps.sampleRaw 2 (fun k => Z.of_nat (length k)) ["a"]
    (mkSummarize (mkSource ["a"; "b"] [] 3) ["a"] ["count"] ["count"] [""] false)
    [["x"; "1"]; ["y"; "2"]; ["x"; "3"]] _ Logic.eq_refl ltac:(lia)
    ltac:(vm_compute; reflexivity)) as [D _].
  reflexivity.
Defined.

Lemma min_max_first_witness :
  addRaws (SuInt 0) sampleAdd (sumMin None) [("b", 1); ("a", 2); ("a", 3)]
    = Some (sumMin (Some ("a", 2))) /\
  addRaws (SuInt 0) sampleAdd (sumMax None) [("b", 1); ("a", 2); ("b", 3)]
    = Some (sumMax (Some ("b", 1))).
Proof.
  destruct (min_max_first (SuInt 0) sampleAdd [("b", 1); ("a", 2); ("a", 3)]
              ltac:(discriminate)) as [(raw & row & pre & post & E & _) _].
  split; reflexivity.
Defined.

End SummarizeMoreFacts.

Module UnionLookupFacts.
Import Union UnionLookup.

Lemma hd_skipn {A} (l : list A) : forall n, hd_error (skipn n l) = nth_error l n.
Proof.
  induction l as [|a l IH]; intros [|n]; cbn; auto.
Qed.

Lemma tl_skipn {A} (l : list A) : forall n, tl (skipn n l) = skipn (S n) l.
Proof.
  induction l as [|a l IH]; intros [|n]; cbn [skipn tl]; auto.
Qed.

Lemma nth_error_tl {A} (l : list A) k : nth_error (tl l) k = nth_error l (S k).
Proof. destruct l; [destruct k|]; reflexivity. Qed.

Lemma Get_ahead s :
  forward s ->
  snd (Get s Next) = hd_error (ahead s) /\
  ahead (fst (Get s Next)) = tl (ahead s) /\
  forward (fst (Get s Next)) /\ items (fst (Get s Next)) = items s.
Proof.
  destruct s as [st rows p]. unfold forward, Get, ahead. cbn [at_ items sticky].
  destruct p as [|i|d]; cbn [cursorGet fromEnd].
  - intros _. unfold enter. destruct rows as [|r rows]; cbn; auto.
    repeat split; lia.
  - intros Hi. unfold enter. destruct (nth_error rows (S i)) as [r|] eqn:E;
      cbn [fst snd at_ items].
    + rewrite hd_skipn, tl_skipn. repeat split; auto.
      apply nth_error_Some. congruence.
    + rewrite hd_skipn, E. apply nth_error_None in E.
      rewrite skipn_all2 by lia. repeat split; auto.
  - intros ->. rewrite orb_true_r. cbn. auto.
Qed.

Lemma firstn_snoc {A} (l : list A) : forall j r,
  nth_error l j = Some r -> firstn (S j) l = firstn j l ++ [r].
Proof.
  induction l as [|a l IH]; intros [|j] r E; cbn in E; try discriminate.
  - injection E as <-. reflexivity.
  - cbn [firstn app]. rewrite <- (IH j r E). reflexivity.
Qed.

Lemma Get_behind s :
  backward s ->
  snd (Get s Prev) = hd_error (behind s) /\
  behind (fst (Get s Prev)) = tl (behind s) /\
  backward (fst (Get s Prev)) /\ items (fst (Get s Prev)) = items s.
Proof.
  assert (K : forall (rows : list Row) st j,
    (j < length rows)%nat ->
    snd (Get (mkSource st rows (At (S j))) Prev) = hd_error (rev (firstn (S j) rows)) /\
    behind (fst (Get (mkSource st rows (At (S j))) Prev))
      = tl (rev (firstn (S j) rows)) /\
    backward (fst (Get (mkSource st rows (At (S j))) Prev)) /\
    items (fst (Get (mkSource st rows (At (S j))) Prev)) = rows).
  { intros rows st j Hj. unfold Get. cbn [at_ items sticky cursorGet]. unfold enter.
    destruct (nth_error rows j) as [r|] eqn:E;
      [|apply nth_error_None in E; lia].
    rewrite (firstn_snoc rows j r E), rev_app_distr.
    unfold behind, backward. cbn. auto. }
  destruct s as [st rows p]. unfold backward. cbn [at_ items].
  destruct p as [|i|d].
  - intros _. destruct rows as [|r0 rows0] eqn:R.
    + cbn. auto.
    + rewrite <- R. assert (L : length rows = S (length rows0)) by (subst; reflexivity).
      destruct (K rows st (length rows0) ltac:(lia)) as (K1 & K2 & K3 & K4).
      assert (G : Get (mkSource st rows Rewound) Prev
                  = Get (mkSource st rows (At (S (length rows0)))) Prev).
      { unfold Get. cbn [at_ items sticky cursorGet fromEnd]. rewrite L.
        reflexivity. }
      rewrite G. unfold behind at 2 3. cbn [at_ items].
      rewrite <- (firstn_all rows) at 2 4. rewrite L. auto.
  - intros Hi. destruct i as [|j].
    + cbn. auto.
    + destruct (K rows st j ltac:(lia)) as (K1 & K2 & K3 & K4).
      unfold behind at 2 3. cbn [at_ items]. auto.
  - intros ->. unfold Get. cbn [at_ items sticky cursorGet dirEqb].
    rewrite orb_true_r. cbn. auto.
Qed.

Section WithHas.

Variable has : Row -> bool.

Local Abbreviation skipHas := (skipHas has).
Local Abbreviation wanted := (wanted has).
Local Abbreviation pending := (pending has).
Local Abbreviation LookupGet := (LookupGet has).
Local Abbreviation lookupRun := (lookupRun has).

Lemma skipHas_rest (dir : Dir) (V : Source -> Prop) (R : Source -> list Row) :
  (forall s, V s ->
     snd (Get s dir) = hd_error (R s) /\ R (fst (Get s dir)) = tl (R s) /\
     V (fst (Get s dir)) /\ items (fst (Get s dir)) = items s) ->
  forall fuel s,
  V s -> (length (R s) < fuel)%nat ->
  exists s',
    skipHas fuel s dir = Some (s', hd_error (wanted (R s))) /\
    wanted (R s') = tl (wanted (R s)) /\ V s' /\ items s' = items s.
Proof.
  intros G. induction fuel as [|fuel IH]; intros s F L; [lia|].
  cbn [UnionLookup.skipHas].
  destruct (G s F) as (Hr & Ha & Hf & Hi).
  destruct (Get s dir) as [s1 r]. cbn [fst snd] in *.
  destruct (R s) as [|x rest] eqn:A; cbn [hd_error tl] in *; subst r.
  - exists s1. rewrite Ha. cbn. auto.
  - unfold UnionLookup.wanted. cbn [filter].
    destruct (has x); cbn [negb].
    + destruct (IH s1 Hf ltac:(rewrite Ha; cbn [length] in L; lia))
        as (s' & E & W & F' & I').
      exists s'. rewrite E, Ha. split; [reflexivity|].
      split; [rewrite <- Ha; exact W|]. split; [exact F'|congruence].
    + exists s1. cbn [hd_error tl]. rewrite Ha. auto.
Qed.

Lemma skipHas_ahead : forall fuel s,
  forward s -> (length (ahead s) < fuel)%nat ->
  exists s',
    skipHas fuel s Next = Some (s', hd_error (wanted (ahead s))) /\
    wanted (ahead s') = tl (wanted (ahead s)) /\
    forward s' /\ items s' = items s.
Proof. apply (skipHas_rest Next forward ahead). exact Get_ahead. Qed.

Lemma skipHas_behind : forall fuel s,
  backward s -> (length (behind s) < fuel)%nat ->
  exists s',
    skipHas fuel s Prev = Some (s', hd_error (wanted (behind s))) /\
    wanted (behind s') = tl (wanted (behind s)) /\
    backward s' /\ items s' = items s.
Proof. apply (skipHas_rest Prev backward behind). exact Get_behind. Qed.

Lemma ahead_length s : (length (ahead s) <= length (items s))%nat.
Proof.
  unfold ahead. destruct (at_ s); [lia|rewrite length_skipn; lia|cbn; lia].
Qed.

Lemma LookupGet_pending fuel u :
  passing u -> (length (items (source1 u)) < fuel)%nat ->
  exists u',
    LookupGet fuel u Next = Some (u', hd_error (pending u)) /\
    pending u' = tl (pending u) /\ passing u' /\
    items (source1 u') = items (source1 u).
Proof.
  unfold passing, UnionLookup.pending, UnionLookup.LookupGet,
    UnionLookup.getLookup. intros P L.
  replace (if rewound u then dirEqb Next Next else src1 u)
    with (if rewound u then true else src1 u) by reflexivity.
  destruct (if rewound u then true else src1 u).
  - pose proof (ahead_length (source1 u)) as Al.
    destruct (skipHas_ahead fuel (source1 u) P ltac:(lia)) as (s1 & E & W & F & I).
    rewrite E. destruct (wanted (ahead (source1 u))) as [|x rest] eqn:Wa;
      cbn [hd_error tl app] in *.
    + pose proof (Get_ahead (Rewind (source2 u)) Logic.I) as (Hr & Ha & Hf & Hi).
      destruct (Get (Rewind (source2 u)) Next) as [s2 r]. cbn [fst snd] in *.
      change (ahead (Rewind (source2 u))) with (items (source2 u)) in *.
      subst r. eexists. split; [reflexivity|].
      cbn [rewound src1 source1 source2 setLookup].
      split; [exact Ha|]. split; [exact Hf|exact I].
    + eexists. split; [reflexivity|].
      cbn [rewound src1 source1 source2 setLookup].
      rewrite W. split; [reflexivity|]. split; [exact F|exact I].
  - destruct (Get_ahead (source2 u) P) as (Hr & Ha & Hf & Hi).
    destruct (Get (source2 u) Next) as [s2 r]. cbn [fst snd] in *.
    rewrite <- Hr.
    destruct r as [row|]; (eexists; split; [reflexivity|]);
      cbn [rewound src1 source1 source2 setLookup];
      (split; [exact Ha|split; [exact Hf|reflexivity]]).
Qed.

Lemma lookupRun_pending fuel : forall n u,
  passing u -> (length (items (source1 u)) < fuel)%nat ->
  lookupRun fuel u Next n = Some (map (nth_error (pending u)) (seq 0 n)).
Proof.
  induction n as [|n IH]; intros u P L; [reflexivity|].
  cbn [UnionLookup.lookupRun].
  destruct (LookupGet_pending fuel u P L) as (u' & E & T & P' & I).
  rewrite E, (IH u' P') by (rewrite I; exact L). rewrite T.
  cbn [seq map]. rewrite <- seq_shift, map_map.
  replace (hd_error (pending u)) with (nth_error (pending u) 0)
    by (destruct (pending u); reflexivity).
  f_equal. f_equal. apply map_ext. intros k. apply nth_error_tl.
Qed.

(** X25. The lookup strategy read forwards from the start: first the rows of
    source1 that source2 does not have, then every row of source2, then
    nothing more. When source2 has exactly its own rows and neither source
    has a row twice, no row comes twice and the rows are those of either
    source. *)
Theorem getLookup_forward (st1 st2 : bool) (rows1 rows2 : list Row)
  (fuel n : nat) :
  (length rows1 < fuel)%nat ->
  lookupRun fuel (newUnion st1 st2 rows1 rows2) Next n
    = Some (map (nth_error (wanted rows1 ++ rows2)) (seq 0 n)) /\
  ((forall r, has r = true <-> In r rows2) -> NoDup rows1 -> NoDup rows2 ->
   NoDup (wanted rows1 ++ rows2) /\
   forall r, In r (wanted rows1 ++ rows2) <-> In r rows1 \/ In r rows2).
Proof.
  intros L. split.
  - apply (lookupRun_pending fuel n (newUnion st1 st2 rows1 rows2));
      [exact Logic.I|exact L].
  - intros H D1 D2. unfold UnionLookup.wanted. split.
    + apply NoDup_app; [apply NoDup_filter; exact D1|exact D2|].
      intros a Ia Ib. apply filter_In in Ia. destruct Ia as [_ Ia].
      apply H in Ib. rewrite Ib in Ia. discriminate.
    + intros r. rewrite in_app_iff, filter_In. split; [tauto|].
      intros [I1|I2]; [|right; exact I2].
      destruct (has r) eqn:E; [right; apply H; exact E|left; auto].
Qed.

Local Abbreviation pendingBack := (pendingBack has).

Lemma behind_length s : (length (behind s) <= length (items s))%nat.
Proof.
  unfold behind. destruct (at_ s);
    [rewrite length_rev; lia|rewrite length_rev, length_firstn; lia|cbn; lia].
Qed.

Lemma LookupGet_pendingBack fuel u :
  retreating u -> (length (items (source1 u)) < fuel)%nat ->
  exists u',
    LookupGet fuel u Prev = Some (u', hd_error (pendingBack u)) /\
    pendingBack u' = tl (pendingBack u) /\ retreating u' /\
    items (source1 u') = items (source1 u).
Proof.
  unfold retreating, UnionLookup.pendingBack, UnionLookup.LookupGet,
    UnionLookup.getLookup. intros P L.
  replace (if rewound u then dirEqb Prev Next else src1 u)
    with (if rewound u then false else src1 u) by reflexivity.
  destruct (if rewound u then false else src1 u).
  - pose proof (behind_length (source1 u)) as Bl.
    destruct (skipHas_behind fuel (source1 u) P ltac:(lia)) as (s1 & E & W & F & I).
    rewrite E.
    destruct (hd_error (wanted (behind (source1 u)))) as [row|];
      (eexists; split; [reflexivity|]);
      cbn [rewound src1 source1 source2 setLookup];
      (split; [exact W|split; [exact F|exact I]]).
  - destruct P as [P R0].
    destruct (Get_behind (source2 u) P) as (Hr & Ha & Hf & Hi).
    destruct (Get (source2 u) Prev) as [s2 r]. cbn [fst snd] in *.
    destruct (behind (source2 u)) as [|x rest] eqn:B; cbn [hd_error tl app] in *;
      subst r.
    + assert (F1 : backward (source1 u)) by (unfold backward; rewrite R0; exact Logic.I).
      pose proof (behind_length (source1 u)) as Bl.
      destruct (skipHas_behind fuel (source1 u) F1 ltac:(lia)) as (s1 & E & W & F & I).
      assert (B1 : behind (source1 u) = rev (items (source1 u)))
        by (unfold behind; rewrite R0; reflexivity).
      rewrite E, B1 in *. eexists. split; [reflexivity|].
      cbn [rewound src1 source1 source2 setLookup].
      split; [exact W|split; [exact F|exact I]].
    + eexists. split; [reflexivity|].
      cbn [rewound src1 source1 source2 setLookup]. rewrite Ha.
      split; [reflexivity|]. split; [split; [exact Hf|exact R0]|reflexivity].
Qed.

Lemma lookupRun_pendingBack fuel : forall n u,
  retreating u -> (length (items (source1 u)) < fuel)%nat ->
  lookupRun fuel u Prev n = Some (map (nth_error (pendingBack u)) (seq 0 n)).
Proof.
  induction n as [|n IH]; intros u P L; [reflexivity|].
  cbn [UnionLookup.lookupRun].
  destruct (LookupGet_pendingBack fuel u P L) as (u' & E & T & P' & I).
  rewrite E, (IH u' P') by (rewrite I; exact L). rewrite T.
  cbn [seq map]. rewrite <- seq_shift, map_map.
  replace (hd_error (pendingBack u)) with (nth_error (pendingBack u) 0)
    by (destruct (pendingBack u); reflexivity).
  f_equal. f_equal. apply map_ext. intros k. apply nth_error_tl.
Qed.

(** X26. The lookup strategy read backwards from the start gives the rows of
    the forward pass in reverse: every row of source2 from its last, then
    the rows of source1 that source2 does not have from the last, then
    nothing more. *)
Theorem getLookup_backward (st1 st2 : bool) (rows1 rows2 : list Row)
  (fuel n : nat) :
  (length rows1 < fuel)%nat ->
  lookupRun fuel (newUnion st1 st2 rows1 rows2) Prev n
    = Some (map (nth_error (rev (wanted rows1 ++ rows2))) (seq 0 n)).
Proof.
  intros L.
  rewrite (lookupRun_pendingBack fuel n (newUnion st1 st2 rows1 rows2));
    [|split; [exact Logic.I|reflexivity]|exact L].
  unfold UnionLookup.pendingBack, behind, UnionLookup.wanted.
  cbn [newUnion rewound source1 source2 items at_].
  rewrite rev_app_distr.
  replace (filter (fun r => negb (has r)) (rev rows1))
    with (rev (filter (fun r => negb (has r)) rows1)); [reflexivity|].
  induction rows1 as [|a l IH]; [reflexivity|]. cbn [rev filter].
  rewrite filter_app. cbn [filter].
  destruct (negb (has a)); cbn [rev]; rewrite IH by (cbn [length] in L; lia).
  - reflexivity.
  - rewrite app_nil_r. reflexivity.
Qed.

End WithHas.

Lemma getLookup_backward_witness :
  lookupRun (fun r => existsb (Z.eqb r) [2; 3; 4]) 5
    (newUnion true true [1; 2; 4; 6] [2; 3; 4]) Prev 7
  = Some [Some 4; Some 3; Some 2; Some 6; Some 1; None; None].
Proof.
  rewrite (getLookup_backward (fun r => existsb (Z.eqb r) [2; 3; 4]) true true
             [1; 2; 4; 6] [2; 3; 4] 5 7 ltac:(cbn; lia)).
  reflexivity.
Defined.

Lemma getLookup_forward_witness :
  lookupRun (fun r => existsb (Z.eqb r) [2; 3; 4]) 5
    (newUnion true true [1; 2; 4; 6] [2; 3; 4]) Next 7
  = Some [Some 1; Some 6; Some 2; Some 3; Some 4; None; None].
Proof.
  destruct (getLookup_forward (fun r => existsb (Z.eqb r) [2; 3; 4]) true true
              [1; 2; 4; 6] [2; 3; 4] 5 7 ltac:(cbn; lia)) as [E _].
  rewrite E. reflexivity.
Defined.

End UnionLookupFacts.

Module SummarizeSeqFacts.
Import Union UnionLookup SummarizeSeq.

Lemma Get_todo d s r :
  sits d s r \/ at_ s = Rewound ->
  snd (Union.Get s d) = hd_error (todo d s) /\
  todo d (fst (Union.Get s d)) = tl (todo d s) /\
  sits d (fst (Union.Get s d)) (snd (Union.Get s d)) /\
  items (fst (Union.Get s d)) = items s.
Proof.
  intros H.
  assert (G : match d with Next => forward s | Prev => backward s end).
  { unfold forward, backward. destruct H as [H|H].
    - destruct r as [x|]; cbn in H.
      + destruct H as (i & -> & E).
        assert (i < length (items s))%nat by (apply nth_error_Some; congruence).
        destruct d; assumption.
      + rewrite H. destruct d; reflexivity.
    - rewrite H. destruct d; exact Logic.I. }
  assert (S : sits d (fst (Union.Get s d)) (snd (Union.Get s d))).
  { destruct s as [st rows p]. unfold Union.Get. cbn [sticky items at_].
    assert (E : forall i, sits d (mkSource st rows (fst (enter rows d i)))
                            (snd (enter rows d i))).
    { intros i. unfold enter. destruct (nth_error rows i) as [x|] eqn:E; cbn.
      - exists i. auto.
      - reflexivity. }
    assert (F : sits d (mkSource st rows (fst (fromEnd rows d)))
                  (snd (fromEnd rows d))).
    { unfold fromEnd. destruct d; [apply E|].
      destruct (length rows); [reflexivity|apply E]. }
    destruct p as [|i|d']; cbn [cursorGet].
    - destruct (fromEnd rows d). exact F.
    - destruct d.
      + specialize (E (S i)). destruct (enter rows Next (S i)). exact E.
      + destruct i; [reflexivity|].
        specialize (E i). destruct (enter rows Prev i). exact E.
    - assert (d' = d) as -> by (destruct d; exact G).
      replace (dirEqb d d) with true by (destruct d; reflexivity).
      rewrite orb_true_r. reflexivity. }
  destruct d; unfold todo.
  - destruct (UnionLookupFacts.Get_ahead s G) as (A & B & C & D). auto.
  - destruct (UnionLookupFacts.Get_behind s G) as (A & B & C & D). auto.
Qed.

Lemma todo_length d s : (length (todo d s) <= length (items s))%nat.
Proof.
  unfold todo, ahead, behind.
  destruct d, (at_ s); cbn [length]; rewrite ?length_rev, ?length_skipn, ?length_firstn; lia.
Qed.

Lemma skipn_nth {A} (l : list A) : forall i x,
  nth_error l i = Some x -> skipn i l = x :: skipn (S i) l.
Proof.
  induction l as [|a l IH]; intros [|i] x E; cbn in E; try discriminate.
  - injection E as <-. reflexivity.
  - cbn [skipn]. rewrite (IH i x E). reflexivity.
Qed.

Lemma firstn_split {A} (l C : list A) i x :
  nth_error l i = Some x -> l = C ++ x :: skipn (S i) l -> firstn i l = C.
Proof.
  intros E L.
  assert (D : l = firstn i l ++ x :: skipn (S i) l).
  { rewrite <- (skipn_nth l i x E). symmetry. apply firstn_skipn. }
  rewrite D in L at 1. apply app_inv_tail in L. exact L.
Qed.

Section WithRows.

Context {Value : Type}.
Variable Zero : Value.
Variable OpAdd : Value -> Value -> option Value.
Variable GetVal : Row -> string -> Value.
Variable GetRawVal : Row -> string -> string.
Variable su : Summarize.Summarize.

Local Abbreviation sumOp := (@Summarize.sumOp Value Row).
Local Abbreviation reset := (@reset Value Zero).
Local Abbreviation addToSums :=
  (@Summarize.addToSums Value Row Zero OpAdd GetVal GetRawVal).
Local Abbreviation sameBy := (sameBy GetRawVal su).
Local Abbreviation takeSame := (takeSame GetRawVal su).
Local Abbreviation dropSame := (dropSame GetRawVal su).
Local Abbreviation groups := (groups GetRawVal su).
Local Abbreviation cut := (cut GetRawVal su).
Local Abbreviation feed := (feed Zero OpAdd GetVal GetRawVal su).
Local Abbreviation report := (report Zero OpAdd GetVal GetRawVal su).
Local Abbreviation start := (start Zero su).
Local Abbreviation Get fuel := (SummarizeSeq.Get Zero OpAdd GetVal GetRawVal fuel su).
Local Abbreviation seqRun fuel := (seqRun Zero OpAdd GetVal GetRawVal fuel su).
Local Abbreviation running := (running Zero).
Local Abbreviation halted := (halted Zero GetRawVal su).

(** *** The aggregates keep their kind *)

Lemma reset_newSumOp op (s : sumOp) :
  Summarize.newSumOp Zero op = Some s -> reset s = s.
Proof.
  unfold Summarize.newSumOp.
  repeat (destruct (String.eqb op _); [intros [= <-]; reflexivity|]).
  discriminate.
Qed.

Lemma newSums_reset : forall ops (fresh : list sumOp),
  Summarize.newSums Zero ops = Some fresh ->
  map reset fresh = fresh /\ length fresh = length ops.
Proof.
  induction ops as [|op ops IH]; cbn [Summarize.newSums]; intros fresh E.
  - injection E as <-. auto.
  - destruct (Summarize.newSumOp Zero op) as [s|] eqn:A; [|discriminate].
    destruct (Summarize.newSums Zero ops) as [r|] eqn:B; [|discriminate].
    injection E as <-. destruct (IH r Logic.eq_refl) as [M L].
    cbn [map length]. rewrite (reset_newSumOp op s A), M, L. auto.
Qed.

Lemma add_reset (s s' : sumOp) raw v row :
  Summarize.add OpAdd s raw v row = Some s' -> reset s' = reset s.
Proof.
  destruct s as [c|t|c t|[[r w]|]|[[r w]|]|raws]; cbn [Summarize.add].
  - intros [= <-]. reflexivity.
  - destruct (OpAdd t v); intros [= <-]; reflexivity.
  - destruct (OpAdd t v); intros [= <-]; reflexivity.
  - destruct (strLess raw r); intros [= <-]; reflexivity.
  - intros [= <-]. reflexivity.
  - destruct (strLess r raw); intros [= <-]; reflexivity.
  - intros [= <-]. reflexivity.
  - destruct (_ >? _); [discriminate|]. intros [= <-]. reflexivity.
Qed.

Lemma addToSums_reset : forall ops ons (sums sums' : list sumOp) row,
  length ops = length sums -> length ons = length sums ->
  addToSums ops ons sums row = Some sums' ->
  map reset sums' = map reset sums /\ length sums' = length sums.
Proof.
  induction ops as [|op ops IH]; intros [|on ons] [|s sums] sums' row L1 L2;
    cbn [length] in L1, L2; try discriminate; cbn [Summarize.addToSums].
  - intros [= <-]. auto.
  - match goal with |- context [match ?r with Some _ => _ | None => _ end] =>
      destruct r as [s1|] eqn:A end; [|discriminate].
    destruct (addToSums ops ons sums row) as [r1|] eqn:B; [|discriminate].
    intros [= <-].
    destruct (IH ons sums r1 row ltac:(lia) ltac:(lia) B) as [M L].
    assert (R : reset s1 = reset s).
    { destruct (String.eqb op "count"); [exact (add_reset _ _ _ _ _ A)|].
      destruct (_ || _); exact (add_reset _ _ _ _ _ A). }
    cbn [map length]. rewrite R, M, L. auto.
Qed.

Lemma feed_reset : forall rows (sums sums' : list sumOp),
  length (Summarize.ops su) = length sums ->
  length (Summarize.ons su) = length sums ->
  feed sums rows = Some sums' ->
  map reset sums' = map reset sums /\ length sums' = length sums.
Proof.
  induction rows as [|r rows IH]; intros sums sums' L1 L2; cbn [SummarizeSeq.feed].
  - intros [= <-]. auto.
  - destruct (addToSums _ _ sums r) as [s1|] eqn:A; [|discriminate].
    intros F. destruct (addToSums_reset _ _ _ _ _ L1 L2 A) as [M L].
    destruct (IH s1 sums' ltac:(congruence) ltac:(congruence) F) as [M' L'].
    split; congruence.
Qed.

(** *** The groups *)

Lemma sameBy_key a b :
  sameBy a b = true <->
  map (GetRawVal a) (Summarize.by_ su) = map (GetRawVal b) (Summarize.by_ su).
Proof.
  unfold SummarizeSeq.sameBy.
  induction (Summarize.by_ su) as [|f l IH]; cbn [forallb map].
  - split; auto.
  - rewrite andb_true_iff, String.eqb_eq, IH. split.
    + intros [-> ->]. reflexivity.
    + intros [= -> ->]. auto.
Qed.

Lemma sameBy_refl a : sameBy a a = true.
Proof. apply sameBy_key. reflexivity. Qed.

Lemma sameBy_other c r x :
  sameBy c x = true -> sameBy c r = false -> sameBy r x = false.
Proof.
  intros A B. destruct (sameBy r x) eqn:E; [|reflexivity].
  apply sameBy_key in A. apply sameBy_key in E.
  assert (K : sameBy c r = true) by (apply sameBy_key; congruence).
  congruence.
Qed.

Lemma take_drop c : forall R, takeSame c R ++ dropSame c R = R.
Proof.
  induction R as [|r R IH]; cbn [SummarizeSeq.takeSame SummarizeSeq.dropSame];
    [reflexivity|].
  destruct (sameBy c r); [cbn [app]; rewrite IH|]; reflexivity.
Qed.

Lemma takeSame_all c : forall R,
  Forall (fun x => sameBy c x = true) (takeSame c R).
Proof.
  induction R as [|r R IH]; cbn [SummarizeSeq.takeSame]; [constructor|].
  destruct (sameBy c r) eqn:E; constructor; assumption.
Qed.

Lemma dropSame_hd c : forall R x,
  hd_error (dropSame c R) = Some x -> sameBy c x = false.
Proof.
  induction R as [|r R IH]; cbn [SummarizeSeq.dropSame]; intros x H;
    [discriminate|].
  destruct (sameBy c r) eqn:E; [apply IH; exact H|].
  injection H as <-. exact E.
Qed.

Lemma dropSame_length c : forall R, (length (dropSame c R) <= length R)%nat.
Proof.
  induction R as [|r R IH]; cbn [SummarizeSeq.dropSame length]; [lia|].
  destruct (sameBy c r); cbn [length]; lia.
Qed.

Lemma dropSame_app c B : forall A,
  Forall (fun x => sameBy c x = true) A ->
  (forall x, hd_error B = Some x -> sameBy c x = false) ->
  dropSame c (A ++ B) = B.
Proof.
  induction A as [|a A IH]; intros FA HB; cbn [app].
  - destruct B as [|b B]; [reflexivity|]. cbn [SummarizeSeq.dropSame].
    rewrite (HB b Logic.eq_refl). reflexivity.
  - inversion FA as [|? ? Ha FA']; subst. cbn [SummarizeSeq.dropSame].
    rewrite Ha. apply IH; assumption.
Qed.

Lemma groupsUpTo_enough : forall k k' R,
  (length R <= k)%nat -> (length R <= k')%nat ->
  groupsUpTo GetRawVal k su R = groupsUpTo GetRawVal k' su R.
Proof.
  induction k as [|k IH]; intros k' R L L'.
  - destruct R; [|cbn [length] in L; lia]. destruct k'; reflexivity.
  - destruct R as [|r R]; [destruct k'; reflexivity|].
    destruct k' as [|k']; [cbn [length] in L'; lia|].
    cbn [SummarizeSeq.groupsUpTo]. f_equal.
    pose proof (dropSame_length r R). cbn [length] in L, L'.
    apply IH; lia.
Qed.

Lemma groups_cons r R :
  groups (r :: R) = (r :: takeSame r R) :: groups (dropSame r R).
Proof.
  unfold SummarizeSeq.groups. cbn [length SummarizeSeq.groupsUpTo]. f_equal.
  pose proof (dropSame_length r R). apply groupsUpTo_enough; lia.
Qed.

Lemma groups_cut : forall k R,
  (length R <= k)%nat -> cut (groups R) /\ concat (groups R) = R.
Proof.
  induction k as [|k IH]; intros R L.
  - destruct R; [|cbn [length] in L; lia]. cbn. auto.
  - destruct R as [|r R]; [cbn; auto|]. rewrite groups_cons.
    pose proof (dropSame_length r R) as D. cbn [length] in L.
    destruct (IH (dropSame r R) ltac:(lia)) as [C E].
    split.
    + cbn [SummarizeSeq.cut]. split; [apply takeSame_all|]. split; [|exact C].
      destruct (dropSame r R) as [|x R'] eqn:Q; [exact Logic.I|].
      rewrite groups_cons. apply (dropSame_hd r R). rewrite Q. reflexivity.
    + cbn [concat]. rewrite E. cbn [app]. rewrite take_drop. reflexivity.
Qed.

(** *** The loops *)

Lemma gather_spec d : forall fuel s (sums : list sumOp) cur next nx0,
  sits d s nx0 \/ at_ s = Rewound ->
  (length (todo d s) < fuel)%nat ->
  match feed sums (next :: takeSame cur (todo d s)) with
  | None => gather Zero OpAdd GetVal GetRawVal fuel su s d sums cur next = None
  | Some sums' =>
      exists s' nx,
        gather Zero OpAdd GetVal GetRawVal fuel su s d sums cur next
          = Some (s', sums', nx) /\
        sits d s' nx /\
        match nx with Some r => r :: todo d s' | None => [] end
          = dropSame cur (todo d s) /\
        items s' = items s
  end.
Proof.
  induction fuel as [|fuel IH]; intros s sums cur next nx0 H L; [lia|].
  cbn [SummarizeSeq.feed SummarizeSeq.gather].
  destruct (addToSums _ _ sums next) as [sums1|]; [|reflexivity].
  destruct (Get_todo d s nx0 H) as (A & B & C & D).
  destruct (Union.Get s d) as [s1 r1]. cbn [fst snd] in A, B, C, D.
  destruct (todo d s) as [|x T] eqn:ET; cbn [hd_error tl] in A, B; subst r1.
  - cbn [SummarizeSeq.takeSame SummarizeSeq.feed SummarizeSeq.dropSame].
    exists s1, None. auto.
  - cbn [SummarizeSeq.takeSame SummarizeSeq.dropSame].
    destruct (sameBy cur x) eqn:E.
    + specialize (IH s1 sums1 cur x (Some x) (or_introl C)).
      rewrite B in IH. cbn [length] in L. specialize (IH ltac:(lia)).
      destruct (feed sums1 (x :: takeSame cur T)) as [sums'|]; [|exact IH].
      destruct IH as (s' & nx & G & S' & R' & I'). exists s', nx.
      repeat split; congruence.
    + cbn [SummarizeSeq.feed]. exists s1, (Some x).
      repeat split; congruence.
Qed.

Lemma skipSame_spec d c : forall fuel s cur nx0,
  sits d s nx0 \/ at_ s = Rewound ->
  (length (todo d s) < fuel)%nat ->
  cur = Some c \/ todo d s = [] ->
  exists s' nx,
    skipSame GetRawVal fuel su s d cur = Some (s', nx) /\
    sits d s' nx /\
    match nx with Some r => r :: todo d s' | None => [] end
      = dropSame c (todo d s) /\
    items s' = items s.
Proof.
  induction fuel as [|fuel IH]; intros s cur nx0 H L K; [lia|].
  cbn [SummarizeSeq.skipSame].
  destruct (Get_todo d s nx0 H) as (A & B & C & D).
  destruct (Union.Get s d) as [s1 r1]. cbn [fst snd] in A, B, C, D.
  destruct (todo d s) as [|x T] eqn:ET; cbn [hd_error tl] in A, B; subst r1.
  - exists s1, None. auto.
  - destruct K as [->|K]; [|discriminate].
    cbn [SummarizeSeq.dropSame]. destruct (sameBy c x) eqn:E.
    + specialize (IH s1 (Some c) (Some x) (or_introl C)).
      rewrite B in IH. cbn [length] in L.
      destruct (IH ltac:(lia) (or_introl Logic.eq_refl))
        as (s' & nx & G & S' & R' & I').
      exists s', nx. repeat split; congruence.
    + exists s1, (Some x). repeat split; congruence.
Qed.

Section OneDirection.

Variable fresh : list sumOp.
Hypothesis fresh_ops : length (Summarize.ops su) = length fresh.
Hypothesis fresh_ons : length (Summarize.ons su) = length fresh.

Lemma Get_spec d fuel st s t :
  match start st d with
  | Some (s0, t0) => turn GetRawVal fuel su s0 t0 d
  | None => None
  end = Some (s, t) ->
  running d fresh s t ->
  (length (items s) < fuel)%nat ->
  match remaining d s t with
  | [] => Get fuel st d = Some (mkSeq s false t, None)
  | r :: R =>
      match feed fresh (r :: takeSame r R) with
      | None => Get fuel st d = None
      | Some sums' =>
          exists s' nx,
            Get fuel st d
              = Some (mkSeq s' false (mkSeqT d (Some r) nx sums'),
                      Some (r, sums')) /\
            running d fresh s' (mkSeqT d (Some r) nx sums') /\
            remaining d s' (mkSeqT d (Some r) nx sums') = dropSame r R /\
            items s' = items s
      end
  end.
Proof.
  intros P (Dd & St & Mr & Ln) L.
  unfold SummarizeSeq.Get, getSeq.
  destruct (start st d) as [[s0 t0]|]; [|discriminate]. rewrite P.
  unfold collect, remaining. destruct (nextRow t) as [r|] eqn:N.
  - rewrite Mr.
    pose proof (gather_spec d fuel s fresh r r (Some r) (or_introl St)) as G.
    pose proof (todo_length d s). specialize (G ltac:(lia)).
    destruct (feed fresh (r :: takeSame r (todo d s))) as [sums'|] eqn:F.
    + destruct G as (s' & nx & G & S' & R' & I'). rewrite G.
      destruct (feed_reset _ _ _ fresh_ops fresh_ons F) as [M' L'].
      assert (Mf : map reset fresh = fresh).
      { rewrite <- Mr. rewrite map_map.
        apply map_ext. intros a. destruct a; reflexivity. }
      exists s', nx. cbn [source seqT]. rewrite Dd.
      unfold SummarizeSeq.running. cbn [curDir nextRow sums].
      repeat split; try congruence.
    + rewrite G. reflexivity.
  - reflexivity.
Qed.

Lemma prelude_running d fuel st :
  rewound st = false -> curDir (seqT st) = d ->
  match start st d with
  | Some (s0, t0) => turn GetRawVal fuel su s0 t0 d
  | None => None
  end = Some (source st, seqT st).
Proof.
  intros R C. unfold SummarizeSeq.start, turn. rewrite R, C.
  destruct d; reflexivity.
Qed.

Lemma seqRun_running d fuel : forall n st,
  rewound st = false -> running d fresh (source st) (seqT st) ->
  (length (items (source st)) < fuel)%nat ->
  option_map snd (seqRun fuel st d n)
    = report fresh n (groups (remaining d (source st) (seqT st))).
Proof.
  induction n as [|n IH]; intros st R U L; [reflexivity|].
  cbn [SummarizeSeq.seqRun].
  pose proof (Get_spec d fuel st _ _ (prelude_running d fuel st R (proj1 U)) U L) as G.
  destruct (remaining d (source st) (seqT st)) as [|r R0] eqn:ER.
  - rewrite G. cbn [SummarizeSeq.groups length SummarizeSeq.groupsUpTo SummarizeSeq.report].
    specialize (IH (mkSeq (source st) false (seqT st)) Logic.eq_refl U L).
    cbn [source seqT] in IH. rewrite ER in IH.
    cbn [SummarizeSeq.groups length SummarizeSeq.groupsUpTo] in IH.
    rewrite <- IH. destruct (seqRun fuel _ d n) as [[st' rs]|]; reflexivity.
  - rewrite groups_cons. cbn [SummarizeSeq.report].
    destruct (feed fresh (r :: takeSame r R0)) as [sums'|]; [|rewrite G; reflexivity].
    destruct G as (s' & nx & G & U' & R' & I'). rewrite G.
    specialize (IH (mkSeq s' false (mkSeqT d (Some r) nx sums')) Logic.eq_refl U').
    cbn [source seqT] in IH. rewrite R' in IH. rewrite <- IH by (rewrite I'; exact L).
    destruct (seqRun fuel _ d n) as [[st' rs]|]; reflexivity.
Qed.

Lemma seqRun_spec d fuel st s t n :
  match start st d with
  | Some (s0, t0) => turn GetRawVal fuel su s0 t0 d
  | None => None
  end = Some (s, t) ->
  running d fresh s t ->
  (length (items s) < fuel)%nat ->
  option_map snd (seqRun fuel st d n)
    = report fresh n (groups (remaining d s t)).
Proof.
  intros P U L. destruct n as [|n]; [reflexivity|].
  cbn [SummarizeSeq.seqRun].
  pose proof (Get_spec d fuel st s t P U L) as G.
  destruct (remaining d s t) as [|r R0] eqn:ER.
  - rewrite G.
    pose proof (seqRun_running d fuel n (mkSeq s false t) Logic.eq_refl U L) as Q.
    cbn [source seqT] in Q. rewrite ER in Q.
    cbn [SummarizeSeq.groups length SummarizeSeq.groupsUpTo SummarizeSeq.report].
    cbn [SummarizeSeq.groups length SummarizeSeq.groupsUpTo] in Q.
    rewrite <- Q. destruct (seqRun fuel _ d n) as [[st' rs]|]; reflexivity.
  - rewrite groups_cons. cbn [SummarizeSeq.report].
    destruct (feed fresh (r :: takeSame r R0)) as [sums'|]; [|rewrite G; reflexivity].
    destruct G as (s' & nx & G & U' & R' & I'). rewrite G.
    pose proof (seqRun_running d fuel n (mkSeq s' false (mkSeqT d (Some r) nx sums'))
                  Logic.eq_refl U') as Q.
    cbn [source seqT] in Q. rewrite R' in Q. rewrite <- Q by (rewrite I'; exact L).
    destruct (seqRun fuel _ d n) as [[st' rs]|]; reflexivity.
Qed.

Hypothesis fresh_new : Summarize.newSums Zero (Summarize.ops su) = Some fresh.

Lemma prelude_rewound d fuel st :
  rewound st = true -> at_ (source st) = Rewound ->
  exists s t,
    match start st d with
    | Some (s0, t0) => turn GetRawVal fuel su s0 t0 d
    | None => None
    end = Some (s, t) /\
    running d fresh s t /\ remaining d s t = line d (items (source st)) /\
    items s = items (source st) /\ curRow t = None.
Proof.
  intros R A. unfold SummarizeSeq.start, turn. rewrite R, fresh_new.
  destruct (Get_todo d (source st) None (or_intror A)) as (H1 & H2 & H3 & H4).
  destruct (Union.Get (source st) d) as [s1 r1]. cbn [fst snd] in H1, H2, H3, H4.
  exists s1, (mkSeqT d None r1 fresh). cbn [curDir nextRow].
  replace (dirEqb d d) with true by (destruct d; reflexivity).
  split; [reflexivity|]. split; [|split; [|auto]].
  - unfold SummarizeSeq.running. cbn [curDir nextRow sums].
    destruct (newSums_reset _ _ fresh_new). auto.
  - unfold remaining. cbn [nextRow].
    assert (T : todo d (source st) = line d (items (source st))).
    { unfold todo, ahead, behind, line. rewrite A. destruct d; reflexivity. }
    rewrite <- T. destruct (todo d (source st)); cbn [hd_error tl] in H1, H2;
      subst; reflexivity.
Qed.

Lemma seqRun_rewound d fuel st n :
  rewound st = true -> at_ (source st) = Rewound ->
  (length (items (source st)) < fuel)%nat ->
  option_map snd (seqRun fuel st d n)
    = report fresh n (groups (line d (items (source st)))).
Proof.
  intros R A L.
  destruct (prelude_rewound d fuel st R A) as (s & t & P & U & E & I & _).
  rewrite <- E. apply seqRun_spec; [exact P|exact U|rewrite I; exact L].
Qed.

(** *** A change of direction *)

Lemma halted_next s t pre G r R sums' s' nx :
  halted fresh s t pre G \/ (curRow t = None /\ pre = [] /\ G = []) ->
  items s = pre ++ G ++ r :: R ->
  nextRow t = Some r ->
  running Next fresh s' (mkSeqT Next (Some r) nx sums') ->
  remaining Next s' (mkSeqT Next (Some r) nx sums') = dropSame r R ->
  items s' = items s ->
  halted fresh s' (mkSeqT Next (Some r) nx sums') (pre ++ G) (r :: takeSame r R).
Proof.
  intros H I N U' R' I'. unfold SummarizeSeq.halted.
  split; [exact U'|]. split.
  - rewrite R', I', I, <- app_assoc. cbn [app]. rewrite take_drop. reflexivity.
  - cbn [curRow nextRow]. split; [discriminate|]. split.
    + constructor; [apply sameBy_refl|apply takeSame_all].
    + split.
      * intros x Hx. destruct H as [(_ & J & H)|(_ & -> & ->)];
          [|discriminate].
        destruct (curRow t) as [c|].
        -- destruct H as (Gn & FG & _ & Hn).
           apply (sameBy_other c r x); [|apply Hn; exact N].
           rewrite rev_app_distr in Hx.
           destruct (rev G) as [|y G'] eqn:EG.
           { apply (f_equal (@rev Row)) in EG. rewrite rev_involutive in EG.
             contradiction. }
           cbn in Hx. injection Hx as <-.
           rewrite Forall_forall in FG. apply FG. apply in_rev.
           rewrite EG. left. reflexivity.
        -- rewrite H in I. destruct pre, G; discriminate.
      * intros x ->. apply (dropSame_hd r R). rewrite <- R'.
        unfold remaining. reflexivity.
Qed.

Lemma Get_halted fuel st pre G :
  rewound st = false ->
  halted fresh (source st) (seqT st) pre G ->
  (length (items (source st)) < fuel)%nat ->
  match remaining Next (source st) (seqT st) with
  | [] => Get fuel st Next = Some (mkSeq (source st) false (seqT st), None)
  | r :: R =>
      match feed fresh (r :: takeSame r R) with
      | None => Get fuel st Next = None
      | Some sums' =>
          exists st',
            Get fuel st Next = Some (st', Some (r, sums')) /\
            rewound st' = false /\
            halted fresh (source st') (seqT st') (pre ++ G) (r :: takeSame r R) /\
            remaining Next (source st') (seqT st') = dropSame r R /\
            items (source st') = items (source st)
      end
  end.
Proof.
  intros R H L. pose proof H as (U & I & _).
  pose proof (Get_spec Next fuel st _ _
                (prelude_running Next fuel st R (proj1 U)) U L) as Q.
  destruct (remaining Next (source st) (seqT st)) as [|r R0] eqn:ER;
    [exact Q|].
  destruct (feed fresh (r :: takeSame r R0)) as [sums'|]; [|exact Q].
  destruct Q as (s' & nx & Q & U' & R' & I').
  exists (mkSeq s' false (mkSeqT Next (Some r) nx sums')). cbn [source seqT rewound].
  split; [exact Q|]. split; [reflexivity|]. split; [|split; assumption].
  apply (halted_next (source st) (seqT st) pre G r R0); auto.
  unfold remaining in ER. destruct (nextRow (seqT st)); congruence.
Qed.

Lemma Get_first fuel st :
  rewound st = true -> at_ (source st) = Rewound ->
  (length (items (source st)) < fuel)%nat ->
  match items (source st) with
  | [] =>
      exists st',
        Get fuel st Next = Some (st', None) /\ rewound st' = false /\
        halted fresh (source st') (seqT st') [] [] /\
        remaining Next (source st') (seqT st') = [] /\
        items (source st') = items (source st)
  | r :: R =>
      match feed fresh (r :: takeSame r R) with
      | None => Get fuel st Next = None
      | Some sums' =>
          exists st',
            Get fuel st Next = Some (st', Some (r, sums')) /\
            rewound st' = false /\
            halted fresh (source st') (seqT st') [] (r :: takeSame r R) /\
            remaining Next (source st') (seqT st') = dropSame r R /\
            items (source st') = items (source st)
      end
  end.
Proof.
  intros R A L.
  destruct (prelude_rewound Next fuel st R A) as (s & t & P & U & E & I & C).
  cbn [line] in E.
  pose proof (Get_spec Next fuel st s t P U ltac:(rewrite I; exact L)) as Q.
  rewrite E in Q. destruct (items (source st)) as [|r R0] eqn:ER.
  - exists (mkSeq s false t). cbn [source seqT rewound].
    split; [exact Q|]. split; [reflexivity|]. split; [|auto].
    unfold SummarizeSeq.halted. rewrite C, E. auto.
  - destruct (feed fresh (r :: takeSame r R0)) as [sums'|]; [|exact Q].
    destruct Q as (s' & nx & Q & U' & R' & I').
    exists (mkSeq s' false (mkSeqT Next (Some r) nx sums')).
    cbn [source seqT rewound].
    split; [exact Q|]. split; [reflexivity|].
    split; [|split; [assumption|congruence]].
    apply (halted_next s t [] [] r R0); auto.
    unfold remaining in E. destruct (nextRow t); congruence.
Qed.

Lemma report_nil n : report fresh n [] <> None.
Proof.
  induction n as [|n IH]; cbn [SummarizeSeq.report]; [discriminate|].
  destruct (report fresh n []); [discriminate|contradiction].
Qed.

Lemma run_halted fuel : forall n st pre G,
  rewound st = false ->
  halted fresh (source st) (seqT st) pre G ->
  (length (items (source st)) < fuel)%nat ->
  report fresh n (groups (remaining Next (source st) (seqT st))) <> None ->
  exists st' outs pre' G',
    seqRun fuel st Next n = Some (st', outs) /\ rewound st' = false /\
    items (source st') = items (source st) /\
    halted fresh (source st') (seqT st') pre' G' /\
    pre' = match Nat.min n (length (groups (remaining Next (source st) (seqT st)))) with
           | O => pre
           | S j => pre ++ G ++
                    concat (firstn j (groups (remaining Next (source st) (seqT st))))
           end.
Proof.
  induction n as [|n IH]; intros st pre G R H L N.
  - exists st, [], pre, G. cbn [SummarizeSeq.seqRun Nat.min]. auto.
  - cbn [SummarizeSeq.seqRun].
    pose proof (Get_halted fuel st pre G R H L) as Q.
    destruct (remaining Next (source st) (seqT st)) as [|r R0] eqn:ER.
    + rewrite Q.
      destruct (IH (mkSeq (source st) false (seqT st)) pre G Logic.eq_refl H L)
        as (st' & outs & pre' & G' & E & R' & I' & H' & P').
      { cbn [source seqT]. rewrite ER. apply report_nil. }
      rewrite E. exists st', (None :: outs), pre', G'.
      cbn [source seqT] in P', I'. rewrite ER in P'.
      cbn [SummarizeSeq.groups length SummarizeSeq.groupsUpTo] in *.
      rewrite Nat.min_0_r in P'. auto.
    + rewrite groups_cons in N |- *. cbn [SummarizeSeq.report] in N.
      destruct (feed fresh (r :: takeSame r R0)) as [sums'|]; [|contradiction].
      destruct Q as (st1 & Q & R1 & H1 & E1 & I1). rewrite Q.
      destruct (IH st1 (pre ++ G) (r :: takeSame r R0) R1 H1)
        as (st' & outs & pre' & G' & E & R' & I' & H' & P').
      { rewrite I1. exact L. }
      { rewrite E1. destruct (report fresh n (groups (dropSame r R0)));
          [discriminate|contradiction]. }
      rewrite E. exists st', (Some (r, sums') :: outs), pre', G'.
      rewrite E1 in P'. cbn [length Nat.min].
      split; [reflexivity|]. split; [exact R'|]. split; [congruence|].
      split; [exact H'|].
      rewrite P'. destruct (Nat.min n _); cbn [firstn concat].
      * rewrite app_nil_r. reflexivity.
      * rewrite <- app_assoc. reflexivity.
Qed.

Lemma prelude_halted fuel st pre G :
  rewound st = false ->
  halted fresh (source st) (seqT st) pre G ->
  (length (items (source st)) < fuel)%nat ->
  exists s t,
    match start st Prev with
    | Some (s0, t0) => turn GetRawVal fuel su s0 t0 Prev
    | None => None
    end = Some (s, t) /\
    running Prev fresh s t /\ remaining Prev s t = rev pre /\
    items s = items (source st).
Proof.
  intros R ((Dd & St & Mr & Ln) & I & H) L.
  unfold SummarizeSeq.start, turn. rewrite R, Dd. cbn [dirEqb].
  set (s2 := if isNil (nextRow (seqT st)) then Union.Rewind (source st)
             else source st).
  assert (S2 : (sits Prev s2 (nextRow (seqT st)) \/ at_ s2 = Rewound) /\
               todo Prev s2 = rev (pre ++ G) /\ items s2 = items (source st)).
  { unfold s2, remaining in *. destruct (nextRow (seqT st)) as [x|]; cbn [isNil].
    - split; [left; exact St|]. split; [|reflexivity].
      destruct St as (i & A & E). unfold todo, behind. rewrite A. f_equal.
      apply (firstn_split _ _ i x E).
      unfold todo, ahead in I. rewrite A in I. rewrite I at 1.
      rewrite app_assoc. reflexivity.
    - split; [right; reflexivity|]. split; [|reflexivity].
      unfold todo, behind. cbn [Union.Rewind at_ items]. rewrite I.
      rewrite !app_nil_r. reflexivity. }
  destruct S2 as (S2 & T2 & I2).
  assert (D : exists c, (curRow (seqT st) = Some c \/ todo Prev s2 = []) /\
                        dropSame c (todo Prev s2) = rev pre).
  { destruct (curRow (seqT st)) as [c|].
    - exists c. split; [left; reflexivity|].
      destruct H as (_ & FG & Hp & _). rewrite T2, rev_app_distr.
      apply dropSame_app; [|exact Hp].
      apply Forall_forall. intros x Hx. rewrite Forall_forall in FG.
      apply FG. apply in_rev. exact Hx.
    - exists 0. rewrite H in I. destruct pre; [|discriminate].
      destruct G; [|discriminate]. rewrite T2. cbn. auto. }
  destruct D as (c & K & D).
  destruct (skipSame_spec Prev c fuel s2 (curRow (seqT st)) _ S2) as
    (s' & nx & E & S' & R' & I'); [|exact K|].
  { pose proof (todo_length Prev s2). rewrite I2 in *. lia. }
  rewrite E. exists s', (mkSeqT Prev (curRow (seqT st)) nx (sums (seqT st))).
  split; [reflexivity|]. unfold SummarizeSeq.running, remaining.
  cbn [curDir nextRow sums]. rewrite <- D, <- R'.
  repeat split; try assumption; try congruence.
Qed.

End OneDirection.

(** X27. From a rewound source, [n] calls of [Get] in one direction return the
    groups of the rows as the pass reads them, one group a call: the first
    row of the group and the sums of its rows, added in that order to
    fresh sums; nil after the last group. The groups are the rows cut
    where the by columns change. *)
Theorem getSeq_groups (fresh : list sumOp) (st : seqState) (d : Dir)
  (fuel n : nat) :
  Summarize.newSums Zero (Summarize.ops su) = Some fresh ->
  length (Summarize.ops su) = length (Summarize.ons su) ->
  rewound st = true -> at_ (source st) = Rewound ->
  (length (items (source st)) < fuel)%nat ->
  option_map snd (seqRun fuel st d n)
    = report fresh n (groups (line d (items (source st)))) /\
  cut (groups (line d (items (source st)))) /\
  concat (groups (line d (items (source st)))) = line d (items (source st)).
Proof.
  intros N P R A L. destruct (newSums_reset _ _ N) as [_ Lf]. split.
  - apply seqRun_rewound; congruence.
  - apply (groups_cut (length (line d (items (source st))))). lia.
Qed.

(** X28. After [n] calls of [Get] forwards from a rewound source, at least
    one, calls of [Get] backwards skip the group returned last (the last
    group of the source, if the forward calls went past it) and return the
    groups of the rows before it, read backwards. *)
Theorem getSeq_turns_back (fresh : list sumOp) (st : seqState)
  (fuel n m : nat) :
  Summarize.newSums Zero (Summarize.ops su) = Some fresh ->
  length (Summarize.ops su) = length (Summarize.ons su) ->
  rewound st = true -> at_ (source st) = Rewound ->
  (length (items (source st)) < fuel)%nat ->
  (0 < n)%nat ->
  report fresh n (groups (items (source st))) <> None ->
  exists st' outs,
    seqRun fuel st Next n = Some (st', outs) /\
    report fresh n (groups (items (source st))) = Some outs /\
    option_map snd (seqRun fuel st' Prev m)
      = report fresh m
          (groups (rev (concat
             (firstn (Nat.min n (length (groups (items (source st)))) - 1)
                (groups (items (source st))))))).
Proof.
  intros N P R A L Hn Ok. destruct (newSums_reset _ _ N) as [_ Lf].
  assert (Fo : length (Summarize.ops su) = length fresh) by congruence.
  assert (Fn : length (Summarize.ons su) = length fresh) by congruence.
  pose proof (seqRun_rewound fresh Fo Fn N Next fuel st n R A L) as Q.
  cbn [line] in Q.
  assert (K : exists st' outs pre' G',
    seqRun fuel st Next n = Some (st', outs) /\ rewound st' = false /\
    items (source st') = items (source st) /\
    halted fresh (source st') (seqT st') pre' G' /\
    pre' = concat (firstn (Nat.min n (length (groups (items (source st)))) - 1)
                     (groups (items (source st))))).
  { destruct n as [|n]; [lia|]. cbn [SummarizeSeq.seqRun].
    pose proof (Get_first fresh Fo Fn N fuel st R A L) as G1.
    destruct (items (source st)) as [|r R0] eqn:ER.
    - destruct G1 as (st1 & G1 & R1 & H1 & E1 & I1). rewrite G1.
      destruct (run_halted fresh Fo Fn fuel n st1 [] [] R1 H1)
        as (st' & outs & pre' & G' & E & R' & I' & H' & P').
      { rewrite I1. exact L. }
      { rewrite E1. apply report_nil. }
      rewrite E. exists st', (None :: outs), pre', G'.
      rewrite E1 in P'.
      cbn [SummarizeSeq.groups length SummarizeSeq.groupsUpTo] in *.
      rewrite Nat.min_0_r in P' |- *. cbn.
      split; [reflexivity|]. split; [exact R'|]. split; [congruence|].
      split; [exact H'|exact P'].
    - rewrite groups_cons in Ok |- *. cbn [SummarizeSeq.report] in Ok.
      destruct (feed fresh (r :: takeSame r R0)) as [sums'|]; [|contradiction].
      destruct G1 as (st1 & G1 & R1 & H1 & E1 & I1). rewrite G1.
      destruct (run_halted fresh Fo Fn fuel n st1 [] (r :: takeSame r R0) R1 H1)
        as (st' & outs & pre' & G' & E & R' & I' & H' & P').
      { rewrite I1. exact L. }
      { rewrite E1. destruct (report fresh n (groups (dropSame r R0)));
          [discriminate|contradiction]. }
      rewrite E. exists st', (Some (r, sums') :: outs), pre', G'.
      rewrite E1 in P'. cbn [length Nat.min].
      split; [reflexivity|]. split; [exact R'|]. split; [congruence|].
      split; [exact H'|].
      rewrite P', Nat.sub_1_r. cbn [Nat.pred].
      destruct (Nat.min n _); reflexivity. }
  destruct K as (st' & outs & pre' & G' & E & R' & I' & H' & P').
  exists st', outs. split; [exact E|]. split.
  - rewrite <- Q, E. reflexivity.
  - destruct (prelude_halted fresh Fo Fn fuel st' pre' G' R' H')
      as (s & t & Pr & U & Rm & Is); [rewrite I'; exact L|].
    rewrite <- P', <- Rm.
    apply (seqRun_spec fresh Fo Fn Prev fuel st' s t m Pr U).
    rewrite Is, I'. exact L.
Qed.

End WithRows.

Lemma getSeq_groups_witness :
  option_map snd
    (seqRun 0 sampleAdd sampleVal sampleKey 6 sampleSu sampleSeq Prev 5)
  = Some [Some (22, [Summarize.sumCount 2; Summarize.sumTotal 43]);
          Some (11, [Summarize.sumCount 1; Summarize.sumTotal 11]);
          Some (2, [Summarize.sumCount 2; Summarize.sumTotal 3]);
          None; None].
Proof.
  destruct (getSeq_groups 0 sampleAdd sampleVal sampleKey sampleSu
              [Summarize.sumCount 0; Summarize.sumTotal 0] sampleSeq Prev 6 5
              Logic.eq_refl Logic.eq_refl Logic.eq_refl Logic.eq_refl
              ltac:(cbn; lia)) as [E _].
  rewrite E. reflexivity.
Defined.

Lemma getSeq_turns_back_witness :
  exists st' outs,
    seqRun 0 sampleAdd sampleVal sampleKey 6 sampleSu sampleSeq Next 4
      = Some (st', outs) /\
    outs = [Some (1, [Summarize.sumCount 2; Summarize.sumTotal 3]);
            Some (11, [Summarize.sumCount 1; Summarize.sumTotal 11]);
            Some (21, [Summarize.sumCount 2; Summarize.sumTotal 43]);
            None] /\
    option_map snd
      (seqRun 0 sampleAdd sampleVal sampleKey 6 sampleSu st' Prev 3)
    = Some [Some (11, [Summarize.sumCount 1; Summarize.sumTotal 11]);
            Some (2, [Summarize.sumCount 2; Summarize.sumTotal 3]);
            None].
Proof.
  destruct (getSeq_turns_back 0 sampleAdd sampleVal sampleKey sampleSu
              [Summarize.sumCount 0; Summarize.sumTotal 0] sampleSeq 6 4 3
              Logic.eq_refl Logic.eq_refl Logic.eq_refl Logic.eq_refl
              ltac:(cbn; lia) ltac:(lia) ltac:(vm_compute; discriminate))
    as (st' & outs & A & B & C).
  exists st', outs. split; [exact A|]. split.
  - vm_compute in B. injection B as <-. reflexivity.
  - rewrite C. reflexivity.
Defined.

End SummarizeSeqFacts.

Module StateScanFacts.
Import Stor StorFacts CodecFacts StorDataFacts.

Section WithMeta.

Variable Sum : list byte -> list byte.
Variable Noffsets : nat.
Variable Meta : Type.
Variable ReadOverlay : Stor -> list Z -> option Meta.
Hypothesis Sum_len : forall d, length (Sum d) = State.cksumLen.

Local Abbreviation stateLen := (State.stateLen Noffsets).
Local Abbreviation layout := (State.layout Sum).
Local Abbreviation writeState := (State.writeState Sum Noffsets).
Local Abbreviation ReadState := (Repair.ReadState Sum Noffsets Meta ReadOverlay).
Local Abbreviation prevState := (Repair.prevState Sum Noffsets Meta ReadOverlay).
Local Abbreviation magic1 := State.magic1.

(** Where a record lies in a store, a pattern lies in the store exactly
    where it lies in the record. *)
Lemma record_occurs s off d L b k :
  wf s -> 0 <= off < 2 ^ 63 -> Data s off = Some d ->
  firstn (length L) d = L -> (length L <= length d)%nat ->
  b <> [] -> (k + length b <= length L)%nat ->
  (Repair.occursAt s b (off + Z.of_nat k) <-> sub L k (length b) = b).
Proof.
  intros W Ho HD HL Ld Hb Hk.
  pose proof (chunksize_pos s W) as Hc.
  destruct (Data_Some s off d W HD) as [Dl _].
  unfold Data in HD. rewrite offsetToChunk_small, land_mask in HD by assumption.
  destruct (index (chunks s) (off / chunksize s)) as [ch|] eqn:Ec; [|discriminate].
  pose proof (Z.mod_pos_bound off (chunksize s) Hc) as Mo.
  unfold slice_from in HD.
  destruct ((0 <=? off mod chunksize s) && (off mod chunksize s <=? len ch));
    [|discriminate].
  injection HD as HD.
  assert (Kb : off mod chunksize s + Z.of_nat k + len b <= chunksize s).
  { unfold len in *. lia. }
  assert (Bp : 0 < len b) by (unfold len; destruct b; [congruence|cbn; lia]).
  assert (Q : (off + Z.of_nat k) / chunksize s = off / chunksize s /\
              (off + Z.of_nat k) mod chunksize s
                = off mod chunksize s + Z.of_nat k).
  { pose proof (Z.div_mod off (chunksize s) ltac:(lia)) as D.
    pose proof (Z.div_mod (off + Z.of_nat k) (chunksize s) ltac:(lia)) as D'.
    pose proof (Z.mod_pos_bound (off + Z.of_nat k) (chunksize s) Hc) as M'.
    apply (Z.div_mod_unique (chunksize s)); lia. }
  destruct Q as [Q1 Q2].
  assert (E : sub ch (Z.to_nat ((off + Z.of_nat k) mod chunksize s)) (length b)
              = sub L k (length b)).
  { rewrite Q2, <- HL, RepairFacts.sub_firstn by lia.
    rewrite <- HD, StorOpsFacts.sub_skipn. f_equal. lia. }
  unfold Repair.occursAt. rewrite Q1. split.
  - intros (ch' & Ec' & S' & _). rewrite Ec in Ec'. injection Ec' as <-.
    rewrite <- E. exact S'.
  - intros S'. exists ch. rewrite E, Q2. repeat split; auto.
Qed.

(** X29. The state root just written is the one the scan from the end of the
    store finds: [prevState] stops at the last place where magic1 lies in
    the record, which is its start unless the bytes after it hold magic1
    again, and reads there the state of the offsets written. *)
Theorem written_state_found (store : Stor) (offsets : list Z) (now : Z) :
  wf store -> covered store -> 0 < size store ->
  size store + 2 * chunksize store < 2 ^ 63 ->
  Z.of_nat stateLen <= chunksize store ->
  length offsets = Noffsets ->
  Forall (fun o => 0 <= o < 2 ^ 40) offsets ->
  - 2 ^ 63 <= now < 2 ^ 63 ->
  exists off store',
    writeState store offsets now = Some (off, store') /\
    0 <= Repair.LastIndex (layout offsets now) magic1 /\
    prevState store' (size store')
      = Some (off + Repair.LastIndex (layout offsets now) magic1,
              ReadState store'
                (off + Repair.LastIndex (layout offsets now) magic1)) /\
    (Repair.LastIndex (layout offsets now) magic1 = 0 ->
     prevState store' (size store') = Some (off, ReadOverlay store' offsets)).
Proof.
  intros W Cov Hpos Hsz Hlen Ho Hv Ht.
  assert (Hn : 0 < Z.of_nat stateLen <= chunksize store).
  { split; [|assumption]. unfold State.stateLen. simpl. lia. }
  destruct (StorOpsFacts.Alloc_step store _ W Cov Hsz Hn)
    as (off & buf0 & s1 & EA & W1 & C1 & Hoff & Hs1 & _).
  pose proof (Alloc_Some _ _ _ _ _ EA) as (d0 & _ & _ & HD & HS & _ & Hcs & _).
  pose proof (slice_to_len _ _ _ HS) as [Lb Ld].
  assert (Lb' : length buf0 = stateLen) by (unfold len in Lb; lia).
  pose proof (StateFacts.protected_length Noffsets offsets now Ho) as HP.
  assert (Ll : length (layout offsets now) = stateLen).
  { unfold State.layout. rewrite !length_app, Sum_len. lia. }
  set (L := layout offsets now) in *.
  set (s' := put s1 off L).
  assert (HD' : Data s' off = Some (L ++ skipn stateLen d0)).
  { pose proof (Data_put s1 off d0 L HD) as X.
    rewrite Ll in X. apply X. unfold len in Ld. lia. }
  assert (HF : firstn (length L) (L ++ skipn stateLen d0) = L)
    by (apply firstn_exact; reflexivity).
  assert (W' : wf s') by (apply wf_put; exact W1).
  destruct (put_fields s1 off L) as (Ps & Pc & _).
  fold s' in Ps, Pc.
  assert (Hsize : size s' = off + Z.of_nat stateLen) by lia.
  assert (Lch : len (chunks s') = len (chunks s1)).
  { destruct (Data_Some s' off _ W' HD') as [_ B'].
    destruct (Data_Some s1 off _ W1 HD) as [_ B1].
    unfold s', put, len in *. cbn [chunks set_chunks].
    destruct (nth_error (chunks s1) (Z.to_nat (offsetToChunk s1 off))) eqn:E.
    - rewrite !length_app, length_firstn, length_skipn. cbn [length].
      assert (Z.to_nat (offsetToChunk s1 off) < length (chunks s1))%nat
        by (apply nth_error_Some; congruence).
      lia.
    - apply nth_error_None in E. lia. }
  exists off, s'. split.
  { unfold State.writeState. rewrite EA.
    rewrite (StateFacts.fill_layout Sum Noffsets Sum_len buf0 offsets now Lb' Ho).
    rewrite Nat.eqb_refl. reflexivity. }
  assert (Occ : forall k, (k + length magic1 <= length L)%nat ->
            (Repair.occursAt s' magic1 (off + Z.of_nat k)
             <-> sub L k (length magic1) = magic1)).
  { intros k Hk.
    apply (record_occurs s' off (L ++ skipn stateLen d0) L magic1 k W');
      auto.
    - lia.
    - rewrite length_app. lia.
    - exact RepairFacts.magic1_nonempty. }
  pose proof (RepairFacts.LastIndex_spec L magic1 RepairFacts.magic1_nonempty)
    as Spec.
  cbv zeta in Spec.
  assert (At0 : sub L 0 (length magic1) = magic1).
  { unfold L, State.layout, State.protected, sub. reflexivity. }
  destruct Spec as [[_ Hnone]|(I0 & I1 & I2 & I3)];
    [exfalso; exact (Hnone 0%nat At0)|].
  set (i := Repair.LastIndex L magic1) in *.
  split; [exact I0|].
  assert (Prev : Repair.LastOffset s' (size s') magic1 = Some (off + i)).
  { destruct (RepairFacts.LastOffset_spec s' magic1 W'
                RepairFacts.magic1_nonempty (size s')) as (o & Eo & Ho0 & Hs).
    - lia.
    - rewrite Pc, Lch, Ps. apply C1.
    - rewrite Eo. f_equal.
      assert (Oi : Repair.occursAt s' magic1 (off + i)).
      { rewrite <- (Z2Nat.id i I0). apply Occ; [unfold len in I1; lia|exact I2]. }
      destruct Hs as [(Oc & Bo & Mx)|[_ Hn0]].
      + assert (Li : off + i <= o).
        { apply Mx; [lia|exact Oi|unfold len in *; lia]. }
        assert (Ko : sub L (Z.to_nat (o - off)) (length magic1) = magic1).
        { apply Occ; [unfold len in *; lia|].
          rewrite Z2Nat.id by lia. replace (off + (o - off)) with o by lia.
          exact Oc. }
        destruct (Z.eq_dec o (off + i)) as [->|Ne]; [reflexivity|].
        exfalso. apply (I3 (Z.to_nat (o - off))); [lia|exact Ko].
      + exfalso. apply (Hn0 (off + i)); [lia|exact Oi|unfold len in *; lia]. }
  assert (Ps' : prevState s' (size s') = Some (off + i, ReadState s' (off + i))).
  { unfold Repair.prevState. rewrite Prev.
    destruct (Z.eqb_spec (off + i) 0); [lia|reflexivity]. }
  split; [exact Ps'|].
  intros Ei. rewrite Ps', Ei, Z.add_0_r. f_equal. f_equal.
  unfold Repair.ReadState.
  rewrite (StateFacts.read_layout Sum Noffsets Sum_len s' off _ offsets now HD');
    auto.
  rewrite <- Ll at 1. exact HF.
Qed.

End WithMeta.

Lemma written_state_found_witness :
  exists off store',
    State.writeState State.sampleSum 2 heap60 [5; 70000] 1600000000
      = Some (off, store') /\
    Repair.prevState State.sampleSum 2 (list Z) (fun _ o => Some o) store'
      (size store') = Some (off, Some [5; 70000]).
Proof.
  destruct (written_state_found State.sampleSum 2 (list Z) (fun _ o => Some o)
              StateFacts.sampleSum_len heap60 [5; 70000] 1600000000
              wf_heap60
              ltac:(split; [simpl; lia | vm_compute; reflexivity])
              ltac:(simpl; lia) ltac:(simpl; lia)
              ltac:(vm_compute; discriminate) Logic.eq_refl
              ltac:(repeat constructor; lia) ltac:(lia))
    as (off & s' & A & _ & _ & D).
  exists off, s'. split; [exact A|]. apply D. vm_compute. reflexivity.
Defined.

End StateScanFacts.

Module SummarizeMapFacts.
Import SummarizeMap.

Section WithRows.

Context {Value : Type} {Row : Type}.
Variable Zero : Value.
Variable OpAdd : Value -> Value -> option Value.
Variable GetVal : Row -> string -> Value.
Variable GetRawVal : Row -> string -> string.
Variable mapLimit : Z.
Variable hashCols : list string -> Z.

Local Abbreviation sumOp := (@Summarize.sumOp Value Row).
Local Abbreviation buildMap :=
  (Summarize.buildMap Zero OpAdd GetVal GetRawVal mapLimit hashCols).
Local Abbreviation getMap :=
  (getMap Zero OpAdd GetVal GetRawVal mapLimit hashCols).
Local Abbreviation mapRun :=
  (mapRun Zero OpAdd GetVal GetRawVal mapLimit hashCols).

Lemma getMap_at su rows (l : list (Row * list sumOp)) p d :
  - 2 ^ 63 <= p + step d < 2 ^ 63 ->
  getMap su rows false (mkMapT l p) d
    = Some (mkMapT l (p + step d), Stor.index l (p + step d)).
Proof.
  intros B. unfold SummarizeMap.getMap. cbn [mapPos mapList].
  assert (E : match d with
              | Union.Next => to_int (u64 (p + 1))
              | Union.Prev => to_int (u64 (p - 1))
              end = p + step d).
  { destruct d; cbn [step] in *; [|replace (p - 1) with (p + -1) by lia];
      apply CodecFacts.to_int_u64; lia. }
  rewrite E. set (q := p + step d).
  destruct (Z.ltb_spec q 0) as [N|N].
  - cbn [orb]. unfold Stor.index. destruct (Z.ltb_spec q 0); [reflexivity|lia].
  - destruct (Z.leb_spec (Stor.len l) q) as [G|G]; cbn [orb].
    + unfold Stor.index. destruct (Z.ltb_spec q 0); [lia|].
      assert (X : nth_error l (Z.to_nat q) = None)
        by (apply nth_error_None; unfold Stor.len in G; lia).
      rewrite X. reflexivity.
    + unfold Stor.index. destruct (Z.ltb_spec q 0); [lia|].
      destruct (nth_error l (Z.to_nat q)) eqn:X; [reflexivity|].
      apply nth_error_None in X. unfold Stor.len in G. lia.
Qed.

Lemma mapRun_at su rows (l : list (Row * list sumOp)) d : forall n p,
  - 2 ^ 63 <= p - Z.of_nat n -> p + Z.of_nat n < 2 ^ 63 ->
  mapRun su rows false (mkMapT l p) d n
    = Some (mkMapT l (p + step d * Z.of_nat n),
            map (fun k => Stor.index l (p + step d * (Z.of_nat k + 1)))
              (seq 0 n)).
Proof.
  induction n as [|n IH]; intros p L H.
  - cbn. rewrite Z.mul_0_r, Z.add_0_r. reflexivity.
  - cbn [SummarizeMap.mapRun].
    rewrite getMap_at by (destruct d; cbn [step]; lia).
    rewrite IH by (destruct d; cbn [step]; lia).
    f_equal. f_equal; [f_equal; lia|].
    cbn [seq map]. f_equal; [f_equal; lia|].
    rewrite <- seq_shift, map_map. apply map_ext. intros k. f_equal. lia.
Qed.

Lemma mapRun_rewound su rows (l : list (Row * list sumOp)) t d n :
  Summarize.wholeRow su = false -> buildMap su rows = Some l ->
  (0 < n)%nat ->
  mapRun su rows true t d n
    = mapRun su rows false
        (mkMapT l (match d with Union.Next => -1 | Union.Prev => Stor.len l end))
        d n.
Proof.
  intros Hw Hb Hn. destruct n as [|n]; [lia|]. cbn [SummarizeMap.mapRun].
  unfold SummarizeMap.getMap. rewrite Hw, Hb. reflexivity.
Qed.

(** X30. With the map strategy the row returned depends only on the position in
    the list [buildMap] returned: forwards from a rewind the calls of [Get]
    return its pairs in order and then nil, backwards from a rewind they
    return them in reverse order and then nil; and after [n] calls
    forwards, the calls backwards count down from position [n - 1], so
    that every call that ran past the end is answered by nil. *)
Theorem getMap_position (su : Summarize.Summarize) (rows : list Row)
  (l : list (Row * list sumOp)) (t : sumMapT) (n m : nat) :
  Summarize.wholeRow su = false -> buildMap su rows = Some l ->
  Stor.len l < 2 ^ 62 -> Z.of_nat n + Z.of_nat m < 2 ^ 62 ->
  option_map snd (mapRun su rows true t Union.Next n)
    = Some (map (nth_error l) (seq 0 n)) /\
  option_map snd (mapRun su rows true t Union.Prev n)
    = Some (map (fun k => Stor.index l (Stor.len l - 1 - Z.of_nat k)) (seq 0 n)) /\
  ((0 < n)%nat ->
   exists t' rs,
     mapRun su rows true t Union.Next n = Some (t', rs) /\
     option_map snd (mapRun su rows false t' Union.Prev m)
       = Some (map (fun k => Stor.index l (Z.of_nat n - 2 - Z.of_nat k))
                 (seq 0 m))).
Proof.
  intros Hw Hb Hl Hn.
  assert (L0 : 0 <= Stor.len l) by (unfold Stor.len; lia).
  split; [|split].
  - destruct n as [|n]; [reflexivity|].
    rewrite (mapRun_rewound su rows l t Union.Next (S n) Hw Hb) by lia.
    rewrite mapRun_at by lia. cbn [option_map snd]. f_equal.
    apply map_ext. intros k. cbn [step]. unfold Stor.index.
    destruct (Z.ltb_spec (-1 + 1 * (Z.of_nat k + 1)) 0); [lia|].
    f_equal. lia.
  - destruct n as [|n]; [reflexivity|].
    rewrite (mapRun_rewound su rows l t Union.Prev (S n) Hw Hb) by lia.
    rewrite mapRun_at by lia. cbn [option_map snd]. f_equal.
    apply map_ext. intros k. cbn [step]. f_equal. lia.
  - intros Pn.
    rewrite (mapRun_rewound su rows l t Union.Next n Hw Hb Pn).
    rewrite mapRun_at by lia. eexists. eexists. split; [reflexivity|].
    rewrite mapRun_at by (cbn [step]; lia). cbn [option_map snd]. f_equal.
    apply map_ext. intros k. cbn [step]. f_equal. lia.
Qed.

End WithRows.

Lemma getMap_position_witness :
  exists t' rs,
    mapRun (Summarize.SuInt 0) Summarize.sampleAdd
      (fun (row : list string) col => Summarize.SuStr (TempIndexOps.sampleRaw row col))
      TempIndexOps.sampleRaw 2 (fun k => Z.of_nat (length k))
      (Summarize.mkSummarize (Summarize.mkSource ["a"; "b"]%string [] 3)
         ["a"]%string ["count"]%string ["count"]%string [""%string] false)
      [["x"; "1"]; ["y"; "2"]; ["x"; "3"]]%string true (mkMapT [] 0)
      Union.Next 4 = Some (t', rs) /\
    option_map snd
      (mapRun (Summarize.SuInt 0) Summarize.sampleAdd
         (fun (row : list string) col => Summarize.SuStr (TempIndexOps.sampleRaw row col))
         TempIndexOps.sampleRaw 2 (fun k => Z.of_nat (length k))
         (Summarize.mkSummarize (Summarize.mkSource ["a"; "b"]%string [] 3)
            ["a"]%string ["count"]%string ["count"]%string [""%string] false)
         [["x"; "1"]; ["y"; "2"]; ["x"; "3"]]%string false t' Union.Prev 3)
    = Some [None;
            Some (["y"; "2"]%string, [Summarize.sumCount 1]);
            Some (["x"; "1"]%string, [Summarize.sumCount 2])].
Proof.
  destruct (getMap_position (Summarize.SuInt 0) Summarize.sampleAdd
              (fun (row : list string) col => Summarize.SuStr (TempIndexOps.sampleRaw row col))
              TempIndexOps.sampleRaw 2 (fun k => Z.of_nat (length k))
              (Summarize.mkSummarize (Summarize.mkSource ["a"; "b"]%string [] 3)
                 ["a"]%string ["count"]%string ["count"]%string [""%string] false)
              [["x"; "1"]; ["y"; "2"]; ["x"; "3"]]%string
              [(["x"; "1"]%string, [Summarize.sumCount 2]);
               (["y"; "2"]%string, [Summarize.sumCount 1])]
              (mkMapT [] 0) 4 3 Logic.eq_refl ltac:(vm_compute; reflexivity)
              ltac:(vm_compute; reflexivity) ltac:(vm_compute; reflexivity))
    as (_ & _ & H).
  destruct (H ltac:(lia)) as (t' & rs & A & B).
  exists t', rs. split; [exact A|]. rewrite B. reflexivity.
Defined.

End SummarizeMapFacts.
